(** * msgpack-visualizer: byte recovery, format detection and the MessagePack tree decoder

    A shallow embedding of [src/utils/decoderUtils.ts] and of the decoder
    service ([MsgpackParser], [parseMsgpack]) together with the properties
    that the project's specification states about them.

    Conventions of the embedding
    - a JavaScript string is the list of its UTF-16 code units ([jsstring]);
    - a [Uint8Array] is a list of bytes ([byte], the 256 values of the
      standard library);
    - a JavaScript [number] that holds an integer is a [Z], or an [N] where
      the program only ever counts upwards from 0 (the cursor, the counter,
      lengths and unsigned fields read from the wire); a [bigint] is a [Z]
      under its own constructor;
    - [throw] is an explicit result ([Throw], [Raise]); the module-level
      counter [nodeIdCounter] and the parser's cursor [offset] are threaded
      as state. *)

From Stdlib Require Import String Ascii.
From Stdlib Require Import Strings.Byte.
From Stdlib Require Import ZArith List Bool Lia.
From Stdlib Require Import DecimalString HexadecimalString DecimalZ DecimalN HexadecimalN.
From Stdlib Require Import Sorting.Sorted.
Import ListNotations.
Open Scope Z_scope.

(* ===================================================================== *)
(** ** JavaScript strings and the built-ins the sources call               *)
(* ===================================================================== *)

Module Js.

(** A string is its sequence of UTF-16 code units. *)
Definition jsstring : Type := list Z.

Definition code (a : ascii) : Z := Z.of_N (N_of_ascii a).

(** Literal strings of the sources, written as Rocq strings. *)
Definition str (s : string) : jsstring := map code (list_ascii_of_string s).

Definition BACKSLASH : Z := 92.
Definition DQUOTE : Z := 34.
Definition SQUOTE : Z := 39.

(** [s.length] *)
Definition len {A} (s : list A) : Z := Z.of_nat (length s).

(** [s[i]] / [s.charCodeAt(i)] for an index inside the string (every use in
    the sources is guarded by [i < s.length]). *)
Definition charCodeAt (s : jsstring) (i : Z) : Z := nth (Z.to_nat i) s 0.

(** ECMAScript WhiteSpace and LineTerminator code points: the set used by
    [String.prototype.trim] and by the regular-expression class [\s]. *)
Definition isWhiteSpace (c : Z) : bool :=
  (c =? 9) || (c =? 10) || (c =? 11) || (c =? 12) || (c =? 13) || (c =? 32)
  || (c =? 160) || (c =? 5760) || ((8192 <=? c) && (c <=? 8202))
  || (c =? 8232) || (c =? 8233) || (c =? 8239) || (c =? 8287)
  || (c =? 12288) || (c =? 65279).

Fixpoint trimStart (s : jsstring) : jsstring :=
  match s with
  | c :: rest => if isWhiteSpace c then trimStart rest else s
  | [] => []
  end.

Definition trimEnd (s : jsstring) : jsstring := rev (trimStart (rev s)).

(** [s.trim()] *)
Definition trim (s : jsstring) : jsstring := trimEnd (trimStart s).

(** [s.startsWith(p)] *)
Fixpoint startsWith (p s : jsstring) : bool :=
  match p, s with
  | [], _ => true
  | a :: p', b :: s' => (a =? b) && startsWith p' s'
  | _ :: _, [] => false
  end.

(** [s.endsWith(p)] *)
Definition endsWith (p s : jsstring) : bool := startsWith (rev p) (rev s).

(** [s.includes(p)] *)
Fixpoint includes (p s : jsstring) : bool :=
  startsWith p s || match s with [] => false | _ :: s' => includes p s' end.

(** [s.substring(a, b)]: both ends clamped to [0, length], swapped when
    [a > b]. *)
Definition substring (s : jsstring) (a b : Z) : jsstring :=
  let clamp x := Z.max 0 (Z.min x (len s)) in
  let lo := Z.min (clamp a) (clamp b) in
  let hi := Z.max (clamp a) (clamp b) in
  firstn (Z.to_nat (hi - lo)) (skipn (Z.to_nat lo) s).

(** [s.slice(start, end)] with [end] optional; negative indices count from
    the end of the string. *)
Definition slice (s : jsstring) (start : Z) (stop : option Z) : jsstring :=
  let n := len s in
  let rel x := if x <? 0 then Z.max (n + x) 0 else Z.min x n in
  let from := rel start in
  let to := match stop with Some e => rel e | None => n end in
  firstn (Z.to_nat (Z.max (to - from) 0)) (skipn (Z.to_nat from) s).

(** [s.replace(/^0x/, '')] *)
Definition replace_leading_0x (s : jsstring) : jsstring :=
  if startsWith (str "0x") s then skipn 2 s else s.

(** [s.replace(/\s+/g, '')] *)
Definition replace_whitespace (s : jsstring) : jsstring :=
  filter (fun c => negb (isWhiteSpace c)) s.

Definition isDigit (c : Z) : bool := (48 <=? c) && (c <=? 57).
Definition isLower (c : Z) : bool := (97 <=? c) && (c <=? 122).
Definition isUpper (c : Z) : bool := (65 <=? c) && (c <=? 90).

(** The character class [[0-9a-fA-F]]. *)
Definition isHexDigit (c : Z) : bool :=
  isDigit c || ((97 <=? c) && (c <=? 102)) || ((65 <=? c) && (c <=? 70)).

(** The character class [[A-Za-z0-9+/=]]. *)
Definition isBase64Char (c : Z) : bool :=
  isUpper c || isLower c || isDigit c || (c =? 43) || (c =? 47) || (c =? 61).

(** Value of one hexadecimal digit. *)
Definition hexDigitValue (c : Z) : Z :=
  if isDigit c then c - 48
  else if (97 <=? c) && (c <=? 102) then c - 87
  else c - 55.

(** [parseInt(s, 16)] on a string made of hexadecimal digits only, which is
    what both call sites pass (they test the digits first). *)
Definition parseInt16 (s : jsstring) : Z :=
  fold_left (fun acc c => acc * 16 + hexDigitValue c) s 0.

(** The number a byte stands for. *)
Definition byteValue (b : byte) : Z := Z.of_N (Byte.to_N b).

(** Storing a number in a [Uint8Array] element keeps it modulo 256. *)
Definition ToUint8 (n : Z) : byte :=
  match Byte.of_N (Z.to_N (n mod 256)) with
  | Some b => b
  | None => x00
  end.

(** [new Uint8Array(numbers)] *)
Definition Uint8Array_from (numbers : list Z) : list byte :=
  map ToUint8 numbers.

(** Decimal text of an integer: [String(n)], [`${n}`], [n.toString()] for an
    integer-valued number or a bigint. *)
Definition toString (n : Z) : jsstring :=
  str (DecimalString.NilZero.string_of_int (Z.to_int n)).

(** [n.toString(16)] for a non-negative integer. *)
Definition toString16 (n : Z) : jsstring :=
  str (HexadecimalString.NilZero.string_of_uint (N.to_hex_uint (Z.to_N n))).

(** *** [atob]: the forgiving-base64 decode of the HTML standard.

    [None] stands for the [InvalidCharacterError] that [atob] throws. *)

Definition isAsciiWhitespace (c : Z) : bool :=
  (c =? 9) || (c =? 10) || (c =? 12) || (c =? 13) || (c =? 32).

Definition base64Value (c : Z) : option Z :=
  if isUpper c then Some (c - 65)
  else if isLower c then Some (c - 71)
  else if isDigit c then Some (c + 4)
  else if c =? 43 then Some 62
  else if c =? 47 then Some 63
  else None.

Fixpoint base64Values (s : jsstring) : option (list Z) :=
  match s with
  | [] => Some []
  | c :: rest =>
      match base64Value c, base64Values rest with
      | Some v, Some vs => Some (v :: vs)
      | _, _ => None
      end
  end.

(** Groups of four sextets give three bytes; a final group of two or three
    sextets gives one or two bytes, the surplus bits discarded. *)
Fixpoint base64Bytes (vs : list Z) : list Z :=
  match vs with
  | a :: b :: c :: d :: rest =>
      let n := ((a * 64 + b) * 64 + c) * 64 + d in
      (n / 65536) :: ((n / 256) mod 256) :: (n mod 256) :: base64Bytes rest
  | [a; b; c] =>
      let n := (a * 64 + b) * 64 + c in
      [n / 1024; (n / 4) mod 256]
  | [a; b] => [(a * 64 + b) / 16]
  | _ => []
  end.

Definition stripPadding (s : jsstring) : jsstring :=
  if len s mod 4 =? 0 then
    if endsWith (str "==") s then firstn (length s - 2) s
    else if endsWith (str "=") s then firstn (length s - 1) s
    else s
  else s.

Definition atob (data : jsstring) : option jsstring :=
  let data := filter (fun c => negb (isAsciiWhitespace c)) data in
  let data := stripPadding data in
  if len data mod 4 =? 1 then None
  else match base64Values data with
       | Some vs => Some (base64Bytes vs)
       | None => None
       end.

(** *** [btoa] on a string of code units below 256 (the only use,
    [bytesToBase64], builds it from bytes). *)

Definition base64Char (v : Z) : Z :=
  if v <? 26 then v + 65
  else if v <? 52 then v + 71
  else if v <? 62 then v - 4
  else if v =? 62 then 43 else 47.

Fixpoint btoa (s : jsstring) : jsstring :=
  match s with
  | a :: b :: c :: rest =>
      let n := (a * 256 + b) * 256 + c in
      base64Char (n / 262144) :: base64Char ((n / 4096) mod 64)
        :: base64Char ((n / 64) mod 64) :: base64Char (n mod 64) :: btoa rest
  | [a; b] =>
      let n := (a * 256 + b) * 4 in
      [base64Char (n / 4096); base64Char ((n / 64) mod 64); base64Char (n mod 64); 61]
  | [a] =>
      let n := a * 16 in
      [base64Char (n / 64); base64Char (n mod 64); 61; 61]
  | [] => []
  end.

(** *** [new TextDecoder().decode(bytes)]: the UTF-8 decoder of the Encoding
    standard, errors replaced by U+FFFD, a leading byte-order mark dropped. *)

Section Utf8.
(** The decoder state: code point so far, continuation bytes still needed
    and the bounds the next continuation byte must satisfy. *)
Variable continue : Z -> Z -> Z -> Z -> list Z.

(** A byte met when no sequence is open. *)
Definition utf8_lead (byte : Z) : list Z :=
  if byte <=? 127 then byte :: continue 0 0 128 191
  else if (194 <=? byte) && (byte <=? 223) then
    continue (Z.land byte 31) 1 128 191
  else if (224 <=? byte) && (byte <=? 239) then
    continue (Z.land byte 15) 2
      (if byte =? 224 then 160 else 128) (if byte =? 237 then 159 else 191)
  else if (240 <=? byte) && (byte <=? 244) then
    continue (Z.land byte 7) 3
      (if byte =? 240 then 144 else 128) (if byte =? 244 then 143 else 191)
  else 65533 :: continue 0 0 128 191.
End Utf8.

Fixpoint utf8_decode (bytes : list Z) (cp needed lower upper : Z) : list Z :=
  match bytes with
  | [] => if needed =? 0 then [] else [65533]
  | byte :: rest =>
      if needed =? 0 then utf8_lead (utf8_decode rest) byte
      else if (byte <? lower) || (upper <? byte) then
        (* ill-formed: emit U+FFFD and read the same byte again afresh *)
        65533 :: utf8_lead (utf8_decode rest) byte
      else
        let cp := Z.lor (Z.shiftl cp 6) (Z.land byte 63) in
        if needed =? 1 then cp :: utf8_decode rest 0 0 128 191
        else utf8_decode rest cp (needed - 1) 128 191
  end.

(** Code points to UTF-16 code units. *)
Definition utf16_units (cp : Z) : list Z :=
  if cp <? 65536 then [cp]
  else [55296 + Z.shiftr (cp - 65536) 10; 56320 + Z.land (cp - 65536) 1023].

Definition TextDecoder_decode (bytes : list byte) : jsstring :=
  let cps := utf8_decode (map byteValue bytes) 0 0 128 191 in
  let cps := match cps with 65279 :: rest => rest | _ => cps end in
  flat_map utf16_units cps.

(** Exceptions: [new Error(message)] and the [RangeError] of a [DataView]
    accessor asked to read outside its buffer. *)
Inductive exn : Type :=
| Error (message : jsstring)
| RangeError (message : jsstring).

Definition message (e : exn) : jsstring :=
  match e with Error m => m | RangeError m => m end.

(** [String(e)], as string concatenation with an exception computes it. *)
Definition exn_toString (e : exn) : jsstring :=
  match e with
  | Error m => str "Error: " ++ m
  | RangeError m => str "RangeError: " ++ m
  end.

(** A call either returns or throws. *)
Inductive completion (A : Type) : Type :=
| Normal (a : A)
| Throw (e : exn).
Arguments Normal {A} a.
Arguments Throw {A} e.

End Js.
Import Js.

(* ===================================================================== *)
(** ** src/types.ts                                                        *)
(* ===================================================================== *)

Inductive InputFormat : Type := AUTO | HEX | BASE64 | PYTHON.

Inductive DataType : Type :=
| NULL | BOOLEAN | INTEGER | FLOAT | STRING | BINARY | ARRAY | MAP
| EXTENSION | UNKNOWN.

(* ===================================================================== *)
(** ** src/utils/decoderUtils.ts: the byte recovery layer                  *)
(* ===================================================================== *)

Module DecoderUtils.

Definition cleanInput (input : jsstring) : jsstring := trim input.

(** [hexRe = /^[0-9a-fA-F]+$/] *)
Definition hexRe_test (s : jsstring) : bool :=
  match s with [] => false | _ => forallb isHexDigit s end.

(** [base64Re = /^[A-Za-z0-9+/=]+$/] *)
Definition base64Re_test (s : jsstring) : bool :=
  match s with [] => false | _ => forallb isBase64Char s end.

(** [bytes[i] = v] on a typed array: a store outside the array is ignored. *)
Fixpoint Uint8Array_set (bytes : list byte) (i : nat) (v : Z) : list byte :=
  match bytes, i with
  | [], _ => []
  | _ :: rest, O => ToUint8 v :: rest
  | b :: rest, S i' => b :: Uint8Array_set rest i' v
  end.

(** The [for (let i = 0; i < clean.length; i += 2)] loop of [parseHex]. *)
Fixpoint parseHex_loop (fuel : nat) (clean : jsstring) (i : Z)
    (bytes : list byte) : list byte :=
  match fuel with
  | O => bytes
  | S fuel' =>
      if i <? len clean then
        parseHex_loop fuel' clean (i + 2)
          (Uint8Array_set bytes (Z.to_nat (i / 2))
             (parseInt16 (substring clean i (i + 2))))
      else bytes
  end.

Definition hexClean (s : jsstring) : jsstring :=
  replace_whitespace (replace_leading_0x s).

Definition parseHex (s : jsstring) : completion (list byte) :=
  let clean := hexClean s in
  if negb (len clean mod 2 =? 0) then
    Throw (Error (str "Invalid Hex string length"))
  else if negb (hexRe_test clean) then
    Throw (Error (str "Invalid Hex characters"))
  else
    let bytes := repeat x00 (Z.to_nat (len clean / 2)) in
    Normal (parseHex_loop (length clean) clean 0 bytes).

Definition parseBase64 (s : jsstring) : completion (list byte) :=
  match atob s with
  | Some binaryString => Normal (Uint8Array_from binaryString)
  | None => Throw (Error (str "Invalid Base64 string"))
  end.

Definition bytesToBase64 (bytes : list byte) : jsstring :=
  btoa (map byteValue bytes).

(** The [switch (next)] of the standard escapes. *)
Definition escapeCode (next : Z) : Z :=
  if next =? code "n" then 10
  else if next =? code "r" then 13
  else if next =? code "t" then 9
  else if next =? BACKSLASH then 92
  else if next =? DQUOTE then 34
  else if next =? SQUOTE then 39
  else if next =? code "0" then 0
  else next.

(** [/^[0-9a-fA-F]{2}$/] *)
Definition hex2_test (s : jsstring) : bool :=
  match s with
  | [a; b] => isHexDigit a && isHexDigit b
  | _ => false
  end.

(** The [while (i < content.length)] loop of [parsePythonBytes]; [bytes] is
    the [number[]] being filled. Every turn moves [i] forward, so
    [content.length] turns are enough. *)
Fixpoint parsePythonBytes_loop (fuel : nat) (content : jsstring) (i : Z)
    (bytes : list Z) : list Z :=
  match fuel with
  | O => bytes
  | S fuel' =>
      if i <? len content then
        let char := charCodeAt content i in
        if char =? BACKSLASH then
          if i + 1 >=? len content then bytes ++ [92]
          else
            let next := charCodeAt content (i + 1) in
            if next =? code "x" then
              if (i + 3 <? len content)
                 && hex2_test (substring content (i + 2) (i + 4))
              then
                parsePythonBytes_loop fuel' content (i + 4)
                  (bytes ++ [parseInt16 (substring content (i + 2) (i + 4))])
              else
                parsePythonBytes_loop fuel' content (i + 2) (bytes ++ [92; 120])
            else
              parsePythonBytes_loop fuel' content (i + 2)
                (bytes ++ [escapeCode next])
        else parsePythonBytes_loop fuel' content (i + 1) (bytes ++ [char])
      else bytes
  end.

(** The numbers pushed while scanning [content]. *)
Definition scanEscapes (content : jsstring) : list Z :=
  parsePythonBytes_loop (length content) content 0 [].

Definition bquote : jsstring := str "b'".
Definition bdquote : jsstring := [code "b"; DQUOTE].

(** Strip the wrapping [b'...'] or [b"..."]; a missing closing quote strips
    the opening marker only. *)
Definition stripQuotes (content : jsstring) : jsstring :=
  if (startsWith bquote content && endsWith [SQUOTE] content)
     || (startsWith bdquote content && endsWith [DQUOTE] content)
  then slice content 2 (Some (-1))
  else if startsWith bquote content || startsWith bdquote content
  then slice content 2 None
  else content.

Definition parsePythonBytes (s : jsstring) : list byte :=
  let content := stripQuotes (trim s) in
  Uint8Array_from (scanEscapes content).

(** One [try { return ... } catch (e) { errors.push(label + e) }] block:
    the candidate's bytes end the search, its exception is appended to
    [errors] and the search goes on with [next]. ([parsePythonBytes] has no
    [throw]: its two blocks always return.) *)
Definition attempt (label : jsstring) (format : InputFormat)
    (candidate : completion (list byte)) (errors : list jsstring)
    (next : list jsstring
            -> completion (list byte * InputFormat) * list jsstring)
  : completion (list byte * InputFormat) * list jsstring :=
  match candidate with
  | Normal bytes => (Normal (bytes, format), errors)
  | Throw e => next (errors ++ [label ++ exn_toString e])
  end.

(** [autoDetectAndDecode], paired with the content of its local array
    [errors] when it returns or throws. *)
Definition autoDetect_run (input : jsstring)
  : completion (list byte * InputFormat) * list jsstring :=
  let clean := trim input in
  let step4 errors :=
    let fail errors :=
      (Throw (Error (str
          "Could not auto-detect format. Please select one manually.")),
       errors) in
    if includes (str "\x") clean then
      attempt (str "PythonFallback: ") PYTHON
        (Normal (parsePythonBytes clean)) errors fail
    else fail errors in
  let step3 errors :=
    if (len clean mod 4 =? 0) && base64Re_test clean
       && negb (includes (str " ") clean)
    then attempt (str "Base64: ") BASE64 (parseBase64 clean) errors step4
    else step4 errors in
  let step2 errors :=
    let hexClean := hexClean clean in
    if (len hexClean >? 0) && (len hexClean mod 2 =? 0) && hexRe_test hexClean
    then attempt (str "Hex: ") HEX (parseHex clean) errors step3
    else step3 errors in
  if startsWith bquote clean || startsWith bdquote clean then
    attempt (str "Python: ") PYTHON (Normal (parsePythonBytes clean)) []
      step2
  else step2 [].

Definition autoDetectAndDecode (input : jsstring)
  : completion (list byte * InputFormat) :=
  fst (autoDetect_run input).

End DecoderUtils.
Import DecoderUtils.

(* ===================================================================== *)
(** ** The decoded tree ([ParsedNode] of src/types.ts)                     *)
(* ===================================================================== *)

(** What [node.value] can hold. A number produced by [getFloat32] or
    [getFloat64] is kept as the bit pattern it was read from (the big-endian
    integer of its 4 or 8 bytes), every NaN as the pattern of the quiet NaN
    (see [number32] and [number64]): a JavaScript number is one NaN or has
    one such pattern. A [bigint] has its own constructor. *)
Inductive jsvalue : Type :=
| JNull
| JBool (b : bool)
| JNumber (n : Z)
| JFloat32 (bits : N)
| JFloat64 (bits : N)
| JBigInt (n : Z)
| JString (s : jsstring)
| JBytes (bytes : list byte).

(** The two shapes of [node.key]: an unwrapped primitive, or a whole node
    (for a key that is a map, an array, a binary or an extension). *)
Inductive KeyValue (Node : Type) : Type :=
| KeyPrimitive (v : jsvalue)
| KeyNode (k : Node).
Arguments KeyPrimitive {Node} v.
Arguments KeyNode {Node} k.

(** Optional fields are [option]s: [None] is an absent (or [undefined])
    property. [meta] is the object [{ type }] of an extension, reduced to its
    only field. *)
#[warnings="-register-all"] Inductive ParsedNode : Type :=
  mkNode {
    id : jsstring;
    key : option (KeyValue ParsedNode);
    value : jsvalue;
    type : DataType;
    rawType : option jsstring;
    children : option (list ParsedNode);
    byteLength : option N;
    meta : option Z
  }.

Record ParseResult : Type := mkResult {
  success : bool;
  data : option ParsedNode;
  error : option jsstring;
  detectedFormat : option InputFormat;
  originalBytes : option (list byte)
}.

(* ===================================================================== *)
(** ** The decoder service: [MsgpackParser] and [parseMsgpack]             *)
(* ===================================================================== *)

Module MsgpackService.

(** The mutable state a decode touches: the parser's cursor and the
    module-level [nodeIdCounter]. Both only count upwards from 0; so do the
    lengths read from the wire: they are natural numbers ([N]). *)
Record pstate : Type := mkState { offset : N; nodeIdCounter : N }.

(** Result of running a piece of the parser: a value, an exception, or the
    recursion bound of the embedding reached ([OutOfFuel] is shown below
    never to happen with the bound [parse] uses). *)
Inductive outcome (A : Type) : Type :=
| Ok (a : A) (s : pstate)
| Raise (e : exn) (s : pstate)
| OutOfFuel.
Arguments Ok {A} a s.
Arguments Raise {A} e s.
Arguments OutOfFuel {A}.

(** A method of the parser: reads [this.buffer], updates the state. *)
Definition M (A : Type) : Type := list byte -> pstate -> outcome A.

Definition ret {A} (a : A) : M A := fun _ s => Ok a s.

Definition bind {A B} (m : M A) (k : A -> M B) : M B :=
  fun buf s =>
    match m buf s with
    | Ok a s' => k a buf s'
    | Raise e s' => Raise e s'
    | OutOfFuel => OutOfFuel
    end.

Definition throw {A} (e : exn) : M A := fun _ s => Raise e s.

Definition outOfFuel {A} : M A := fun _ _ => OutOfFuel.

Declare Scope parser_scope.
Delimit Scope parser_scope with parser.
Notation "x <- m ;; k" := (bind m (fun x => k))
  (at level 61, m at next level, right associativity) : parser_scope.
Notation "m ;;; k" := (bind m (fun _ => k))
  (at level 61, right associativity) : parser_scope.
Open Scope parser_scope.

(** [this.buffer.length] *)
Definition bufferLength (buf : list byte) : N := N.of_nat (length buf).

(** [const generateId = () => `node-${nodeIdCounter++}`] *)
Definition idOf (n : N) : jsstring := str "node-" ++ toString (Z.of_N n).

Definition generateId : M jsstring :=
  fun _ s => Ok (idOf (nodeIdCounter s))
                (mkState (offset s) (nodeIdCounter s + 1)).

(** The head of [parse]: the end-of-input test and
    [this.buffer[this.offset++]]. *)
Definition readTag : M N :=
  fun buf s =>
    if (bufferLength buf <=? offset s)%N then
      Raise (Error (str "Unexpected end of input")) s
    else Ok (Byte.to_N (nth (N.to_nat (offset s)) buf x00))
            (mkState (offset s + 1) (nodeIdCounter s)).

(** [this.offset += n] *)
Definition advance (n : N) : M unit :=
  fun _ s => Ok tt (mkState (offset s + n) (nodeIdCounter s)).

(** The bytes [start, stop) of the buffer ([subarray] / [slice] on the typed
    array, with [start <= stop <= length] at both call sites). *)
Definition bufferSlice (buf : list byte) (start stop : N) : list byte :=
  firstn (N.to_nat (stop - start)) (skipn (N.to_nat start) buf).

(** Big-endian value of a byte sequence. *)
Definition bigEndian (bytes : list byte) : N :=
  fold_left (fun acc b => (acc * 256 + Byte.to_N b)%N) bytes 0%N.

(** The [RangeError] of an out-of-bounds [DataView] access; its message is
    the engine's (V8's here), the parser does not choose it. *)
Definition outOfBounds : exn :=
  RangeError (str "Offset is outside the bounds of the DataView").

(** [this.view.getUintN(this.offset, false)] for a field of [width] bytes:
    a [RangeError] when the field does not lie inside the view. The cursor
    is not moved. *)
Definition getUint (width : N) : M N :=
  fun buf s =>
    if (bufferLength buf <? offset s + width)%N then Raise outOfBounds s
    else Ok (bigEndian (bufferSlice buf (offset s) (offset s + width))) s.

(** Two's complement reading of an unsigned field of [width] bytes. *)
Definition toSigned (width : N) (u : N) : Z :=
  if Z.of_N u <? 2 ^ (8 * Z.of_N width - 1) then Z.of_N u
  else Z.of_N u - 2 ^ (8 * Z.of_N width).

Definition getInt (width : N) : M Z :=
  u <- getUint width ;; ret (toSigned width u).

Definition getUint8 : M N := getUint 1.
Definition getUint16 : M N := getUint 2.
Definition getUint32 : M N := getUint 4.
Definition getBigUint64 : M N := getUint 8.
Definition getInt8 : M Z := getInt 1.
Definition getInt16 : M Z := getInt 2.
Definition getInt32 : M Z := getInt 4.
Definition getBigInt64 : M Z := getInt 8.
Definition getFloat32 : M N := getUint 4.
Definition getFloat64 : M N := getUint 8.

(** The number [getFloat32] and [getFloat64] return for the bits of a field.
    The bit patterns with all exponent bits set and a fraction that is not
    zero are all the one NaN of JavaScript, whose payload a program cannot
    see: they give the pattern of the quiet NaN, 7fc00000 or
    7ff8000000000000. Any other pattern is a number of its own. *)
Definition number32 (bits : N) : N :=
  if (((bits / 2 ^ 23) mod 256 =? 255) && negb (bits mod 2 ^ 23 =? 0))%N
  then 2143289344%N else bits.

Definition number64 (bits : N) : N :=
  if (((bits / 2 ^ 52) mod 2048 =? 2047) && negb (bits mod 2 ^ 52 =? 0))%N
  then 9221120237041090560%N else bits.

Definition readString (length : N) : M jsstring :=
  fun buf s =>
    let stop := (offset s + length)%N in
    if (bufferLength buf <? stop)%N then
      Raise (Error (str "Unexpected end of input (String)")) s
    else Ok (TextDecoder_decode (bufferSlice buf (offset s) stop))
            (mkState stop (nodeIdCounter s)).

Definition readBin (length : N) : M (list byte) :=
  fun buf s =>
    let stop := (offset s + length)%N in
    if (bufferLength buf <? stop)%N then
      Raise (Error (str "Unexpected end of input (Binary)")) s
    else Ok (bufferSlice buf (offset s) stop) (mkState stop (nodeIdCounter s)).

(** [getKey] *)
Definition getKey (k : ParsedNode) : KeyValue ParsedNode :=
  match type k with
  | STRING | INTEGER | BOOLEAN | FLOAT | NULL => KeyPrimitive (value k)
  | _ => KeyNode k
  end.

(** [readExt] *)
Definition readExt (length : N) (rawTypeLabel : jsstring) : M ParsedNode :=
  type <- getInt8 ;;
  advance 1 ;;;
  data <- readBin length ;;
  id <- generateId ;;
  ret (mkNode id None (JBytes data) EXTENSION (Some rawTypeLabel) None
         (Some length) (Some type)).

(** The label [`name(${n})`]. *)
Definition label (name : string) (n : N) : jsstring :=
  str name ++ str "(" ++ toString (Z.of_N n) ++ str ")".

(** A JavaScript number or bigint holding an unsigned field. *)
Definition number (u : N) : jsvalue := JNumber (Z.of_N u).
Definition bigint (u : N) : jsvalue := JBigInt (Z.of_N u).

Section ParseBody.
(** The two [for] loops of [parse], given the number of turns: they push
    the elements of an array, or the values of a map, onto [children]. *)
Variable arrayItems : N -> M (list ParsedNode).
Variable mapEntries : N -> M (list ParsedNode).

(** The node as [parse] returns it once its fields are assigned. *)
Definition leaf (id : jsstring) (key : option (KeyValue ParsedNode))
    (type : DataType) (rawType : jsstring) (value : jsvalue)
    (byteLength : option N) : M ParsedNode :=
  ret (mkNode id key value type (Some rawType) None byteLength None).

Definition container (id : jsstring) (key : option (KeyValue ParsedNode))
    (type : DataType) (rawType : jsstring) (length : N)
    (items : N -> M (list ParsedNode)) : M ParsedNode :=
  children <- items length ;;
  ret (mkNode id key JNull type (Some rawType) (Some children)
         (Some length) None).

(** A length prefix of [width] bytes, then the cursor moved past it. *)
Definition sized (width : N) (k : N -> M ParsedNode) : M ParsedNode :=
  len <- getUint width ;; advance width ;;; k len.

(** A fixed-width scalar: the accessor, then the cursor moved past it. *)
Definition scalar {A} (id : jsstring) (key : option (KeyValue ParsedNode))
    (type : DataType) (rawType : string) (get : M A) (width : N)
    (wrap : A -> jsvalue) : M ParsedNode :=
  v <- get ;; advance width ;;;
  leaf id key type (str rawType) (wrap v) None.

(** Everything [parse] does after it has read the tag [byte] and created
    [node] with its [id]. *)
Definition parseTagged (key : option (KeyValue ParsedNode)) (byte : N)
    (id : jsstring) : M ParsedNode :=
  if (byte <=? 127)%N then
    leaf id key INTEGER (str "fixint") (JNumber (Z.of_N byte)) None
  else if (224 <=? byte)%N then
    leaf id key INTEGER (str "fixint") (JNumber (Z.of_N byte - 256)) None
  else if (128 <=? byte)%N && (byte <=? 143)%N then
    let length := N.land byte 15 in
    container id key MAP (label "map" length) length mapEntries
  else if (144 <=? byte)%N && (byte <=? 159)%N then
    let length := N.land byte 15 in
    container id key ARRAY (label "arr" length) length arrayItems
  else if (160 <=? byte)%N && (byte <=? 191)%N then
    let length := N.land byte 31 in
    v <- readString length ;;
    leaf id key STRING (label "str" length) (JString v) (Some length)
  else if (byte =? 192)%N then leaf id key NULL (str "nil") JNull None
  else if (byte =? 194)%N then
    leaf id key BOOLEAN (str "false") (JBool false) None
  else if (byte =? 195)%N then
    leaf id key BOOLEAN (str "true") (JBool true) None
  else if (byte =? 196)%N then
    sized 1 (fun len => v <- readBin len ;;
      leaf id key BINARY (label "bin8" len) (JBytes v) (Some len))
  else if (byte =? 197)%N then
    sized 2 (fun len => v <- readBin len ;;
      leaf id key BINARY (label "bin16" len) (JBytes v) (Some len))
  else if (byte =? 198)%N then
    sized 4 (fun len => v <- readBin len ;;
      leaf id key BINARY (label "bin32" len) (JBytes v) (Some len))
  else if (byte =? 202)%N then
    scalar id key FLOAT "float(32)" getFloat32 4
      (fun bits => JFloat32 (number32 bits))
  else if (byte =? 203)%N then
    scalar id key FLOAT "float(64)" getFloat64 8
      (fun bits => JFloat64 (number64 bits))
  else if (byte =? 204)%N then
    scalar id key INTEGER "uint(8)" getUint8 1 number
  else if (byte =? 205)%N then
    scalar id key INTEGER "uint(16)" getUint16 2 number
  else if (byte =? 206)%N then
    scalar id key INTEGER "uint(32)" getUint32 4 number
  else if (byte =? 207)%N then
    scalar id key INTEGER "uint(64)" getBigUint64 8 bigint
  else if (byte =? 208)%N then
    scalar id key INTEGER "int(8)" getInt8 1 JNumber
  else if (byte =? 209)%N then
    scalar id key INTEGER "int(16)" getInt16 2 JNumber
  else if (byte =? 210)%N then
    scalar id key INTEGER "int(32)" getInt32 4 JNumber
  else if (byte =? 211)%N then
    scalar id key INTEGER "int(64)" getBigInt64 8 JBigInt
  else if (byte =? 212)%N then readExt 1 (str "fixext1")
  else if (byte =? 213)%N then readExt 2 (str "fixext2")
  else if (byte =? 214)%N then readExt 4 (str "fixext4")
  else if (byte =? 215)%N then readExt 8 (str "fixext8")
  else if (byte =? 216)%N then readExt 16 (str "fixext16")
  else if (byte =? 199)%N then
    sized 1 (fun len => readExt len (str "ext8"))
  else if (byte =? 200)%N then
    sized 2 (fun len => readExt len (str "ext16"))
  else if (byte =? 201)%N then
    sized 4 (fun len => readExt len (str "ext32"))
  else if (byte =? 217)%N then
    sized 1 (fun len => v <- readString len ;;
      leaf id key STRING (label "str8" len) (JString v) (Some len))
  else if (byte =? 218)%N then
    sized 2 (fun len => v <- readString len ;;
      leaf id key STRING (label "str16" len) (JString v) (Some len))
  else if (byte =? 219)%N then
    sized 4 (fun len => v <- readString len ;;
      leaf id key STRING (label "str32" len) (JString v) (Some len))
  else if (byte =? 220)%N then
    sized 2 (fun len =>
      container id key ARRAY (label "arr16" len) len arrayItems)
  else if (byte =? 221)%N then
    sized 4 (fun len =>
      container id key ARRAY (label "arr32" len) len arrayItems)
  else if (byte =? 222)%N then
    sized 2 (fun len =>
      container id key MAP (label "map16" len) len mapEntries)
  else if (byte =? 223)%N then
    sized 4 (fun len =>
      container id key MAP (label "map32" len) len mapEntries)
  else
    fun buf s =>
      throw (Error (str "Unknown byte 0x" ++ toString16 (Z.of_N byte)
                    ++ str " at offset "
                    ++ toString (Z.of_N (offset s) - 1))) buf s.

Definition parseStep (key : option (KeyValue ParsedNode)) : M ParsedNode :=
  byte <- readTag ;;
  id <- generateId ;;
  parseTagged key byte id.
End ParseBody.

(** [parse(key)] and its loops. [fuel] bounds the nesting of calls, and
    [parse] below supplies a bound that is never reached. The JavaScript
    recursion is bounded by the call stack of the engine instead: a run that
    nests deeper than the stack allows throws a [RangeError] ("Maximum call
    stack size exceeded"). The size of the stack is not part of the program,
    and this error is left out here: the definitions describe the runs that
    stay within the stack, so a statement carries over to the program when
    it is about a run that returns a node or throws one of the errors of the
    parser, and not when it says that nothing else can be thrown. *)
Fixpoint parse_fuel (fuel : nat) (key : option (KeyValue ParsedNode))
    {struct fuel} : M ParsedNode :=
  match fuel with
  | O => outOfFuel
  | S fuel' =>
      parseStep (fun length => arrayItems fuel' 0 length [])
                (fun length => mapEntries fuel' 0 length []) key
  end
with arrayItems (fuel : nat) (i length : N) (children : list ParsedNode)
    {struct fuel} : M (list ParsedNode) :=
  match fuel with
  | O => outOfFuel
  | S fuel' =>
      if (i <? length)%N then
        v <- parse_fuel fuel' None ;;
        arrayItems fuel' (i + 1) length (children ++ [v])
      else ret children
  end
with mapEntries (fuel : nat) (i length : N) (children : list ParsedNode)
    {struct fuel} : M (list ParsedNode) :=
  match fuel with
  | O => outOfFuel
  | S fuel' =>
      if (i <? length)%N then
        k <- parse_fuel fuel' None ;;
        let keyVal := getKey k in
        v <- parse_fuel fuel' (Some keyVal) ;;
        mapEntries fuel' (i + 1) length (children ++ [v])
      else ret children
  end.

(** Every call of [parse] consumes a byte or throws, and every turn of a
    loop calls [parse]: twice the buffer length plus one bounds the nesting. *)
Definition parse (key : option (KeyValue ParsedNode)) : M ParsedNode :=
  fun buf s => parse_fuel (2 * length buf + 1) key buf s.

(** [e.message || "Failed to parse Msgpack"] *)
Definition messageOr (e : exn) : jsstring :=
  match message e with
  | [] => str "Failed to parse Msgpack"
  | m => m
  end.

Definition failure (msg : jsstring) : ParseResult :=
  mkResult false None (Some msg) None None.

(** The byte recovery that [parseMsgpack] selects by [format]. *)
Definition recoverBytes (input : jsstring) (format : InputFormat)
  : completion (list byte * InputFormat) :=
  match format with
  | AUTO => autoDetectAndDecode input
  | HEX =>
      match parseHex input with
      | Normal bytes => Normal (bytes, HEX) | Throw e => Throw e end
  | BASE64 =>
      match parseBase64 input with
      | Normal bytes => Normal (bytes, BASE64) | Throw e => Throw e end
  | PYTHON => Normal (parsePythonBytes input, PYTHON)
  end.

(** [new MsgpackParser(bytes).parse()] after [nodeIdCounter = 0]. *)
Definition decode (bytes : list byte) : outcome ParsedNode :=
  parse None bytes (mkState 0 0).

(** [parseMsgpack(input, format)]. The module-level counter is an explicit
    argument (its value before the call) and result (its value after). *)
Definition parseMsgpack (input : jsstring) (format : InputFormat)
    (counter : N) : ParseResult * N :=
  let nodeIdCounter0 := 0%N in
  match recoverBytes input format with
  | Throw e => (failure (messageOr e), nodeIdCounter0)
  | Normal (bytes, detected) =>
      match bytes with
      | [] => (failure (str "Empty input"), nodeIdCounter0)
      | _ =>
          match decode bytes with
          | Ok rootNode s =>
              (mkResult true (Some rootNode) None (Some detected) (Some bytes),
               nodeIdCounter s)
          | Raise e s => (failure (messageOr e), nodeIdCounter s)
          | OutOfFuel => (failure (str "Failed to parse Msgpack"), nodeIdCounter0)
          end
      end
  end.

End MsgpackService.
Import MsgpackService.

(* ===================================================================== *)
(** ** The tree projector ([serializeNode] of src/utils/decoderUtils.ts)   *)
(* ===================================================================== *)

Module TreeProjector.

(** The plain value [serializeNode] returns: a value of the node passed
    through, an array, an object, or [undefined]. An object is its own
    properties, in the order [Object.keys] and [JSON.stringify] list them
    (the names that are array indices first, in ascending order, then the
    other names in the order they were created), and [inherits]: whether
    looking up [__proto__] along its prototype chain, its own properties
    left aside, finds the accessor of [Object.prototype] first. That holds
    of an object literal and of an array; an assignment to [__proto__]
    changes it, see [setProp]. *)
#[warnings="-register-all"] Inductive plain : Type :=
| PUndefined
| PValue (v : jsvalue)
| PArray (items : list plain)
| PObject (inherits : bool) (props : list (jsstring * plain)).

Definition protoName : jsstring := str "__proto__".

(** The number a string of decimal digits stands for. *)
Definition decimalOf (s : jsstring) : Z :=
  fold_left (fun acc c => 10 * acc + (c - code "0")) s 0.

(** An array index is a property name that is the decimal text of an
    integer from 0 to 2^32 - 2. *)
Definition arrayIndex (k : jsstring) : option Z :=
  let i := decimalOf k in
  if (0 <=? i) && (i <? 4294967295) then
    if list_eq_dec Z.eq_dec (toString i) k then Some i else None
  else None.

(** [Object.hasOwn(obj, k)] *)
Fixpoint hasOwn (props : list (jsstring * plain)) (k : jsstring) : bool :=
  match props with
  | [] => false
  | (k', _) :: rest =>
      if list_eq_dec Z.eq_dec k k' then true else hasOwn rest k
  end.

(** The value of an own property replaced; the property keeps its place. *)
Fixpoint overwrite (props : list (jsstring * plain)) (k : jsstring)
    (v : plain) : list (jsstring * plain) :=
  match props with
  | [] => []
  | (k', v') :: rest =>
      if list_eq_dec Z.eq_dec k k' then (k, v) :: rest
      else (k', v') :: overwrite rest k v
  end.

(** A new own property whose name is the array index [i]: it is listed
    before the first property whose name is a larger index or no index. *)
Fixpoint insertIndex (i : Z) (k : jsstring) (v : plain)
    (props : list (jsstring * plain)) : list (jsstring * plain) :=
  match props with
  | [] => [(k, v)]
  | (k', v') :: rest =>
      match arrayIndex k' with
      | Some j =>
          if i <? j then (k, v) :: props
          else (k', v') :: insertIndex i k v rest
      | None => (k, v) :: props
      end
  end.

(** A new own property. *)
Definition createDataProperty (props : list (jsstring * plain))
    (k : jsstring) (v : plain) : list (jsstring * plain) :=
  match arrayIndex k with
  | Some i => insertIndex i k v props
  | None => props ++ [(k, v)]
  end.

(** What the setter of [__proto__] makes of [inherits] when it is given
    [v]: the prototype becomes [v] when [v] is an object, an array or
    [null], and stays for any other value. With a prototype that has an own
    property [__proto__], or none that leads to [Object.prototype], the
    accessor is out of reach. (A byte array is never assigned here for a
    node coming from [parse]: [serializeNode] turns those of binary and
    extension nodes into text.) *)
Definition setPrototype (inherits : bool) (v : plain) : bool :=
  match v with
  | PObject inherits' props' => inherits' && negb (hasOwn props' protoName)
  | PArray _ => true
  | PValue JNull => false
  | _ => inherits
  end.

(** [obj[k] = v] on an object made by [{}]. An own property [k] gets the
    value. Otherwise the name is looked up along the prototype chain: for
    [__proto__], as long as the accessor of [Object.prototype] is what the
    lookup finds, the setter is called and no property is created; for any
    other name, and for [__proto__] once the accessor is out of reach, a
    property is created (what the chain holds then is writable data). *)
Definition setProp (obj : bool * list (jsstring * plain)) (k : jsstring)
    (v : plain) : bool * list (jsstring * plain) :=
  let (inherits, props) := obj in
  if hasOwn props k then (inherits, overwrite props k v)
  else if inherits && (if list_eq_dec Z.eq_dec k protoName then true else false)
  then (setPrototype inherits v, props)
  else (inherits, createDataProperty props k v).

Section SerializeNode.
(** Two built-ins are left as parameters: [JSON.stringify] on a plain value
    and the text of a number read as a float. *)
Variable JSON_stringify : plain -> jsstring.
Variable floatToString : jsvalue -> jsstring.

(** [String(key)] for a key that is neither a string nor a node. *)
Definition primitiveKeyString (k : jsvalue) : jsstring :=
  match k with
  | JNull => str "null"
  | JBool true => str "true"
  | JBool false => str "false"
  | JNumber n | JBigInt n => toString n
  | JFloat32 _ | JFloat64 _ => floatToString k
  | JString s => s
  | JBytes _ => JSON_stringify PUndefined
  end.

(** [serializeNode]. The casts [node.value as Uint8Array] are branches on
    the value; a binary or extension node always holds bytes. *)
Fixpoint serializeNode (node : ParsedNode) : plain :=
  match node with
  | mkNode _ _ value type _ children _ meta =>
      match type with
      | MAP =>
          let assign obj child :=
            let keyStr :=
              match key child with
              | Some (KeyPrimitive k) => primitiveKeyString k
              | Some (KeyNode k) => JSON_stringify (serializeNode k)
              | None => str "undefined"
              end in
            setProp obj keyStr (serializeNode child) in
          let obj :=
            match children with
            | Some items => fold_left assign items (true, [])
            | None => (true, [])
            end in
          PObject (fst obj) (snd obj)
      | ARRAY =>
          match children with
          | Some items => PArray (map serializeNode items)
          | None => PUndefined
          end
      | BINARY =>
          match value with
          | JBytes bytes => PValue (JString (bytesToBase64 bytes))
          | _ => PUndefined
          end
      | INTEGER =>
          match value with
          | JBigInt n => PValue (JString (toString n))
          | _ => PValue value
          end
      | EXTENSION =>
          PObject true
            [(str "__ext_type",
              match meta with Some t => PValue (JNumber t) | None => PUndefined end);
             (str "data",
              match value with
              | JBytes bytes => PValue (JString (bytesToBase64 bytes))
              | _ => PUndefined
              end)]
      | NULL => PValue JNull
      | BOOLEAN | FLOAT | STRING | UNKNOWN => PValue value
      end
  end.
End SerializeNode.

End TreeProjector.
Import TreeProjector.

(* ===================================================================== *)
(** ** The components that consume the tree                                *)
(* ===================================================================== *)

Module Components.

(** *** src/components/TypeBadge.tsx *)

Definition genericLabels (type : DataType) : jsstring :=
  match type with
  | NULL => str "Nil"
  | BOOLEAN => str "Bool"
  | INTEGER => str "Int"
  | FLOAT => str "Float"
  | STRING => str "Str"
  | BINARY => str "Bin"
  | ARRAY => str "Arr"
  | MAP => str "Map"
  | EXTENSION => str "Ext"
  | UNKNOWN => str "?"
  end.

(** The text of the badge, [rawType || genericLabels[type]]: an absent or
    empty [rawType] is falsy. *)
Definition badgeLabel (type : DataType) (rawType : option jsstring)
  : jsstring :=
  match rawType with
  | Some (c :: rest) => c :: rest
  | _ => genericLabels type
  end.

(** *** src/components/JsonNode.tsx *)

(** [s.padStart(2, '0')] *)
Definition padStart2 (s : jsstring) : jsstring :=
  repeat 48 (2 - length s) ++ s.

(** [items.join(sep)] *)
Fixpoint join (sep : jsstring) (items : list jsstring) : jsstring :=
  match items with
  | [] => []
  | [x] => x
  | x :: rest => x ++ sep ++ join sep rest
  end.

(** [b.toString(16).padStart(2, '0')] *)
Definition byteHex (b : byte) : jsstring :=
  padStart2 (toString16 (byteValue b)).

(** The preview of a binary value in [formatValue]: the first eight bytes
    in hex, blank-separated. *)
Definition preview (arr : list byte) : jsstring :=
  join (str " ") (map byteHex (firstn 8 arr)).

(** [arr.length > 8 ? '...' : ''] *)
Definition more (arr : list byte) : jsstring :=
  if 8 <? len arr then str "..." else [].

(** The text [formatValue] shows for a binary node holding [arr]. *)
Definition formatBinary (arr : list byte) : jsstring :=
  str "<Bytes: " ++ preview arr ++ more arr ++ str ">".

(** *** The input panel (src/unnamed/part_000): the status bar *)

Definition formatName (format : InputFormat) : jsstring :=
  match format with
  | AUTO => str "AUTO"
  | HEX => str "HEX"
  | BASE64 => str "BASE64"
  | PYTHON => str "PYTHON"
  end.

(** The text of the status bar; an absent or empty [error] is falsy. *)
Definition statusText (input : jsstring) (error : option jsstring)
    (detectedFormat : option InputFormat) : jsstring :=
  match error with
  | Some (c :: rest) => str "Error: " ++ c :: rest
  | _ =>
      match input, detectedFormat with
      | _ :: _, Some format => str "Detected: " ++ formatName format
      | _, _ => str "Ready to parse"
      end
  end.

(** *** The application (src/unnamed/part_001): the parse effect and the
    viewer pane *)

(** The text the input box starts with. *)
Definition initialInput : jsstring := str "b'\x81\xa3key\xa5value'".

(** The three pieces of state the parse effect writes. *)
Record AppState : Type := mkApp {
  parsedData : option ParsedNode;
  error : option jsstring;
  detected : option InputFormat
}.

(** The body of the debounced parse effect of [App]: what it sets, given
    the input, the selected format and the state it finds. Blank input
    clears the three pieces without calling [parseMsgpack]; a failure leaves
    [detected] as it was. *)
Definition parseEffect (input : jsstring) (format : InputFormat)
    (st : AppState) (counter : N) : AppState * N :=
  match trim input with
  | [] => (mkApp None None None, counter)
  | _ =>
      match parseMsgpack input format counter with
      | (mkResult true (Some rootNode) _ detectedFormat _, counter') =>
          (mkApp (Some rootNode) None detectedFormat, counter')
      | (mkResult _ _ error _ _, counter') =>
          (mkApp None error (detected st), counter')
      end
  end.

(** What the viewer pane shows: the decoded data (as a tree or as JSON,
    by the active tab), the failure, or the invitation to type. *)
Inductive pane : Type :=
| Decoded (root : ParsedNode)
| ParsingFailed (error : jsstring)
| Waiting.

Definition viewer (st : AppState) : pane :=
  match parsedData st with
  | Some root => Decoded root
  | None =>
      match error st with
      | Some (c :: rest) => ParsingFailed (c :: rest)
      | _ => Waiting
      end
  end.

End Components.

(* ===================================================================== *)
(** ** Vocabulary of the properties                                       *)
(* ===================================================================== *)

(** The decimal string of an integer, as the specification has it for wide
    integers: the digits of the number, most significant first and without a
    leading zero, after a minus sign when the number is negative. *)
Definition digitsValue (digits : jsstring) : Z :=
  fold_left (fun acc c => 10 * acc + (c - code "0")) digits 0.

Definition unsignedNumeral (digits : jsstring) (n : Z) : Prop :=
  digits <> []
  /\ forallb isDigit digits = true
  /\ (hd 0 digits = code "0" -> digits = [code "0"])
  /\ digitsValue digits = n.

Definition numeral (text : jsstring) (z : Z) : Prop :=
  (0 <= z /\ unsignedNumeral text z)
  \/ (z < 0 /\ exists digits,
        text = code "-" :: digits /\ unsignedNumeral digits (- z)).

(** The digit a character of a hexadecimal numeral stands for, as the
    specification reads [HH]: the characters 0 to 9 stand for 0 to 9, the
    letters a to f, and A to F, for 10 to 15. *)
Definition hexDigitOf (c d : Z) : Prop :=
  (0 <= d <= 9 /\ c = code "0" + d)
  \/ (10 <= d <= 15 /\ (c = code "a" + (d - 10) \/ c = code "A" + (d - 10))).

(** The decoding the specification describes: consecutive pairs of digits,
    the first digit of a pair the high half of the byte. *)
Fixpoint bytePairs (clean : jsstring) : list byte :=
  match clean with
  | hi :: lo :: rest =>
      ToUint8 (16 * hexDigitValue hi + hexDigitValue lo) :: bytePairs rest
  | _ => []
  end.

(** The text the specification tests for hex: the trimmed text without a
    leading 0x, then without any whitespace character. *)
Fixpoint withoutWhitespace (text : jsstring) : jsstring :=
  match text with
  | [] => []
  | c :: rest =>
      if isWhiteSpace c then withoutWhitespace rest
      else c :: withoutWhitespace rest
  end.

Definition stripped (text : jsstring) : jsstring :=
  withoutWhitespace
    match text with
    | c1 :: c2 :: rest =>
        if (c1 =? code "0") && (c2 =? code "x") then rest else text
    | _ => text
    end.

(** The four gates of [autoDetectAndDecode], on the trimmed text. *)
Definition pythonGate (clean : jsstring) : bool :=
  startsWith bquote clean || startsWith bdquote clean.

Definition hexGate (clean : jsstring) : bool :=
  (len (hexClean clean) >? 0) && (len (hexClean clean) mod 2 =? 0)
  && hexRe_test (hexClean clean).

(** The base64 gate as the specification words it: length a multiple of 4
    and only base64 characters. *)
Definition base64Gate (clean : jsstring) : bool :=
  (len clean mod 4 =? 0) && base64Re_test clean.

Definition fallbackGate (clean : jsstring) : bool :=
  includes (str "\x") clean.

Definition undetected : jsstring :=
  str "Could not auto-detect format. Please select one manually.".

(** Empty or whitespace-only text. *)
Definition blank (input : jsstring) : bool := forallb isWhiteSpace input.

(** The ways a read past the end of the buffer shows: the three messages of
    the parser and the [RangeError] of the [DataView] accessors. *)
Definition EndOfInput (e : exn) : Prop :=
  e = Error (str "Unexpected end of input")
  \/ e = Error (str "Unexpected end of input (String)")
  \/ e = Error (str "Unexpected end of input (Binary)")
  \/ e = outOfBounds.

(** The error of an unassigned tag byte. *)
Definition UnknownTag (e : exn) : Prop :=
  exists byte position,
    e = Error (str "Unknown byte 0x" ++ toString16 byte
               ++ str " at offset " ++ toString position).

(** The two kinds of error of the parser. *)
Definition parseError (e : exn) : Prop := EndOfInput e \/ UnknownTag e.

(** Every exception [m] can throw satisfies [E]. *)
Definition raises {A} (E : exn -> Prop) (m : M A) : Prop :=
  forall buf s e s', m buf s = Raise e s' -> E e.

(** [carries r r']: [r'] is what a run that gave [r] gives once bytes are
    appended to the buffer. A value stays; an exception stays unless it
    reported the end of the input. *)
Definition carries {A} (r r' : outcome A) : Prop :=
  match r with
  | Ok a s => r' = Ok a s
  | Raise e s => EndOfInput e \/ r' = Raise e s
  | OutOfFuel => True
  end.

Definition Local {A} (m : M A) : Prop :=
  forall buf more s, carries (m buf s) (m (buf ++ more) s).

(** [Approx m m']: wherever [m] does not run out of fuel, [m'] agrees. *)
Definition Approx {A} (m m' : M A) : Prop :=
  forall buf s, m buf s = OutOfFuel \/ m buf s = m' buf s.

(** [triple oof buf P m Q]: run on [buf] from a state satisfying [P], [m]
    returns a value and a state satisfying [Q], or throws; running out of
    fuel is allowed only if [oof] holds ([False]: total, [True]: partial). *)
Definition triple {A} (oof : Prop) (buf : list byte) (P : pstate -> Prop)
    (m : M A) (Q : A -> pstate -> Prop) : Prop :=
  forall s, P s ->
    match m buf s with
    | Ok a s' => Q a s'
    | Raise _ _ => True
    | OutOfFuel => oof
    end.

(** The cursor is at least [o] with [n] more bytes known to lie inside the
    buffer, and the counter is at least [c]. *)
Definition inv (buf : list byte) (n o c : N) (s : pstate) : Prop :=
  (o <= offset s)%N /\ (offset s + n <= bufferLength buf)%N
  /\ (c <= nodeIdCounter s)%N.

(** [m] never runs out of fuel and keeps the invariant. *)
Definition keeps {A} (buf : list byte) (o c : N) (m : M A) : Prop :=
  triple False buf (inv buf 0 o c) m (fun _ => inv buf 0 o c).

(** The key handed to [parse] is the key of the node it returns, unless the
    node is an extension: [readExt] builds its node without a key. *)
Definition keyShape (given : option (KeyValue ParsedNode)) (n : ParsedNode)
  : Prop :=
  (type n = EXTENSION /\ key n = None) \/ (type n <> EXTENSION /\ key n = given).

Definition primitiveKinds : list DataType :=
  [NULL; BOOLEAN; INTEGER; FLOAT; STRING].

(** What the map loop pushes for one entry: the value node, carrying the
    key resolved from a key node [k] that was itself decoded without a key;
    an extension value carries none. *)
Definition entryShape (v : ParsedNode) : Prop :=
  exists k, key k = None /\ keyShape (Some (getKey k)) v.

(** The two wire encodings read as a [bigint]. *)
Definition wideRawType (r : option jsstring) : Prop :=
  r = Some (str "uint(64)") \/ r = Some (str "int(64)").

(** An integer node holds a bigint exactly when it was read from a 64-bit
    field, a number otherwise. *)
Definition integerShape (n : ParsedNode) : Prop :=
  type n = INTEGER ->
  (wideRawType (rawType n) /\ exists z, value n = JBigInt z)
  \/ (~ wideRawType (rawType n) /\ exists z, value n = JNumber z).

(** The identities in a tree in the order their nodes were created: a key
    node kept as [key] was created before the value node that carries it,
    the children after their parent. *)
Fixpoint stamps (n : ParsedNode) : list jsstring :=
  match n with
  | mkNode i k _ _ _ ch _ _ =>
      match k with Some (KeyNode kn) => stamps kn | _ => [] end
      ++ i :: match ch with Some items => flat_map stamps items | None => [] end
  end.

Definition keyStamps (k : option (KeyValue ParsedNode)) : list jsstring :=
  match k with Some (KeyNode kn) => stamps kn | _ => [] end.

Definition ownStamps (n : ParsedNode) : list jsstring :=
  id n :: match children n with
          | Some items => flat_map stamps items
          | None => []
          end.

(** [l] is the identities of strictly increasing counter values, all in
    [lo, hi). *)
Definition Stamped (lo hi : N) (l : list jsstring) : Prop :=
  exists ks, l = map idOf ks /\ StronglySorted N.lt ks
             /\ Forall (fun k => (lo <= k < hi)%N) ks.

(** The counter is exactly [c]. *)
Definition cnt (c : N) (s : pstate) : Prop := nodeIdCounter s = c.

(** What a call of [parse] that found the counter at [c] returns: a node
    whose own identities (itself, then its subtree) are stamped from [c] up
    to the counter it leaves, which it has advanced. *)
Definition stampedNode (c : N) (given : option (KeyValue ParsedNode))
    (n : ParsedNode) (s' : pstate) : Prop :=
  Stamped c (nodeIdCounter s') (ownStamps n)
  /\ (key n = given \/ key n = None)
  /\ (c < nodeIdCounter s')%N.

(** What a loop that started with the counter at [c] has pushed. *)
Definition stampedItems (c : N) (items : list ParsedNode) (s' : pstate)
  : Prop :=
  Stamped c (nodeIdCounter s') (flat_map stamps items)
  /\ (c <= nodeIdCounter s')%N.

(** *** Vocabulary of the further properties *)

(** How one byte is written in a Python bytes literal, as [repr] writes
    it: a printable character other than the backslash and the single quote
    stands for itself; the backslash, the single quote, the tab, the line
    feed and the carriage return have their two-character escapes; any other
    byte is a [\xHH] escape. *)
Definition reprByte (b : byte) : jsstring :=
  let c := byteValue b in
  if c =? 92 then [BACKSLASH; BACKSLASH]
  else if c =? 39 then [BACKSLASH; SQUOTE]
  else if c =? 9 then [BACKSLASH; code "t"]
  else if c =? 10 then [BACKSLASH; code "n"]
  else if c =? 13 then [BACKSLASH; code "r"]
  else if (32 <=? c) && (c <? 127) then [c]
  else [BACKSLASH; code "x"] ++ Components.byteHex b.

(** The literal [b'...'] for a byte sequence. *)
Definition pythonLiteral (bytes : list byte) : jsstring :=
  bquote ++ flat_map reprByte bytes ++ [SQUOTE].

(** Every node of a tree, in the order the nodes were created: a key node
    kept as [key] before the node that carries it, the children after their
    parent. *)
Fixpoint nodes (n : ParsedNode) : list ParsedNode :=
  match n with
  | mkNode _ k _ _ _ ch _ _ =>
      match k with Some (KeyNode kn) => nodes kn | _ => [] end
      ++ n :: match ch with Some items => flat_map nodes items | None => [] end
  end.

Definition keyNodes (k : option (KeyValue ParsedNode)) : list ParsedNode :=
  match k with Some (KeyNode kn) => nodes kn | _ => [] end.

Definition isPresent {A} (o : option A) : bool :=
  match o with Some _ => true | None => false end.

(** The values a node of each kind holds. *)
Definition valueFits (type : DataType) (v : jsvalue) : bool :=
  match type, v with
  | NULL, JNull | ARRAY, JNull | MAP, JNull => true
  | BOOLEAN, JBool _ => true
  | INTEGER, JNumber _ | INTEGER, JBigInt _ => true
  | FLOAT, JFloat32 _ | FLOAT, JFloat64 _ => true
  | STRING, JString _ => true
  | BINARY, JBytes _ | EXTENSION, JBytes _ => true
  | _, _ => false
  end.

Definition hasChildren (type : DataType) : bool :=
  match type with ARRAY | MAP => true | _ => false end.

Definition hasLength (type : DataType) : bool :=
  match type with
  | STRING | BINARY | ARRAY | MAP | EXTENSION => true
  | _ => false
  end.

Definition isExtension (type : DataType) : bool :=
  match type with EXTENSION => true | _ => false end.

(** The fields of a node agree with its kind: the kind is known, the value
    is one the kind holds, [children], [byteLength] and [meta] are set
    exactly for the kinds that have them, and [rawType] is a non-empty
    label. *)
Definition wellKinded (n : ParsedNode) : bool :=
  valueFits (type n) (value n)
  && Bool.eqb (isPresent (children n)) (hasChildren (type n))
  && Bool.eqb (isPresent (byteLength n)) (hasLength (type n))
  && Bool.eqb (isPresent (meta n)) (isExtension (type n))
  && match rawType n with Some (_ :: _) => true | _ => false end.

(** [byteLength] is the size of what the node holds: the number of bytes
    of a binary or extension payload, the number of bytes a string was
    decoded from, the number of children of an array or a map. *)
Definition lengthOk (n : ParsedNode) : Prop :=
  forall len, byteLength n = Some len ->
    match value n, children n with
    | JBytes bytes, _ => length bytes = N.to_nat len
    | JString s, _ =>
        exists payload, length payload = N.to_nat len
                        /\ s = TextDecoder_decode payload
    | _, Some items => length items = N.to_nat len
    | _, None => True
    end.

Fixpoint jsstring_eqb (s t : jsstring) : bool :=
  match s, t with
  | [], [] => true
  | a :: s', b :: t' => (a =? b) && jsstring_eqb s' t'
  | _, _ => false
  end.

(** The integer formats of the wire: whether the value is read as a
    bigint, and the least and greatest value. *)
Definition integerFormat (rawType : jsstring) : option (bool * Z * Z) :=
  if jsstring_eqb rawType (str "fixint") then Some (false, -32, 127)
  else if jsstring_eqb rawType (str "uint(8)") then Some (false, 0, 255)
  else if jsstring_eqb rawType (str "uint(16)") then Some (false, 0, 65535)
  else if jsstring_eqb rawType (str "uint(32)") then
    Some (false, 0, 4294967295)
  else if jsstring_eqb rawType (str "uint(64)") then
    Some (true, 0, 18446744073709551615)
  else if jsstring_eqb rawType (str "int(8)") then Some (false, -128, 127)
  else if jsstring_eqb rawType (str "int(16)") then
    Some (false, -32768, 32767)
  else if jsstring_eqb rawType (str "int(32)") then
    Some (false, -2147483648, 2147483647)
  else if jsstring_eqb rawType (str "int(64)") then
    Some (true, -9223372036854775808, 9223372036854775807)
  else None.

(** An integer node is labelled with one of the integer formats and holds
    a value of that format, as a bigint or as a number as the format says;
    an extension node has a type that fits a signed byte. *)
Definition rangeOk (n : ParsedNode) : Prop :=
  (forall t, meta n = Some t -> -128 <= t <= 127)
  /\ (type n = INTEGER ->
      exists r wide lo hi z,
        rawType n = Some r /\ integerFormat r = Some (wide, lo, hi)
        /\ value n = (if wide then JBigInt z else JNumber z)
        /\ lo <= z <= hi).

Definition primitiveValue (v : jsvalue) : bool :=
  match v with JBytes _ => false | _ => true end.

(** What a key can be: a primitive value (never bytes), or a node of a
    kind that is not primitive and that has no key itself. *)
Definition keyOk (k : option (KeyValue ParsedNode)) : Prop :=
  match k with
  | None => True
  | Some (KeyPrimitive v) => primitiveValue v = true
  | Some (KeyNode kn) => ~ In (type kn) primitiveKinds /\ key kn = None
  end.

(** Keys in a tree: the key of a node is as [keyOk] says; the elements of
    an array have none; the values of a map have one, unless they are
    extensions. *)
Definition keysOk (n : ParsedNode) : Prop :=
  keyOk (key n)
  /\ match type n, children n with
     | ARRAY, Some items => Forall (fun c => key c = None) items
     | MAP, Some items =>
         Forall (fun c => key c <> None \/ type c = EXTENSION) items
     | _, _ => True
     end.

(** The four together. *)
Definition wellFormed (n : ParsedNode) : Prop :=
  wellKinded n = true /\ lengthOk n /\ rangeOk n /\ keysOk n.

(** A plain value [JSON.stringify] can write: no [undefined], no bigint
    (on which it throws) and no raw byte array, here or below. *)
Fixpoint jsonSafe (p : plain) : bool :=
  match p with
  | PUndefined => false
  | PValue (JBigInt _) | PValue (JBytes _) => false
  | PValue _ => true
  | PArray items => forallb jsonSafe items
  | PObject _ props => forallb (fun kv => jsonSafe (snd kv)) props
  end.

(** The order of the own properties of an object: a name that is an array
    index comes before a name that is a larger index or no index. *)
Definition indexFirst (a b : jsstring) : Prop :=
  match arrayIndex a, arrayIndex b with
  | Some i, Some j => i < j
  | Some _, None => True
  | None, Some _ => False
  | None, None => True
  end.

(** [obj[k]] for an own property [k] of [obj]. *)
Fixpoint getProp (obj : list (jsstring * plain)) (k : jsstring)
  : option plain :=
  match obj with
  | [] => None
  | (k', v) :: rest =>
      if list_eq_dec Z.eq_dec k k' then Some v else getProp rest k
  end.

(** The property name [serializeNode] gives the child of a map (its local
    [keyStr]). *)
Definition propertyName (JSON_stringify : plain -> jsstring)
    (floatToString : jsvalue -> jsstring) (child : ParsedNode) : jsstring :=
  match key child with
  | Some (KeyPrimitive k) => primitiveKeyString JSON_stringify floatToString k
  | Some (KeyNode k) =>
      JSON_stringify (serializeNode JSON_stringify floatToString k)
  | None => str "undefined"
  end.

(** The [forEach] of the MAP case of [serializeNode]: one assignment per
    child, in order. *)
Definition assignAll (JSON_stringify : plain -> jsstring)
    (floatToString : jsvalue -> jsstring) (items : list ParsedNode)
    (obj : bool * list (jsstring * plain)) : bool * list (jsstring * plain) :=
  fold_left
    (fun obj child =>
       setProp obj (propertyName JSON_stringify floatToString child)
         (serializeNode JSON_stringify floatToString child))
    items obj.

(** The error for the byte 0xc1, the one tag the format leaves unused,
    at a position of the buffer that holds it. *)
Definition BadTag (buf : list byte) (e : exn) : Prop :=
  exists p, (p < length buf)%nat /\ nth p buf x00 = xc1
            /\ e = Error (str "Unknown byte 0xc1 at offset "
                          ++ toString (Z.of_nat p)).

(** Run on [buf] from a state satisfying [P], [m] throws nothing but an
    end-of-input error or the error for a 0xc1 that is in the buffer. *)
Definition raisesFrom {A} (buf : list byte) (P : pstate -> Prop) (m : M A)
  : Prop :=
  forall s e s', P s -> m buf s = Raise e s' -> EndOfInput e \/ BadTag buf e.

(** The cursor is at least [K + d] ahead of the identity counter. *)
Definition ahead (K d : Z) (s : pstate) : Prop :=
  K + d <= Z.of_N (offset s) - Z.of_N (nodeIdCounter s).

(** The state with its cursor moved forward by the length of a prefix put
    in front of the buffer. *)
Definition shiftBy (pre : list byte) (s : pstate) : pstate :=
  mkState (offset s + bufferLength pre) (nodeIdCounter s).

(** [moved pre r r']: [r'] is what a run that gave [r] gives once [pre] is
    put in front of the buffer and the cursor is moved with it: the same
    value from the moved state, an exception where there was one. *)
Definition moved {A} (pre : list byte) (r r' : outcome A) : Prop :=
  match r with
  | Ok a s => r' = Ok a (shiftBy pre s)
  | Raise _ s => exists e', r' = Raise e' (shiftBy pre s)
  | OutOfFuel => r' = OutOfFuel
  end.

Definition Shiftable {A} (m : M A) : Prop :=
  forall pre buf s, moved pre (m buf s) (m (pre ++ buf) (shiftBy pre s)).

(** *** MessagePack values and their encoding

    The values of the format the parser reads, and the bytes an encoder
    writes for them, each value in the shortest form the format has for
    it. *)
#[warnings="-register-all"] Inductive mvalue : Type :=
| VNil
| VBool (b : bool)
| VInt (z : Z)
| VFloat32 (bits : N)
| VFloat64 (bits : N)
| VStr (text : list byte)
| VBin (bytes : list byte)
| VExt (type : Z) (payload : list byte)
| VArray (items : list mvalue)
| VMap (entries : list (mvalue * mvalue)).

(** [width] bytes, most significant first, of [n] modulo [256 ^ width]. *)
Fixpoint be (width : nat) (n : Z) : list byte :=
  match width with
  | O => []
  | S w => ToUint8 (n / 256 ^ Z.of_nat w) :: be w n
  end.

Definition encodeInt (z : Z) : list byte :=
  if (-32 <=? z) && (z <? 128) then [ToUint8 z]
  else if 0 <=? z then
    if z <? 256 then xcc :: be 1 z
    else if z <? 65536 then xcd :: be 2 z
    else if z <? 4294967296 then xce :: be 4 z
    else xcf :: be 8 z
  else
    if -128 <=? z then xd0 :: be 1 z
    else if -32768 <=? z then xd1 :: be 2 z
    else if -2147483648 <=? z then xd2 :: be 4 z
    else xd3 :: be 8 z.

Definition strHeader (n : Z) : list byte :=
  if n <? 32 then [ToUint8 (160 + n)]
  else if n <? 256 then xd9 :: be 1 n
  else if n <? 65536 then xda :: be 2 n
  else xdb :: be 4 n.

Definition binHeader (n : Z) : list byte :=
  if n <? 256 then xc4 :: be 1 n
  else if n <? 65536 then xc5 :: be 2 n
  else xc6 :: be 4 n.

Definition arrayHeader (n : Z) : list byte :=
  if n <? 16 then [ToUint8 (144 + n)]
  else if n <? 65536 then xdc :: be 2 n
  else xdd :: be 4 n.

Definition mapHeader (n : Z) : list byte :=
  if n <? 16 then [ToUint8 (128 + n)]
  else if n <? 65536 then xde :: be 2 n
  else xdf :: be 4 n.

Definition extHeader (n : Z) : list byte :=
  if n =? 1 then [xd4]
  else if n =? 2 then [xd5]
  else if n =? 4 then [xd6]
  else if n =? 8 then [xd7]
  else if n =? 16 then [xd8]
  else if n <? 256 then xc7 :: be 1 n
  else if n <? 65536 then xc8 :: be 2 n
  else xc9 :: be 4 n.

Fixpoint encode (v : mvalue) : list byte :=
  match v with
  | VNil => [xc0]
  | VBool false => [xc2]
  | VBool true => [xc3]
  | VInt z => encodeInt z
  | VFloat32 bits => xca :: be 4 (Z.of_N bits)
  | VFloat64 bits => xcb :: be 8 (Z.of_N bits)
  | VStr text => strHeader (len text) ++ text
  | VBin bytes => binHeader (len bytes) ++ bytes
  | VExt type payload => extHeader (len payload) ++ ToUint8 type :: payload
  | VArray items => arrayHeader (len items) ++ flat_map encode items
  | VMap entries =>
      mapHeader (len entries)
      ++ flat_map (fun kv => encode (fst kv) ++ encode (snd kv)) entries
  end.

Definition notExt (v : mvalue) : Prop :=
  match v with VExt _ _ => False | _ => True end.

(** The values the format can hold and the parser gives back: integers of
    at most 64 bits, lengths below 2^32, text in ASCII, floats whose bits
    are those of a number or of the quiet NaN, an extension type that fits a
    signed byte; and no extension as the value of a map entry (the parser
    drops the key of such an entry). *)
Fixpoint encodable (v : mvalue) : Prop :=
  match v with
  | VNil | VBool _ => True
  | VInt z => -9223372036854775808 <= z < 18446744073709551616
  | VFloat32 bits => Z.of_N bits < 4294967296 /\ number32 bits = bits
  | VFloat64 bits =>
      Z.of_N bits < 18446744073709551616 /\ number64 bits = bits
  | VStr text =>
      len text < 4294967296 /\ Forall (fun b => byteValue b < 128) text
  | VBin bytes => len bytes < 4294967296
  | VExt type payload => -128 <= type <= 127 /\ len payload < 4294967296
  | VArray items =>
      len items < 4294967296
      /\ fold_right (fun x acc => encodable x /\ acc) True items
  | VMap entries =>
      len entries < 4294967296
      /\ fold_right (fun kv acc => encodable (fst kv) /\ encodable (snd kv)
                                   /\ notExt (snd kv) /\ acc) True entries
  end.

(** The value a primitive of a node stands for. *)
Definition primitiveOf (v : jsvalue) : mvalue :=
  match v with
  | JNull => VNil
  | JBool b => VBool b
  | JNumber z | JBigInt z => VInt z
  | JFloat32 bits => VFloat32 bits
  | JFloat64 bits => VFloat64 bits
  | JString s => VStr (Uint8Array_from s)
  | JBytes bytes => VBin bytes
  end.

(** The value a tree stands for: identities and labels forgotten, the key
    of a map entry read from the [key] of its value node. *)
Fixpoint valueOf (n : ParsedNode) : mvalue :=
  match n with
  | mkNode _ _ v t _ ch _ m =>
      match t with
      | ARRAY =>
          VArray (match ch with Some items => map valueOf items | None => [] end)
      | MAP =>
          VMap (match ch with
                | Some items =>
                    map (fun c =>
                           (match key c with
                            | Some (KeyNode k) => valueOf k
                            | Some (KeyPrimitive p) => primitiveOf p
                            | None => VNil
                            end, valueOf c)) items
                | None => []
                end)
      | EXTENSION =>
          VExt (match m with Some t => t | None => 0 end)
               (match v with JBytes bytes => bytes | _ => [] end)
      | _ => primitiveOf v
      end
  end.

(** The entry of a map that a child node stands for. *)
Definition entryOf (c : ParsedNode) : mvalue * mvalue :=
  (match key c with
   | Some (KeyNode k) => valueOf k
   | Some (KeyPrimitive p) => primitiveOf p
   | None => VNil
   end, valueOf c).

(** [decodesTo v]: wherever the bytes of [v] start the remaining input,
    whatever follows them, [parse] returns a node that stands for [v] and
    has consumed exactly those bytes, for every bound on the nesting that is
    large enough. Unless [v] is an extension, the node carries the key it
    was given. *)
Definition decodesTo (v : mvalue) : Prop :=
  forall given rest c,
  exists n c' F0,
    (forall F, (F0 <= F)%nat ->
       parse_fuel F given (encode v ++ rest) (mkState 0 c)
       = Ok n (mkState (bufferLength (encode v)) c'))
    /\ valueOf n = v
    /\ (notExt v -> key n = given).

(* ===================================================================== *)
(** ** Sample runs                                                        *)
(* ===================================================================== *)

Example str_key : str "key" = [107; 101; 121].
Proof. reflexivity. Qed.

Example atob_Man : atob (str "TWFu") = Some (str "Man")
  /\ atob (str "TWE=") = Some (str "Ma") /\ atob (str "TQ==") = Some (str "M")
  /\ atob (str "a===") = None /\ atob (str "TQ") = Some (str "M")
  /\ btoa (str "Man") = str "TWFu" /\ btoa (str "Ma") = str "TWE="
  /\ btoa (str "M") = str "TQ==".
Proof. repeat split; reflexivity. Qed.

Example utf8_samples :
  TextDecoder_decode [xe2; x82; xac] = [8364]
  /\ TextDecoder_decode [xf0; x9f; x98; x80] = [55357; 56832]
  /\ TextDecoder_decode [xef; xbb; xbf; x61] = [97]
  /\ TextDecoder_decode [xc3; x28] = [65533; 40]
  /\ TextDecoder_decode [xed; xa0; x80] = [65533; 65533; 65533]
  /\ TextDecoder_decode [xe2; x82] = [65533].
Proof. repeat split; reflexivity. Qed.

Example parseHex_ex1 :
  parseHex (str "81a3666f6f") = Normal [x81; xa3; x66; x6f; x6f].
Proof. reflexivity. Qed.

Example parseHex_ex2 :
  parseHex (str "0xAB") = parseHex (str "ab")
  /\ parseHex (str "81 a3 6b") = Normal [x81; xa3; x6b]
  /\ parseHex (str "") = Throw (Error (str "Invalid Hex characters"))
  /\ parseHex (str "abc") = Throw (Error (str "Invalid Hex string length")).
Proof. repeat split; reflexivity. Qed.

Example parsePythonBytes_ex :
  parsePythonBytes (str "b'\x81\xa3key\xa5value'")
  = [x81; xa3; x6b; x65; x79; xa5; x76; x61; x6c; x75; x65]
  /\ parsePythonBytes (str "\xZZ\n\q\") = [x5c; x78; x5a; x5a; x0a; x71; x5c]
  /\ parsePythonBytes (str "b'\x4") = [x5c; x78; x34].
Proof. repeat split; reflexivity. Qed.

Example autoDetect_ex :
  autoDetectAndDecode (str "8000") = Normal ([x80; x00], HEX)
  /\ autoDetectAndDecode (str "gaNrZXmldmFsdWU=")
     = Normal ([x81; xa3; x6b; x65; x79; xa5; x76; x61; x6c; x75; x65], BASE64)
  /\ autoDetectAndDecode (str "\x81\x01") = Normal ([x81; x01], PYTHON)
  /\ autoDetect_run (str "a===")
     = (Throw (Error (str
          "Could not auto-detect format. Please select one manually.")),
        [str "Base64: Error: Invalid Base64 string"]).
Proof. repeat split; reflexivity. Qed.

Example decode_unknown_tag :
  decode [xc1]
  = Raise (Error (str "Unknown byte 0xc1 at offset 0")) (mkState 1 1).
Proof. reflexivity. Qed.

Example decode_negative_fixint_and_int8 :
  option_map value (data (fst (parseMsgpack (str "ff") HEX 0%N)))
  = Some (JNumber (-1))
  /\ option_map value (data (fst (parseMsgpack (str "d080") HEX 0%N)))
     = Some (JNumber (-128)).
Proof. split; reflexivity. Qed.

(** A map with an array key and a 64-bit key: the array key is kept as a
    node, the 64-bit key is unwrapped and its node (node-4) dropped. *)
Example stamps_nested_keys :
  option_map stamps
    (data (fst (parseMsgpack (str "82919001d3ffffffffffffffff02") HEX 0%N)))
  = Some [idOf 0; idOf 1; idOf 2; idOf 3; idOf 5].
Proof. reflexivity. Qed.

(** A declared length of 2^32 - 1 elements costs nothing before the buffer
    runs out. *)
Example decode_huge_array :
  decode [xdd; xff; xff; xff; xff; x01]
  = Raise (Error (str "Unexpected end of input")) (mkState 6 2).
Proof. reflexivity. Qed.

(* ===================================================================== *)
(** ** Facts about the string built-ins                                    *)
(* ===================================================================== *)

Lemma len_nonneg {A} (s : list A) : 0 <= len s.
Proof. unfold len. lia. Qed.

Lemma len_app {A} (s t : list A) : len (s ++ t) = len s + len t.
Proof. unfold len. rewrite length_app. lia. Qed.

Lemma len_cons {A} (a : A) (s : list A) : len (a :: s) = 1 + len s.
Proof. unfold len. simpl length. lia. Qed.

Lemma len_nil {A} : len (@nil A) = 0.
Proof. reflexivity. Qed.

Lemma charCodeAt_app (pre post : jsstring) (i : Z) :
  0 <= i -> charCodeAt (pre ++ post) (len pre + i) = charCodeAt post i.
Proof.
  intros Hi. unfold charCodeAt, len.
  replace (Z.to_nat (Z.of_nat (length pre) + i))
    with (length pre + Z.to_nat i)%nat by lia.
  now rewrite app_nth2_plus.
Qed.

Lemma skipn_len_app (pre post : jsstring) (i : Z) :
  0 <= i -> skipn (Z.to_nat (len pre + i)) (pre ++ post) = skipn (Z.to_nat i) post.
Proof.
  intros Hi. unfold len.
  replace (Z.to_nat (Z.of_nat (length pre) + i))
    with (length pre + Z.to_nat i)%nat by lia.
  rewrite skipn_app, skipn_all2 by lia.
  simpl. f_equal. lia.
Qed.

(** [substring] inside a suffix: the prefix only shifts the indices. *)
Lemma substring_app (pre post : jsstring) (a b : Z) :
  0 <= a <= b -> b <= len post ->
  substring (pre ++ post) (len pre + a) (len pre + b) = substring post a b.
Proof.
  intros Ha Hb. unfold substring. rewrite len_app.
  pose proof (len_nonneg pre) as Hp.
  replace (Z.max 0 (Z.min (len pre + a) (len pre + len post)))
    with (len pre + a) by lia.
  replace (Z.max 0 (Z.min (len pre + b) (len pre + len post)))
    with (len pre + b) by lia.
  replace (Z.max 0 (Z.min a (len post))) with a by lia.
  replace (Z.max 0 (Z.min b (len post))) with b by lia.
  replace (Z.min (len pre + a) (len pre + b)) with (len pre + a) by lia.
  replace (Z.max (len pre + a) (len pre + b)) with (len pre + b) by lia.
  replace (Z.min a b) with a by lia.
  replace (Z.max a b) with b by lia.
  rewrite skipn_len_app by lia.
  f_equal. lia.
Qed.

Lemma substring_head2 (a b : Z) (rest : jsstring) :
  substring (a :: b :: rest) 0 2 = [a; b].
Proof.
  unfold substring. rewrite !len_cons.
  pose proof (len_nonneg rest).
  replace (Z.max 0 (Z.min 0 (1 + (1 + len rest)))) with 0 by lia.
  replace (Z.max 0 (Z.min 2 (1 + (1 + len rest)))) with 2 by lia.
  reflexivity.
Qed.

Lemma substring_short (s : jsstring) (a b : Z) :
  0 <= a <= b -> length (substring s a b) = Z.to_nat (Z.min b (len s) - Z.min a (len s)).
Proof.
  intros H. unfold substring.
  pose proof (len_nonneg s) as Hs.
  rewrite length_firstn, length_skipn. unfold len in *. lia.
Qed.

Lemma isHexDigit_value (c : Z) :
  isHexDigit c = true -> 0 <= hexDigitValue c < 16.
Proof.
  unfold isHexDigit, hexDigitValue, isDigit. intros H.
  destruct (48 <=? c) eqn:E1, (c <=? 57) eqn:E2,
           (97 <=? c) eqn:E3, (c <=? 102) eqn:E4,
           (65 <=? c) eqn:E5, (c <=? 70) eqn:E6;
    simpl in *; try discriminate; lia.
Qed.

Lemma isWhiteSpace_not_hex (c : Z) :
  isHexDigit c = true -> isWhiteSpace c = false.
Proof.
  unfold isHexDigit, isWhiteSpace, isDigit. intros H.
  destruct (48 <=? c) eqn:E1, (c <=? 57) eqn:E2,
           (97 <=? c) eqn:E3, (c <=? 102) eqn:E4,
           (65 <=? c) eqn:E5, (c <=? 70) eqn:E6;
    simpl in H; try discriminate;
    repeat match goal with
      | |- context [?x =? ?y] => destruct (Z.eqb_spec x y); [lia|]
      | |- context [?x <=? ?y] => destruct (Z.leb_spec x y); [|try lia]
      end; simpl; try reflexivity; try lia.
Qed.

Lemma byteValue_ToUint8 (n : Z) : byteValue (ToUint8 n) = n mod 256.
Proof.
  unfold byteValue, ToUint8.
  pose proof (Z.mod_pos_bound n 256 ltac:(lia)) as Hn.
  destruct (Byte.of_N (Z.to_N (n mod 256))) as [b|] eqn:E.
  - apply Byte.to_of_N in E. rewrite E. lia.
  - apply Byte.of_N_None_iff in E. lia.
Qed.

Lemma byteValue_range (b : byte) : 0 <= byteValue b < 256.
Proof. unfold byteValue. pose proof (Byte.to_N_bounded b). lia. Qed.

Lemma parseInt16_pair (a b : Z) :
  parseInt16 [a; b] = 16 * hexDigitValue a + hexDigitValue b.
Proof. unfold parseInt16. cbv [fold_left]. lia. Qed.

(** The byte of a pair of hexadecimal digits has the value the pair
    denotes. *)
Lemma hexPair_value (a b : Z) :
  isHexDigit a = true -> isHexDigit b = true ->
  byteValue (ToUint8 (16 * hexDigitValue a + hexDigitValue b))
  = 16 * hexDigitValue a + hexDigitValue b.
Proof.
  intros Ha Hb. apply isHexDigit_value in Ha, Hb.
  rewrite byteValue_ToUint8, Z.mod_small; lia.
Qed.

(* ===================================================================== *)
(** ** Hex recovery                                                        *)
(* ===================================================================== *)

Lemma Uint8Array_set_app (done rest : list byte) (x : byte) (v : Z) :
  Uint8Array_set (done ++ x :: rest) (length done) v
  = done ++ ToUint8 v :: rest.
Proof. induction done as [|d done IH]; simpl; [reflexivity | now rewrite IH]. Qed.

(** The loop fills the array with the bytes of the pairs, left to right. *)
Lemma parseHex_loop_pairs (fuel : nat) :
  forall (m : nat) (pre post : jsstring) (done : list byte),
    length post = (2 * m)%nat ->
    forallb isHexDigit post = true ->
    length pre = (2 * length done)%nat ->
    (m <= fuel)%nat ->
    parseHex_loop fuel (pre ++ post) (len pre) (done ++ repeat x00 m)
    = done ++ bytePairs post.
Proof.
  induction fuel as [|fuel IH]; intros m pre post done Hlen Hhex Hpre Hfuel.
  - assert (m = 0%nat) by lia. subst m.
    destruct post; [reflexivity | discriminate].
  - simpl parseHex_loop.
    destruct post as [|a [|b post]].
    + assert (m = 0%nat) by (simpl in Hlen; lia). subst m.
      rewrite app_nil_r, Z.ltb_irrefl. reflexivity.
    + simpl in Hlen. lia.
    + destruct m as [|m]; [simpl in Hlen; lia|].
      simpl in Hhex. apply andb_prop in Hhex as [Ha Hhex].
      apply andb_prop in Hhex as [Hb Hhex].
      rewrite len_app, !len_cons.
      pose proof (len_nonneg post) as Hp.
      destruct (Z.ltb_spec (len pre) (len pre + (1 + (1 + len post))));
        [|lia].
      replace (len pre) with (len pre + 0) at 2 3 by lia.
      rewrite substring_app by (rewrite ?len_cons; lia).
      rewrite Z.add_0_r, substring_head2.
      replace (Z.to_nat (len pre / 2)) with (length done).
      2:{ unfold len. rewrite Hpre, Nat2Z.inj_mul, Z.mul_comm, Z.div_mul by lia.
          lia. }
      simpl repeat. rewrite Uint8Array_set_app, parseInt16_pair.
      replace (pre ++ a :: b :: post) with ((pre ++ [a; b]) ++ post)
        by (rewrite <- app_assoc; reflexivity).
      replace (len pre + 2) with (len (pre ++ [a; b]))
        by (rewrite len_app; reflexivity).
      replace (done ++ ToUint8 (16 * hexDigitValue a + hexDigitValue b)
                         :: repeat x00 m)
        with ((done ++ [ToUint8 (16 * hexDigitValue a + hexDigitValue b)])
                ++ repeat x00 m)
        by (rewrite <- app_assoc; reflexivity).
      rewrite (IH m); try assumption.
      * rewrite <- app_assoc. reflexivity.
      * simpl in Hlen. lia.
      * rewrite !length_app. simpl. lia.
      * lia.
Qed.

Lemma hexRe_test_spec (s : jsstring) :
  hexRe_test s = true <-> s <> [] /\ forallb isHexDigit s = true.
Proof.
  destruct s as [|c s].
  - split; [discriminate | intros [H _]; now elim H].
  - split; [intros H; split; [discriminate | exact H] | intros [_ H]; exact H].
Qed.

Lemma even_length (s : jsstring) :
  len s mod 2 = 0 -> exists m, length s = (2 * m)%nat.
Proof.
  intros H. exists (Z.to_nat (len s / 2)).
  pose proof (Z.div_mod (len s) 2 ltac:(lia)) as D.
  unfold len in *. lia.
Qed.

(** On well-formed text [parseHex] returns the bytes of the digit pairs. *)
Lemma parseHex_valid (s : jsstring) :
  len (hexClean s) mod 2 = 0 -> hexRe_test (hexClean s) = true ->
  parseHex s = Normal (bytePairs (hexClean s)).
Proof.
  intros Heven Hre. unfold parseHex.
  rewrite Heven, Hre. simpl.
  apply hexRe_test_spec in Hre as [_ Hhex].
  destruct (even_length _ Heven) as [m Hm].
  f_equal.
  assert (Hz : Z.to_nat (len (hexClean s) / 2) = m).
  { unfold len. rewrite Hm, Nat2Z.inj_mul, Z.mul_comm, Z.div_mul by lia. lia. }
  rewrite Hz.
  apply (parseHex_loop_pairs (length (hexClean s)) m [] (hexClean s) []);
    try assumption; try reflexivity. lia.
Qed.

Lemma hexClean_no_whitespace (s : jsstring) :
  forallb (fun c => negb (isWhiteSpace c)) (hexClean s) = true.
Proof.
  unfold hexClean, replace_whitespace. apply forallb_forall.
  intros c Hc. apply filter_In in Hc. tauto.
Qed.

(** C6, as the specification words it, fails on blank text: nothing is left
    after stripping, the length 0 is even and no character is a non-digit,
    and yet [parseHex] throws, because [hexRe] asks for at least one digit. *)
Lemma parseHex_blank_counterexample :
  ~ ((exists e, parseHex (str "") = Throw e)
     <-> (len (hexClean (str "")) mod 2 <> 0
          \/ forallb isHexDigit (hexClean (str "")) = false)).
Proof.
  intros [H _].
  destruct H as [H | H].
  - eexists. reflexivity.
  - apply H. reflexivity.
  - discriminate H.
Qed.

(** C6 (amended): [parseHex] strips an optional leading [0x] and all
    whitespace; it fails, with one of the two malformed-input messages,
    exactly when the remaining text is empty, has odd length or contains a
    character that is not a hexadecimal digit; otherwise it returns the bytes
    of the consecutive digit pairs, high digit first. The two examples of the
    specification hold. *)
Theorem parseHex_spec (s : jsstring) :
  let clean := hexClean s in
  clean = replace_whitespace (replace_leading_0x s)
  /\ forallb (fun c => negb (isWhiteSpace c)) clean = true
  /\ ((exists e, parseHex s = Throw e)
      <-> (clean = [] \/ len clean mod 2 <> 0
           \/ forallb isHexDigit clean = false))
  /\ (forall e, parseHex s = Throw e ->
        e = Error (str "Invalid Hex string length")
        \/ e = Error (str "Invalid Hex characters"))
  /\ (forall bytes, parseHex s = Normal bytes -> bytes = bytePairs clean)
  /\ (forall hi lo, isHexDigit hi = true -> isHexDigit lo = true ->
        byteValue (ToUint8 (16 * hexDigitValue hi + hexDigitValue lo))
        = 16 * hexDigitValue hi + hexDigitValue lo)
  /\ parseHex (str "81a3666f6f") = Normal [x81; xa3; x66; x6f; x6f]
  /\ parseHex (str "0xAB") = parseHex (str "ab").
Proof.
  intros clean. subst clean.
  split; [reflexivity|].
  split; [apply hexClean_no_whitespace|].
  split; [|split; [|split; [|split; [exact hexPair_value|split; reflexivity]]]].
  - split.
    + intros [e He]. unfold parseHex in He.
      destruct (Z.eqb_spec (len (hexClean s) mod 2) 0) as [Hev|Hodd];
        simpl in He; [|now right; left].
      destruct (hexRe_test (hexClean s)) eqn:Hre; simpl in He;
        [discriminate|].
      destruct (hexClean s) as [|c cs] eqn:Hc; [now left|].
      right; right. exact Hre.
    + intros H. unfold parseHex.
      destruct (Z.eqb_spec (len (hexClean s) mod 2) 0) as [Hev|Hodd]; simpl;
        [|eexists; reflexivity].
      destruct (hexRe_test (hexClean s)) eqn:Hre; simpl;
        [|eexists; reflexivity].
      apply hexRe_test_spec in Hre as [Hne Hhex].
      destruct H as [H | [H | H]]; [contradiction | contradiction | congruence].
  - intros e He. unfold parseHex in He.
    destruct (negb (len (hexClean s) mod 2 =? 0));
      [left; congruence|].
    destruct (negb (hexRe_test (hexClean s))); [right; congruence|].
    discriminate.
  - intros bytes Hb.
    destruct (Z.eqb_spec (len (hexClean s) mod 2) 0) as [Hev|Hodd].
    + destruct (hexRe_test (hexClean s)) eqn:Hre.
      * rewrite (parseHex_valid s Hev Hre) in Hb. congruence.
      * unfold parseHex in Hb. rewrite Hre in Hb.
        destruct (negb (len (hexClean s) mod 2 =? 0)); discriminate.
    + unfold parseHex in Hb.
      destruct (Z.eqb_spec (len (hexClean s) mod 2) 0); [contradiction|].
      discriminate.
Qed.

Lemma parseHex_spec_witness :
  parseHex (str "0x81 a3") = Normal [x81; xa3]
  /\ [x81; xa3] = bytePairs (hexClean (str "0x81 a3")).
Proof.
  split; [reflexivity|].
  apply (proj1 (proj2 (proj2 (proj2 (proj2 (parseHex_spec (str "0x81 a3"))))))).
  reflexivity.
Defined.

(* ===================================================================== *)
(** ** Escaped-byte-string recovery                                        *)
(* ===================================================================== *)

(** The loop only appends to [bytes]. *)
Lemma parsePythonBytes_loop_acc (fuel : nat) :
  forall content i bytes,
    parsePythonBytes_loop fuel content i bytes
    = bytes ++ parsePythonBytes_loop fuel content i [].
Proof.
  induction fuel as [|fuel IH]; intros content i bytes; simpl.
  - now rewrite app_nil_r.
  - repeat match goal with
      | |- context [if ?c then _ else _] => destruct c
      end;
      rewrite ?app_nil_r; try reflexivity;
      rewrite (IH _ _ (bytes ++ _)), (IH _ _ (_ :: _));
      now rewrite <- app_assoc.
Qed.

(** Scanning a suffix does not depend on what stands before it. *)
Lemma parsePythonBytes_loop_shift (fuel : nat) :
  forall pre post i bytes, 0 <= i ->
    parsePythonBytes_loop fuel (pre ++ post) (len pre + i) bytes
    = parsePythonBytes_loop fuel post i bytes.
Proof.
  induction fuel as [|fuel IH]; intros pre post i bytes Hi; simpl;
    [reflexivity|].
  rewrite len_app.
  pose proof (len_nonneg post) as Hp.
  destruct (Z.ltb_spec i (len post)) as [Hlt|Hge];
    destruct (Z.ltb_spec (len pre + i) (len pre + len post)); try lia;
    [|reflexivity].
  rewrite charCodeAt_app by lia.
  destruct (charCodeAt post i =? BACKSLASH).
  - destruct (Z.geb_spec (i + 1) (len post));
      destruct (Z.geb_spec (len pre + i + 1) (len pre + len post)); try lia;
      [reflexivity|].
    replace (len pre + i + 1) with (len pre + (i + 1)) by lia.
    rewrite charCodeAt_app by lia.
    destruct (charCodeAt post (i + 1) =? code "x").
    + destruct (Z.ltb_spec (i + 3) (len post));
        destruct (Z.ltb_spec (len pre + i + 3) (len pre + len post)); try lia;
        simpl andb.
      * replace (len pre + i + 2) with (len pre + (i + 2)) by lia.
        replace (len pre + i + 4) with (len pre + (i + 4)) by lia.
        rewrite substring_app by lia.
        destruct (hex2_test (substring post (i + 2) (i + 4))); apply IH; lia.
      * replace (len pre + i + 2) with (len pre + (i + 2)) by lia.
        apply IH; lia.
    + replace (len pre + i + 2) with (len pre + (i + 2)) by lia.
      apply IH; lia.
  - replace (len pre + i + 1) with (len pre + (i + 1)) by lia.
    apply IH; lia.
Qed.

(** Once the scan can reach the end, more turns change nothing. *)
Lemma parsePythonBytes_loop_fuel (fuel1 : nat) :
  forall fuel2 content i bytes,
    len content - i <= Z.of_nat fuel1 -> len content - i <= Z.of_nat fuel2 ->
    parsePythonBytes_loop fuel1 content i bytes
    = parsePythonBytes_loop fuel2 content i bytes.
Proof.
  induction fuel1 as [|fuel1 IH]; intros fuel2 content i bytes H1 H2.
  - simpl. destruct fuel2; [reflexivity|]. simpl.
    destruct (Z.ltb_spec i (len content)); [lia | reflexivity].
  - destruct fuel2 as [|fuel2]; simpl.
    + destruct (Z.ltb_spec i (len content)); [lia | reflexivity].
    + repeat match goal with
        | |- context [if ?c then _ else _] => destruct c
        end; try reflexivity; apply IH; lia.
Qed.

(** Scanning from the end of [pre] is scanning [rest] on its own. *)
Lemma scan_from (pre rest bytes : list Z) (fuel : nat) :
  (length rest <= fuel)%nat ->
  parsePythonBytes_loop fuel (pre ++ rest) (len pre) bytes
  = bytes ++ scanEscapes rest.
Proof.
  intros Hf. unfold scanEscapes.
  replace (len pre) with (len pre + 0) by lia.
  rewrite parsePythonBytes_loop_shift by lia.
  rewrite parsePythonBytes_loop_acc.
  f_equal. apply parsePythonBytes_loop_fuel; unfold len; lia.
Qed.

Lemma hex2_test_firstn (rest : jsstring) :
  hex2_test (substring (BACKSLASH :: 120 :: rest) 2 4) = hex2_test (firstn 2 rest).
Proof.
  change (BACKSLASH :: 120 :: rest) with ([BACKSLASH; 120] ++ rest).
  destruct rest as [|a [|b rest]]; try reflexivity.
  change 2 with (len [BACKSLASH; 120] + 0) at 1.
  change 4 with (len [BACKSLASH; 120] + 2).
  rewrite substring_app, substring_head2; [reflexivity | lia |].
  rewrite !len_cons. pose proof (len_nonneg rest). lia.
Qed.

Ltac scan_head :=
  unfold scanEscapes at 1;
  match goal with
  | |- context [length (?c :: ?rest)] =>
      change (length (c :: rest)) with (S (length rest))
  end;
  cbn [parsePythonBytes_loop];
  rewrite !len_cons;
  match goal with
  | |- context [len ?rest] => pose proof (len_nonneg rest)
  end.

Lemma scan_plain (c : Z) (rest : jsstring) :
  c <> BACKSLASH -> scanEscapes (c :: rest) = c :: scanEscapes rest.
Proof.
  intros Hc. scan_head.
  destruct (Z.ltb_spec 0 (1 + len rest)); [|lia].
  change (charCodeAt (c :: rest) 0) with c.
  destruct (Z.eqb_spec c BACKSLASH); [contradiction|].
  change (c :: rest) with ([c] ++ rest).
  apply (scan_from [c] rest [c]). lia.
Qed.

Lemma scan_escape (c : Z) (rest : jsstring) :
  c <> code "x" ->
  scanEscapes (BACKSLASH :: c :: rest) = escapeCode c :: scanEscapes rest.
Proof.
  intros Hc. scan_head.
  destruct (Z.ltb_spec 0 (1 + (1 + len rest))); [|lia].
  change (charCodeAt (BACKSLASH :: c :: rest) 0) with BACKSLASH.
  rewrite Z.eqb_refl.
  destruct (Z.geb_spec (0 + 1) (1 + (1 + len rest))); [lia|].
  change (charCodeAt (BACKSLASH :: c :: rest) (0 + 1)) with c.
  destruct (Z.eqb_spec c (code "x")); [contradiction|].
  change (BACKSLASH :: c :: rest) with ([BACKSLASH; c] ++ rest).
  apply (scan_from [BACKSLASH; c] rest [_]). simpl. lia.
Qed.

Lemma scan_lone_backslash : scanEscapes [BACKSLASH] = [92].
Proof. reflexivity. Qed.

(** The character classes and digit values of the code are those of the
    hexadecimal numerals. *)
Lemma hexDigitOf_value (c d : Z) :
  hexDigitOf c d -> isHexDigit c = true /\ hexDigitValue c = d.
Proof.
  unfold hexDigitOf, isHexDigit, hexDigitValue, isDigit.
  change (code "0") with 48. change (code "a") with 97.
  change (code "A") with 65.
  intros [[H ->] | [H [-> | ->]]];
    repeat match goal with
           | |- context [?a <=? ?b] => destruct (Z.leb_spec a b)
           end; cbn [andb orb]; cbv iota; split; try reflexivity; lia.
Qed.

Lemma isHexDigit_hexDigitOf (c : Z) :
  isHexDigit c = true <-> exists d, hexDigitOf c d.
Proof.
  split.
  - unfold isHexDigit, isDigit, hexDigitOf.
    change (code "0") with 48. change (code "a") with 97.
    change (code "A") with 65. intros H.
    destruct (Z.leb_spec 48 c), (Z.leb_spec c 57); cbn in H;
      try (exists (c - 48); left; lia);
      destruct (Z.leb_spec 97 c), (Z.leb_spec c 102); cbn in H;
      try (exists (c - 87); right; lia);
      destruct (Z.leb_spec 65 c), (Z.leb_spec c 70); cbn in H;
      try (exists (c - 55); right; lia); discriminate H.
  - intros [d H]. exact (proj1 (hexDigitOf_value c d H)).
Qed.

Lemma scan_hex_escape (h1 h2 : Z) (rest : jsstring) :
  isHexDigit h1 = true -> isHexDigit h2 = true ->
  scanEscapes (BACKSLASH :: code "x" :: h1 :: h2 :: rest)
  = (16 * hexDigitValue h1 + hexDigitValue h2) :: scanEscapes rest.
Proof.
  intros H1 H2. scan_head.
  destruct (Z.ltb_spec 0 (1 + (1 + (1 + (1 + len rest))))); [|lia].
  change (charCodeAt (BACKSLASH :: code "x" :: h1 :: h2 :: rest) 0)
    with BACKSLASH.
  rewrite Z.eqb_refl.
  destruct (Z.geb_spec (0 + 1) (1 + (1 + (1 + (1 + len rest))))); [lia|].
  change (charCodeAt (BACKSLASH :: code "x" :: h1 :: h2 :: rest) (0 + 1))
    with (code "x").
  rewrite Z.eqb_refl.
  destruct (Z.ltb_spec (0 + 3) (1 + (1 + (1 + (1 + len rest))))); [|lia].
  change (0 + 2) with 2. change (0 + 4) with 4.
  change (code "x") with 120.
  assert (Hs : substring (BACKSLASH :: 120 :: h1 :: h2 :: rest) 2 4 = [h1; h2]).
  { change (BACKSLASH :: 120 :: h1 :: h2 :: rest)
      with ([BACKSLASH; 120] ++ h1 :: h2 :: rest).
    change 2 with (len [BACKSLASH; 120] + 0) at 1.
    change 4 with (len [BACKSLASH; 120] + 2).
    rewrite substring_app, substring_head2; [reflexivity | lia |].
    rewrite !len_cons. lia. }
  rewrite Hs. simpl hex2_test. rewrite H1, H2. simpl andb. cbv iota.
  change (BACKSLASH :: 120 :: h1 :: h2 :: rest)
    with ([BACKSLASH; 120; h1; h2] ++ rest).
  rewrite (scan_from [BACKSLASH; 120; h1; h2] rest) by (simpl; lia).
  simpl app. f_equal.
  unfold parseInt16. cbv [fold_left]. lia.
Qed.

Lemma scan_bad_hex_escape (rest : jsstring) :
  hex2_test (firstn 2 rest) = false ->
  scanEscapes (BACKSLASH :: code "x" :: rest) = 92 :: 120 :: scanEscapes rest.
Proof.
  intros Hbad. scan_head.
  destruct (Z.ltb_spec 0 (1 + (1 + len rest))); [|lia].
  change (charCodeAt (BACKSLASH :: code "x" :: rest) 0) with BACKSLASH.
  rewrite Z.eqb_refl.
  destruct (Z.geb_spec (0 + 1) (1 + (1 + len rest))); [lia|].
  change (charCodeAt (BACKSLASH :: code "x" :: rest) (0 + 1)) with (code "x").
  rewrite Z.eqb_refl.
  change (0 + 2) with 2. change (0 + 4) with 4. change (code "x") with 120.
  rewrite hex2_test_firstn, Hbad, andb_false_r.
  change (BACKSLASH :: 120 :: rest) with ([BACKSLASH; 120] ++ rest).
  apply (scan_from [BACKSLASH; 120] rest [92; 120]). simpl. lia.
Qed.

(** C5: the scan of [parsePythonBytes]. A [\xHH] with two hexadecimal digits
    gives the byte [HH], sixteen times the digit the first character stands
    for plus the digit of the second ([\x41] gives 65, in either case of the
    letters); a [\x] whose two digits are missing or invalid gives
    the bytes 92 and 120 and the scan resumes right after the [x]; the
    escapes n, r, t, backslash, double quote, quote and 0 give 10, 13, 9, 92,
    34, 39 and 0; any other escaped character gives its own code, the
    backslash dropped; a lone backslash at the end gives 92; any other
    character gives its code. No case throws: the function is total. The
    byte stored for each number is the number modulo 256. *)
Theorem parsePythonBytes_escapes :
  (forall h1 h2 d1 d2 rest, hexDigitOf h1 d1 -> hexDigitOf h2 d2 ->
     scanEscapes (BACKSLASH :: code "x" :: h1 :: h2 :: rest)
     = (16 * d1 + d2) :: scanEscapes rest)
  /\ (forall rest, hex2_test (firstn 2 rest) = false ->
        scanEscapes (BACKSLASH :: code "x" :: rest)
        = 92 :: 120 :: scanEscapes rest)
  /\ (forall rest,
        ~ (exists h1 h2 d1 d2 tail,
             rest = h1 :: h2 :: tail /\ hexDigitOf h1 d1 /\ hexDigitOf h2 d2) ->
        scanEscapes (BACKSLASH :: code "x" :: rest)
        = 92 :: 120 :: scanEscapes rest)
  /\ (parsePythonBytes (str "b'\x41\xfF\x0a'") = [x41; xff; x0a]
      /\ parsePythonBytes (str "\x4g\x7") = [x5c; x78; x34; x67; x5c; x78; x37])
  /\ (forall c rest, c <> code "x" ->
        scanEscapes (BACKSLASH :: c :: rest) = escapeCode c :: scanEscapes rest)
  /\ (escapeCode (code "n") = 10 /\ escapeCode (code "r") = 13
      /\ escapeCode (code "t") = 9 /\ escapeCode BACKSLASH = 92
      /\ escapeCode DQUOTE = 34 /\ escapeCode SQUOTE = 39
      /\ escapeCode (code "0") = 0)
  /\ (forall c, ~ In c [code "n"; code "r"; code "t"; BACKSLASH; DQUOTE;
                       SQUOTE; code "0"] -> escapeCode c = c)
  /\ scanEscapes [BACKSLASH] = [92]
  /\ (forall c rest, c <> BACKSLASH ->
        scanEscapes (c :: rest) = c :: scanEscapes rest)
  /\ (forall s, parsePythonBytes s
                = map ToUint8 (scanEscapes (stripQuotes (trim s))))
  /\ (forall n, byteValue (ToUint8 n) = n mod 256).
Proof.
  split.
  { intros h1 h2 d1 d2 rest H1 H2.
    destruct (hexDigitOf_value h1 d1 H1) as [T1 <-].
    destruct (hexDigitOf_value h2 d2 H2) as [T2 <-].
    now apply scan_hex_escape. }
  split; [exact scan_bad_hex_escape|].
  split.
  { intros rest H. apply scan_bad_hex_escape.
    destruct rest as [|h1 [|h2 tail]]; try reflexivity.
    cbn [firstn hex2_test].
    destruct (isHexDigit h1) eqn:E1; [|reflexivity].
    destruct (isHexDigit h2) eqn:E2; [|reflexivity].
    apply isHexDigit_hexDigitOf in E1, E2.
    destruct E1 as [d1 E1], E2 as [d2 E2].
    elim H. now exists h1, h2, d1, d2, tail. }
  split; [split; reflexivity|].
  split; [exact scan_escape|].
  split; [repeat split; reflexivity|].
  split.
  { intros c Hc. unfold escapeCode.
    repeat match goal with
      | |- context [?x =? ?y] =>
          destruct (Z.eqb_spec x y) as [->|];
          [exfalso; apply Hc; simpl; tauto|]
      end.
    reflexivity. }
  split; [exact scan_lone_backslash|].
  split; [exact scan_plain|].
  split; [reflexivity | exact byteValue_ToUint8].
Qed.

(* ===================================================================== *)
(** ** Format auto-detection                                               *)
(* ===================================================================== *)

Lemma base64_no_space (s : jsstring) :
  forallb isBase64Char s = true -> includes (str " ") s = false.
Proof.
  induction s as [|c s IH]; intros H; [reflexivity|].
  simpl in H. apply andb_prop in H as [Hc Hs].
  cbn [includes]. rewrite (IH Hs), orb_false_r.
  change (str " ") with [32]. cbn [startsWith].
  destruct (Z.eqb_spec 32 c) as [<-|]; [discriminate Hc | reflexivity].
Qed.

(** The source's third test, with its redundant blank check, is the gate. *)
Lemma base64Gate_source (clean : jsstring) :
  (len clean mod 4 =? 0) && base64Re_test clean
    && negb (includes (str " ") clean)
  = base64Gate clean.
Proof.
  unfold base64Gate.
  destruct (len clean mod 4 =? 0); [|reflexivity]. simpl.
  destruct (base64Re_test clean) eqn:E; [|reflexivity].
  destruct clean as [|c s]; [discriminate|].
  unfold base64Re_test in E. now rewrite base64_no_space.
Qed.

(** Text opening with a bytes-literal marker is never valid hex: the quote
    after the b stays. *)
Lemma pythonGate_not_hex (clean : jsstring) :
  pythonGate clean = true -> hexGate clean = false.
Proof.
  unfold pythonGate, hexGate, bquote, bdquote. intros H.
  destruct clean as [|c1 [|c2 rest]]; try discriminate H.
  { simpl in H. rewrite !andb_false_r in H. discriminate H. }
  assert (Hc : c1 = 98 /\ (c2 = 39 \/ c2 = 34)).
  { change (str "b'") with [98; 39] in H. unfold code, DQUOTE in H.
    cbn [startsWith] in H. change (Z.of_N (N_of_ascii "b")) with 98 in H.
    destruct (Z.eqb_spec 98 c1), (Z.eqb_spec 39 c2), (Z.eqb_spec 34 c2);
      simpl in H; try discriminate H; lia. }
  destruct Hc as [-> Hc2].
  assert (Hh : hexClean (98 :: c2 :: rest)
               = 98 :: c2 :: replace_whitespace rest).
  { destruct Hc2 as [-> | ->]; reflexivity. }
  rewrite Hh.
  assert (Hn : isHexDigit c2 = false) by (destruct Hc2 as [-> | ->]; reflexivity).
  cbn [hexRe_test forallb]. rewrite Hn.
  destruct (_ >? 0), (_ =? 0); reflexivity.
Qed.

Lemma hexGate_parseHex (clean : jsstring) :
  hexGate clean = true -> parseHex clean = Normal (bytePairs (hexClean clean)).
Proof.
  unfold hexGate. intros H.
  apply andb_prop in H as [H Hre]. apply andb_prop in H as [_ Hev].
  apply parseHex_valid; [now apply Z.eqb_eq | exact Hre].
Qed.

Lemma autoDetect_run_unfold (input : jsstring) :
  autoDetectAndDecode input =
  let clean := trim input in
  if pythonGate clean then Normal (parsePythonBytes clean, PYTHON)
  else if hexGate clean then
    match parseHex clean with
    | Normal bytes => Normal (bytes, HEX)
    | Throw _ =>
        Throw (Error (str
          "Could not auto-detect format. Please select one manually."))
    end
  else
    match (if base64Gate clean then parseBase64 clean
           else Throw (Error [])) with
    | Normal bytes => Normal (bytes, BASE64)
    | Throw _ =>
        if fallbackGate clean then Normal (parsePythonBytes clean, PYTHON)
        else Throw (Error (str
          "Could not auto-detect format. Please select one manually."))
    end.
Proof.
  unfold autoDetectAndDecode, autoDetect_run. cbv zeta.
  fold (pythonGate (trim input)). fold (hexGate (trim input)).
  rewrite base64Gate_source. fold (fallbackGate (trim input)).
  destruct (pythonGate (trim input)) eqn:Hpy; [reflexivity|].
  destruct (hexGate (trim input)) eqn:Hhex.
  - rewrite (hexGate_parseHex _ Hhex). reflexivity.
  - destruct (base64Gate (trim input)).
    + unfold attempt.
      destruct (parseBase64 (trim input)); [reflexivity|].
      destruct (fallbackGate (trim input)); reflexivity.
    + destruct (fallbackGate (trim input)); reflexivity.
Qed.

Lemma parsePythonBytes_escapes_witness :
  hexDigitOf (code "4") 4 /\ hexDigitOf (code "F") 15
  /\ scanEscapes (str "\x4F\q") = [79; 113].
Proof.
  assert (H4 : hexDigitOf (code "4") 4) by (left; split; [lia | reflexivity]).
  assert (HF : hexDigitOf (code "F") 15)
    by (right; split; [lia | right; reflexivity]).
  split; [exact H4|]. split; [exact HF|].
  exact (proj1 parsePythonBytes_escapes (code "4") (code "F") 4 15
           (str "\q") H4 HF).
Defined.

Lemma hexClean_stripped (clean : jsstring) : hexClean clean = stripped clean.
Proof.
  assert (W : forall text, replace_whitespace text = withoutWhitespace text).
  { induction text as [|c text IH]; [reflexivity|].
    unfold replace_whitespace in *. cbn [filter withoutWhitespace].
    rewrite IH. now destruct (isWhiteSpace c). }
  unfold hexClean, stripped, replace_leading_0x. rewrite W.
  destruct clean as [|c1 [|c2 rest]]; try reflexivity.
  - change (str "0x") with [48; 120]. cbn [startsWith].
    now rewrite andb_false_r.
  - change (str "0x") with [48; 120]. change (code "0") with 48.
    change (code "x") with 120. cbn [startsWith].
    rewrite andb_true_r, (Z.eqb_sym 48 c1), (Z.eqb_sym 120 c2).
    now destruct ((c1 =? 48) && (c2 =? 120)).
Qed.

(** C4: [autoDetectAndDecode] tries, on the trimmed text and in this order,
    the escaped-byte-string parse when the text opens with a bytes-literal
    marker, the hex parse when the stripped text is non-empty, of even length
    and all hexadecimal digits, the base64 parse when the length is a
    multiple of 4 and every character is a base64 character, and the
    escaped-byte-string parse again when the text contains a backslash-x; the
    first candidate that succeeds is the result. The stripped text is the
    trimmed text without a leading 0x and without whitespace: "0x12", which
    has the base64 shape, and "81 a3", which has not, resolve to [HEX], a 0x
    that is not leading is kept ("120x" resolves to [BASE64]). Hence text
    that passes the hex gate resolves to [HEX] whatever the base64 gate
    says, as "8000" does. *)
Theorem autoDetect_priority (input : jsstring) :
  let clean := trim input in
  (pythonGate clean = true ->
     autoDetectAndDecode input = Normal (parsePythonBytes clean, PYTHON))
  /\ (pythonGate clean = false -> hexGate clean = true ->
        autoDetectAndDecode input = Normal (bytePairs (hexClean clean), HEX))
  /\ (pythonGate clean = false -> hexGate clean = false ->
      base64Gate clean = true ->
      forall bytes, parseBase64 clean = Normal bytes ->
        autoDetectAndDecode input = Normal (bytes, BASE64))
  /\ (pythonGate clean = false -> hexGate clean = false ->
      (base64Gate clean = false \/ exists e, parseBase64 clean = Throw e) ->
      fallbackGate clean = true ->
        autoDetectAndDecode input = Normal (parsePythonBytes clean, PYTHON))
  /\ (hexGate clean = true ->
        autoDetectAndDecode input = Normal (bytePairs (hexClean clean), HEX))
  /\ (hexGate (trim (str "8000")) = true
      /\ base64Gate (trim (str "8000")) = true
      /\ autoDetectAndDecode (str "8000") = Normal ([x80; x00], HEX))
  /\ hexClean clean = stripped clean
  /\ (base64Gate (trim (str "0x12")) = true
      /\ autoDetectAndDecode (str "0x12") = Normal ([x12], HEX)
      /\ autoDetectAndDecode (str "81 a3") = Normal ([x81; xa3], HEX)
      /\ autoDetectAndDecode [48; 120; 56; 49; 9; 65; 51; 10]
         = Normal ([x81; xa3], HEX)
      /\ autoDetectAndDecode (str "120x") = Normal ([xd7; x6d; x31], BASE64)).
Proof.
  intros clean. subst clean. rewrite autoDetect_run_unfold. cbv zeta.
  repeat split; try reflexivity; try apply hexClean_stripped.
  - intros ->. reflexivity.
  - intros -> Hhex. rewrite Hhex, (hexGate_parseHex _ Hhex). reflexivity.
  - intros -> -> -> bytes ->. reflexivity.
  - intros -> -> Hb ->.
    destruct Hb as [-> | [e ->]]; [reflexivity|].
    destruct (base64Gate (trim input)); reflexivity.
  - intros Hhex.
    destruct (pythonGate (trim input)) eqn:Hpy.
    + apply pythonGate_not_hex in Hpy. congruence.
    + rewrite Hhex, (hexGate_parseHex _ Hhex). reflexivity.
Qed.

Lemma autoDetect_priority_witness :
  hexGate (trim (str " 0x12 ")) = true
  /\ base64Gate (trim (str " 0x12 ")) = true
  /\ stripped (trim (str " 0x12 ")) = str "12"
  /\ autoDetectAndDecode (str " 0x12 ") = Normal ([x12], HEX).
Proof.
  split; [reflexivity|]. split; [reflexivity|]. split; [reflexivity|].
  exact (proj1 (proj2 (proj2 (proj2 (proj2
           (autoDetect_priority (str " 0x12 "))))))
           eq_refl).
Defined.

(** C8: what [autoDetectAndDecode] throws is one [Error] with a fixed
    message, whatever was pushed to [errors]. On "a===" the base64 candidate
    is tried and fails, its message is pushed, and the error thrown does not
    carry it. *)
Theorem autoDetect_error_drops_candidates :
  (forall input e, autoDetectAndDecode input = Throw e -> e = Error undetected)
  /\ autoDetect_run (str "a===")
     = (Throw (Error undetected), [str "Base64: Error: Invalid Base64 string"])
  /\ includes (str "Base64") undetected = false
  /\ fst (parseMsgpack (str "a===") AUTO 0%N) = failure undetected.
Proof.
  split; [|repeat split; reflexivity].
  intros input e. rewrite autoDetect_run_unfold. cbv zeta.
  destruct (pythonGate (trim input)); [discriminate|].
  destruct (hexGate (trim input)).
  - destruct (parseHex (trim input)); [discriminate|].
    intros [= <-]. reflexivity.
  - destruct (if base64Gate (trim input) then parseBase64 (trim input)
              else Throw (Error [])); [discriminate|].
    destruct (fallbackGate (trim input)); [discriminate|].
    intros [= <-]. reflexivity.
Qed.

(* ===================================================================== *)
(** ** Blank input at the entry point                                      *)
(* ===================================================================== *)

Lemma trimStart_blank (s : jsstring) : blank s = true -> trimStart s = [].
Proof.
  induction s as [|c s IH]; [reflexivity|]. unfold blank. simpl.
  intros H. apply andb_prop in H as [-> Hs]. now apply IH.
Qed.

Lemma trim_blank (s : jsstring) : blank s = true -> trim s = [].
Proof. intros H. unfold trim, trimEnd. now rewrite (trimStart_blank s H). Qed.

Lemma hexClean_blank (s : jsstring) : blank s = true -> hexClean s = [].
Proof.
  intros H. unfold hexClean, replace_leading_0x.
  assert (Hs : startsWith (str "0x") s = false).
  { destruct s as [|c s]; [reflexivity|].
    unfold blank in H. simpl in H. apply andb_prop in H as [Hc _].
    change (str "0x") with [48; 120]. cbn [startsWith].
    destruct (Z.eqb_spec 48 c) as [<-|]; [discriminate Hc | reflexivity]. }
  rewrite Hs. unfold replace_whitespace.
  induction s as [|c s IH]; [reflexivity|].
  unfold blank in H. simpl in H. apply andb_prop in H as [Hc Hrest].
  simpl. rewrite Hc. simpl. apply IH; [exact Hrest|].
  destruct s as [|d s]; [reflexivity|].
  simpl in Hrest. apply andb_prop in Hrest as [Hd _].
  change (str "0x") with [48; 120]. cbn [startsWith].
  destruct (Z.eqb_spec 48 d) as [<-|]; [discriminate Hd | reflexivity].
Qed.

Lemma isAsciiWhitespace_isWhiteSpace (c : Z) :
  isAsciiWhitespace c = true -> isWhiteSpace c = true.
Proof.
  unfold isAsciiWhitespace, isWhiteSpace. intros H.
  repeat (apply orb_prop in H as [H|H]);
    apply Z.eqb_eq in H; subst c; reflexivity.
Qed.

Lemma isWhiteSpace_not_base64 (c : Z) :
  isWhiteSpace c = true -> base64Value c = None /\ c <> 61.
Proof.
  unfold isWhiteSpace. intros H.
  assert (Hc : c < 43 \/ 122 < c).
  { repeat (apply orb_prop in H as [H|H]);
      try (apply Z.eqb_eq in H; lia).
    apply andb_prop in H as [H1 H2]. apply Z.leb_le in H1. lia. }
  split; [|lia].
  unfold base64Value, isUpper, isLower, isDigit.
  repeat match goal with
    | |- context [?x <=? ?y] => destruct (Z.leb_spec x y); try lia
    | |- context [?x =? ?y] => destruct (Z.eqb_spec x y); try lia
    end; reflexivity.
Qed.

Lemma filter_negb_all {A} (p : A -> bool) (s : list A) :
  forallb p s = true -> filter (fun c => negb (p c)) s = [].
Proof.
  induction s as [|c s IH]; simpl; intros H; [reflexivity|].
  apply andb_prop in H as [-> H]. simpl. now apply IH.
Qed.

(** [atob] on blank text: the empty string when every character is ASCII
    whitespace, an [InvalidCharacterError] otherwise. *)
Lemma atob_blank (s : jsstring) :
  blank s = true ->
  atob s = if forallb isAsciiWhitespace s then Some [] else None.
Proof.
  intros Hb. unfold atob.
  set (d := filter (fun c => negb (isAsciiWhitespace c)) s).
  assert (Hd : blank d = true).
  { unfold blank, d. apply forallb_forall. intros c Hc.
    apply filter_In in Hc as [Hc _].
    unfold blank in Hb. rewrite forallb_forall in Hb. now apply Hb. }
  destruct (forallb isAsciiWhitespace s) eqn:Ha.
  - assert (d = []) as ->; [|reflexivity].
    unfold d. now apply filter_negb_all.
  - assert (Hne : d <> []).
    { unfold d. intros Hnil.
      assert (Hall : forallb isAsciiWhitespace s = true); [|congruence].
      apply forallb_forall. intros c Hc.
      destruct (isAsciiWhitespace c) eqn:E; [reflexivity|].
      assert (Hin : In c (filter (fun c => negb (isAsciiWhitespace c)) s))
        by (apply filter_In; rewrite E; tauto).
      rewrite Hnil in Hin. destruct Hin. }
    assert (Hpad : stripPadding d = d).
    { unfold stripPadding. destruct (len d mod 4 =? 0); [|reflexivity].
      assert (Hlast : forall p, p <> [] -> Forall (fun c => c = 61) p ->
                 endsWith p d = false).
      { intros p Hp Hall. unfold endsWith.
        destruct (rev p) as [|a p'] eqn:Ep.
        { apply (f_equal (@rev Z)) in Ep. rewrite rev_involutive in Ep.
          now elim Hp. }
        destruct (rev d) as [|b d'] eqn:Ed; [reflexivity|].
        cbn [startsWith].
        assert (a = 61).
        { rewrite Forall_forall in Hall. apply Hall, in_rev.
          rewrite Ep. now left. }
        assert (Hbws : isWhiteSpace b = true).
        { unfold blank in Hd. rewrite forallb_forall in Hd. apply Hd, in_rev.
          rewrite Ed. now left. }
        apply isWhiteSpace_not_base64 in Hbws as [_ Hb61].
        subst a. destruct (Z.eqb_spec 61 b); [congruence | reflexivity]. }
      rewrite (Hlast (str "==")), (Hlast (str "=")); try discriminate;
        try reflexivity; repeat constructor. }
    rewrite Hpad.
    destruct d as [|c d']; [now elim Hne|].
    unfold blank in Hd. simpl in Hd. apply andb_prop in Hd as [Hc _].
    apply isWhiteSpace_not_base64 in Hc as [Hc _].
    cbn [base64Values]. rewrite Hc.
    destruct (_ =? 1); reflexivity.
Qed.

Lemma autoDetect_error_drops_candidates_witness :
  autoDetectAndDecode (str "a===") = Throw (Error undetected)
  /\ Error undetected = Error undetected.
Proof.
  split; [reflexivity|].
  apply (proj1 autoDetect_error_drops_candidates (str "a===")). reflexivity.
Defined.

(** C7, as the specification words it, fails for the hex format (and for
    auto-detection): on blank text the recovery layer throws before the
    empty-bytes test of [parseMsgpack] is reached. *)
Lemma parseMsgpack_blank_counterexample :
  fst (parseMsgpack (str "") HEX 0%N) = failure (str "Invalid Hex characters")
  /\ fst (parseMsgpack (str "") HEX 0%N) <> failure (str "Empty input")
  /\ fst (parseMsgpack (str "  ") AUTO 0%N) = failure undetected
  /\ fst (parseMsgpack (str "  ") AUTO 0%N) <> failure (str "Empty input").
Proof. repeat split; try reflexivity; discriminate. Qed.

(** C7 (amended): on empty or whitespace-only text [parseMsgpack] runs the
    byte recovery of the requested format and never the tree decoder, and
    returns a failure without a tree: the dedicated empty-input failure for
    the escaped-byte-string format and, when every character is ASCII
    whitespace, for base64; the malformed-hex failure for hex; the
    undetected-format failure for auto-detection. The counter is left at 0. *)
Theorem parseMsgpack_blank (input : jsstring) (counter : N) :
  blank input = true ->
  parseMsgpack input PYTHON counter = (failure (str "Empty input"), 0%N)
  /\ parseMsgpack input BASE64 counter
     = (failure (if forallb isAsciiWhitespace input then str "Empty input"
                 else str "Invalid Base64 string"), 0%N)
  /\ parseMsgpack input HEX counter
     = (failure (str "Invalid Hex characters"), 0%N)
  /\ parseMsgpack input AUTO counter = (failure undetected, 0%N)
  /\ (forall format,
        success (fst (parseMsgpack input format counter)) = false
        /\ data (fst (parseMsgpack input format counter)) = None).
Proof.
  intros Hb.
  assert (Hpy : parseMsgpack input PYTHON counter
                = (failure (str "Empty input"), 0%N)).
  { unfold parseMsgpack, recoverBytes, parsePythonBytes.
    rewrite (trim_blank _ Hb). reflexivity. }
  assert (Hb64 : parseMsgpack input BASE64 counter
     = (failure (if forallb isAsciiWhitespace input then str "Empty input"
                 else str "Invalid Base64 string"), 0%N)).
  { unfold parseMsgpack, recoverBytes, parseBase64.
    rewrite (atob_blank _ Hb).
    destruct (forallb isAsciiWhitespace input); reflexivity. }
  assert (Hhex : parseMsgpack input HEX counter
                 = (failure (str "Invalid Hex characters"), 0%N)).
  { unfold parseMsgpack, recoverBytes, parseHex.
    rewrite (hexClean_blank _ Hb). reflexivity. }
  assert (Hauto : parseMsgpack input AUTO counter = (failure undetected, 0%N)).
  { unfold parseMsgpack, recoverBytes.
    rewrite autoDetect_run_unfold, (trim_blank _ Hb). reflexivity. }
  repeat split; try assumption;
    destruct format; rewrite ?Hpy, ?Hb64, ?Hhex, ?Hauto; reflexivity.
Qed.

Lemma parseMsgpack_blank_witness :
  blank (str "  ") = true
  /\ parseMsgpack (str "  ") HEX 5%N
     = (failure (str "Invalid Hex characters"), 0%N).
Proof.
  split; [reflexivity|].
  apply (parseMsgpack_blank (str "  ") 5%N). reflexivity.
Defined.

(* ===================================================================== *)
(** ** The parser reads only what lies before its cursor                   *)
(* ===================================================================== *)

Lemma bufferLength_app (buf more : list byte) :
  bufferLength (buf ++ more) = (bufferLength buf + bufferLength more)%N.
Proof. unfold bufferLength. rewrite length_app. lia. Qed.

Lemma bufferSlice_app (buf more : list byte) (start stop : N) :
  (stop <= bufferLength buf)%N ->
  bufferSlice (buf ++ more) start stop = bufferSlice buf start stop.
Proof.
  unfold bufferSlice, bufferLength. intros H.
  rewrite skipn_app, firstn_app, length_skipn.
  replace (N.to_nat (stop - start) - (length buf - N.to_nat start))%nat
    with 0%nat by lia.
  simpl. apply app_nil_r.
Qed.

Lemma Local_ret {A} (a : A) : Local (ret a).
Proof. intros buf more s. reflexivity. Qed.

Lemma Local_throw {A} (e : exn) : Local (@throw A e).
Proof. intros buf more s. right. reflexivity. Qed.

Lemma Local_outOfFuel {A} : Local (@outOfFuel A).
Proof. intros buf more s. exact I. Qed.

Lemma Local_bind {A B} (m : M A) (k : A -> M B) :
  Local m -> (forall a, Local (k a)) -> Local (bind m k).
Proof.
  intros Hm Hk buf more s. unfold bind.
  specialize (Hm buf more s). unfold carries in Hm.
  destruct (m buf s) as [a s'|e s'|]; [| |exact I].
  - rewrite Hm. apply Hk.
  - destruct Hm as [He | ->]; [now left | now right].
Qed.

Lemma Local_generateId : Local generateId.
Proof. intros buf more s. reflexivity. Qed.

Lemma Local_advance (n : N) : Local (advance n).
Proof. intros buf more s. reflexivity. Qed.

Lemma Local_readTag : Local readTag.
Proof.
  intros buf more s. unfold readTag. rewrite bufferLength_app.
  destruct (N.leb_spec (bufferLength buf) (offset s)).
  - left. left. reflexivity.
  - destruct (N.leb_spec (bufferLength buf + bufferLength more) (offset s));
      [lia|].
    simpl. rewrite app_nth1; [reflexivity|]. unfold bufferLength in *. lia.
Qed.

Lemma Local_getUint (width : N) : Local (getUint width).
Proof.
  intros buf more s. unfold getUint. rewrite bufferLength_app.
  destruct (N.ltb_spec (bufferLength buf) (offset s + width)).
  - left. right. right. right. reflexivity.
  - destruct (N.ltb_spec (bufferLength buf + bufferLength more)
                (offset s + width)); [lia|].
    simpl. now rewrite bufferSlice_app.
Qed.

Lemma Local_getInt (width : N) : Local (getInt width).
Proof.
  apply Local_bind; [apply Local_getUint | intro; apply Local_ret].
Qed.

Lemma Local_readString (length : N) : Local (readString length).
Proof.
  intros buf more s. unfold readString. cbv zeta. rewrite bufferLength_app.
  destruct (N.ltb_spec (bufferLength buf) (offset s + length)).
  - left. right. left. reflexivity.
  - destruct (N.ltb_spec (bufferLength buf + bufferLength more)
                (offset s + length)); [lia|].
    simpl. now rewrite bufferSlice_app.
Qed.

Lemma Local_readBin (length : N) : Local (readBin length).
Proof.
  intros buf more s. unfold readBin. cbv zeta. rewrite bufferLength_app.
  destruct (N.ltb_spec (bufferLength buf) (offset s + length)).
  - left. right. right. left. reflexivity.
  - destruct (N.ltb_spec (bufferLength buf + bufferLength more)
                (offset s + length)); [lia|].
    simpl. now rewrite bufferSlice_app.
Qed.

Lemma Local_unknown {A} (f : pstate -> exn) :
  Local (fun buf s => @throw A (f s) buf s).
Proof. intros buf more s. right. reflexivity. Qed.

Create HintDb local_db.
#[export] Hint Resolve Local_ret Local_throw Local_outOfFuel Local_generateId
  Local_advance Local_readTag Local_getUint Local_getInt Local_readString
  Local_readBin Local_unknown : local_db.

(** Split the body of [parse] along its tests and sequencing. *)
Ltac unfold_body :=
  unfold parseStep, parseTagged, container, sized, scalar, readExt,
    getUint8, getUint16, getUint32, getBigUint64, getInt8, getInt16, getInt32,
    getBigInt64, getFloat32, getFloat64;
  unfold leaf; cbv zeta.

Ltac local_step :=
  match goal with
  | |- Local (if ?c then _ else _) => destruct c
  | |- Local (bind _ _) => apply Local_bind; [|intro]
  | |- Local _ => solve [auto with local_db]
  end.

Lemma parseStep_Local (al ml : N -> M (list ParsedNode)) key :
  (forall len, Local (al len)) -> (forall len, Local (ml len)) ->
  Local (parseStep al ml key).
Proof.
  intros Hal Hml. unfold_body.
  apply Local_bind; [auto with local_db | intro byte].
  apply Local_bind; [auto with local_db | intro id].
  repeat local_step.
Qed.

Lemma parse_fuel_Local (fuel : nat) :
  (forall key, Local (parse_fuel fuel key))
  /\ (forall i len ch, Local (arrayItems fuel i len ch))
  /\ (forall i len ch, Local (mapEntries fuel i len ch)).
Proof.
  induction fuel as [|fuel (IHp & IHa & IHm)];
    [repeat split; intros; apply Local_outOfFuel|].
  repeat split.
  - intros key. simpl. apply parseStep_Local; auto.
  - intros i len ch. simpl.
    destruct (i <? len)%N; [|apply Local_ret].
    apply Local_bind; [apply IHp | intro; apply IHa].
  - intros i len ch. simpl.
    destruct (i <? len)%N; [|apply Local_ret].
    apply Local_bind; [apply IHp | intro].
    apply Local_bind; [apply IHp | intro; apply IHm].
Qed.

(* ===================================================================== *)
(** ** The recursion bound does not change a result                        *)
(* ===================================================================== *)

Lemma Approx_refl {A} (m : M A) : Approx m m.
Proof. intros buf s. now right. Qed.

Lemma Approx_trans {A} (m1 m2 m3 : M A) :
  Approx m1 m2 -> Approx m2 m3 -> Approx m1 m3.
Proof.
  intros H12 H23 buf s.
  destruct (H12 buf s) as [H | H]; [now left|].
  destruct (H23 buf s) as [H' | H']; [left | right]; congruence.
Qed.

Lemma Approx_outOfFuel {A} (m : M A) : Approx outOfFuel m.
Proof. intros buf s. now left. Qed.

Lemma Approx_bind {A B} (m m' : M A) (k k' : A -> M B) :
  Approx m m' -> (forall a, Approx (k a) (k' a)) ->
  Approx (bind m k) (bind m' k').
Proof.
  intros Hm Hk buf s. unfold bind.
  destruct (Hm buf s) as [H | H]; [rewrite H; now left|].
  rewrite <- H. destruct (m buf s); [apply Hk | now right | now left].
Qed.

Ltac approx_step :=
  match goal with
  | |- Approx (if ?c then _ else _) (if ?c then _ else _) => destruct c
  | |- Approx ?m ?m => apply Approx_refl
  | |- Approx (bind _ _) (bind _ _) => apply Approx_bind; [|intro]
  | H : forall len, Approx (?al len) _ |- Approx (?al _) _ => apply H
  end.

Lemma parseStep_Approx (al ml al' ml' : N -> M (list ParsedNode)) key :
  (forall len, Approx (al len) (al' len)) ->
  (forall len, Approx (ml len) (ml' len)) ->
  Approx (parseStep al ml key) (parseStep al' ml' key).
Proof.
  intros Hal Hml. unfold_body.
  apply Approx_bind; [apply Approx_refl | intro byte].
  apply Approx_bind; [apply Approx_refl | intro id].
  repeat approx_step.
Qed.

Lemma parse_fuel_S (fuel : nat) :
  (forall key, Approx (parse_fuel fuel key) (parse_fuel (S fuel) key))
  /\ (forall i len ch,
        Approx (arrayItems fuel i len ch) (arrayItems (S fuel) i len ch))
  /\ (forall i len ch,
        Approx (mapEntries fuel i len ch) (mapEntries (S fuel) i len ch)).
Proof.
  induction fuel as [|fuel (IHp & IHa & IHm)];
    [repeat split; intros; apply Approx_outOfFuel|].
  repeat split.
  - intros key. apply parseStep_Approx; intro; [apply IHa | apply IHm].
  - intros i len ch. change (arrayItems (S fuel) i len ch)
      with (if (i <? len)%N
            then bind (parse_fuel fuel None)
                   (fun v => arrayItems fuel (i + 1) len (ch ++ [v]))
            else ret ch).
    change (arrayItems (S (S fuel)) i len ch)
      with (if (i <? len)%N
            then bind (parse_fuel (S fuel) None)
                   (fun v => arrayItems (S fuel) (i + 1) len (ch ++ [v]))
            else ret ch).
    destruct (i <? len)%N; [|apply Approx_refl].
    apply Approx_bind; [apply IHp | intro; apply IHa].
  - intros i len ch. change (mapEntries (S fuel) i len ch)
      with (if (i <? len)%N
            then bind (parse_fuel fuel None) (fun k =>
                   bind (parse_fuel fuel (Some (getKey k)))
                     (fun v => mapEntries fuel (i + 1) len (ch ++ [v])))
            else ret ch).
    change (mapEntries (S (S fuel)) i len ch)
      with (if (i <? len)%N
            then bind (parse_fuel (S fuel) None) (fun k =>
                   bind (parse_fuel (S fuel) (Some (getKey k)))
                     (fun v => mapEntries (S fuel) (i + 1) len (ch ++ [v])))
            else ret ch).
    destruct (i <? len)%N; [|apply Approx_refl].
    apply Approx_bind; [apply IHp | intro].
    apply Approx_bind; [apply IHp | intro; apply IHm].
Qed.

(** A result obtained within some bound is obtained within any larger one. *)
Lemma parse_fuel_le (fuel fuel' : nat) key :
  (fuel <= fuel')%nat -> Approx (parse_fuel fuel key) (parse_fuel fuel' key).
Proof.
  induction 1 as [|f Hle IH]; [apply Approx_refl|].
  eapply Approx_trans; [exact IH | apply parse_fuel_S].
Qed.

(* ===================================================================== *)
(** ** Pre- and postconditions for parser methods                          *)
(* ===================================================================== *)

Lemma triple_bind {A B} oof buf P (m : M A) Q (k : A -> M B) R :
  triple oof buf P m Q -> (forall a, triple oof buf (Q a) (k a) R) ->
  triple oof buf P (bind m k) R.
Proof.
  intros Hm Hk s Hs. unfold bind. specialize (Hm s Hs).
  destruct (m buf s) as [a s'|e s'|]; [apply (Hk a s' Hm) | exact I | exact Hm].
Qed.

Lemma triple_ret {A} oof buf (P : pstate -> Prop) (a : A) (Q : A -> pstate -> Prop) :
  (forall s, P s -> Q a s) -> triple oof buf P (ret a) Q.
Proof. intros H s Hs. simpl. auto. Qed.

Lemma triple_throw {A} oof buf P (f : pstate -> exn) (Q : A -> pstate -> Prop) :
  triple oof buf P (fun b s => throw (f s) b s) Q.
Proof. intros s Hs. exact I. Qed.

Lemma triple_weaken {A} oof buf (P P' : pstate -> Prop) (m : M A)
    (Q Q' : A -> pstate -> Prop) :
  triple oof buf P m Q -> (forall s, P' s -> P s) ->
  (forall a s, Q a s -> Q' a s) -> triple oof buf P' m Q'.
Proof.
  intros H HP HQ s Hs. specialize (H s (HP s Hs)).
  destruct (m buf s); auto.
Qed.

(** *** Progress: the cursor stays inside the buffer and moves forward, the
    counter only grows, and the fuel of [parse] is never used up. *)

Section Progress.
Variable buf : list byte.
Variables o c : N.

Lemma keeps_ret {A} (a : A) : keeps buf o c (ret a).
Proof. apply triple_ret. auto. Qed.

Lemma keeps_generateId : keeps buf o c generateId.
Proof. intros s (H1 & H2 & H3). unfold inv. simpl. lia. Qed.

Lemma reach_getUint (width : N) :
  triple False buf (inv buf 0 o c) (getUint width)
    (fun _ => inv buf width o c).
Proof.
  intros s (H1 & H2 & H3). unfold getUint.
  destruct (N.ltb_spec (bufferLength buf) (offset s + width)); [exact I|].
  unfold inv. lia.
Qed.

Lemma reach_getInt (width : N) :
  triple False buf (inv buf 0 o c) (getInt width)
    (fun _ => inv buf width o c).
Proof.
  eapply triple_bind; [apply reach_getUint | intro; apply triple_ret; auto].
Qed.

Lemma reach_advance (width : N) :
  triple False buf (inv buf width o c) (advance width)
    (fun _ => inv buf 0 o c).
Proof. intros s (H1 & H2 & H3). unfold inv. simpl. lia. Qed.

Lemma keeps_readString (length : N) : keeps buf o c (readString length).
Proof.
  intros s (H1 & H2 & H3). unfold readString. cbv zeta.
  destruct (N.ltb_spec (bufferLength buf) (offset s + length)); [exact I|].
  unfold inv. simpl. lia.
Qed.

Lemma keeps_readBin (length : N) : keeps buf o c (readBin length).
Proof.
  intros s (H1 & H2 & H3). unfold readBin. cbv zeta.
  destruct (N.ltb_spec (bufferLength buf) (offset s + length)); [exact I|].
  unfold inv. simpl. lia.
Qed.

Ltac keeps_step Hal Hml :=
  match goal with
  | |- triple _ _ _ (if ?b then _ else _) _ => destruct b
  | |- triple _ _ _ (bind (getUint _) _) _ =>
      eapply triple_bind; [apply reach_getUint | intro]
  | |- triple _ _ _ (bind (getInt _) _) _ =>
      eapply triple_bind; [apply reach_getInt | intro]
  | |- triple _ _ _ (bind (advance _) _) _ =>
      eapply triple_bind; [apply reach_advance | intro]
  | |- triple _ _ _ (bind (readString _) _) _ =>
      eapply triple_bind; [apply keeps_readString | intro]
  | |- triple _ _ _ (bind (readBin _) _) _ =>
      eapply triple_bind; [apply keeps_readBin | intro]
  | |- triple _ _ _ (bind generateId _) _ =>
      eapply triple_bind; [apply keeps_generateId | intro]
  | |- triple _ _ _ (bind _ _) _ =>
      eapply triple_bind; [first [apply Hal | apply Hml] | intro]
  | |- triple _ _ _ (ret _) _ => apply keeps_ret
  | |- triple _ _ _ (fun b s => throw _ b s) _ => apply triple_throw
  | |- keeps _ _ _ _ => unfold keeps
  end.

Lemma keeps_parseTagged (al ml : N -> M (list ParsedNode)) key byte id :
  (forall len, keeps buf o c (al len)) ->
  (forall len, keeps buf o c (ml len)) ->
  keeps buf o c (parseTagged al ml key byte id).
Proof.
  intros Hal Hml. unfold_body. repeat keeps_step Hal Hml.
Qed.
End Progress.

Lemma keeps_vacuous {A} buf o c (m : M A) (Q : A -> pstate -> Prop) :
  (bufferLength buf < o)%N -> triple False buf (inv buf 0 o c) m Q.
Proof. intros H s (H1 & H2 & H3). lia. Qed.

(** One call of [parse], given loops that keep the invariant from any
    cursor position further on. *)
Lemma parseStep_progress buf o c (al ml : N -> M (list ParsedNode)) key :
  (forall o' c' len, (o < o' <= bufferLength buf)%N -> keeps buf o' c' (al len)) ->
  (forall o' c' len, (o < o' <= bufferLength buf)%N -> keeps buf o' c' (ml len)) ->
  triple False buf (inv buf 0 o c) (parseStep al ml key)
    (fun _ => inv buf 0 (o + 1) (c + 1)).
Proof.
  intros Hal Hml s (H1 & H2 & H3). unfold parseStep.
  unfold bind at 1. unfold readTag.
  destruct (N.leb_spec (bufferLength buf) (offset s)); [exact I|].
  set (byte := Byte.to_N _).
  set (s1 := mkState (offset s + 1) (nodeIdCounter s)).
  assert (T : triple False buf (inv buf 0 (offset s + 1) (nodeIdCounter s))
                (id <- generateId ;; parseTagged al ml key byte id)
                (fun _ => inv buf 0 (offset s + 1) (nodeIdCounter s + 1))).
  { eapply triple_bind with
      (Q := fun _ => inv buf 0 (offset s + 1) (nodeIdCounter s + 1)).
    - intros s' (G1 & G2 & G3). unfold inv. simpl. lia.
    - intro id. apply keeps_parseTagged; intro len; [apply Hal | apply Hml]; lia. }
  specialize (T s1). unfold inv in T at 1. simpl in T.
  specialize (T ltac:(lia)).
  destruct ((id <- generateId ;; parseTagged al ml key byte id) buf s1);
    try exact T.
  unfold inv in *. lia.
Qed.

Lemma parse_fuel_progress (buf : list byte) (fuel : nat) :
  (forall key o c,
      (2 * N.to_nat (bufferLength buf - o) + 1 <= fuel)%nat ->
      triple False buf (inv buf 0 o c) (parse_fuel fuel key)
        (fun _ => inv buf 0 (o + 1) (c + 1)))
  /\ (forall i len ch o c,
        (2 * N.to_nat (bufferLength buf - o) + 2 <= fuel)%nat ->
        keeps buf o c (arrayItems fuel i len ch))
  /\ (forall i len ch o c,
        (2 * N.to_nat (bufferLength buf - o) + 2 <= fuel)%nat ->
        keeps buf o c (mapEntries fuel i len ch)).
Proof.
  induction fuel as [|fuel (IHp & IHa & IHm)];
    [repeat split; intros; lia|].
  assert (Hnext : forall {A} (m : M A) o c,
             (2 * N.to_nat (bufferLength buf - o) + 2 <= S fuel)%nat ->
             (forall o' c',
                 (2 * N.to_nat (bufferLength buf - o') + 2 <= fuel)%nat ->
                 keeps buf o' c' m) ->
             keeps buf (o + 1) (c + 1) m).
  { intros A m o c Hf Hm.
    destruct (N.ltb_spec o (bufferLength buf));
      [apply Hm; lia | apply keeps_vacuous; lia]. }
  repeat split.
  - intros key o c Hf. simpl parse_fuel.
    apply parseStep_progress; intros o' c' len Ho;
      [apply IHa | apply IHm]; lia.
  - intros i len ch o c Hf. simpl arrayItems.
    destruct (i <? len)%N; [|apply keeps_ret].
    unfold keeps.
    eapply triple_bind; [apply IHp; lia | intro v].
    eapply triple_weaken with (P := inv buf 0 (o + 1) (c + 1));
      [apply Hnext; [exact Hf | intros; apply IHa; lia] | auto |].
    intros a s. unfold inv. lia.
  - intros i len ch o c Hf. simpl mapEntries.
    destruct (i <? len)%N; [|apply keeps_ret].
    unfold keeps.
    eapply triple_bind; [apply IHp; lia | intro k]. cbv zeta.
    eapply triple_bind with (Q := fun _ => inv buf 0 (o + 1) (c + 1)).
    + eapply triple_weaken with (P := inv buf 0 o c);
        [apply IHp; lia | unfold inv; intros; lia | auto].
    + intro v.
      eapply triple_weaken with (P := inv buf 0 (o + 1) (c + 1));
        [apply Hnext; [exact Hf | intros; apply IHm; lia] | auto |].
      intros a s. unfold inv. lia.
Qed.

(** [parse] is total: from a cursor inside the buffer it returns a node,
    having moved the cursor forward without leaving the buffer and having
    advanced the counter, or it throws. *)
Lemma parse_total (buf : list byte) (key : option (KeyValue ParsedNode))
    (s : pstate) :
  match parse key buf s with
  | Ok _ s' =>
      (offset s <= bufferLength buf ->
       offset s < offset s' <= bufferLength buf)%N
      /\ (nodeIdCounter s < nodeIdCounter s')%N
  | Raise _ _ => True
  | OutOfFuel => False
  end.
Proof.
  unfold parse.
  destruct (N.leb_spec (offset s) (bufferLength buf)) as [Hin|Hout].
  - pose proof (proj1 (parse_fuel_progress buf (2 * length buf + 1)) key
                  (offset s) (nodeIdCounter s)) as T.
    unfold bufferLength in *.
    specialize (T ltac:(lia) s). unfold inv in T.
    specialize (T ltac:(unfold bufferLength; lia)).
    destruct (parse_fuel _ key buf s); try exact T.
    unfold bufferLength in T. lia.
  - simpl. replace (length buf + (length buf + 0) + 1)%nat
      with (S (length buf + (length buf + 0)))%nat by lia.
    simpl. unfold parseStep, bind, readTag.
    destruct (N.leb_spec (bufferLength buf) (offset s)); [exact I | lia].
Qed.

(* ===================================================================== *)
(** ** The exceptions of the parser                                        *)
(* ===================================================================== *)

Lemma raises_bind {A B} E (m : M A) (k : A -> M B) :
  raises E m -> (forall a, raises E (k a)) -> raises E (bind m k).
Proof.
  intros Hm Hk buf s e s' H. unfold bind in H.
  destruct (m buf s) as [a s1|e1 s1|] eqn:Em; try discriminate.
  - exact (Hk a buf s1 e s' H).
  - injection H as <- <-. exact (Hm buf s e1 s1 Em).
Qed.

Lemma raises_pure {A} E (f : pstate -> A) (g : pstate -> pstate) :
  raises E (fun _ s => Ok (f s) (g s)).
Proof. intros buf s e s' H. discriminate. Qed.

Lemma raises_outOfFuel {A} E : raises E (@outOfFuel A).
Proof. intros buf s e s' H. discriminate. Qed.

Lemma raises_readTag : raises parseError readTag.
Proof.
  intros buf s e s' H. unfold readTag in H.
  destruct (_ <=? _)%N; [|discriminate].
  injection H as <- _. left. left. reflexivity.
Qed.

Lemma raises_getUint width : raises parseError (getUint width).
Proof.
  intros buf s e s' H. unfold getUint in H.
  destruct (_ <? _)%N; [|discriminate].
  injection H as <- _. left. right. right. right. reflexivity.
Qed.

Lemma raises_getInt width : raises parseError (getInt width).
Proof.
  apply raises_bind; [apply raises_getUint | intro; apply raises_pure].
Qed.

Lemma raises_readString length : raises parseError (readString length).
Proof.
  intros buf s e s' H. unfold readString in H. cbv zeta in H.
  destruct (_ <? _)%N; [|discriminate].
  injection H as <- _. left. right. left. reflexivity.
Qed.

Lemma raises_readBin length : raises parseError (readBin length).
Proof.
  intros buf s e s' H. unfold readBin in H. cbv zeta in H.
  destruct (_ <? _)%N; [|discriminate].
  injection H as <- _. left. right. right. left. reflexivity.
Qed.

Lemma raises_unknown {A} (byte : N) :
  raises parseError
    (fun buf s =>
       @throw A (Error (str "Unknown byte 0x" ++ toString16 (Z.of_N byte)
                        ++ str " at offset "
                        ++ toString (Z.of_N (offset s) - 1))) buf s).
Proof.
  intros buf s e s' H. injection H as <- _. right.
  exists (Z.of_N byte), (Z.of_N (offset s) - 1). reflexivity.
Qed.

Ltac raises_step Hal Hml :=
  match goal with
  | |- raises _ (if ?b then _ else _) => destruct b
  | |- raises _ (bind _ _) => apply raises_bind; [|intro]
  | |- raises _ (ret _) => apply raises_pure
  | |- raises _ (advance _) => apply raises_pure
  | |- raises _ generateId => apply raises_pure
  | |- raises _ (getUint _) => apply raises_getUint
  | |- raises _ (getInt _) => apply raises_getInt
  | |- raises _ (readString _) => apply raises_readString
  | |- raises _ (readBin _) => apply raises_readBin
  | |- raises _ readTag => apply raises_readTag
  | |- raises _ (fun buf s => throw _ buf s) => apply raises_unknown
  | |- raises _ _ => first [apply Hal | apply Hml]
  end.

Lemma parseStep_raises (al ml : N -> M (list ParsedNode)) key :
  (forall len, raises parseError (al len)) ->
  (forall len, raises parseError (ml len)) ->
  raises parseError (parseStep al ml key).
Proof.
  intros Hal Hml. unfold_body. repeat raises_step Hal Hml.
Qed.

Lemma parse_fuel_raises (fuel : nat) :
  (forall key, raises parseError (parse_fuel fuel key))
  /\ (forall i len ch, raises parseError (arrayItems fuel i len ch))
  /\ (forall i len ch, raises parseError (mapEntries fuel i len ch)).
Proof.
  induction fuel as [|fuel (IHp & IHa & IHm)];
    [repeat split; intros; apply raises_outOfFuel|].
  repeat split.
  - intros key. simpl. apply parseStep_raises; auto.
  - intros i len ch. simpl.
    destruct (i <? len)%N; [|apply raises_pure].
    apply raises_bind; [apply IHp | intro; apply IHa].
  - intros i len ch. simpl.
    destruct (i <? len)%N; [|apply raises_pure].
    apply raises_bind; [apply IHp | intro].
    apply raises_bind; [apply IHp | intro; apply IHm].
Qed.

(* ===================================================================== *)
(** ** Trailing bytes and truncated input                                  *)
(* ===================================================================== *)

(** Bytes appended to the buffer do not change a value already decoded. *)
Lemma parse_append key (buf more : list byte) (s s' : pstate) (n : ParsedNode) :
  parse key buf s = Ok n s' -> parse key (buf ++ more) s = Ok n s'.
Proof.
  unfold parse. intros H.
  pose proof (proj1 (parse_fuel_Local (2 * length buf + 1)) key buf more s) as L.
  rewrite H in L. unfold carries in L.
  destruct (parse_fuel_le (2 * length buf + 1) (2 * length (buf ++ more) + 1)
              key ltac:(rewrite length_app; lia) (buf ++ more) s) as [E | E];
    congruence.
Qed.

(** A run on a prefix of the buffer that throws anything but an end-of-input
    error throws the same on the whole buffer. *)
Lemma parse_raise_append key (buf more : list byte) (s s' : pstate) (e : exn) :
  parse key buf s = Raise e s' ->
  EndOfInput e \/ parse key (buf ++ more) s = Raise e s'.
Proof.
  unfold parse. intros H.
  pose proof (proj1 (parse_fuel_Local (2 * length buf + 1)) key buf more s) as L.
  rewrite H in L. unfold carries in L. destruct L as [L | L]; [now left | right].
  destruct (parse_fuel_le (2 * length buf + 1) (2 * length (buf ++ more) + 1)
              key ltac:(rewrite length_app; lia) (buf ++ more) s) as [E | E];
    congruence.
Qed.

Lemma decode_nil : decode [] = Raise (Error (str "Unexpected end of input"))
                                 (mkState 0 0).
Proof. reflexivity. Qed.

(** C10: when the bytes recovered from the input begin with a value that
    decodes, [parseMsgpack] succeeds with the tree of that value, whatever
    bytes follow it: they raise no error and leave the tree (and the
    identities in it) as it is without them; they only show in
    [originalBytes]. *)
Theorem parseMsgpack_ignores_trailing_bytes
    (input : jsstring) (format detected : InputFormat) (counter : N)
    (first more : list byte) (n : ParsedNode) (s' : pstate) :
  recoverBytes input format = Normal (first ++ more, detected) ->
  decode first = Ok n s' ->
  decode (first ++ more) = Ok n s'
  /\ parseMsgpack input format counter
     = (mkResult true (Some n) None (Some detected) (Some (first ++ more)),
        nodeIdCounter s').
Proof.
  intros Hrec Hdec.
  assert (Hall : decode (first ++ more) = Ok n s')
    by (apply parse_append; exact Hdec).
  split; [exact Hall|].
  unfold parseMsgpack. rewrite Hrec, Hall.
  destruct first as [|b first]; [rewrite decode_nil in Hdec; discriminate|].
  reflexivity.
Qed.

Lemma parseMsgpack_ignores_trailing_bytes_witness :
  recoverBytes (str "c3c1ff") HEX = Normal ([xc3] ++ [xc1; xff], HEX)
  /\ decode [xc3]
     = Ok (mkNode (idOf 0) None (JBool true) BOOLEAN (Some (str "true"))
             None None None) (mkState 1 1)
  /\ fst (parseMsgpack (str "c3c1ff") HEX 0%N)
     = mkResult true
         (Some (mkNode (idOf 0) None (JBool true) BOOLEAN (Some (str "true"))
                  None None None))
         None (Some HEX) (Some [xc3; xc1; xff]).
Proof.
  split; [reflexivity|]. split; [reflexivity|].
  pose proof (parseMsgpack_ignores_trailing_bytes (str "c3c1ff") HEX HEX 0%N
                [xc3] [xc1; xff]
                (mkNode (idOf 0) None (JBool true) BOOLEAN (Some (str "true"))
                   None None None)
                (mkState 1 1) eq_refl eq_refl) as [_ H].
  rewrite H. reflexivity.
Defined.

(** The decimal text of an integer has a digit. *)
Lemma toString_has_digit (z : Z) : existsb isDigit (toString z) = true.
Proof.
  unfold toString.
  destruct (Z.to_int z) as [d|d]; destruct d; reflexivity.
Qed.

Lemma startsWith_In (p s : jsstring) (c : Z) :
  startsWith p s = true -> In c p -> In c s.
Proof.
  revert s. induction p as [|a p IH]; intros s H Hc; [destruct Hc|].
  destruct s as [|b s]; [discriminate|].
  simpl in H. apply andb_prop in H as [Hab Hp]. apply Z.eqb_eq in Hab. subst b.
  destruct Hc as [-> | Hc]; [now left | right; now apply IH].
Qed.

Lemma includes_In (p s : jsstring) (c : Z) :
  includes p s = true -> In c p -> In c s.
Proof.
  induction s as [|b s IH]; intros H Hc.
  - simpl in H. rewrite orb_false_r in H. eapply startsWith_In; eassumption.
  - cbn [includes] in H. apply orb_prop in H as [H | H].
    + eapply startsWith_In; eassumption.
    + right. now apply IH.
Qed.

(** A text without digits names no offset. *)
Lemma no_digit_no_offset (msg : jsstring) :
  existsb isDigit msg = false ->
  forall position, includes (toString position) msg = false.
Proof.
  intros Hmsg position.
  destruct (includes (toString position) msg) eqn:E; [|reflexivity].
  pose proof (toString_has_digit position) as Hd.
  apply existsb_exists in Hd as (c & Hc & Hdigit).
  assert (Hin : In c msg) by (eapply includes_In; eassumption).
  assert (existsb isDigit msg = true)
    by (apply existsb_exists; exists c; split; assumption).
  congruence.
Qed.

(** C2, as the specification words it, fails: the error of a truncated
    string payload names the element but no offset (its message contains the
    decimal text of no number), and a truncated fixed-width scalar fails
    with the [RangeError] of the [DataView] accessor, which is not the
    parser's end-of-input error and names no offset either. *)
Lemma truncation_error_counterexample :
  decode [xa5; x61; x62; x63]
  = Raise (Error (str "Unexpected end of input (String)")) (mkState 1 1)
  /\ (forall position,
        includes (toString position) (str "Unexpected end of input (String)")
        = false)
  /\ decode [xcd; x01] = Raise outOfBounds (mkState 1 1)
  /\ (forall position,
        includes (toString position) (message outOfBounds) = false)
  /\ includes (str "Unexpected end") (message outOfBounds) = false.
Proof.
  split; [reflexivity|].
  split; [apply no_digit_no_offset; reflexivity|].
  split; [reflexivity|].
  split; [apply no_digit_no_offset; reflexivity | reflexivity].
Qed.

Lemma firstn_skipn_bytes (j : nat) (buf : list byte) :
  buf = firstn j buf ++ skipn j buf.
Proof. symmetry. apply firstn_skipn. Qed.

(** C2 (amended): a read that would go past the end of the buffer makes
    decoding fail and no node is returned. A string payload fails with
    "Unexpected end of input (String)", a binary or extension payload with
    "Unexpected end of input (Binary)", a fixed-width scalar or length
    prefix with the [RangeError] of the [DataView] accessor, a missing tag
    byte with "Unexpected end of input"; none of them names an offset.
    Nothing catches these exceptions. Hence cutting the encoding of any
    value that decodes, anywhere before its end, gives one of these failures;
    so does the fixstr of length 5 followed by 3 bytes. *)
Theorem truncated_input_fails :
  (forall buf s len, (bufferLength buf < offset s + len)%N ->
     readString len buf s
       = Raise (Error (str "Unexpected end of input (String)")) s
     /\ readBin len buf s
       = Raise (Error (str "Unexpected end of input (Binary)")) s
     /\ getUint len buf s = Raise outOfBounds s
     /\ getInt len buf s = Raise outOfBounds s)
  /\ (forall buf s, (bufferLength buf <= offset s)%N ->
        readTag buf s = Raise (Error (str "Unexpected end of input")) s)
  /\ (forall A B (m : M A) (k : A -> M B) buf s e s',
        m buf s = Raise e s' -> bind m k buf s = Raise e s')
  /\ (forall buf, decode buf <> OutOfFuel)
  /\ (forall buf n s' j, decode buf = Ok n s' -> (j < offset s')%N ->
        exists e s'', decode (firstn (N.to_nat j) buf) = Raise e s''
                      /\ EndOfInput e)
  /\ (forall input format counter bytes detected e s,
        recoverBytes input format = Normal (bytes, detected) ->
        decode bytes = Raise e s ->
        fst (parseMsgpack input format counter)
        = failure (match bytes with
                   | [] => str "Empty input"
                   | _ => messageOr e
                   end))
  /\ decode [xa5; x61; x62; x63]
     = Raise (Error (str "Unexpected end of input (String)")) (mkState 1 1).
Proof.
  split; [|split; [|split; [|split; [|split; [|split; [|reflexivity]]]]]].
  - intros buf s len H. unfold readString, readBin, getInt, bind, getUint.
    cbv zeta. apply N.ltb_lt in H. rewrite H. repeat split; reflexivity.
  - intros buf s H. unfold readTag. apply N.leb_le in H. now rewrite H.
  - intros A B m k buf s e s' H. unfold bind. now rewrite H.
  - intros buf H. pose proof (parse_total buf None (mkState 0 0)) as T.
    fold (decode buf) in T. now rewrite H in T.
  - intros buf n s' j Hdec Hj.
    pose proof (parse_total buf None (mkState 0 0)) as Htot.
    fold (decode buf) in Htot. rewrite Hdec in Htot. simpl in Htot.
    destruct Htot as [Hoff _]. specialize (Hoff ltac:(lia)).
    set (pre := firstn (N.to_nat j) buf).
    assert (Hlen : bufferLength pre = j).
    { unfold pre, bufferLength in *. rewrite length_firstn. lia. }
    pose proof (parse_total pre None (mkState 0 0)) as Hpre.
    fold (decode pre) in Hpre.
    rewrite (firstn_skipn_bytes (N.to_nat j) buf) in Hdec. fold pre in Hdec.
    destruct (decode pre) as [n1 s1|e s1|] eqn:E; [| |destruct Hpre].
    + exfalso. simpl in Hpre. destruct Hpre as [Hb _].
      specialize (Hb ltac:(lia)).
      apply (parse_append None pre (skipn (N.to_nat j) buf)) in E.
      unfold decode in Hdec. rewrite E in Hdec.
      injection Hdec as _ <-. lia.
    + exists e, s1. split; [reflexivity|].
      destruct (parse_raise_append None pre (skipn (N.to_nat j) buf) _ _ _ E)
        as [He | He]; [exact He|].
      unfold decode in Hdec. rewrite He in Hdec. discriminate.
  - intros input format counter bytes detected e s Hrec Hdec.
    unfold parseMsgpack. rewrite Hrec, Hdec.
    destruct bytes; reflexivity.
Qed.

Lemma truncated_input_fails_witness :
  exists e s'',
    decode (firstn (N.to_nat 4) [xa5; x76; x61; x6c; x75; x65])
    = Raise e s''
    /\ EndOfInput e.
Proof.
  apply (proj1 (proj2 (proj2 (proj2 (proj2 truncated_input_fails))))
           [xa5; x76; x61; x6c; x75; x65]
           (mkNode (idOf 0) None (JString (str "value")) STRING
              (Some (str "str(5)")) None (Some 5%N) None)
           (mkState 6 1) 4%N); reflexivity.
Defined.

(* ===================================================================== *)
(** ** The shape of a decoded node                                         *)
(* ===================================================================== *)

Lemma triple_any {A} buf (P : pstate -> Prop) (m : M A) :
  triple True buf P m (fun _ _ => True).
Proof. intros s _. destruct (m buf s); exact I. Qed.

(** Walk the branches of [parseTagged] down to the node each one returns. *)
Ltac shape_step :=
  match goal with
  | |- triple _ _ _ (if ?b then _ else _) _ => destruct b
  | |- triple _ _ _ (bind _ _) _ =>
      eapply triple_bind; [apply triple_any | intro]
  | |- triple _ _ _ (ret _) _ => apply triple_ret; intros
  | |- triple _ _ _ (fun b s => throw _ b s) _ => apply triple_throw
  end.

(** A property of the node alone that every branch establishes holds of
    every node [parse] returns. *)
Lemma parse_fuel_shape (Q : option (KeyValue ParsedNode) -> ParsedNode -> Prop) :
  (forall al ml key byte id buf,
      triple True buf (fun _ => True) (parseTagged al ml key byte id)
        (fun n _ => Q key n)) ->
  forall fuel key buf s n s',
    parse_fuel fuel key buf s = Ok n s' -> Q key n.
Proof.
  intros HQ fuel key buf s n s' H.
  destruct fuel as [|fuel]; [discriminate|].
  simpl in H. unfold parseStep, bind in H.
  destruct (readTag buf s) as [byte s1| |]; try discriminate.
  destruct (generateId buf s1) as [id s2| |]; try discriminate.
  specialize (HQ (fun length => arrayItems fuel 0 length [])
                (fun length => mapEntries fuel 0 length []) key byte id buf s2 I).
  rewrite H in HQ. exact HQ.
Qed.

Lemma parse_fuel_key fuel key buf s n s' :
  parse_fuel fuel key buf s = Ok n s' -> keyShape key n.
Proof.
  apply (parse_fuel_shape keyShape). clear.
  intros al ml key byte id buf. unfold_body.
  repeat shape_step; unfold keyShape; simpl;
    solve [left; split; reflexivity | right; split; [discriminate | reflexivity]].
Qed.

Lemma mapEntries_shape (fuel : nat) :
  forall i len ch buf s ch' s',
    mapEntries fuel i len ch buf s = Ok ch' s' ->
    exists vs, ch' = ch ++ vs /\ Forall entryShape vs
               /\ length vs = N.to_nat (len - i).
Proof.
  induction fuel as [|fuel IH]; intros i len ch buf s ch' s' H;
    [discriminate|].
  simpl in H.
  destruct (N.ltb_spec i len) as [Hlt|Hge].
  - unfold bind in H.
    destruct (parse_fuel fuel None buf s) as [k s1| |] eqn:Ek;
      try discriminate.
    destruct (parse_fuel fuel (Some (getKey k)) buf s1) as [v s2| |] eqn:Ev;
      try discriminate.
    apply parse_fuel_key in Ek, Ev.
    apply IH in H as (vs & -> & Hvs & Hlen).
    exists (v :: vs). rewrite <- app_assoc. split; [reflexivity|].
    split; [|simpl; lia].
    constructor; [|exact Hvs].
    exists k. split; [|exact Ev].
    destruct Ek as [[_ Hk] | [_ Hk]]; exact Hk.
  - injection H as <- _. exists []. rewrite app_nil_r.
    repeat split; [constructor | simpl; lia].
Qed.

(** C1: what the map loop does and where it falls short of the claim. Each
    entry decodes a key node without a key, resolves it with [getKey] (the
    raw value for the five primitive kinds, the node otherwise) and pushes
    the value node alone, one child per entry; the value node carries the
    resolved key unless it is an extension: on the map with key 1 and a
    fixext1 value the child has no key at all, where the same key with a
    bin8 value is attached. The map of the specification, key "key" and
    value "value", decodes as the claim says. *)
Theorem map_entry_keys :
  (forall k, In (type k) primitiveKinds -> getKey k = KeyPrimitive (value k))
  /\ (forall k, ~ In (type k) primitiveKinds -> getKey k = KeyNode k)
  /\ (forall fuel len buf s ch s',
        mapEntries fuel 0 len [] buf s = Ok ch s' ->
        Forall entryShape ch /\ length ch = N.to_nat len)
  /\ decode [x81; x01; xd4; x05; xff]
     = Ok (mkNode (idOf 0) None JNull MAP (Some (str "map(1)"))
             (Some [mkNode (idOf 3) None (JBytes [xff]) EXTENSION
                      (Some (str "fixext1")) None (Some 1%N) (Some 5)])
             (Some 1%N) None)
          (mkState 5 4)
  /\ decode [x81; x01; xc4; x01; xff]
     = Ok (mkNode (idOf 0) None JNull MAP (Some (str "map(1)"))
             (Some [mkNode (idOf 2) (Some (KeyPrimitive (JNumber 1)))
                      (JBytes [xff]) BINARY (Some (str "bin8(1)")) None
                      (Some 1%N) None])
             (Some 1%N) None)
          (mkState 5 3)
  /\ decode [x81; xa3; x6b; x65; x79; xa5; x76; x61; x6c; x75; x65]
     = Ok (mkNode (idOf 0) None JNull MAP (Some (str "map(1)"))
             (Some [mkNode (idOf 2) (Some (KeyPrimitive (JString (str "key"))))
                      (JString (str "value")) STRING (Some (str "str(5)"))
                      None (Some 5%N) None])
             (Some 1%N) None)
          (mkState 11 3).
Proof.
  split; [|split; [|split; [|repeat split; reflexivity]]].
  - intros k Hk. unfold getKey.
    destruct (type k); try reflexivity; exfalso;
      simpl in Hk; intuition discriminate.
  - intros k Hk. unfold getKey.
    destruct (type k); try reflexivity; exfalso; apply Hk; simpl; tauto.
  - intros fuel len buf s ch s' H.
    apply mapEntries_shape in H as (vs & -> & Hvs & Hlen).
    rewrite N.sub_0_r in Hlen. split; assumption.
Qed.

Lemma map_entry_keys_witness :
  mapEntries 5 0 1 [] [xc0; xd4; x05; xff] (mkState 0 0)
  = Ok [mkNode (idOf 2) None (JBytes [xff]) EXTENSION (Some (str "fixext1"))
          None (Some 1%N) (Some 5)]
       (mkState 4 3)
  /\ Forall entryShape
       [mkNode (idOf 2) None (JBytes [xff]) EXTENSION (Some (str "fixext1"))
          None (Some 1%N) (Some 5)]
  /\ length
       [mkNode (idOf 2) None (JBytes [xff]) EXTENSION (Some (str "fixext1"))
          None (Some 1%N) (Some 5)]
     = N.to_nat 1.
Proof.
  split; [reflexivity|].
  apply (proj1 (proj2 (proj2 map_entry_keys)) 5%nat 1%N
           [xc0; xd4; x05; xff] (mkState 0 0) _ (mkState 4 3)).
  reflexivity.
Defined.

(* ===================================================================== *)
(** ** 64-bit integers                                                     *)
(* ===================================================================== *)

Lemma parse_fuel_integer fuel key buf s n s' :
  parse_fuel fuel key buf s = Ok n s' -> integerShape n.
Proof.
  apply (parse_fuel_shape (fun _ => integerShape)). clear.
  intros al ml key byte id buf. unfold_body.
  repeat shape_step; unfold integerShape, wideRawType; simpl; intros HT;
    try discriminate HT;
    first
      [ left; split; [first [left; reflexivity | right; reflexivity]
                     | eexists; reflexivity]
      | right; split; [intros [HR | HR]; vm_compute in HR; discriminate HR
                      | eexists; reflexivity] ].
Qed.

(** *** The text of a bigint is its decimal numeral *)

Lemma digits_of_uint (d : Decimal.uint) :
  forallb isDigit (str (DecimalString.NilEmpty.string_of_uint d)) = true
  /\ (forall acc : positive,
        fold_left (fun acc c => 10 * acc + (c - code "0"))
          (str (DecimalString.NilEmpty.string_of_uint d)) (Z.pos acc)
        = Z.pos (Pos.of_uint_acc d acc))
  /\ digitsValue (str (DecimalString.NilEmpty.string_of_uint d))
     = Z.of_N (Pos.of_uint d).
Proof.
  assert (A : forall d (acc : positive),
        fold_left (fun acc c => 10 * acc + (c - code "0"))
          (str (DecimalString.NilEmpty.string_of_uint d)) (Z.pos acc)
        = Z.pos (Pos.of_uint_acc d acc)).
  { clear d. induction d; intros acc; [reflexivity|..];
      cbn [DecimalString.NilEmpty.string_of_uint Pos.of_uint_acc];
      unfold str in *; cbn [list_ascii_of_string map fold_left];
      rewrite <- IHd; f_equal;
      repeat match goal with
             | |- context [code ?a] =>
                 let v := eval vm_compute in (code a) in
                 change (code a) with v
             end; lia. }
  split; [|split; [apply A|]].
  - induction d; [reflexivity|..];
      cbn [DecimalString.NilEmpty.string_of_uint]; unfold str in *;
      cbn [list_ascii_of_string map forallb]; rewrite IHd; reflexivity.
  - unfold digitsValue. induction d; [reflexivity|..];
      cbn [DecimalString.NilEmpty.string_of_uint Pos.of_uint]; unfold str in *;
      cbn [list_ascii_of_string map fold_left];
      match goal with
      | |- context [10 * 0 + (code ?a - code ?b)] =>
          let v := eval vm_compute in (10 * 0 + (code a - code b)) in
          change (10 * 0 + (code a - code b)) with v
      end;
      [exact IHd | cbn [Z.of_N]; apply A ..].
Qed.

Lemma to_uint_head (p : positive) :
  exists c rest,
    str (DecimalString.NilEmpty.string_of_uint (Pos.to_uint p)) = c :: rest
    /\ c <> code "0".
Proof.
  assert (N : Pos.to_uint p = Decimal.unorm (Pos.to_uint p)).
  { rewrite <- (DecimalPos.Unsigned.to_of (Pos.to_uint p)).
    now rewrite DecimalPos.Unsigned.of_to. }
  assert (Z : Decimal.nzhead (Pos.to_uint p) <> Decimal.Nil).
  { intros E. apply DecimalFacts.unorm_0 in E. rewrite <- N in E.
    exact (DecimalPos.Unsigned.to_uint_nonzero p E). }
  rewrite (DecimalFacts.unorm_nzhead _ Z) in N.
  pose proof (DecimalFacts.nzhead_nonzero (Pos.to_uint p)) as H.
  rewrite <- N in H.
  destruct (Pos.to_uint p) as [|d|d|d|d|d|d|d|d|d|d] eqn:E;
    [now elim (DecimalPos.Unsigned.to_uint_nonnil p) | now elim (H d) |..];
    cbn [DecimalString.NilEmpty.string_of_uint]; unfold str;
    cbn [list_ascii_of_string map]; eexists; eexists;
    (split; [reflexivity | discriminate]).
Qed.

Lemma unsignedNumeral_pos (p : positive) :
  unsignedNumeral (str (DecimalString.NilEmpty.string_of_uint (Pos.to_uint p)))
    (Z.pos p).
Proof.
  destruct (to_uint_head p) as (c & rest & E & Hc).
  destruct (digits_of_uint (Pos.to_uint p)) as (D & _ & V).
  unfold unsignedNumeral. rewrite V, DecimalPos.Unsigned.of_to.
  repeat split; trivial.
  - rewrite E. discriminate.
  - rewrite E. cbn [hd]. intros H. now elim Hc.
Qed.

Lemma toString_numeral (z : Z) : numeral (toString z) z.
Proof.
  unfold toString, numeral. destruct z as [|p|p]; cbn [Z.to_int].
  - left. split; [lia|]. unfold unsignedNumeral. cbn. repeat split; trivial.
    discriminate.
  - left. split; [lia|]. unfold DecimalString.NilZero.string_of_int,
      DecimalString.NilZero.string_of_uint.
    pose proof (unsignedNumeral_pos p) as H.
    destruct (Pos.to_uint p) eqn:E; try exact H.
    now elim (DecimalPos.Unsigned.to_uint_nonnil p).
  - right. split; [lia|].
    exists (str (DecimalString.NilEmpty.string_of_uint (Pos.to_uint p))).
    split; [|exact (unsignedNumeral_pos p)].
    unfold DecimalString.NilZero.string_of_int,
      DecimalString.NilZero.string_of_uint.
    destruct (Pos.to_uint p) eqn:E; try reflexivity.
    now elim (DecimalPos.Unsigned.to_uint_nonnil p).
Qed.

(** A numeral stands for one number. *)
Lemma numeral_value text z z' : numeral text z -> numeral text z' -> z = z'.
Proof.
  unfold numeral, unsignedNumeral.
  intros [(P & _ & D & _ & V) | (P & ds & -> & _ & D & _ & V)]
         [(P' & _ & D' & _ & V') | (P' & ds' & E & _ & D'' & _ & V')];
    try lia.
  - subst text. discriminate D.
  - discriminate D'.
  - injection E as <-. lia.
Qed.

(** C3: the eight bytes after the tag 0xcf are read as one exact 64-bit
    unsigned integer, held as a bigint: 00 00 00 01 00 00 00 00 gives
    4294967296. The projector renders an integer node that holds a bigint as
    the decimal string of its value (the decimal numeral of the number: for
    18446744073709551615 and -9223372036854775808, the ends of the 64-bit
    ranges, these very digits) and passes any other integer on as a number;
    a decoded integer node holds a bigint exactly when it was read from a
    64-bit field. *)
Theorem wide_integers_exact
    (JSON_stringify : plain -> jsstring) (floatToString : jsvalue -> jsstring) :
  let project := serializeNode JSON_stringify floatToString in
  decode [xcf; x00; x00; x00; x01; x00; x00; x00; x00]
  = Ok (mkNode (idOf 0) None (JBigInt 4294967296) INTEGER
          (Some (str "uint(64)")) None None None) (mkState 9 1)
  /\ (forall b1 b2 b3 b4 b5 b6 b7 b8,
        decode [xcf; b1; b2; b3; b4; b5; b6; b7; b8]
        = Ok (mkNode (idOf 0) None
                (JBigInt (Z.of_N (bigEndian [b1; b2; b3; b4; b5; b6; b7; b8])))
                INTEGER (Some (str "uint(64)")) None None None) (mkState 9 1))
  /\ project (mkNode (idOf 0) None (JBigInt 4294967296) INTEGER
                (Some (str "uint(64)")) None None None)
     = PValue (JString (str "4294967296"))
  /\ (forall n z, type n = INTEGER -> value n = JBigInt z ->
        project n = PValue (JString (toString z))
        /\ numeral (toString z) z)
  /\ (forall n z, type n = INTEGER -> value n = JNumber z ->
        project n = PValue (JNumber z))
  /\ (forall fuel key buf s n s',
        parse_fuel fuel key buf s = Ok n s' -> type n = INTEGER ->
        (wideRawType (rawType n)
         /\ exists z, value n = JBigInt z
                      /\ project n = PValue (JString (toString z))
                      /\ numeral (toString z) z)
        \/ (~ wideRawType (rawType n)
            /\ exists z, value n = JNumber z /\ project n = PValue (JNumber z)))
  /\ (forall text z z', numeral text z -> numeral text z' -> z = z')
  /\ (project (mkNode (idOf 0) None (JBigInt 18446744073709551615) INTEGER
                 (Some (str "uint(64)")) None None None)
      = PValue (JString (str "18446744073709551615"))
      /\ project (mkNode (idOf 0) None (JBigInt (-9223372036854775808))
                    INTEGER (Some (str "int(64)")) None None None)
         = PValue (JString (str "-9223372036854775808"))
      /\ project (mkNode (idOf 0) None (JBigInt 0) INTEGER
                    (Some (str "uint(64)")) None None None)
         = PValue (JString (str "0"))).
Proof.
  intros project.
  assert (Hbig : forall n z, type n = INTEGER -> value n = JBigInt z ->
                   project n = PValue (JString (toString z))
                   /\ numeral (toString z) z).
  { intros [i k v t r ch bl m] z Ht Hv. simpl in *. subst.
    split; [reflexivity | apply toString_numeral]. }
  assert (Hnum : forall n z, type n = INTEGER -> value n = JNumber z ->
                   project n = PValue (JNumber z)).
  { intros [i k v t r ch bl m] z Ht Hv. simpl in *. subst. reflexivity. }
  split; [reflexivity|].
  split; [intros; reflexivity|].
  split; [reflexivity|].
  split; [exact Hbig|]. split; [exact Hnum|].
  split; [|split; [exact numeral_value | repeat split; reflexivity]].
  intros fuel key buf s n s' H Ht.
  destruct (parse_fuel_integer _ _ _ _ _ _ H Ht) as [[Hw [z Hz]] | [Hw [z Hz]]].
  - left. split; [exact Hw|]. exists z. split; [exact Hz | now apply Hbig].
  - right. split; [exact Hw|]. exists z. split; [exact Hz | now apply Hnum].
Qed.

Lemma wide_integers_exact_witness :
  serializeNode (fun _ => []) (fun _ => [])
    (mkNode (idOf 7) None (JBigInt (-1234567890123)) INTEGER
       (Some (str "int(64)")) None None None)
  = PValue (JString (str "-1234567890123"))
  /\ numeral (str "-1234567890123") (-1234567890123).
Proof.
  exact (proj1 (proj2 (proj2 (proj2
           (wide_integers_exact (fun _ => []) (fun _ => [])))))
           (mkNode (idOf 7) None (JBigInt (-1234567890123)) INTEGER
              (Some (str "int(64)")) None None None)
           (-1234567890123) eq_refl eq_refl).
Defined.

(* ===================================================================== *)
(** ** Node identities                                                     *)
(* ===================================================================== *)

Lemma stamps_split (n : ParsedNode) :
  stamps n = keyStamps (key n) ++ ownStamps n.
Proof. destruct n. reflexivity. Qed.

Lemma code_inj (a b : ascii) : code a = code b -> a = b.
Proof.
  unfold code. intros H. apply N2Z.inj in H.
  rewrite <- (ascii_N_embedding a), <- (ascii_N_embedding b). now f_equal.
Qed.

Lemma str_inj (s t : string) : str s = str t -> s = t.
Proof.
  unfold str. intros H.
  rewrite <- (string_of_list_ascii_of_string s),
          <- (string_of_list_ascii_of_string t).
  f_equal. revert H.
  generalize (list_ascii_of_string s) (list_ascii_of_string t).
  induction l as [|a l IH]; intros [|b l'] H; try discriminate; [reflexivity|].
  simpl in H. injection H as Hab Hl. f_equal; [now apply code_inj | now apply IH].
Qed.

Lemma toString_inj (a b : Z) : toString a = toString b -> a = b.
Proof.
  unfold toString. intros H. apply str_inj in H.
  assert (Hn : forall z, Z.to_int z <> Decimal.Pos Decimal.Nil
                         /\ Z.to_int z <> Decimal.Neg Decimal.Nil).
  { intros [|p|p]; simpl; split; try discriminate;
      intros [= E]; now apply (DecimalPos.Unsigned.to_uint_nonnil p). }
  apply DecimalZ.to_int_inj.
  pose proof (DecimalString.NilZero.isi _ (proj1 (Hn a)) (proj2 (Hn a))) as Ea.
  pose proof (DecimalString.NilZero.isi _ (proj1 (Hn b)) (proj2 (Hn b))) as Eb.
  rewrite H in Ea. congruence.
Qed.

(** Distinct counter values give distinct identities. *)
Lemma idOf_inj (a b : N) : idOf a = idOf b -> a = b.
Proof.
  unfold idOf. intros H. apply app_inv_head in H.
  apply toString_inj in H. lia.
Qed.

Lemma Stamped_nil lo hi : Stamped lo hi [].
Proof. exists []. repeat split; constructor. Qed.

Lemma Stamped_one c lo hi : (lo <= c < hi)%N -> Stamped lo hi [idOf c].
Proof.
  intros H. exists [c]. repeat split; repeat constructor; lia.
Qed.

Lemma StronglySorted_app (l1 l2 : list N) :
  StronglySorted N.lt l1 -> StronglySorted N.lt l2 ->
  (forall x y, In x l1 -> In y l2 -> (x < y)%N) ->
  StronglySorted N.lt (l1 ++ l2).
Proof.
  induction l1 as [|a l1 IH]; intros H1 H2 H; [exact H2|].
  inversion H1 as [|? ? Hs Hf]; subst. simpl. constructor.
  - apply IH; [exact Hs | exact H2 | intros; apply H; [now right | assumption]].
  - apply Forall_app. split; [exact Hf|].
    apply Forall_forall. intros y Hy. apply H; [now left | exact Hy].
Qed.

Lemma Stamped_app lo mid hi l1 l2 :
  (lo <= mid <= hi)%N -> Stamped lo mid l1 -> Stamped mid hi l2 ->
  Stamped lo hi (l1 ++ l2).
Proof.
  intros Hm (k1 & -> & S1 & F1) (k2 & -> & S2 & F2).
  exists (k1 ++ k2). rewrite map_app. split; [reflexivity|].
  rewrite Forall_forall in F1, F2. split.
  - apply StronglySorted_app; try assumption.
    intros x y Hx Hy. specialize (F1 x Hx). specialize (F2 y Hy). lia.
  - apply Forall_forall. intros x Hx. apply in_app_or in Hx as [Hx | Hx];
      [specialize (F1 x Hx) | specialize (F2 x Hx)]; lia.
Qed.

Lemma Stamped_weaken lo hi lo' hi' l :
  (lo' <= lo)%N -> (hi <= hi')%N -> Stamped lo hi l -> Stamped lo' hi' l.
Proof.
  intros Hlo Hhi (ks & -> & S & F). exists ks. repeat split; try assumption.
  eapply Forall_impl; [|exact F]. simpl. intros. lia.
Qed.

Lemma Stamped_NoDup lo hi l : Stamped lo hi l -> NoDup l.
Proof.
  intros (ks & -> & S & _). induction S as [|a ks S IH F]; simpl; constructor.
  - intros Hin. apply in_map_iff in Hin as (b & Hb & Hin).
    apply idOf_inj in Hb. subst b.
    rewrite Forall_forall in F. specialize (F a Hin). lia.
  - exact IH.
Qed.

Section Counter.
Variable buf : list byte.
Variable c : N.

Lemma cnt_readTag : triple True buf (cnt c) readTag (fun _ => cnt c).
Proof. intros s Hs. unfold readTag. destruct (_ <=? _)%N; [exact I | exact Hs]. Qed.

Lemma cnt_getUint width : triple True buf (cnt c) (getUint width) (fun _ => cnt c).
Proof. intros s Hs. unfold getUint. destruct (_ <? _)%N; [exact I | exact Hs]. Qed.

Lemma cnt_getInt width : triple True buf (cnt c) (getInt width) (fun _ => cnt c).
Proof.
  eapply triple_bind; [apply cnt_getUint | intro; apply triple_ret; auto].
Qed.

Lemma cnt_advance n : triple True buf (cnt c) (advance n) (fun _ => cnt c).
Proof. intros s Hs. exact Hs. Qed.

Lemma cnt_readString length :
  triple True buf (cnt c) (readString length) (fun _ => cnt c).
Proof.
  intros s Hs. unfold readString. cbv zeta.
  destruct (_ <? _)%N; [exact I | exact Hs].
Qed.

Lemma cnt_readBin length :
  triple True buf (cnt c) (readBin length) (fun _ => cnt c).
Proof.
  intros s Hs. unfold readBin. cbv zeta.
  destruct (_ <? _)%N; [exact I | exact Hs].
Qed.

Lemma cnt_generateId :
  triple True buf (cnt c) generateId (fun i s => i = idOf c /\ cnt (c + 1) s).
Proof. intros s Hs. unfold cnt in *. simpl. now rewrite Hs. Qed.
End Counter.

Ltac stamp_step Hal Hml :=
  match goal with
  | |- triple _ _ _ (if ?b then _ else _) _ => destruct b
  | |- triple _ _ _ (bind (getUint _) _) _ =>
      eapply triple_bind; [apply cnt_getUint | intro]
  | |- triple _ _ _ (bind (getInt _) _) _ =>
      eapply triple_bind; [apply cnt_getInt | intro]
  | |- triple _ _ _ (bind (advance _) _) _ =>
      eapply triple_bind; [apply cnt_advance | intro]
  | |- triple _ _ _ (bind (readString _) _) _ =>
      eapply triple_bind; [apply cnt_readString | intro]
  | |- triple _ _ _ (bind (readBin _) _) _ =>
      eapply triple_bind; [apply cnt_readBin | intro]
  | |- triple _ _ _ (bind generateId _) _ =>
      eapply triple_bind; [apply cnt_generateId | intro]
  | |- triple _ _ _ (bind _ _) _ =>
      eapply triple_bind; [first [apply Hal | apply Hml] | intro]
  | |- triple _ _ _ (ret _) _ => apply triple_ret; intros
  | |- triple _ _ _ (fun b s => throw _ b s) _ => apply triple_throw
  end.

Ltac stamp_done :=
  unfold stampedNode, stampedItems, ownStamps, cnt in *; simpl;
  match goal with
  | H : nodeIdCounter ?s = _ |- _ =>
      rewrite H; split; [apply Stamped_one; lia | split; [now left | lia]]
  | H : _ = idOf _ /\ nodeIdCounter ?s = _ |- _ =>
      destruct H as [-> H]; rewrite H;
      split; [apply Stamped_one; lia | split; [now right | lia]]
  | H : Stamped _ _ _ /\ _ |- _ =>
      destruct H as [H ?];
      split; [|split; [now left | lia]];
      match goal with
      | |- Stamped ?c _ (idOf ?c :: ?l) =>
          change (idOf c :: l) with ([idOf c] ++ l);
          apply Stamped_app with (mid := (c + 1)%N);
          [lia | apply Stamped_one; lia | exact H]
      end
  end.

Lemma parseTagged_stamps (al ml : N -> M (list ParsedNode)) key byte c buf :
  (forall len c', triple True buf (cnt c') (al len) (stampedItems c')) ->
  (forall len c', triple True buf (cnt c') (ml len) (stampedItems c')) ->
  triple True buf (cnt (c + 1)) (parseTagged al ml key byte (idOf c))
    (stampedNode c key).
Proof.
  intros Hal Hml. unfold_body.
  repeat stamp_step Hal Hml; stamp_done.
Qed.

Lemma stamps_keyless (n : ParsedNode) : key n = None -> stamps n = ownStamps n.
Proof. intros H. rewrite stamps_split, H. reflexivity. Qed.

Lemma flat_map_snoc (items : list ParsedNode) (v : ParsedNode) :
  flat_map stamps (items ++ [v]) = flat_map stamps items ++ stamps v.
Proof. rewrite flat_map_app. simpl. now rewrite app_nil_r. Qed.

Lemma parse_fuel_stamps (fuel : nat) :
  (forall key buf c,
      triple True buf (cnt c) (parse_fuel fuel key) (stampedNode c key))
  /\ (forall i len ch buf c0 c,
        (c0 <= c)%N -> Stamped c0 c (flat_map stamps ch) ->
        triple True buf (cnt c) (arrayItems fuel i len ch) (stampedItems c0))
  /\ (forall i len ch buf c0 c,
        (c0 <= c)%N -> Stamped c0 c (flat_map stamps ch) ->
        triple True buf (cnt c) (mapEntries fuel i len ch) (stampedItems c0)).
Proof.
  induction fuel as [|fuel (IHp & IHa & IHm)];
    [repeat split; intros; intros s Hs; exact I|].
  repeat split.
  - intros key buf c. simpl parse_fuel. unfold parseStep.
    eapply triple_bind; [apply cnt_readTag | intro byte].
    eapply triple_bind; [apply cnt_generateId | intro i].
    intros s [-> Hs].
    apply parseTagged_stamps; [| |exact Hs]; intros len c';
      [apply IHa | apply IHm]; try lia; apply Stamped_nil.
  - intros i len ch buf c0 c Hc Hch. simpl arrayItems.
    destruct (i <? len)%N.
    + eapply triple_bind; [apply IHp | intro v].
      intros s (Hown & Hkey & Hlt).
      apply (IHa (i + 1)%N len (ch ++ [v]) buf c0 (nodeIdCounter s));
        [lia | | reflexivity].
      rewrite flat_map_snoc, stamps_keyless by (destruct Hkey; assumption).
      apply Stamped_app with (mid := c); [lia | exact Hch | exact Hown].
    + apply triple_ret. intros s Hs. unfold stampedItems, cnt in *.
      rewrite Hs. split; [exact Hch | lia].
  - intros i len ch buf c0 c Hc Hch. simpl mapEntries.
    destruct (i <? len)%N.
    + eapply triple_bind; [apply IHp | intro k]. cbv zeta.
      intros s1 (Hown1 & Hkey1 & Hlt1).
      assert (Hk : key k = None) by (destruct Hkey1; assumption).
      assert (Hks : Stamped c (nodeIdCounter s1) (keyStamps (Some (getKey k)))).
      { unfold getKey.
        destruct (type k); simpl; try apply Stamped_nil;
          rewrite (stamps_keyless k Hk); exact Hown1. }
      pose proof (IHp (Some (getKey k)) buf (nodeIdCounter s1) s1 eq_refl) as Tv.
      unfold bind.
      destruct (parse_fuel fuel (Some (getKey k)) buf s1) as [v s2| |];
        try exact I.
      destruct Tv as (Hown2 & Hkey2 & Hlt2).
      apply (IHm (i + 1)%N len (ch ++ [v]) buf c0 (nodeIdCounter s2));
        [lia | | reflexivity].
      rewrite flat_map_snoc, stamps_split.
      apply Stamped_app with (mid := c); [lia | exact Hch |].
      apply Stamped_app with (mid := nodeIdCounter s1); [lia | | exact Hown2].
      destruct Hkey2 as [-> | ->]; [exact Hks | apply Stamped_nil].
    + apply triple_ret. intros s Hs. unfold stampedItems, cnt in *.
      rewrite Hs. split; [exact Hch | lia].
Qed.

(** The identities of a decoded tree. *)
Lemma decode_stamps (bytes : list byte) (root : ParsedNode) (s' : pstate) :
  decode bytes = Ok root s' -> Stamped 0 (nodeIdCounter s') (stamps root).
Proof.
  intros H. unfold decode, parse in H.
  pose proof (proj1 (parse_fuel_stamps (2 * length bytes + 1)) None bytes 0%N
                (mkState 0 0) eq_refl) as T.
  rewrite H in T. destruct T as (Hown & Hkey & _).
  rewrite stamps_keyless by (destruct Hkey; assumption). exact Hown.
Qed.



(* ===================================================================== *)
(** ** Hex recovery: sizes, and the hex text the viewer shows              *)
(* ===================================================================== *)

Lemma bytePairs_length (m : nat) :
  forall s : jsstring, length s = (2 * m)%nat -> length (bytePairs s) = m.
Proof.
  induction m as [|m IH]; intros [|a [|b s]] H; cbn [length] in H; try lia.
  - reflexivity.
  - cbn [bytePairs length]. f_equal. apply IH. lia.
Qed.

Lemma parseHex_Normal (s : jsstring) (bytes : list byte) :
  parseHex s = Normal bytes ->
  len (hexClean s) mod 2 = 0 /\ hexRe_test (hexClean s) = true
  /\ bytes = bytePairs (hexClean s).
Proof.
  intros H. pose proof H as H0. unfold parseHex in H.
  destruct (len (hexClean s) mod 2 =? 0) eqn:E2; [|discriminate].
  destruct (hexRe_test (hexClean s)) eqn:Eh; [|discriminate].
  apply Z.eqb_eq in E2. repeat split; trivial.
  rewrite (parseHex_valid s E2 Eh) in H0. now injection H0.
Qed.

Lemma messageOr_nonempty (e : exn) : messageOr e <> [].
Proof. unfold messageOr. destruct (message e); discriminate. Qed.

Lemma parseError_not_empty_input (e : exn) :
  parseError e -> messageOr e <> str "Empty input".
Proof.
  intros [[->|[->|[->| ->]]]|(byte & position & ->)]; discriminate.
Qed.

Lemma decode_parseError (bytes : list byte) (e : exn) (s : pstate) :
  decode bytes = Raise e s -> parseError e.
Proof. intros H. exact (proj1 (parse_fuel_raises _) _ _ _ _ _ H). Qed.

Lemma decode_fuel (bytes : list byte) : decode bytes <> OutOfFuel.
Proof.
  intros H. pose proof (parse_total bytes None (mkState 0 0)) as T.
  unfold decode in H. now rewrite H in T.
Qed.

Lemma parseHex_Throw (s : jsstring) (e : exn) :
  parseHex s = Throw e ->
  e = Error (str "Invalid Hex string length")
  \/ e = Error (str "Invalid Hex characters").
Proof.
  unfold parseHex.
  destruct (negb _); [intros [= <-]; now left|].
  destruct (negb _); [intros [= <-]; now right | discriminate].
Qed.

Lemma parseHex_nonempty (s : jsstring) (bytes : list byte) :
  parseHex s = Normal bytes ->
  bytes <> [] /\ len (hexClean s) = 2 * len bytes.
Proof.
  intros H. destruct (parseHex_Normal s bytes H) as (E2 & Eh & ->).
  destruct (even_length _ E2) as [m Hm].
  pose proof (bytePairs_length m _ Hm) as L.
  apply hexRe_test_spec in Eh. destruct Eh as [Hne _].
  split.
  - intros Hnil. rewrite Hnil in L. simpl in L. subst m.
    destruct (hexClean s); [now apply Hne | discriminate].
  - unfold len. rewrite L, Hm. lia.
Qed.

(** X1 ([parseHex], and the HEX path of [parseMsgpack]): a hex decode that
    succeeds never returns an empty array: it holds one byte for every two
    characters left once the prefix and the whitespace are removed. So with
    the HEX format [parseMsgpack] never answers "Empty input": its test for
    an empty array cannot fire. *)
Theorem parseHex_size :
  (forall s bytes, parseHex s = Normal bytes ->
     bytes <> [] /\ len (hexClean s) = 2 * len bytes)
  /\ (forall input counter,
        error (fst (parseMsgpack input HEX counter))
        <> Some (str "Empty input")).
Proof.
  split; [exact parseHex_nonempty|].
  intros input counter. unfold parseMsgpack, recoverBytes.
  destruct (parseHex input) as [bytes|e] eqn:E.
  - destruct (parseHex_nonempty _ _ E) as [Hne _].
    destruct bytes as [|b bytes]; [now elim Hne|].
    destruct (decode (b :: bytes)) as [n s|e s|] eqn:D; simpl.
    + discriminate.
    + intros [= H]. now apply (parseError_not_empty_input e (decode_parseError _ _ _ D)).
    + discriminate.
  - destruct (parseHex_Throw _ _ E) as [-> | ->]; discriminate.
Qed.

Lemma parseHex_size_witness :
  [x81; xa3] <> [] /\ len (hexClean (str "0x81 a3")) = 2 * len [x81; xa3].
Proof. apply (proj1 parseHex_size (str "0x81 a3")). reflexivity. Defined.

(** *** Trimming *)

Lemma trimStart_app_blank (l x : jsstring) :
  blank l = true -> trimStart (l ++ x) = trimStart x.
Proof.
  induction l as [|c l IH]; simpl; [reflexivity|].
  intros H. apply andb_prop in H. destruct H as [-> H]. now apply IH.
Qed.

Lemma trimStart_head (c : Z) (rest : jsstring) :
  isWhiteSpace c = false -> trimStart (c :: rest) = c :: rest.
Proof. intros H. simpl. now rewrite H. Qed.

Lemma blank_rev (r : jsstring) : blank r = true -> blank (rev r) = true.
Proof.
  unfold blank. rewrite !forallb_forall. intros H c Hc.
  apply H. now apply in_rev.
Qed.

Lemma trimEnd_app_blank (x r : jsstring) :
  blank r = true -> trimEnd (x ++ r) = trimEnd x.
Proof.
  intros H. unfold trimEnd. rewrite rev_app_distr.
  now rewrite (trimStart_app_blank _ _ (blank_rev r H)).
Qed.

Lemma trimEnd_snoc (s : jsstring) (c : Z) :
  isWhiteSpace c = false -> trimEnd (s ++ [c]) = s ++ [c].
Proof.
  intros H. unfold trimEnd. rewrite rev_app_distr. simpl rev at 2.
  cbn [app]. rewrite (trimStart_head _ _ H).
  change (c :: rev s) with ([c] ++ rev s).
  now rewrite rev_app_distr, rev_involutive.
Qed.

Lemma trimStart_cases (s : jsstring) :
  (blank s = true /\ trimStart s = [])
  \/ (exists l c rest, s = l ++ c :: rest /\ blank l = true
                       /\ isWhiteSpace c = false /\ trimStart s = c :: rest).
Proof.
  induction s as [|c s IH]; [now left|].
  destruct (isWhiteSpace c) eqn:E.
  - destruct IH as [[B T] | (l & d & rest & -> & B & D & T)].
    + left. simpl. now rewrite E.
    + right. exists (c :: l), d, rest. simpl. now rewrite E, B.
  - right. exists [], c, s. simpl. now rewrite E.
Qed.

(** Whitespace around a text does not change what [trim] gives. *)
Lemma trim_pad (l s r : jsstring) :
  blank l = true -> blank r = true -> trim (l ++ s ++ r) = trim s.
Proof.
  intros Hl Hr. unfold trim. rewrite (trimStart_app_blank _ _ Hl).
  destruct (trimStart_cases s) as [[B T] | (l' & c & rest & -> & B & C & T)].
  - rewrite T. rewrite (trimStart_app_blank _ _ B).
    now rewrite (trimStart_blank r Hr).
  - rewrite T. rewrite <- app_assoc, (trimStart_app_blank _ _ B).
    cbn [app]. rewrite (trimStart_head _ _ C).
    change (c :: rest ++ r) with ((c :: rest) ++ r).
    now apply trimEnd_app_blank.
Qed.

(** A text that neither starts nor ends with whitespace is its own trim. *)
Lemma trim_solid (c d : Z) (rest body : jsstring) :
  isWhiteSpace c = false -> isWhiteSpace d = false ->
  c :: rest = body ++ [d] -> trim (c :: rest) = c :: rest.
Proof.
  intros Hc Hd E. unfold trim. rewrite (trimStart_head _ _ Hc), E.
  now apply trimEnd_snoc.
Qed.

Lemma trimEnd_cases (s : jsstring) :
  (blank s = true /\ trimEnd s = [])
  \/ (exists body d r, s = body ++ d :: r /\ blank r = true
                       /\ isWhiteSpace d = false /\ trimEnd s = body ++ [d]).
Proof.
  unfold trimEnd.
  destruct (trimStart_cases (rev s)) as [[B T] | (l & c & rest & E & B & C & T)].
  - left. rewrite T. split; [|reflexivity].
    rewrite <- (rev_involutive s). now apply blank_rev.
  - right. exists (rev rest), c, (rev l). rewrite T.
    repeat split.
    + rewrite <- (rev_involutive s), E, rev_app_distr. simpl.
      now rewrite <- app_assoc.
    + now apply blank_rev.
    + exact C.
Qed.

Lemma trim_idempotent (s : jsstring) : trim (trim s) = trim s.
Proof.
  unfold trim at 2 3.
  destruct (trimStart_cases s) as [[B T] | (l & c & rest & E & B & C & T)].
  - now rewrite T.
  - rewrite T.
    destruct (trimEnd_cases (c :: rest))
      as [[B' T'] | (body & d & r & E' & B' & D & T')].
    + simpl in B'. now rewrite C in B'.
    + rewrite T'. destruct body as [|c' body].
      * simpl. unfold trim. simpl. rewrite D. unfold trimEnd. simpl. now rewrite D.
      * injection E' as <- _. cbn [app].
        apply (trim_solid c d (body ++ [d]) (c :: body)); trivial.
Qed.

(** *** The hex text of a byte array *)

Lemma byteHex_spec (b : byte) :
  exists h l, Components.byteHex b = [h; l]
              /\ isHexDigit h = true /\ isHexDigit l = true
              /\ ToUint8 (16 * hexDigitValue h + hexDigitValue l) = b.
Proof.
  destruct b;
    (eexists; eexists; split;
     [vm_compute; reflexivity | repeat split; vm_compute; reflexivity]).
Qed.

Lemma join_cons (sep x : jsstring) (y : jsstring) (rest : list jsstring) :
  Components.join sep (x :: y :: rest)
  = x ++ sep ++ Components.join sep (y :: rest).
Proof. reflexivity. Qed.

(** Blank-separated hex pairs, once the blanks are removed, are the pairs. *)
Lemma hexText_clean (arr : list byte) :
  replace_whitespace (Components.join (str " ") (map Components.byteHex arr))
  = flat_map Components.byteHex arr.
Proof.
  induction arr as [|b arr IH]; [reflexivity|].
  destruct (byteHex_spec b) as (h & l & E & Hh & Hl & _).
  assert (F : replace_whitespace (Components.byteHex b) = Components.byteHex b).
  { rewrite E. unfold replace_whitespace. simpl.
    now rewrite (isWhiteSpace_not_hex h Hh), (isWhiteSpace_not_hex l Hl). }
  destruct arr as [|b' arr].
  - simpl. now rewrite app_nil_r.
  - cbn [map]. rewrite join_cons. cbn [flat_map].
    unfold replace_whitespace in *. rewrite !filter_app, F.
    cbn [map flat_map] in IH. rewrite IH. reflexivity.
Qed.

Lemma hexText_pairs (arr : list byte) :
  bytePairs (flat_map Components.byteHex arr) = arr
  /\ forallb isHexDigit (flat_map Components.byteHex arr) = true
  /\ length (flat_map Components.byteHex arr) = (2 * length arr)%nat.
Proof.
  induction arr as [|b arr (IH1 & IH2 & IH3)]; [repeat split|].
  destruct (byteHex_spec b) as (h & l & E & Hh & Hl & Hb).
  cbn [flat_map]. rewrite E. cbn [app bytePairs forallb length].
  rewrite Hb, IH1, Hh, Hl, IH2, IH3. repeat split. lia.
Qed.

(** The text starts with a hex digit followed by a hex digit, and ends
    with one. *)
Lemma hexText_ends (b : byte) (arr : list byte) :
  exists h l rest body d,
    Components.join (str " ") (map Components.byteHex (b :: arr))
    = h :: l :: rest
    /\ isHexDigit h = true /\ isHexDigit l = true
    /\ h :: l :: rest = body ++ [d] /\ isHexDigit d = true.
Proof.
  revert b. induction arr as [|b' arr IH]; intros b.
  - destruct (byteHex_spec b) as (h & l & E & Hh & Hl & _).
    exists h, l, [], [h], l. simpl. rewrite E. repeat split; trivial.
  - destruct (byteHex_spec b) as (h & l & E & Hh & Hl & _).
    destruct (IH b') as (h' & l' & rest & body & d & E' & _ & _ & Eb & Hd).
    cbn [map] in *. rewrite join_cons, E, E'.
    exists h, l, (str " " ++ h' :: l' :: rest), ([h; l] ++ str " " ++ body), d.
    repeat split; trivial. rewrite Eb. reflexivity.
Qed.

Lemma hexText_parseHex (b : byte) (arr : list byte) :
  let text := Components.join (str " ") (map Components.byteHex (b :: arr)) in
  parseHex text = Normal (b :: arr)
  /\ autoDetectAndDecode text = Normal (b :: arr, HEX).
Proof.
  intros text.
  destruct (hexText_ends b arr)
    as (h & l & rest & body & d & E & Hh & Hl & Eb & Hd).
  fold text in E.
  assert (X : l <> 120) by (intros ->; discriminate).
  assert (Q : l <> SQUOTE /\ l <> DQUOTE)
    by (split; intros ->; discriminate).
  assert (C : hexClean text = flat_map Components.byteHex (b :: arr)).
  { unfold hexClean, replace_leading_0x. rewrite E.
    replace (startsWith (str "0x") (h :: l :: rest)) with false.
    - rewrite <- E. apply hexText_clean.
    - change (str "0x") with [48; 120]. cbn [startsWith].
      destruct (120 =? l) eqn:El; [apply Z.eqb_eq in El; lia|].
      now destruct (48 =? h). }
  destruct (hexText_pairs (b :: arr)) as (P1 & P2 & P3).
  assert (G : len (hexClean text) mod 2 = 0).
  { rewrite C. unfold len. rewrite P3, Nat2Z.inj_mul, Z.mul_comm.
    apply Z.mod_mul. lia. }
  assert (R : hexRe_test (hexClean text) = true).
  { rewrite C. apply hexRe_test_spec. split; [|exact P2].
    intros N. rewrite N in P3. simpl in P3. lia. }
  assert (H : parseHex text = Normal (b :: arr)).
  { rewrite (parseHex_valid _ G R), C, P1. reflexivity. }
  split; [exact H|].
  rewrite autoDetect_run_unfold.
  assert (T : trim text = text).
  { rewrite E. apply (trim_solid h d (l :: rest) body); trivial;
      now apply isWhiteSpace_not_hex. }
  cbv zeta. rewrite T.
  replace (pythonGate text) with false.
  - replace (hexGate text) with true; [now rewrite H|].
    unfold hexGate. rewrite G, R. simpl.
    rewrite C. unfold len. rewrite P3. simpl length.
    symmetry. rewrite !andb_true_r. apply Z.gtb_lt. lia.
  - unfold pythonGate. rewrite E.
    change bquote with [98; 39]. change bdquote with [98; 34].
    cbn [startsWith].
    destruct Q as [Q1 Q2]. unfold SQUOTE, DQUOTE in *.
    destruct (39 =? l) eqn:E1; [apply Z.eqb_eq in E1; lia|].
    destruct (34 =? l) eqn:E2; [apply Z.eqb_eq in E2; lia|].
    now destruct (98 =? h).
Qed.

(** X2 ([formatValue] of JsonNode.tsx, with [parseHex] and
    [autoDetectAndDecode]): the hex preview the viewer shows for a non-empty
    binary value is itself valid decoder input. Read as HEX, and under
    auto-detection too, it gives back the first eight bytes of the value,
    which is the whole value when it has at most eight. *)
Theorem preview_round_trip (arr : list byte) :
  arr <> [] ->
  parseHex (Components.preview arr) = Normal (firstn 8 arr)
  /\ recoverBytes (Components.preview arr) AUTO = Normal (firstn 8 arr, HEX)
  /\ ((length arr <= 8)%nat ->
      parseHex (Components.preview arr) = Normal arr).
Proof.
  intros Hne. destruct arr as [|b arr]; [now elim Hne|].
  unfold Components.preview, recoverBytes.
  change (firstn 8 (b :: arr)) with (b :: firstn 7 arr).
  destruct (hexText_parseHex b (firstn 7 arr)) as [H1 H2].
  repeat split; trivial.
  intros L. rewrite H1. f_equal. f_equal. apply firstn_all2.
  simpl in L. lia.
Qed.

Lemma preview_round_trip_witness :
  parseHex (Components.preview [xde; xad; x0f]) = Normal [xde; xad; x0f]
  /\ Components.preview [xde; xad; x0f] = str "de ad 0f".
Proof.
  split; [|reflexivity].
  apply (preview_round_trip [xde; xad; x0f]); [discriminate | simpl; lia].
Defined.

(* ===================================================================== *)
(** ** Escaped-byte-string recovery: sizes and literals                    *)
(* ===================================================================== *)

(** Induction along the scan: one case for each way the loop of
    [parsePythonBytes] consumes the head of the text. *)
Lemma scanEscapes_ind (P : jsstring -> list Z -> Prop) :
  P [] [] ->
  (forall c rest, c <> BACKSLASH -> P rest (scanEscapes rest) ->
     P (c :: rest) (c :: scanEscapes rest)) ->
  P [BACKSLASH] [92] ->
  (forall c rest, c <> code "x" -> P rest (scanEscapes rest) ->
     P (BACKSLASH :: c :: rest) (escapeCode c :: scanEscapes rest)) ->
  (forall h1 h2 rest, isHexDigit h1 = true -> isHexDigit h2 = true ->
     P rest (scanEscapes rest) ->
     P (BACKSLASH :: code "x" :: h1 :: h2 :: rest)
       ((16 * hexDigitValue h1 + hexDigitValue h2) :: scanEscapes rest)) ->
  (forall rest, hex2_test (firstn 2 rest) = false ->
     P rest (scanEscapes rest) ->
     P (BACKSLASH :: code "x" :: rest) (92 :: 120 :: scanEscapes rest)) ->
  forall content, P content (scanEscapes content).
Proof.
  intros H0 Hp Hl He Hx Hb content.
  remember (length content) as n eqn:L. revert content L.
  induction n as [n IH] using lt_wf_ind. intros content L.
  assert (R : forall rest, (length rest < n)%nat -> P rest (scanEscapes rest))
    by (intros rest Hr; now apply (IH (length rest))).
  clear IH. subst n.
  destruct content as [|c rest]; [exact H0|].
  destruct (Z.eq_dec c BACKSLASH) as [->|Hc].
  2:{ rewrite (scan_plain c rest Hc). apply Hp; trivial. apply R. simpl. lia. }
  destruct rest as [|c rest]; [rewrite scan_lone_backslash; exact Hl|].
  destruct (Z.eq_dec c (code "x")) as [->|Hc].
  2:{ rewrite (scan_escape c rest Hc). apply He; trivial. apply R. simpl. lia. }
  destruct (hex2_test (firstn 2 rest)) eqn:T.
  - destruct rest as [|h1 [|h2 rest]]; try discriminate.
    cbn [firstn hex2_test] in T. apply andb_prop in T. destruct T as [T1 T2].
    rewrite (scan_hex_escape h1 h2 rest T1 T2). apply Hx; trivial.
    apply R. simpl. lia.
  - rewrite (scan_bad_hex_escape rest T). apply Hb; trivial.
    apply R. simpl. lia.
Qed.

Lemma scanEscapes_length (content : jsstring) :
  (length (scanEscapes content) <= length content
   <= 4 * length (scanEscapes content))%nat.
Proof.
  apply scanEscapes_ind with (P := fun content bytes =>
    (length bytes <= length content <= 4 * length bytes)%nat);
    intros; cbn [length] in *; lia.
Qed.

Lemma slice_length (s : jsstring) (start : Z) (stop : option Z) :
  (length (slice s start stop) <= length s)%nat.
Proof.
  unfold slice. rewrite length_firstn, length_skipn. lia.
Qed.

Lemma stripQuotes_length (content : jsstring) :
  (length (stripQuotes content) <= length content)%nat.
Proof.
  unfold stripQuotes.
  destruct (_ || _); [apply slice_length|].
  destruct (_ || _); [apply slice_length | lia].
Qed.

Lemma trimStart_length (s : jsstring) : (length (trimStart s) <= length s)%nat.
Proof.
  induction s as [|c s IH]; simpl; [lia|].
  destruct (isWhiteSpace c); simpl; lia.
Qed.

Lemma trim_length (s : jsstring) : (length (trim s) <= length s)%nat.
Proof.
  unfold trim, trimEnd. rewrite length_rev.
  pose proof (trimStart_length (rev (trimStart s))) as H.
  rewrite length_rev in H. pose proof (trimStart_length s). lia.
Qed.

(** X3 ([parsePythonBytes]): the escaped-string recovery never invents
    bytes and never drops text. It returns at most one byte per character
    of its input, and at least one byte for every four characters of the
    text left once the input is trimmed and the wrapping quotes are
    stripped; so it returns no byte exactly when that text is empty. *)
Theorem parsePythonBytes_size (s : jsstring) :
  (length (parsePythonBytes s) <= length s)%nat
  /\ (length (stripQuotes (trim s)) <= 4 * length (parsePythonBytes s))%nat
  /\ (parsePythonBytes s = [] <-> stripQuotes (trim s) = []).
Proof.
  unfold parsePythonBytes, Uint8Array_from. rewrite length_map.
  pose proof (scanEscapes_length (stripQuotes (trim s))) as H.
  pose proof (stripQuotes_length (trim s)).
  pose proof (trim_length s).
  repeat split; try lia.
  - intros E. apply (f_equal (@length _)) in E. rewrite length_map in E.
    simpl in E. destruct (stripQuotes (trim s)); [reflexivity | simpl in H; lia].
  - intros ->. reflexivity.
Qed.

Lemma ToUint8_byteValue (b : byte) : ToUint8 (byteValue b) = b.
Proof. destruct b; reflexivity. Qed.

Lemma scan_reprByte (b : byte) (rest : jsstring) :
  scanEscapes (reprByte b ++ rest) = byteValue b :: scanEscapes rest.
Proof.
  destruct b;
    match goal with
    | |- scanEscapes (?r ++ _) = ?v :: _ =>
        let r' := eval vm_compute in r in
        let v' := eval vm_compute in v in
        change r with r'; change v with v'; cbn [app]
    end;
    match goal with
    | |- scanEscapes (92 :: 120 :: ?h1 :: ?h2 :: ?rest) = _ =>
        exact (scan_hex_escape h1 h2 rest eq_refl eq_refl)
    | |- scanEscapes (92 :: ?c :: ?rest) = _ =>
        exact (scan_escape c rest ltac:(vm_compute; discriminate))
    | |- scanEscapes (?c :: ?rest) = _ =>
        exact (scan_plain c rest ltac:(vm_compute; discriminate))
    end.
Qed.

Lemma scan_literal_body (bytes : list byte) :
  scanEscapes (flat_map reprByte bytes) = map byteValue bytes.
Proof.
  induction bytes as [|b bytes IH]; [reflexivity|].
  cbn [flat_map map]. now rewrite scan_reprByte, IH.
Qed.

Lemma stripQuotes_literal (body : jsstring) :
  stripQuotes (bquote ++ body ++ [SQUOTE]) = body.
Proof.
  unfold stripQuotes.
  replace (startsWith bquote (bquote ++ body ++ [SQUOTE])) with true
    by reflexivity.
  replace (endsWith [SQUOTE] (bquote ++ body ++ [SQUOTE])) with true.
  2:{ unfold endsWith. rewrite !rev_app_distr. reflexivity. }
  cbn [andb orb]. unfold slice.
  rewrite !len_app. change (len bquote) with 2. change (len [SQUOTE]) with 1.
  pose proof (len_nonneg body) as Hb.
  replace (2 <? 0) with false by reflexivity.
  replace (-1 <? 0) with true by reflexivity.
  rewrite (Z.min_l 2) by lia.
  change (skipn (Z.to_nat 2) (bquote ++ body ++ [SQUOTE]))
    with (body ++ [SQUOTE]).
  match goal with
  | |- firstn ?k _ = _ =>
      replace k with (length body) by (unfold len in *; lia)
  end.
  rewrite firstn_app, firstn_all, Nat.sub_diag.
  simpl. apply app_nil_r.
Qed.

Lemma literal_solid (body : jsstring) :
  trim (bquote ++ body ++ [SQUOTE]) = bquote ++ body ++ [SQUOTE].
Proof.
  change (bquote ++ body ++ [SQUOTE]) with (98 :: 39 :: body ++ [SQUOTE]).
  apply (trim_solid 98 39 _ (98 :: 39 :: body)); reflexivity.
Qed.

(** X4 ([parsePythonBytes], [autoDetectAndDecode]): every byte sequence can
    be entered as a Python bytes literal and comes back unchanged. Written
    as [repr] writes it (printable characters as themselves, the usual
    two-character escapes, [\xHH] for the rest), between [b'] and ['], it is
    decoded to exactly the bytes, by [parsePythonBytes] and, as PYTHON, by
    the auto-detection, also with whitespace around it. *)
Theorem pythonLiteral_round_trip (bytes : list byte) (l r : jsstring) :
  blank l = true -> blank r = true ->
  parsePythonBytes (l ++ pythonLiteral bytes ++ r) = bytes
  /\ autoDetectAndDecode (l ++ pythonLiteral bytes ++ r)
     = Normal (bytes, PYTHON).
Proof.
  intros Hl Hr.
  assert (T : trim (l ++ pythonLiteral bytes ++ r) = pythonLiteral bytes).
  { rewrite (trim_pad _ _ _ Hl Hr). apply literal_solid. }
  assert (P : parsePythonBytes (pythonLiteral bytes) = bytes).
  { unfold parsePythonBytes, pythonLiteral.
    rewrite literal_solid, stripQuotes_literal, scan_literal_body.
    unfold Uint8Array_from. rewrite map_map.
    rewrite (map_ext _ (fun b => b) ToUint8_byteValue). apply map_id. }
  split.
  - unfold parsePythonBytes. rewrite T.
    unfold parsePythonBytes in P.
    unfold pythonLiteral in P at 1. rewrite literal_solid in P. exact P.
  - rewrite autoDetect_run_unfold. cbv zeta. rewrite T.
    replace (pythonGate (pythonLiteral bytes)) with true by reflexivity.
    now rewrite P.
Qed.

Lemma pythonLiteral_round_trip_witness :
  pythonLiteral [x81; xa3; x6b; x27; x0a] = str "b'\x81\xa3k\'\n'"
  /\ parsePythonBytes (str " " ++ pythonLiteral [x81; xa3; x6b; x27; x0a]
                       ++ [])
     = [x81; xa3; x6b; x27; x0a].
Proof.
  split; [reflexivity|].
  apply (pythonLiteral_round_trip [x81; xa3; x6b; x27; x0a] (str " ") []);
    reflexivity.
Defined.

(* ===================================================================== *)
(** ** Base64: what the projector writes, the recovery reads back          *)
(* ===================================================================== *)

Lemma list_ind3 {A} (P : list A -> Prop) :
  P [] -> (forall a, P [a]) -> (forall a b, P [a; b]) ->
  (forall a b c rest, P rest -> P (a :: b :: c :: rest)) ->
  forall l, P l.
Proof.
  intros H0 H1 H2 H3 l.
  assert (H : P l /\ (forall a, P (a :: l)) /\ (forall a b, P (a :: b :: l))).
  { induction l as [|x l (I0 & I1 & I2)]; [now repeat split|].
    repeat split; auto. }
  apply H.
Qed.

Lemma base64Value_Char (v : Z) :
  0 <= v < 64 -> base64Value (base64Char v) = Some v.
Proof.
  intros Hv. unfold base64Char.
  destruct (Z.ltb_spec v 26).
  { unfold base64Value, isUpper.
    replace (65 <=? v + 65) with true by (symmetry; apply Z.leb_le; lia).
    replace (v + 65 <=? 90) with true by (symmetry; apply Z.leb_le; lia).
    simpl. f_equal. lia. }
  destruct (Z.ltb_spec v 52).
  { unfold base64Value, isUpper, isLower.
    replace (v + 71 <=? 90) with false by (symmetry; apply Z.leb_gt; lia).
    replace (97 <=? v + 71) with true by (symmetry; apply Z.leb_le; lia).
    replace (v + 71 <=? 122) with true by (symmetry; apply Z.leb_le; lia).
    rewrite andb_false_r. simpl. f_equal. lia. }
  destruct (Z.ltb_spec v 62).
  { unfold base64Value, isUpper, isLower, isDigit.
    replace (65 <=? v - 4) with false by (symmetry; apply Z.leb_gt; lia).
    replace (97 <=? v - 4) with false by (symmetry; apply Z.leb_gt; lia).
    replace (48 <=? v - 4) with true by (symmetry; apply Z.leb_le; lia).
    replace (v - 4 <=? 57) with true by (symmetry; apply Z.leb_le; lia).
    simpl. f_equal. lia. }
  assert (E : v = 62 \/ v = 63) by lia.
  destruct E as [-> | ->]; reflexivity.
Qed.

Lemma base64Bytes_quad (a b c d : Z) (rest : list Z) :
  base64Bytes (a :: b :: c :: d :: rest)
  = (let n := ((a * 64 + b) * 64 + c) * 64 + d in
     (n / 65536) :: ((n / 256) mod 256) :: (n mod 256) :: base64Bytes rest).
Proof. reflexivity. Qed.

Lemma btoa_triple (a b c : Z) (rest : jsstring) :
  btoa (a :: b :: c :: rest)
  = (let n := (a * 256 + b) * 256 + c in
     base64Char (n / 262144) :: base64Char ((n / 4096) mod 64)
       :: base64Char ((n / 64) mod 64) :: base64Char (n mod 64) :: btoa rest).
Proof. reflexivity. Qed.

(** The four sextets of three bytes, and the bytes back. *)
Lemma sextets_of_triple (a b c : Z) :
  0 <= a < 256 -> 0 <= b < 256 -> 0 <= c < 256 ->
  let n := (a * 256 + b) * 256 + c in
  let v1 := n / 262144 in
  let v2 := (n / 4096) mod 64 in
  let v3 := (n / 64) mod 64 in
  let v4 := n mod 64 in
  0 <= v1 < 64 /\ 0 <= v2 < 64 /\ 0 <= v3 < 64 /\ 0 <= v4 < 64
  /\ ((v1 * 64 + v2) * 64 + v3) * 64 + v4 = n
  /\ n / 65536 = a /\ (n / 256) mod 256 = b /\ n mod 256 = c.
Proof.
  intros Ha Hb Hc. cbv zeta.
  remember ((a * 256 + b) * 256 + c) as n eqn:En.
  assert (Hn : 0 <= n < 16777216) by lia.
  repeat split; try (Z.div_mod_to_equations; lia).
Qed.

Lemma btoa_shape (l : jsstring) :
  Forall (fun c => 0 <= c < 256) l ->
  exists body pad vs,
    btoa l = body ++ pad /\ base64Values body = Some vs
    /\ base64Bytes vs = l
    /\ ((pad = [] /\ len body mod 4 = 0)
        \/ (pad = [61] /\ len body mod 4 = 3)
        \/ (pad = [61; 61] /\ len body mod 4 = 2)).
Proof.
  induction l as [|a|a b|a b c rest IH] using list_ind3; intros F.
  - exists [], [], []. repeat split. now left.
  - apply Forall_inv in F.
    exists [base64Char (a * 16 / 64); base64Char ((a * 16) mod 64)], [61; 61],
      [a * 16 / 64; (a * 16) mod 64].
    repeat split.
    + cbn [base64Values].
      rewrite !base64Value_Char by (Z.div_mod_to_equations; lia). reflexivity.
    + cbn [base64Bytes].
      replace (a * 16 / 64 * 64 + (a * 16) mod 64) with (a * 16)
        by (Z.div_mod_to_equations; lia).
      f_equal. Z.div_mod_to_equations; lia.
    + right. right. now split.
  - pose proof (Forall_inv F) as Ha.
    pose proof (Forall_inv (Forall_inv_tail F)) as Hb.
    cbv beta in Ha, Hb.
    remember ((a * 256 + b) * 4) as n eqn:En.
    assert (Hn : 0 <= n < 262144) by lia.
    exists [base64Char (n / 4096); base64Char ((n / 64) mod 64);
            base64Char (n mod 64)], [61],
      [n / 4096; (n / 64) mod 64; n mod 64].
    repeat split.
    + cbn [btoa]. now rewrite <- En.
    + cbn [base64Values].
      rewrite !base64Value_Char by (Z.div_mod_to_equations; lia). reflexivity.
    + cbn [base64Bytes].
      replace ((n / 4096 * 64 + (n / 64) mod 64) * 64 + n mod 64) with n
        by (Z.div_mod_to_equations; lia).
      f_equal; [|f_equal]; Z.div_mod_to_equations; lia.
    + right. left. now split.
  - pose proof (Forall_inv F) as Ha.
    pose proof (Forall_inv (Forall_inv_tail F)) as Hb.
    pose proof (Forall_inv (Forall_inv_tail (Forall_inv_tail F))) as Hc.
    cbv beta in Ha, Hb, Hc.
    destruct (IH (Forall_inv_tail (Forall_inv_tail (Forall_inv_tail F))))
      as (body & pad & vs & E & V & B & P).
    destruct (sextets_of_triple a b c Ha Hb Hc)
      as (H1 & H2 & H3 & H4 & R & Ra & Rb & Rc).
    cbv zeta in *.
    remember ((a * 256 + b) * 256 + c) as n eqn:En.
    exists (base64Char (n / 262144) :: base64Char ((n / 4096) mod 64)
              :: base64Char ((n / 64) mod 64) :: base64Char (n mod 64) :: body),
      pad,
      (n / 262144 :: (n / 4096) mod 64 :: (n / 64) mod 64 :: n mod 64 :: vs).
    repeat split.
    + rewrite btoa_triple. cbv zeta. rewrite <- En, E. reflexivity.
    + cbn [base64Values]. rewrite !base64Value_Char by assumption.
      now rewrite V.
    + rewrite base64Bytes_quad. cbv zeta. rewrite R, Ra, Rb, Rc, B. reflexivity.
    + rewrite !len_cons.
      destruct P as [[-> P]|[[-> P]|[-> P]]];
        [left | right; left | right; right]; (split; [reflexivity|]);
        replace (1 + (1 + (1 + (1 + len body)))) with (len body + 1 * 4) by lia;
        now rewrite Z.mod_add.
Qed.

Lemma base64Values_clean (s : jsstring) (vs : list Z) :
  base64Values s = Some vs ->
  filter (fun c => negb (isAsciiWhitespace c)) s = s /\ ~ In 61 s.
Proof.
  revert vs. induction s as [|c s IH]; intros vs H; [now split|].
  cbn [base64Values] in H.
  destruct (base64Value c) as [v|] eqn:Ec; [|discriminate].
  destruct (base64Values s) as [vs'|] eqn:Es; [|discriminate].
  destruct (IH vs' eq_refl) as [I1 I2].
  assert (W : isAsciiWhitespace c = false).
  { destruct (isAsciiWhitespace c) eqn:W; [|reflexivity].
    apply isAsciiWhitespace_isWhiteSpace, isWhiteSpace_not_base64 in W.
    destruct W as [W _]. congruence. }
  split.
  - cbn [filter]. rewrite W. cbn [negb]. now rewrite I1.
  - intros [E | Hin]; [subst c; discriminate | now apply I2].
Qed.

Lemma startsWith_pad_rev (body p : jsstring) :
  ~ In 61 body -> startsWith (61 :: p) (rev body) = false.
Proof.
  intros H. destruct (rev body) as [|c r] eqn:E; [reflexivity|].
  cbn [startsWith]. destruct (Z.eqb_spec 61 c) as [<-|]; [|reflexivity].
  elim H. apply in_rev. rewrite E. now left.
Qed.

Lemma endsWith_pad (body p : jsstring) :
  ~ In 61 body -> endsWith (p ++ [61]) body = false.
Proof.
  intros H. unfold endsWith. rewrite rev_app_distr.
  now apply startsWith_pad_rev.
Qed.

Lemma firstn_body (body pad : jsstring) :
  firstn (length (body ++ pad) - length pad) (body ++ pad) = body.
Proof.
  rewrite length_app.
  replace (length body + length pad - length pad)%nat with (length body) by lia.
  rewrite firstn_app, firstn_all, Nat.sub_diag. apply app_nil_r.
Qed.

Lemma stripPadding_shape (body pad : jsstring) :
  ~ In 61 body ->
  (pad = [] /\ len body mod 4 = 0) \/ (pad = [61] /\ len body mod 4 = 3)
  \/ (pad = [61; 61] /\ len body mod 4 = 2) ->
  stripPadding (body ++ pad) = body.
Proof.
  intros N P. unfold stripPadding. rewrite len_app.
  destruct P as [[-> P]|[[-> P]|[-> P]]].
  - rewrite app_nil_r. change (len []) with 0. rewrite Z.add_0_r, P.
    cbn [Z.eqb].
    replace (endsWith (str "==") body) with false
      by (symmetry; apply (endsWith_pad body [61] N)).
    replace (endsWith (str "=") body) with false
      by (symmetry; apply (endsWith_pad body [] N)).
    reflexivity.
  - change (len [61]) with 1.
    replace ((len body + 1) mod 4) with 0
      by (revert P; Z.div_mod_to_equations; lia).
    cbn [Z.eqb].
    assert (E1 : endsWith (str "==") (body ++ [61]) = false).
    { unfold endsWith. rewrite rev_app_distr.
      change (startsWith (rev (str "==")) (rev [61] ++ rev body))
        with ((61 =? 61) && startsWith [61] (rev body)).
      now rewrite (startsWith_pad_rev body [] N). }
    assert (E2 : endsWith (str "=") (body ++ [61]) = true).
    { unfold endsWith. rewrite rev_app_distr. reflexivity. }
    rewrite E1, E2. apply (firstn_body body [61]).
  - change (len [61; 61]) with 2.
    replace ((len body + 2) mod 4) with 0
      by (revert P; Z.div_mod_to_equations; lia).
    cbn [Z.eqb].
    assert (E1 : endsWith (str "==") (body ++ [61; 61]) = true).
    { unfold endsWith. rewrite rev_app_distr. reflexivity. }
    rewrite E1. apply (firstn_body body [61; 61]).
Qed.

Lemma atob_btoa (l : jsstring) :
  Forall (fun c => 0 <= c < 256) l -> atob (btoa l) = Some l.
Proof.
  intros F. destruct (btoa_shape l F) as (body & pad & vs & E & V & B & P).
  destruct (base64Values_clean body vs V) as [C N].
  unfold atob. rewrite E, filter_app, C.
  replace (filter (fun c => negb (isAsciiWhitespace c)) pad) with pad
    by (destruct P as [[-> _]|[[-> _]|[-> _]]]; reflexivity).
  rewrite (stripPadding_shape body pad N P), V, B.
  replace (len body mod 4 =? 1) with false; [reflexivity|].
  symmetry. apply Z.eqb_neq. destruct P as [[_ P]|[[_ P]|[_ P]]]; lia.
Qed.

Lemma parseBase64_bytesToBase64 (bytes : list byte) :
  parseBase64 (bytesToBase64 bytes) = Normal bytes.
Proof.
  unfold parseBase64, bytesToBase64.
  rewrite atob_btoa.
  - unfold Uint8Array_from. rewrite map_map.
    rewrite (map_ext _ (fun b => b) ToUint8_byteValue). now rewrite map_id.
  - apply Forall_forall. intros c Hc. apply in_map_iff in Hc.
    destruct Hc as (b & <- & _). apply byteValue_range.
Qed.

(** X5 ([bytesToBase64], [parseBase64], [serializeNode]): base64 is a round
    trip. The text [bytesToBase64] writes for a byte sequence is decoded by
    [parseBase64] to the same bytes; so what the JSON view shows for a
    binary value, or as the data of an extension, can be entered again in
    BASE64 mode to obtain its bytes. *)
Theorem base64_round_trip (bytes : list byte)
    (JSON_stringify : plain -> jsstring) (floatToString : jsvalue -> jsstring) :
  parseBase64 (bytesToBase64 bytes) = Normal bytes
  /\ recoverBytes (bytesToBase64 bytes) BASE64 = Normal (bytes, BASE64)
  /\ (forall n, type n = BINARY -> value n = JBytes bytes ->
      exists text,
        serializeNode JSON_stringify floatToString n = PValue (JString text)
        /\ parseBase64 text = Normal bytes)
  /\ (forall n, type n = EXTENSION -> value n = JBytes bytes ->
      exists tag text,
        serializeNode JSON_stringify floatToString n
        = PObject true
            [(str "__ext_type", tag); (str "data", PValue (JString text))]
        /\ parseBase64 text = Normal bytes).
Proof.
  pose proof (parseBase64_bytesToBase64 bytes) as H.
  repeat split; trivial.
  - unfold recoverBytes. now rewrite H.
  - intros [i k v t r ch bl m] Ht Hv. simpl in Ht, Hv. subst t v.
    exists (bytesToBase64 bytes). now split.
  - intros [i k v t r ch bl m] Ht Hv. simpl in Ht, Hv. subst t v.
    eexists _, (bytesToBase64 bytes). now split.
Qed.

(* ===================================================================== *)
(** ** Auto-detection and the explicit formats                             *)
(* ===================================================================== *)

(** [parseMsgpack] looks at its input only through [recoverBytes]. *)
Lemma parseMsgpack_recover (input input' : jsstring) (format format' : InputFormat)
    (counter counter' : N) :
  recoverBytes input format = recoverBytes input' format' ->
  parseMsgpack input format counter = parseMsgpack input' format' counter'.
Proof. intros H. unfold parseMsgpack. now rewrite H. Qed.

Lemma autoDetect_trim (input input' : jsstring) :
  trim input = trim input' ->
  autoDetectAndDecode input = autoDetectAndDecode input'.
Proof. intros H. rewrite !autoDetect_run_unfold. cbv zeta. now rewrite H. Qed.

Lemma autoDetect_explicit (input : jsstring) (bytes : list byte)
    (format : InputFormat) :
  recoverBytes input AUTO = Normal (bytes, format) ->
  format <> AUTO
  /\ recoverBytes (trim input) format = Normal (bytes, format).
Proof.
  intros H. unfold recoverBytes in H at 1. rewrite autoDetect_run_unfold in H.
  cbv zeta in H.
  destruct (pythonGate (trim input)).
  { injection H as <- <-. split; [discriminate | reflexivity]. }
  destruct (hexGate (trim input)).
  { destruct (parseHex (trim input)) as [b|e] eqn:E; [|discriminate].
    injection H as <- <-. split; [discriminate|].
    unfold recoverBytes. now rewrite E. }
  destruct (base64Gate (trim input)).
  - destruct (parseBase64 (trim input)) as [b|e] eqn:E.
    + injection H as <- <-. split; [discriminate|].
      unfold recoverBytes. now rewrite E.
    + destruct (fallbackGate (trim input)); [|discriminate].
      injection H as <- <-. split; [discriminate | reflexivity].
  - destruct (fallbackGate (trim input)); [|discriminate].
    injection H as <- <-. split; [discriminate | reflexivity].
Qed.

(** X6 ([autoDetectAndDecode], [parseMsgpack]): auto-detection adds
    nothing of its own to the three recoveries. When it succeeds, the format
    it reports is HEX, BASE64 or PYTHON, and selecting that format by hand
    on the trimmed text gives the same bytes and the same result of
    [parseMsgpack]. *)
Theorem autoDetect_agrees (input : jsstring) (bytes : list byte)
    (format : InputFormat) (counter : N) :
  recoverBytes input AUTO = Normal (bytes, format) ->
  format <> AUTO
  /\ recoverBytes (trim input) format = Normal (bytes, format)
  /\ parseMsgpack (trim input) format counter
     = parseMsgpack input AUTO counter.
Proof.
  intros H. destruct (autoDetect_explicit _ _ _ H) as [G1 G2].
  repeat split; trivial.
  apply parseMsgpack_recover. now rewrite G2, H.
Qed.

Lemma autoDetect_agrees_witness :
  HEX <> AUTO
  /\ recoverBytes (trim (str " 0x81 a3 ")) HEX = Normal ([x81; xa3], HEX)
  /\ parseMsgpack (trim (str " 0x81 a3 ")) HEX 0%N
     = parseMsgpack (str " 0x81 a3 ") AUTO 0%N.
Proof. apply (autoDetect_agrees (str " 0x81 a3 ")). reflexivity. Defined.

(** *** Whitespace around the input *)

Lemma replace_whitespace_app (s t : jsstring) :
  replace_whitespace (s ++ t) = replace_whitespace s ++ replace_whitespace t.
Proof. apply filter_app. Qed.

Lemma replace_whitespace_blank (s : jsstring) :
  blank s = true -> replace_whitespace s = [].
Proof. intros H. unfold replace_whitespace. now apply filter_negb_all. Qed.

Lemma startsWith_blank (b : Z) (p r : jsstring) :
  isWhiteSpace b = false -> blank r = true -> startsWith (b :: p) r = false.
Proof.
  intros Hb Hr. destruct r as [|x r]; [reflexivity|].
  unfold blank in Hr. cbn [forallb] in Hr.
  apply andb_prop in Hr. destruct Hr as [Hx _].
  cbn [startsWith]. destruct (Z.eqb_spec b x) as [->|]; [congruence|].
  reflexivity.
Qed.

Lemma startsWith_app_blank (a b : Z) (s r : jsstring) :
  isWhiteSpace b = false -> blank r = true ->
  startsWith [a; b] (s ++ r) = startsWith [a; b] s.
Proof.
  intros Hb Hr.
  destruct s as [|c [|d s]]; try reflexivity.
  - cbn [app]. destruct r as [|x r]; [reflexivity|].
    unfold blank in Hr. cbn [forallb] in Hr.
    apply andb_prop in Hr. destruct Hr as [_ Hr].
    change (startsWith [a; b] (x :: r)) with ((a =? x) && startsWith [b] r).
    rewrite (startsWith_blank b [] r Hb Hr). apply andb_false_r.
  - change (startsWith [a; b] ([c] ++ r)) with ((a =? c) && startsWith [b] r).
    now rewrite (startsWith_blank b [] r Hb Hr).
Qed.

Lemma hexClean_trailing (s r : jsstring) :
  blank r = true -> hexClean (s ++ r) = hexClean s.
Proof.
  intros Hr. unfold hexClean, replace_leading_0x.
  change (str "0x") with [48; 120].
  rewrite (startsWith_app_blank 48 120 s r eq_refl Hr).
  destruct (startsWith [48; 120] s) eqn:E.
  - destruct s as [|c [|d s]];
      [discriminate
      | cbn [startsWith] in E; rewrite andb_false_r in E; discriminate |].
    change (skipn 2 ((c :: d :: s) ++ r)) with (s ++ r).
    change (skipn 2 (c :: d :: s)) with s.
    now rewrite replace_whitespace_app, (replace_whitespace_blank r Hr), app_nil_r.
  - now rewrite replace_whitespace_app, (replace_whitespace_blank r Hr), app_nil_r.
Qed.

Lemma parseHex_clean (s t : jsstring) :
  hexClean s = hexClean t -> parseHex s = parseHex t.
Proof. intros H. unfold parseHex. now rewrite H. Qed.

Lemma hexClean_leading (l s : jsstring) :
  blank l = true -> l <> [] -> hexClean (l ++ s) = replace_whitespace s.
Proof.
  intros Hl Hne. unfold hexClean, replace_leading_0x.
  destruct l as [|c l]; [now elim Hne|].
  pose proof Hl as Hl'.
  unfold blank in Hl. cbn [forallb] in Hl.
  apply andb_prop in Hl. destruct Hl as [Hc Hl].
  replace (startsWith (str "0x") ((c :: l) ++ s)) with false.
  - rewrite replace_whitespace_app.
    now rewrite (replace_whitespace_blank (c :: l) Hl').
  - change (str "0x") with [48; 120]. cbn [app startsWith].
    destruct (Z.eqb_spec 48 c) as [<-|]; [discriminate | reflexivity].
Qed.

Lemma atob_padding (l s r : jsstring) :
  forallb isAsciiWhitespace l = true -> forallb isAsciiWhitespace r = true ->
  atob (l ++ s ++ r) = atob s.
Proof.
  intros Hl Hr. unfold atob. rewrite !filter_app.
  now rewrite (filter_negb_all _ l Hl), (filter_negb_all _ r Hr), app_nil_r.
Qed.

(** X7 ([parseMsgpack] with [autoDetectAndDecode], [parsePythonBytes],
    [parseHex], [parseBase64]): whitespace around the input does not change
    the result. This holds in the AUTO and PYTHON modes for any whitespace
    before and after; in HEX mode for whitespace after the text, and before
    it too unless the text starts with the [0x] prefix; in BASE64 mode for
    the ASCII whitespace that [atob] skips. *)
Theorem whitespace_padding (l s r : jsstring) (counter : N) :
  blank l = true -> blank r = true ->
  parseMsgpack (l ++ s ++ r) AUTO counter = parseMsgpack s AUTO counter
  /\ parseMsgpack (l ++ s ++ r) PYTHON counter = parseMsgpack s PYTHON counter
  /\ parseMsgpack (s ++ r) HEX counter = parseMsgpack s HEX counter
  /\ (startsWith (str "0x") s = false ->
      parseMsgpack (l ++ s ++ r) HEX counter = parseMsgpack s HEX counter)
  /\ (forallb isAsciiWhitespace l = true ->
      forallb isAsciiWhitespace r = true ->
      parseMsgpack (l ++ s ++ r) BASE64 counter
      = parseMsgpack s BASE64 counter).
Proof.
  intros Hl Hr. pose proof (trim_pad l s r Hl Hr) as T.
  repeat split.
  - apply parseMsgpack_recover. unfold recoverBytes. now apply autoDetect_trim.
  - apply parseMsgpack_recover. unfold recoverBytes, parsePythonBytes.
    now rewrite T.
  - apply parseMsgpack_recover. unfold recoverBytes.
    now rewrite (parseHex_clean _ _ (hexClean_trailing s r Hr)).
  - intros S. apply parseMsgpack_recover. unfold recoverBytes.
    assert (E : hexClean (l ++ s ++ r) = hexClean s).
    { destruct l as [|c l].
      - exact (hexClean_trailing s r Hr).
      - rewrite (hexClean_leading (c :: l) (s ++ r) Hl) by discriminate.
        rewrite replace_whitespace_app, (replace_whitespace_blank r Hr).
        rewrite app_nil_r. unfold hexClean, replace_leading_0x.
        now rewrite S. }
    now rewrite (parseHex_clean _ _ E).
  - intros Al Ar. apply parseMsgpack_recover. unfold recoverBytes, parseBase64.
    now rewrite (atob_padding l s r Al Ar).
Qed.

Lemma whitespace_padding_witness :
  parseMsgpack (str "  " ++ str "b'\x81\xa3'" ++ [10]) AUTO 0%N
  = parseMsgpack (str "b'\x81\xa3'") AUTO 0%N.
Proof.
  apply (whitespace_padding (str "  ") (str "b'\x81\xa3'") [10] 0%N);
    reflexivity.
Defined.

Lemma hexRe_test_x (s : jsstring) : hexRe_test (48 :: 120 :: s) = false.
Proof. reflexivity. Qed.

(** X8 ([parseHex] against [autoDetectAndDecode]): in HEX mode the [0x]
    prefix is recognised only at the very start of the text. After leading
    whitespace it is kept, and the input is then always rejected, whatever
    follows; auto-detection, which trims first, treats the same input as if
    the whitespace were not there. *)
Theorem hex_prefix_after_whitespace (l s : jsstring) (counter : N) :
  blank l = true -> l <> [] ->
  (parseHex (l ++ str "0x" ++ s) = Throw (Error (str "Invalid Hex string length"))
   \/ parseHex (l ++ str "0x" ++ s) = Throw (Error (str "Invalid Hex characters")))
  /\ success (fst (parseMsgpack (l ++ str "0x" ++ s) HEX counter)) = false
  /\ hexClean (str "0x" ++ s) = replace_whitespace s
  /\ parseMsgpack (l ++ str "0x" ++ s) AUTO counter
     = parseMsgpack (str "0x" ++ s) AUTO counter.
Proof.
  intros Hl Hne.
  assert (C : hexClean (l ++ str "0x" ++ s) = 48 :: 120 :: replace_whitespace s).
  { rewrite (hexClean_leading l _ Hl Hne). reflexivity. }
  assert (P : parseHex (l ++ str "0x" ++ s)
              = Throw (Error (str "Invalid Hex string length"))
              \/ parseHex (l ++ str "0x" ++ s)
                 = Throw (Error (str "Invalid Hex characters"))).
  { unfold parseHex. rewrite C, hexRe_test_x.
    destruct (negb _); [now left | now right]. }
  repeat split; trivial.
  - unfold parseMsgpack, recoverBytes. now destruct P as [-> | ->].
  - pose proof (whitespace_padding l (str "0x" ++ s) [] counter Hl eq_refl)
      as (W & _).
    now rewrite app_nil_r in W.
Qed.

Lemma hex_prefix_after_whitespace_witness :
  success (fst (parseMsgpack (str " " ++ str "0x" ++ str "c3") HEX 0%N)) = false
  /\ success (fst (parseMsgpack (str " " ++ str "0x" ++ str "c3") AUTO 0%N))
     = true
  /\ success (fst (parseMsgpack (str "0x" ++ str "c3") HEX 0%N)) = true.
Proof.
  split; [|split; reflexivity].
  apply (hex_prefix_after_whitespace (str " ") (str "c3") 0%N);
    [reflexivity | discriminate].
Defined.

(** X9 ([autoDetectAndDecode]): when auto-detection gives up, and what its
    error list can hold. It throws exactly when the text has no Python
    prefix, does not pass the hex gate, is refused as base64 (by the gate or
    by [atob]) and contains no [\x]. Of its four [catch] blocks only the
    base64 one can run: the list [errors] is empty or holds the single
    base64 entry, and holds it exactly when the base64 gate let the text
    through and [atob] refused it. *)
Theorem autoDetect_failure (input : jsstring) :
  let clean := trim input in
  ((exists e, autoDetectAndDecode input = Throw e)
   <-> (pythonGate clean = false /\ hexGate clean = false
        /\ (base64Gate clean = false \/ atob clean = None)
        /\ fallbackGate clean = false))
  /\ (snd (autoDetect_run input) = []
      \/ snd (autoDetect_run input)
         = [str "Base64: Error: Invalid Base64 string"])
  /\ (snd (autoDetect_run input) <> []
      <-> (pythonGate clean = false /\ hexGate clean = false
           /\ base64Gate clean = true /\ atob clean = None)).
Proof.
  cbv zeta. split.
  - rewrite autoDetect_run_unfold. cbv zeta.
    destruct (pythonGate (trim input)).
    { split; [intros [e H]; discriminate | intros (H & _); discriminate]. }
    destruct (hexGate (trim input)) eqn:Hhex.
    { rewrite (hexGate_parseHex _ Hhex).
      split; [intros [e H]; discriminate | intros (_ & H & _); discriminate]. }
    unfold parseBase64.
    destruct (base64Gate (trim input)), (atob (trim input)),
      (fallbackGate (trim input));
      (split;
       [ intros [e H]; try discriminate; repeat split; auto
       | intros (_ & _ & [H | H] & H'); try discriminate;
         now eexists ]).
  - unfold autoDetect_run. cbv zeta.
    fold (pythonGate (trim input)). fold (hexGate (trim input)).
    rewrite base64Gate_source. fold (fallbackGate (trim input)).
    destruct (pythonGate (trim input)).
    { split; [now left|]. split; [intros H; now elim H | intros (H & _); discriminate]. }
    destruct (hexGate (trim input)) eqn:Hhex.
    { rewrite (hexGate_parseHex _ Hhex).
      split; [now left|].
      split; [intros H; now elim H | intros (_ & H & _); discriminate]. }
    unfold parseBase64, attempt.
    destruct (base64Gate (trim input)), (atob (trim input)),
      (fallbackGate (trim input)); cbn [snd app exn_toString];
      (split; [first [now left | now right]|]);
      (split;
       [ intros H; first [now elim H | now repeat split]
       | intros (_ & _ & H1 & H2); first [discriminate | congruence] ]).
Qed.

(* ===================================================================== *)
(** ** The result record of [parseMsgpack]                                 *)
(* ===================================================================== *)

Lemma recoverBytes_format (input : jsstring) (format detected : InputFormat)
    (bytes : list byte) :
  recoverBytes input format = Normal (bytes, detected) ->
  detected <> AUTO /\ (format <> AUTO -> detected = format).
Proof.
  destruct format; intros H.
  - split; [exact (proj1 (autoDetect_explicit _ _ _ H)) | intros N; now elim N].
  - unfold recoverBytes in H. destruct (parseHex input); [|discriminate].
    injection H as _ <-. split; [discriminate | reflexivity].
  - unfold recoverBytes in H. destruct (parseBase64 input); [|discriminate].
    injection H as _ <-. split; [discriminate | reflexivity].
  - injection H as _ <-. split; [discriminate | reflexivity].
Qed.

(** X10 ([parseMsgpack]): the result record is one of two shapes. With a
    tree: [success] is set, there is no error, the bytes are recorded and
    are not empty, they are what the recovery gave and decoding them gives
    the tree, and the recorded format is never AUTO (it is the selected
    format unless that was AUTO). Without a tree: [success] is unset,
    no format and no bytes are recorded, and there is an error message, which
    is never the empty string. *)
Theorem parseMsgpack_result (input : jsstring) (format : InputFormat)
    (counter : N) :
  let r := fst (parseMsgpack input format counter) in
  match data r with
  | Some root =>
      success r = true /\ error r = None
      /\ exists bytes detected s',
           originalBytes r = Some bytes /\ bytes <> []
           /\ detectedFormat r = Some detected /\ detected <> AUTO
           /\ (format <> AUTO -> detected = format)
           /\ recoverBytes input format = Normal (bytes, detected)
           /\ decode bytes = Ok root s'
           /\ snd (parseMsgpack input format counter) = nodeIdCounter s'
  | None =>
      success r = false /\ detectedFormat r = None /\ originalBytes r = None
      /\ exists msg, error r = Some msg /\ msg <> []
  end.
Proof.
  cbv zeta. unfold parseMsgpack.
  destruct (recoverBytes input format) as [[bytes detected]|e] eqn:R.
  - destruct bytes as [|b bytes].
    { cbn. repeat split. eexists. split; [reflexivity | discriminate]. }
    destruct (decode (b :: bytes)) as [root s'|e s'|] eqn:D; cbn.
    + repeat split. exists (b :: bytes), detected, s'.
      destruct (recoverBytes_format _ _ _ _ R) as [F1 F2].
      repeat split; trivial. discriminate.
    + repeat split. eexists. split; [reflexivity | apply messageOr_nonempty].
    + repeat split. eexists. split; [reflexivity | discriminate].
  - cbn. repeat split. eexists. split; [reflexivity | apply messageOr_nonempty].
Qed.

(* ===================================================================== *)
(** ** Every node of a decoded tree is well formed                         *)
(* ===================================================================== *)

Lemma triple_bind_pure {A B} buf (m : M A) (F : A -> Prop) (k : A -> M B)
    (R : B -> pstate -> Prop) :
  triple True buf (fun _ => True) m (fun a _ => F a) ->
  (forall a, F a -> triple True buf (fun _ => True) (k a) R) ->
  triple True buf (fun _ => True) (bind m k) R.
Proof.
  intros Hm Hk s _. unfold bind. specialize (Hm s I).
  destruct (m buf s) as [a s'| |]; trivial. now apply (Hk a Hm).
Qed.

Lemma triple_Ok {A} buf (P : pstate -> Prop) (m : M A) Q s a s' :
  triple True buf P m Q -> P s -> m buf s = Ok a s' -> Q a s'.
Proof. intros T Hs E. specialize (T s Hs). now rewrite E in T. Qed.

Lemma bigEndian_acc (bytes : list byte) (acc : N) :
  (fold_left (fun a b => a * 256 + Byte.to_N b) bytes acc
   = acc * 256 ^ N.of_nat (length bytes) + bigEndian bytes
   /\ bigEndian bytes < 256 ^ N.of_nat (length bytes))%N.
Proof.
  unfold bigEndian. revert acc.
  induction bytes as [|b bytes IH]; intros acc.
  - simpl. split; lia.
  - cbn [fold_left length].
    destruct (IH (acc * 256 + Byte.to_N b)%N) as [E1 _].
    destruct (IH (0 * 256 + Byte.to_N b)%N) as [E2 B].
    rewrite E1, E2. pose proof (Byte.to_N_bounded b).
    rewrite Nnat.Nat2N.inj_succ, N.pow_succ_r'. split; nia.
Qed.

Lemma bufferSlice_length (buf : list byte) (start len : N) :
  (length (bufferSlice buf start (start + len)) <= N.to_nat len)%nat
  /\ ((start + len <= bufferLength buf)%N ->
      length (bufferSlice buf start (start + len)) = N.to_nat len).
Proof.
  unfold bufferSlice, bufferLength. rewrite length_firstn, length_skipn.
  replace (start + len - start)%N with len by lia. split; lia.
Qed.

Lemma fact_getUint buf (width : N) :
  triple True buf (fun _ => True) (getUint width)
    (fun u _ => (u < 256 ^ width)%N).
Proof.
  intros s _. unfold getUint. destruct (_ <? _)%N; [exact I|].
  destruct (bigEndian_acc (bufferSlice buf (offset s) (offset s + width)) 0)
    as [_ B].
  eapply N.lt_le_trans; [exact B|].
  apply N.pow_le_mono_r; [lia|].
  pose proof (proj1 (bufferSlice_length buf (offset s) width)). lia.
Qed.

Lemma toSigned_range (width : N) (u : N) :
  (0 < width)%N -> (u < 256 ^ width)%N ->
  - 2 ^ (8 * Z.of_N width - 1) <= toSigned width u < 2 ^ (8 * Z.of_N width - 1).
Proof.
  intros Hw Hu. unfold toSigned.
  assert (E : 2 ^ (8 * Z.of_N width) = 2 * 2 ^ (8 * Z.of_N width - 1)).
  { rewrite <- Z.pow_succ_r by lia. f_equal. lia. }
  assert (U : Z.of_N u < 2 ^ (8 * Z.of_N width)).
  { apply N2Z.inj_lt in Hu. rewrite N2Z.inj_pow in Hu.
    change (Z.of_N 256) with (2 ^ 8) in Hu.
    now rewrite <- Z.pow_mul_r in Hu by lia. }
  destruct (Z.ltb_spec (Z.of_N u) (2 ^ (8 * Z.of_N width - 1))); lia.
Qed.

Lemma fact_getInt buf (width : N) :
  (0 < width)%N ->
  triple True buf (fun _ => True) (getInt width)
    (fun z _ => - 2 ^ (8 * Z.of_N width - 1) <= z < 2 ^ (8 * Z.of_N width - 1)).
Proof.
  intros Hw. unfold getInt.
  eapply triple_bind_pure; [apply fact_getUint|].
  intros u Hu. apply triple_ret. intros s _. now apply toSigned_range.
Qed.

Lemma fact_readBin buf (len : N) :
  triple True buf (fun _ => True) (readBin len)
    (fun v _ => length v = N.to_nat len).
Proof.
  intros s _. unfold readBin. cbv zeta.
  destruct (N.ltb_spec (bufferLength buf) (offset s + len)); [exact I|].
  now apply bufferSlice_length.
Qed.

Lemma fact_readString buf (len : N) :
  triple True buf (fun _ => True) (readString len)
    (fun v _ => exists payload, length payload = N.to_nat len
                                /\ v = TextDecoder_decode payload).
Proof.
  intros s _. unfold readString. cbv zeta.
  destruct (N.ltb_spec (bufferLength buf) (offset s + len)); [exact I|].
  eexists. split; [|reflexivity]. now apply bufferSlice_length.
Qed.

Lemma fact_getUint_below buf (width : N) (bound : Z) :
  bound = 256 ^ Z.of_N width ->
  triple True buf (fun _ => True) (getUint width)
    (fun u _ => 0 <= Z.of_N u < bound).
Proof.
  intros ->. eapply triple_weaken; [apply fact_getUint | trivial |].
  intros u s H. cbv beta in H. apply N2Z.inj_lt in H.
  rewrite N2Z.inj_pow in H. change (Z.of_N 256) with 256 in H. lia.
Qed.

Lemma fact_getInt_within buf (width : N) (bound : Z) :
  (0 < width)%N -> bound = 2 ^ (8 * Z.of_N width - 1) ->
  triple True buf (fun _ => True) (getInt width)
    (fun z _ => - bound <= z < bound).
Proof. intros Hw ->. now apply fact_getInt. Qed.

Lemma nodes_split (n : ParsedNode) :
  nodes n
  = keyNodes (key n)
    ++ n :: match children n with
            | Some items => flat_map nodes items
            | None => []
            end.
Proof. destruct n. reflexivity. Qed.

Lemma nodes_self (n : ParsedNode) : In n (nodes n).
Proof. rewrite nodes_split. apply in_or_app. right. now left. Qed.

Lemma node_intro (n : ParsedNode) :
  Forall wellFormed (keyNodes (key n)) -> wellFormed n ->
  (forall items, children n = Some items ->
     Forall (fun c => Forall wellFormed (nodes c)) items) ->
  Forall wellFormed (nodes n).
Proof.
  intros Hk Hn Hc. rewrite nodes_split. apply Forall_app. split; [exact Hk|].
  constructor; [exact Hn|].
  destruct (children n) as [items|]; [|constructor].
  apply Forall_flat_map. now apply Hc.
Qed.

Lemma Forall_and_l {A} (P Q : A -> Prop) (l : list A) :
  Forall (fun a => P a /\ Q a) l -> Forall P l.
Proof. apply Forall_impl. now intros a [H _]. Qed.

Lemma Forall_and_r {A} (P Q : A -> Prop) (l : list A) :
  Forall (fun a => P a /\ Q a) l -> Forall Q l.
Proof. apply Forall_impl. now intros a [_ H]. Qed.

Ltac wf_step Hal Hml :=
  match goal with
  | |- triple _ _ _ (if ?b then _ else _) _ => destruct b eqn:?
  | |- triple _ _ _ (bind (getUint _) _) _ =>
      eapply triple_bind_pure;
      [eapply fact_getUint_below; cbv; reflexivity | intros ? ?]
  | |- triple _ _ _ (bind (getInt _) _) _ =>
      eapply triple_bind_pure;
      [eapply fact_getInt_within; [reflexivity | cbv; reflexivity]
      | intros ? ?]
  | |- triple _ _ _ (bind (advance _) _) _ =>
      eapply (triple_bind_pure _ _ (fun _ => True));
      [apply triple_any | intros ? _]
  | |- triple _ _ _ (bind (readString _) _) _ =>
      eapply triple_bind_pure; [apply fact_readString | intros ? ?]
  | |- triple _ _ _ (bind (readBin _) _) _ =>
      eapply triple_bind_pure; [apply fact_readBin | intros ? ?]
  | |- triple _ _ _ (bind generateId _) _ =>
      eapply (triple_bind_pure _ _ (fun _ => True));
      [apply triple_any | intros ? _]
  | |- triple _ _ _ (bind _ _) _ =>
      eapply triple_bind_pure; [first [apply Hal | apply Hml] | intros ? [? ?]]
  | |- triple _ _ _ (ret _) _ => apply triple_ret; intros ? _
  | |- triple _ _ _ (fun b s => throw _ b s) _ => apply triple_throw
  end.

Ltac wf_bounds :=
  repeat match goal with
         | H : (_ <=? _)%N = true |- _ => apply N.leb_le in H
         | H : (_ <=? _)%N = false |- _ => apply N.leb_gt in H
         end.

Ltac wf_lengthOk :=
  unfold lengthOk; cbn [byteLength value children];
  let E := fresh in
  intros ? E;
  first [ discriminate E
        | injection E as <-; first [assumption | eauto] ].

Ltac wf_rangeOk :=
  split;
  [ let E := fresh in
    cbn [meta]; intros ? E;
    first [discriminate E | injection E as <-; lia]
  | let E := fresh in
    cbn [type]; intros E;
    first
      [ discriminate E
      | eexists _, _, _, _, _; cbn [rawType value number bigint];
        split; [reflexivity|];
        split; [reflexivity|];
        split; [reflexivity|];
        wf_bounds; lia ] ].

Ltac wf_keysOk Hkey :=
  unfold keysOk; split;
  [ cbn [key]; first [exact Hkey | exact I]
  | cbn [type children];
    first [ exact I
          | match goal with
            | H : Forall (fun c => @?A c /\ @?B c) ?l |- _ =>
                exact (Forall_and_r A B l H)
            end ] ].

Ltac wf_done Hkeys Hkey :=
  cbv beta in *; apply node_intro;
  [ cbn [key]; first [exact Hkeys | constructor]
  | split; [reflexivity|];
    split; [wf_lengthOk|];
    split; [wf_rangeOk | wf_keysOk Hkey]
  | let E := fresh in
    cbn [children]; intros ? E;
    first [ discriminate E
          | injection E as <-;
            match goal with
            | H : Forall (fun c => @?A c /\ @?B c) ?l |- _ =>
                exact (Forall_and_l A B l H)
            end ] ].

Lemma parseTagged_wellFormed (al ml : N -> M (list ParsedNode)) given byte id buf :
  (byte < 256)%N ->
  (forall len, triple True buf (fun _ => True) (al len)
     (fun ch _ => length ch = N.to_nat len
                  /\ Forall (fun c => Forall wellFormed (nodes c)
                                      /\ key c = None) ch)) ->
  (forall len, triple True buf (fun _ => True) (ml len)
     (fun ch _ => length ch = N.to_nat len
                  /\ Forall (fun c => Forall wellFormed (nodes c)
                                      /\ (key c <> None
                                          \/ type c = EXTENSION)) ch)) ->
  Forall wellFormed (keyNodes given) -> keyOk given ->
  triple True buf (fun _ => True) (parseTagged al ml given byte id)
    (fun n _ => Forall wellFormed (nodes n)).
Proof.
  intros Hbyte Hal Hml Hkeys Hkey. unfold_body.
  repeat wf_step Hal Hml; wf_done Hkeys Hkey.
Qed.

Lemma wellKinded_key (k : ParsedNode) :
  wellKinded k = true -> key k = None -> keyOk (Some (getKey k)).
Proof.
  destruct k as [i kk v t r ch bl m]. unfold wellKinded, getKey, keyOk.
  cbn [type value key]. intros W ->.
  destruct t, v; try discriminate W; try reflexivity;
    (split; [cbn; intuition discriminate | reflexivity]).
Qed.

Lemma keyNodes_getKey (k : ParsedNode) :
  Forall wellFormed (nodes k) ->
  Forall wellFormed (keyNodes (Some (getKey k))).
Proof.
  intros H. unfold getKey. destruct (type k); cbn; trivial; constructor.
Qed.

Lemma readTag_byte buf s byte s' :
  readTag buf s = Ok byte s' ->
  (byte < 256)%N /\ offset s' = (offset s + 1)%N
  /\ nodeIdCounter s' = nodeIdCounter s
  /\ (offset s < bufferLength buf)%N
  /\ byte = Byte.to_N (nth (N.to_nat (offset s)) buf x00).
Proof.
  unfold readTag. destruct (N.leb_spec (bufferLength buf) (offset s));
    [discriminate|].
  intros [= <- <-]. cbn.
  pose proof (Byte.to_N_bounded (nth (N.to_nat (offset s)) buf x00)).
  repeat split; trivial; lia.
Qed.

Lemma parse_fuel_wellFormed (fuel : nat) :
  (forall given buf s n s',
      Forall wellFormed (keyNodes given) -> keyOk given ->
      parse_fuel fuel given buf s = Ok n s' -> Forall wellFormed (nodes n))
  /\ (forall i len ch buf s ch' s',
        arrayItems fuel i len ch buf s = Ok ch' s' -> (i <= len)%N ->
        exists vs,
          ch' = ch ++ vs /\ length vs = N.to_nat (len - i)
          /\ Forall (fun c => Forall wellFormed (nodes c) /\ key c = None) vs)
  /\ (forall i len ch buf s ch' s',
        mapEntries fuel i len ch buf s = Ok ch' s' -> (i <= len)%N ->
        exists vs,
          ch' = ch ++ vs /\ length vs = N.to_nat (len - i)
          /\ Forall (fun c => Forall wellFormed (nodes c)
                              /\ (key c <> None \/ type c = EXTENSION)) vs).
Proof.
  induction fuel as [|fuel (IHp & IHa & IHm)].
  { repeat split; intros; discriminate. }
  split; [|split].
  - intros given buf s n s' Hk1 Hk2 E. cbn [parse_fuel] in E.
    unfold parseStep in E. unfold bind in E at 1.
    destruct (readTag buf s) as [byte s1| |] eqn:R; try discriminate.
    destruct (readTag_byte _ _ _ _ R) as (Hb & _).
    unfold bind in E at 1. cbn [generateId] in E.
    refine (triple_Ok _ _ _ _ _ _ _
              (parseTagged_wellFormed _ _ given byte _ buf Hb _ _ Hk1 Hk2) I E).
    + intros len s0 _.
      destruct (arrayItems fuel 0 len [] buf s0) as [ch s0'| |] eqn:A; trivial.
      destruct (IHa _ _ _ _ _ _ _ A) as (vs & -> & L & F); [lia|].
      rewrite N.sub_0_r in L. now split.
    + intros len s0 _.
      destruct (mapEntries fuel 0 len [] buf s0) as [ch s0'| |] eqn:A; trivial.
      destruct (IHm _ _ _ _ _ _ _ A) as (vs & -> & L & F); [lia|].
      rewrite N.sub_0_r in L. now split.
  - intros i len ch buf s ch' s' E Hi. cbn [arrayItems] in E.
    destruct (N.ltb_spec i len).
    + unfold bind in E.
      destruct (parse_fuel fuel None buf s) as [v s1| |] eqn:P;
        try discriminate.
      destruct (IHa _ _ _ _ _ _ _ E) as (vs & -> & L & F); [lia|].
      exists (v :: vs). rewrite <- app_assoc. split; [reflexivity|].
      split; [cbn [length]; lia|]. constructor; [|exact F]. split.
      * apply (IHp None _ _ _ _ (Forall_nil _) I P).
      * destruct (parse_fuel_key _ _ _ _ _ _ P) as [[_ K] | [_ K]]; exact K.
    + injection E as <- <-. exists []. rewrite app_nil_r.
      split; [reflexivity|]. split; [cbn; lia | constructor].
  - intros i len ch buf s ch' s' E Hi. cbn [mapEntries] in E.
    destruct (N.ltb_spec i len).
    + unfold bind in E.
      destruct (parse_fuel fuel None buf s) as [k s1| |] eqn:Pk;
        try discriminate.
      cbv zeta in E.
      destruct (parse_fuel fuel (Some (getKey k)) buf s1) as [v s2| |] eqn:Pv;
        try discriminate.
      destruct (IHm _ _ _ _ _ _ _ E) as (vs & -> & L & F); [lia|].
      exists (v :: vs). rewrite <- app_assoc. split; [reflexivity|].
      split; [cbn [length]; lia|]. constructor; [|exact F].
      assert (Dk : Forall wellFormed (nodes k))
        by apply (IHp None _ _ _ _ (Forall_nil _) I Pk).
      assert (Kk : key k = None)
        by (destruct (parse_fuel_key _ _ _ _ _ _ Pk) as [[_ K] | [_ K]];
            exact K).
      assert (Wk : wellKinded k = true)
        by apply (proj1 (proj1 (Forall_forall _ _) Dk k (nodes_self k))).
      split.
      * apply (IHp _ _ _ _ _ (keyNodes_getKey k Dk) (wellKinded_key k Wk Kk) Pv).
      * destruct (parse_fuel_key _ _ _ _ _ _ Pv) as [[T _] | [_ K]];
          [now right | left; rewrite K; discriminate].
    + injection E as <- <-. exists []. rewrite app_nil_r.
      split; [reflexivity|]. split; [cbn; lia | constructor].
Qed.

Lemma decode_wellFormed (bytes : list byte) (root : ParsedNode) (s' : pstate) :
  decode bytes = Ok root s' ->
  Forall wellFormed (nodes root) /\ key root = None.
Proof.
  intros D. unfold decode, parse in D. split.
  - apply (proj1 (parse_fuel_wellFormed _) None _ _ _ _ (Forall_nil _) I D).
  - destruct (parse_fuel_key _ _ _ _ _ _ D) as [[_ K] | [_ K]]; exact K.
Qed.

Lemma parseMsgpack_data (input : jsstring) (format : InputFormat) (counter : N)
    (root : ParsedNode) :
  data (fst (parseMsgpack input format counter)) = Some root ->
  exists bytes detected s',
    recoverBytes input format = Normal (bytes, detected)
    /\ decode bytes = Ok root s'.
Proof.
  unfold parseMsgpack.
  destruct (recoverBytes input format) as [[bytes detected]|e];
    [|discriminate].
  destruct bytes as [|b bytes]; [discriminate|].
  destruct (decode (b :: bytes)) as [n s'|e s'|] eqn:D; try discriminate.
  intros [= <-]. now exists (b :: bytes), detected, s'.
Qed.

Lemma decoded_node (input : jsstring) (format : InputFormat) (counter : N)
    (root n : ParsedNode) :
  data (fst (parseMsgpack input format counter)) = Some root ->
  In n (nodes root) -> wellFormed n.
Proof.
  intros H Hn. destruct (parseMsgpack_data _ _ _ _ H) as (b & d & s' & _ & D).
  exact (proj1 (Forall_forall _ _) (proj1 (decode_wellFormed _ _ _ D)) n Hn).
Qed.

(** X11 ([MsgpackParser.parse], [readExt], [TypeBadge]): in a decoded tree
    the fields of every node agree with its kind. The kind is never
    UNKNOWN; the value is one the kind holds (null for nil, arrays and maps;
    a boolean; a number or bigint; a float; a string; bytes for binary and
    extension nodes); [children] is set exactly on arrays and maps,
    [byteLength] exactly on strings, binaries, arrays, maps and extensions,
    [meta] exactly on extensions; and [rawType] is a non-empty label, so the
    badge always shows it and never falls back to a generic label. *)
Theorem decoded_kinds (input : jsstring) (format : InputFormat) (counter : N)
    (root n : ParsedNode) :
  data (fst (parseMsgpack input format counter)) = Some root ->
  In n (nodes root) ->
  wellKinded n = true /\ type n <> UNKNOWN
  /\ exists r, rawType n = Some r /\ r <> []
               /\ Components.badgeLabel (type n) (rawType n) = r.
Proof.
  intros H Hn. destruct (decoded_node _ _ _ _ _ H Hn) as (W & _).
  split; [exact W|]. unfold wellKinded in W.
  destruct n as [i k v t r ch bl m]. cbn [type value rawType children
    byteLength meta] in *.
  split; [intros ->; now destruct v|].
  destruct r as [[|c r]|]; try (rewrite andb_false_r in W; discriminate W).
  exists (c :: r). repeat split. discriminate.
Qed.

Lemma decoded_kinds_witness :
  let second := mkNode (idOf 2) None (JBool true) BOOLEAN (Some (str "true"))
                  None None None in
  wellKinded second = true /\ type second <> UNKNOWN
  /\ exists r, rawType second = Some r /\ r <> []
               /\ Components.badgeLabel (type second) (rawType second) = r.
Proof.
  apply (decoded_kinds (str "92c0c3") HEX 0%N
           (mkNode (idOf 0) None JNull ARRAY (Some (str "arr(2)"))
              (Some [mkNode (idOf 1) None JNull NULL (Some (str "nil"))
                       None None None;
                     mkNode (idOf 2) None (JBool true) BOOLEAN
                       (Some (str "true")) None None None])
              (Some 2%N) None));
    [reflexivity | right; right; left; reflexivity].
Defined.

(** X12 ([MsgpackParser.parse], [readBin], [readString], [readExt]): in a
    decoded tree [byteLength] is the size of what the node holds. An array
    or a map has exactly [byteLength] children (for a map: one per entry),
    a binary or extension node exactly [byteLength] bytes, and a string was
    decoded from exactly [byteLength] bytes of the input. *)
Theorem decoded_lengths (input : jsstring) (format : InputFormat) (counter : N)
    (root n : ParsedNode) :
  data (fst (parseMsgpack input format counter)) = Some root ->
  In n (nodes root) ->
  (forall items, children n = Some items ->
     byteLength n = Some (N.of_nat (length items)))
  /\ (forall bytes, value n = JBytes bytes ->
        byteLength n = Some (N.of_nat (length bytes)))
  /\ (forall s, value n = JString s ->
        exists len payload,
          byteLength n = Some len /\ length payload = N.to_nat len
          /\ s = TextDecoder_decode payload).
Proof.
  intros H Hn. destruct (decoded_node _ _ _ _ _ H Hn) as (W & L & _).
  unfold wellKinded in W. unfold lengthOk in L.
  destruct n as [i k v t r ch bl m]. cbn [type value rawType children
    byteLength meta] in *.
  repeat apply andb_prop in W as [W ?].
  repeat split.
  - intros items ->. destruct bl as [len|]; [|now destruct t].
    specialize (L len eq_refl). f_equal.
    destruct t, v; try discriminate; cbn in L; lia.
  - intros bytes ->. destruct bl as [len|]; [|now destruct t].
    specialize (L len eq_refl). f_equal. cbn in L. lia.
  - intros s ->. destruct bl as [len|]; [|now destruct t].
    specialize (L len eq_refl). cbn in L.
    destruct L as (payload & L1 & L2). now exists len, payload.
Qed.

Lemma decoded_lengths_witness :
  byteLength (mkNode (idOf 0) None (JBytes [xde; xad]) BINARY
                (Some (str "bin8(2)")) None (Some 2%N) None)
  = Some (N.of_nat (length [xde; xad])).
Proof.
  apply (decoded_lengths (str "c402dead") HEX 0%N
           (mkNode (idOf 0) None (JBytes [xde; xad]) BINARY
              (Some (str "bin8(2)")) None (Some 2%N) None)
           (mkNode (idOf 0) None (JBytes [xde; xad]) BINARY
              (Some (str "bin8(2)")) None (Some 2%N) None));
    [reflexivity | left; reflexivity | reflexivity].
Defined.

Lemma integerFormat_cases (r : jsstring) (wide : bool) (lo hi : Z) :
  integerFormat r = Some (wide, lo, hi) ->
  (wide = false /\ -2147483648 <= lo /\ hi <= 4294967295)
  \/ (wide = true /\ -9223372036854775808 <= lo
      /\ hi <= 18446744073709551615).
Proof.
  unfold integerFormat.
  repeat match goal with
         | |- context [if ?b then _ else _] => destruct b
         end;
    intros [= <- <- <-]; first [left; repeat split; lia | right; repeat split; lia].
Qed.

(** X13 ([MsgpackParser.parse]): every integer in a decoded tree lies in
    the range of the wire format its node is labelled with (fixint -32..127,
    uint(8) 0..255, ... int(64) -2^63..2^63-1). So a value held as a number
    is between -2^31 and 2^32-1, where a JavaScript number is exact, and a
    value held as a bigint fits 64 bits. The type of an extension fits a
    signed byte. *)
Theorem decoded_ranges (input : jsstring) (format : InputFormat) (counter : N)
    (root n : ParsedNode) :
  data (fst (parseMsgpack input format counter)) = Some root ->
  In n (nodes root) ->
  rangeOk n
  /\ (type n = INTEGER -> forall z, value n = JNumber z ->
      -2147483648 <= z <= 4294967295)
  /\ (type n = INTEGER -> forall z, value n = JBigInt z ->
      -9223372036854775808 <= z <= 18446744073709551615).
Proof.
  intros H Hn. destruct (decoded_node _ _ _ _ _ H Hn) as (_ & _ & R & _).
  split; [exact R|]. destruct R as [_ R].
  split; intros T z V; destruct (R T) as (r & wide & lo & hi & z' & _ & F & V' & B);
    rewrite V in V';
    destruct (integerFormat_cases _ _ _ _ F) as [(-> & ?)|(-> & ?)];
    try discriminate V'; injection V' as ->; lia.
Qed.

Lemma decoded_ranges_witness :
  rangeOk (mkNode (idOf 0) None (JNumber (-2)) INTEGER (Some (str "int(8)"))
             None None None).
Proof.
  apply (decoded_ranges (str "d0fe") HEX 0%N
           (mkNode (idOf 0) None (JNumber (-2)) INTEGER (Some (str "int(8)"))
              None None None)
           (mkNode (idOf 0) None (JNumber (-2)) INTEGER (Some (str "int(8)"))
              None None None));
    [reflexivity | left; reflexivity].
Defined.

(** X14 ([MsgpackParser.parse], [getKey], [readExt]): keys in a decoded
    tree. The root has no key and neither has any element of an array; every
    value of a map has one unless it is an extension. A key is either a
    primitive value, never a byte array, or a whole node; such a key node is
    a binary, an array, a map or an extension and has no key itself. *)
Theorem decoded_keys (input : jsstring) (format : InputFormat) (counter : N)
    (root n : ParsedNode) :
  data (fst (parseMsgpack input format counter)) = Some root ->
  In n (nodes root) ->
  key root = None /\ keysOk n.
Proof.
  intros H Hn. destruct (decoded_node _ _ _ _ _ H Hn) as (_ & _ & _ & K).
  split; [|exact K].
  destruct (parseMsgpack_data _ _ _ _ H) as (b & d & s' & _ & D).
  exact (proj2 (decode_wellFormed _ _ _ D)).
Qed.

Lemma decoded_keys_witness :
  let keyNode := mkNode (idOf 1) None JNull ARRAY (Some (str "arr(0)"))
                   (Some []) (Some 0%N) None in
  let root := mkNode (idOf 0) None JNull MAP (Some (str "map(1)"))
                (Some [mkNode (idOf 2) (Some (KeyNode keyNode)) JNull NULL
                         (Some (str "nil")) None None None])
                (Some 1%N) None in
  key root = None /\ keysOk keyNode.
Proof.
  cbv zeta.
  apply (decoded_keys (str "8190c0") HEX 0%N);
    [reflexivity | right; left; reflexivity].
Defined.

(* ===================================================================== *)
(** ** The projection of a decoded tree                                    *)
(* ===================================================================== *)

(** Induction on a tree: a property that holds of a node whenever it holds
    of its key node and of its children holds of every node. *)
Lemma ParsedNode_deep_ind (P : ParsedNode -> Prop) :
  (forall i k v t r ch bl m,
      match k with Some (KeyNode kn) => P kn | _ => True end ->
      match ch with Some items => Forall P items | None => True end ->
      P (mkNode i k v t r ch bl m)) ->
  forall n, P n.
Proof.
  intros H. fix IH 1. intros [i k v t r ch bl m]. apply H.
  - destruct k as [[pv|kn]|]; [exact I | apply IH | exact I].
  - destruct ch as [items|]; [|exact I].
    induction items as [|c items IHi]; constructor; [apply IH | exact IHi].
Qed.

(** *** Properties of an object *)

Lemma hasOwn_In (props : list (jsstring * plain)) (k : jsstring) :
  hasOwn props k = true <-> In k (map fst props).
Proof.
  induction props as [|[k' v'] props IH]; cbn [hasOwn map fst In].
  - split; [discriminate | intros []].
  - destruct (list_eq_dec Z.eq_dec k k') as [->|N].
    + split; [now left | reflexivity].
    + rewrite IH. split; [now right | intros [E | H]; [now elim N | exact H]].
Qed.

Lemma hasOwn_not_In (props : list (jsstring * plain)) (k : jsstring) :
  hasOwn props k = false <-> ~ In k (map fst props).
Proof.
  rewrite <- hasOwn_In. destruct (hasOwn props k); split; intros H;
    try discriminate; try reflexivity; now elim H.
Qed.

Lemma arrayIndex_toString (k : jsstring) (i : Z) :
  arrayIndex k = Some i -> k = toString i.
Proof.
  unfold arrayIndex. destruct (_ && _); [|discriminate].
  destruct (list_eq_dec Z.eq_dec _ k) as [E|]; [|discriminate].
  intros [= <-]. now symmetry.
Qed.

(** The array indices are the decimal texts of the integers from 0 to
    2^32 - 2. *)
Lemma arrayIndex_spec (k : jsstring) (i : Z) :
  arrayIndex k = Some i <-> 0 <= i < 4294967295 /\ k = toString i.
Proof.
  split.
  - intros H. split; [|now apply arrayIndex_toString].
    unfold arrayIndex in H.
    destruct (Z.leb_spec 0 (decimalOf k)), (Z.ltb_spec (decimalOf k) 4294967295);
      try discriminate H.
    destruct (list_eq_dec Z.eq_dec _ k); [|discriminate].
    injection H as <-. lia.
  - intros [B ->].
    assert (V : decimalOf (toString i) = i).
    { destruct (toString_numeral i) as [(_ & _ & _ & _ & V) | (N & _)];
        [exact V | lia]. }
    unfold arrayIndex. rewrite V.
    destruct (Z.leb_spec 0 i), (Z.ltb_spec i 4294967295); try lia.
    cbn [andb]. now destruct (list_eq_dec Z.eq_dec (toString i) (toString i)).
Qed.

Lemma overwrite_keys props k v :
  map fst (overwrite props k v) = map fst props.
Proof.
  induction props as [|[k' v'] props IH]; [reflexivity|]. cbn [overwrite].
  destruct (list_eq_dec Z.eq_dec k k') as [->|N]; cbn [map fst];
    [reflexivity | now rewrite IH].
Qed.

Lemma getProp_overwrite_same props k v :
  In k (map fst props) -> getProp (overwrite props k v) k = Some v.
Proof.
  induction props as [|[k' v'] props IH]; [intros []|].
  cbn [overwrite map fst In]. intros H.
  destruct (list_eq_dec Z.eq_dec k k') as [->|N]; cbn [getProp].
  - now destruct (list_eq_dec Z.eq_dec k' k').
  - destruct (list_eq_dec Z.eq_dec k k'); [contradiction|].
    apply IH. destruct H as [E | H]; [now elim N | exact H].
Qed.

Lemma getProp_overwrite_other props k k' v :
  k' <> k -> getProp (overwrite props k v) k' = getProp props k'.
Proof.
  intros N. induction props as [|[k0 v0] props IH]; [reflexivity|].
  cbn [overwrite]. destruct (list_eq_dec Z.eq_dec k k0) as [->|N0];
    cbn [getProp].
  - destruct (list_eq_dec Z.eq_dec k' k0); [contradiction | reflexivity].
  - destruct (list_eq_dec Z.eq_dec k' k0); [reflexivity | exact IH].
Qed.

Lemma overwrite_values (Q : plain -> bool) props k v :
  forallb (fun kv => Q (snd kv)) props = true -> Q v = true ->
  forallb (fun kv => Q (snd kv)) (overwrite props k v) = true.
Proof.
  intros H Hv. induction props as [|[k' v'] props IH]; [reflexivity|].
  cbn [forallb snd] in H. apply andb_prop in H. destruct H as [H1 H2].
  cbn [overwrite]. destruct (list_eq_dec Z.eq_dec k k'); cbn [forallb snd].
  - now rewrite Hv, H2.
  - now rewrite H1, IH.
Qed.

Lemma insertIndex_keys i k v props name :
  In name (map fst (insertIndex i k v props))
  <-> name = k \/ In name (map fst props).
Proof.
  induction props as [|[k' v'] props IH]; cbn [insertIndex].
  - cbn. intuition.
  - destruct (arrayIndex k') as [j|]; [destruct (i <? j)|];
      cbn [map fst In] in *; rewrite ?IH; intuition.
Qed.

Lemma insertIndex_length i k v props :
  length (insertIndex i k v props) = S (length props).
Proof.
  induction props as [|[k' v'] props IH]; [reflexivity|]. cbn [insertIndex].
  destruct (arrayIndex k') as [j|]; [destruct (i <? j)|]; cbn [length];
    now rewrite ?IH.
Qed.

Lemma insertIndex_NoDup i k v props :
  ~ In k (map fst props) -> NoDup (map fst props) ->
  NoDup (map fst (insertIndex i k v props)).
Proof.
  induction props as [|[k' v'] props IH]; intros Hk Hn; cbn [insertIndex].
  - cbn. constructor; [intros [] | constructor].
  - cbn [map fst In] in Hk.
    assert (G : NoDup (map fst ((k, v) :: (k', v') :: props)))
      by (cbn [map fst]; constructor; [exact Hk | exact Hn]).
    destruct (arrayIndex k') as [j|]; [destruct (i <? j)|]; trivial.
    cbn [map fst] in *. inversion Hn as [|? ? Hk' Hn']; subst.
    constructor; [|apply IH; tauto].
    rewrite insertIndex_keys. intros [E | H]; [|contradiction].
    apply Hk. now left.
Qed.

Lemma getProp_insertIndex_same i k v props :
  ~ In k (map fst props) -> getProp (insertIndex i k v props) k = Some v.
Proof.
  induction props as [|[k' v'] props IH]; intros Hk; cbn [insertIndex].
  - cbn [getProp]. now destruct (list_eq_dec Z.eq_dec k k).
  - cbn [map fst In] in Hk.
    assert (G : getProp ((k, v) :: (k', v') :: props) k = Some v)
      by (cbn [getProp]; now destruct (list_eq_dec Z.eq_dec k k)).
    destruct (arrayIndex k') as [j|]; [destruct (i <? j)|]; trivial.
    cbn [getProp]. destruct (list_eq_dec Z.eq_dec k k') as [E|];
      [elim Hk; now left | apply IH; tauto].
Qed.

Lemma getProp_insertIndex_other i k k' v props :
  k' <> k -> getProp (insertIndex i k v props) k' = getProp props k'.
Proof.
  intros N. induction props as [|[k0 v0] props IH]; cbn [insertIndex].
  - cbn [getProp]. now destruct (list_eq_dec Z.eq_dec k' k).
  - assert (G : getProp ((k, v) :: (k0, v0) :: props) k'
                = getProp ((k0, v0) :: props) k').
    { cbn [getProp]. now destruct (list_eq_dec Z.eq_dec k' k). }
    destruct (arrayIndex k0) as [j|]; [destruct (i <? j)|]; trivial.
    cbn [getProp]. now rewrite IH.
Qed.

Lemma insertIndex_values (Q : plain -> bool) i k v props :
  forallb (fun kv => Q (snd kv)) props = true -> Q v = true ->
  forallb (fun kv => Q (snd kv)) (insertIndex i k v props) = true.
Proof.
  intros H Hv. induction props as [|[k' v'] props IH]; cbn [insertIndex].
  - cbn. now rewrite Hv.
  - assert (G : forallb (fun kv => Q (snd kv)) ((k, v) :: (k', v') :: props)
                = true) by (cbn [forallb snd] in *; now rewrite Hv, H).
    destruct (arrayIndex k') as [j|]; [destruct (i <? j)|]; trivial.
    cbn [forallb snd] in *. apply andb_prop in H. destruct H as [H1 H2].
    now rewrite H1, IH.
Qed.

Lemma insertIndex_sorted i k v props :
  arrayIndex k = Some i -> ~ In k (map fst props) ->
  StronglySorted indexFirst (map fst props) ->
  StronglySorted indexFirst (map fst (insertIndex i k v props)).
Proof.
  intros Hi. induction props as [|[k' v'] props IH]; intros Hk Hs;
    cbn [insertIndex].
  - cbn. constructor; constructor.
  - cbn [map fst In] in Hk, Hs. inversion Hs as [|? ? Hs' Hall]; subst.
    destruct (arrayIndex k') as [j|] eqn:Ej; [destruct (Z.ltb_spec i j)|].
    + cbn [map fst]. constructor; [exact Hs|].
      constructor; [unfold indexFirst; now rewrite Hi, Ej|].
      rewrite Forall_forall in *. intros x Hx. specialize (Hall x Hx).
      unfold indexFirst in *. rewrite Hi. rewrite Ej in Hall.
      destruct (arrayIndex x); [lia | exact I].
    + cbn [map fst]. constructor; [apply IH; tauto|].
      rewrite Forall_forall in *. intros x Hx.
      apply insertIndex_keys in Hx. destruct Hx as [-> | Hx]; [|now apply Hall].
      unfold indexFirst. rewrite Ej, Hi.
      assert (i <> j).
      { intros ->. apply Hk. left.
        rewrite (arrayIndex_toString _ _ Hi), (arrayIndex_toString _ _ Ej).
        reflexivity. }
      lia.
    + cbn [map fst]. constructor; [exact Hs|].
      constructor; [unfold indexFirst; now rewrite Hi, Ej|].
      rewrite Forall_forall in *. intros x Hx. specialize (Hall x Hx).
      unfold indexFirst in *. rewrite Hi. rewrite Ej in Hall.
      destruct (arrayIndex x); [contradiction | exact I].
Qed.

Lemma append_sorted (names : list jsstring) (k : jsstring) :
  arrayIndex k = None -> StronglySorted indexFirst names ->
  StronglySorted indexFirst (names ++ [k]).
Proof.
  intros Hk. induction 1 as [|a names Hs IH Hall]; cbn [app].
  - constructor; constructor.
  - constructor; [exact IH|]. apply Forall_app. split; [exact Hall|].
    constructor; [|constructor]. unfold indexFirst. rewrite Hk.
    now destruct (arrayIndex a).
Qed.

Lemma getProp_In props k x :
  getProp props k = Some x -> In k (map fst props).
Proof.
  induction props as [|[k0 v0] props IH]; [discriminate|].
  cbn [getProp map fst In].
  destruct (list_eq_dec Z.eq_dec k k0) as [->|]; [now left | right; now apply IH].
Qed.

(** What creating a property does. *)
Lemma createDataProperty_spec props k v :
  ~ In k (map fst props) ->
  let props' := createDataProperty props k v in
  (forall name, In name (map fst props')
                <-> name = k \/ In name (map fst props))
  /\ length props' = S (length props)
  /\ (NoDup (map fst props) -> NoDup (map fst props'))
  /\ getProp props' k = Some v
  /\ (forall k', k' <> k -> getProp props' k' = getProp props k')
  /\ (StronglySorted indexFirst (map fst props) ->
      StronglySorted indexFirst (map fst props'))
  /\ (forall Q : plain -> bool,
        forallb (fun kv => Q (snd kv)) props = true -> Q v = true ->
        forallb (fun kv => Q (snd kv)) props' = true).
Proof.
  intros Hk. cbv zeta. unfold createDataProperty.
  destruct (arrayIndex k) as [i|] eqn:Ei.
  - split; [intro; apply insertIndex_keys|].
    split; [apply insertIndex_length|].
    split; [now apply insertIndex_NoDup|].
    split; [now apply getProp_insertIndex_same|].
    split; [intros; now apply getProp_insertIndex_other|].
    split; [now apply insertIndex_sorted|].
    intros; now apply insertIndex_values.
  - assert (G : forall k', getProp (props ++ [(k, v)]) k'
                  = match getProp props k' with
                    | Some x => Some x
                    | None => if list_eq_dec Z.eq_dec k' k then Some v else None
                    end).
    { intros k'. clear Hk. induction props as [|[k0 v0] props IH];
        [reflexivity|]. cbn [app getProp].
      destruct (list_eq_dec Z.eq_dec k' k0); [reflexivity | exact IH]. }
    split.
    { intros name. rewrite map_app, in_app_iff. cbn. intuition. }
    split; [rewrite length_app; cbn; lia|].
    split.
    { intros Hn. rewrite map_app. apply NoDup_app; trivial.
      - constructor; [intros [] | constructor].
      - intros a Ha [<- | []]. now elim Hk. }
    split.
    { rewrite G. destruct (getProp props k) eqn:E.
      - exfalso. apply Hk. now apply (getProp_In props k p).
      - now destruct (list_eq_dec Z.eq_dec k k). }
    split.
    { intros k' N. rewrite G. destruct (getProp props k'); [reflexivity|].
      now destruct (list_eq_dec Z.eq_dec k' k). }
    split; [rewrite map_app; now apply append_sorted|].
    intros Q H Hv. rewrite forallb_app, H. cbn. now rewrite Hv.
Qed.

(** What an assignment does to the own properties. *)
Lemma setProp_spec (obj : bool * list (jsstring * plain)) k v :
  let obj' := setProp obj k v in
  (forall name, In name (map fst (snd obj')) ->
                name = k \/ In name (map fst (snd obj)))
  /\ (forall name, In name (map fst (snd obj)) ->
                   In name (map fst (snd obj')))
  /\ (k <> protoName -> In k (map fst (snd obj')))
  /\ (length (snd obj') <= S (length (snd obj)))%nat
  /\ (NoDup (map fst (snd obj)) -> NoDup (map fst (snd obj')))
  /\ (k <> protoName -> getProp (snd obj') k = Some v)
  /\ (forall k', k' <> k -> getProp (snd obj') k' = getProp (snd obj) k')
  /\ (StronglySorted indexFirst (map fst (snd obj)) ->
      StronglySorted indexFirst (map fst (snd obj')))
  /\ (forall Q : plain -> bool,
        forallb (fun kv => Q (snd kv)) (snd obj) = true -> Q v = true ->
        forallb (fun kv => Q (snd kv)) (snd obj') = true)
  /\ (k <> protoName -> fst obj' = fst obj)
  /\ (k = protoName -> fst obj = true -> ~ In protoName (map fst (snd obj)) ->
      snd obj' = snd obj).
Proof.
  destruct obj as [inherits props]. cbv zeta. unfold setProp. cbn [fst snd].
  destruct (hasOwn props k) eqn:Ho.
  - apply hasOwn_In in Ho. cbn [fst snd]. rewrite overwrite_keys.
    split; [tauto|]. split; [tauto|]. split; [tauto|].
    split.
    { rewrite <- (length_map fst (overwrite props k v)), overwrite_keys,
        length_map. lia. }
    split; [tauto|].
    split; [intros _; now apply getProp_overwrite_same|].
    split; [intros; now apply getProp_overwrite_other|].
    split; [tauto|].
    split; [intros; now apply overwrite_values|].
    split; [reflexivity|].
    intros -> _ N. now elim N.
  - apply hasOwn_not_In in Ho.
    destruct (createDataProperty_spec props k v Ho)
      as (C1 & C2 & C3 & C4 & C5 & C6 & C7). cbv zeta in *.
    assert (Create :
      (forall name, In name (map fst (createDataProperty props k v)) ->
                    name = k \/ In name (map fst props))
      /\ (forall name, In name (map fst props) ->
                       In name (map fst (createDataProperty props k v)))
      /\ (k <> protoName -> In k (map fst (createDataProperty props k v)))
      /\ (length (createDataProperty props k v) <= S (length props))%nat
      /\ (NoDup (map fst props) ->
          NoDup (map fst (createDataProperty props k v)))
      /\ (k <> protoName ->
          getProp (createDataProperty props k v) k = Some v)
      /\ (forall k', k' <> k ->
            getProp (createDataProperty props k v) k' = getProp props k')
      /\ (StronglySorted indexFirst (map fst props) ->
          StronglySorted indexFirst
            (map fst (createDataProperty props k v)))
      /\ (forall Q : plain -> bool,
            forallb (fun kv => Q (snd kv)) props = true -> Q v = true ->
            forallb (fun kv => Q (snd kv)) (createDataProperty props k v)
            = true)).
    { split; [intros name H; now apply C1 in H|].
      split; [intros name H; apply C1; now right|].
      split; [intros _; apply C1; now left|].
      split; [lia|]. repeat split; trivial. }
    destruct Create as (D1 & D2 & D3 & D4 & D5 & D6 & D7 & D8 & D9).
    destruct (list_eq_dec Z.eq_dec k protoName) as [E | N];
      [destruct inherits|]; cbn [andb fst snd].
    + split; [tauto|]. split; [tauto|]. split; [intros X; now elim X|].
      split; [lia|]. split; [tauto|]. split; [intros X; now elim X|].
      split; [reflexivity|]. split; [tauto|]. split; [tauto|].
      split; [intros X; now elim X | reflexivity].
    + repeat split; trivial. intros _ X. discriminate X.
    + rewrite andb_false_r. cbn [fst snd].
      repeat split; trivial. intros X. now elim N.
Qed.

Section Projection.
Variable JSON_stringify : plain -> jsstring.
Variable floatToString : jsvalue -> jsstring.

Lemma serializeNode_MAP i k v r items bl m :
  serializeNode JSON_stringify floatToString
    (mkNode i k v MAP r (Some items) bl m)
  = PObject (fst (assignAll JSON_stringify floatToString items (true, [])))
      (snd (assignAll JSON_stringify floatToString items (true, []))).
Proof. reflexivity. Qed.

Lemma serializeNode_ARRAY i k v r items bl m :
  serializeNode JSON_stringify floatToString
    (mkNode i k v ARRAY r (Some items) bl m)
  = PArray (map (serializeNode JSON_stringify floatToString) items).
Proof. reflexivity. Qed.

Lemma assignAll_cons c items obj :
  assignAll JSON_stringify floatToString (c :: items) obj
  = assignAll JSON_stringify floatToString items
      (setProp obj (propertyName JSON_stringify floatToString c)
         (serializeNode JSON_stringify floatToString c)).
Proof. reflexivity. Qed.

Lemma assignAll_app items items' obj :
  assignAll JSON_stringify floatToString (items ++ items') obj
  = assignAll JSON_stringify floatToString items'
      (assignAll JSON_stringify floatToString items obj).
Proof. unfold assignAll. now rewrite fold_left_app. Qed.

Lemma assignAll_shape items :
  forall obj,
    let obj' := assignAll JSON_stringify floatToString items obj in
    (NoDup (map fst (snd obj)) -> NoDup (map fst (snd obj')))
    /\ (StronglySorted indexFirst (map fst (snd obj)) ->
        StronglySorted indexFirst (map fst (snd obj')))
    /\ (length (snd obj') <= length (snd obj) + length items)%nat
    /\ (forall name, In name (map fst (snd obj')) ->
          In name (map fst (snd obj))
          \/ exists c, In c items
                       /\ propertyName JSON_stringify floatToString c = name)
    /\ (forall name, In name (map fst (snd obj)) ->
                     In name (map fst (snd obj')))
    /\ (forall c, In c items ->
          propertyName JSON_stringify floatToString c <> protoName ->
          In (propertyName JSON_stringify floatToString c)
            (map fst (snd obj'))).
Proof.
  induction items as [|c items IH]; intros obj; cbv zeta.
  - cbn. repeat split; trivial; try lia; try tauto; intros c [].
  - rewrite assignAll_cons.
    destruct (IH (setProp obj (propertyName JSON_stringify floatToString c)
                    (serializeNode JSON_stringify floatToString c)))
      as (I1 & I2 & I3 & I4 & I5 & I6). cbv zeta in *.
    destruct (setProp_spec obj (propertyName JSON_stringify floatToString c)
                (serializeNode JSON_stringify floatToString c))
      as (S1 & S2 & S3 & S4 & S5 & _ & _ & S8 & _). cbv zeta in *.
    split; [tauto|]. split; [tauto|]. split; [cbn [length]; lia|].
    split.
    { intros name H. apply I4 in H. destruct H as [H | (c' & Hc & E)].
      - apply S1 in H. destruct H as [-> | H]; [|now left].
        right. exists c. split; [now left | reflexivity].
      - right. exists c'. split; [now right | exact E]. }
    split; [intros name H; now apply I5, S2|].
    intros c' [<- | Hc] N; [now apply I5, S3 | now apply I6].
Qed.

Lemma assignAll_keeps items name :
  (forall c, In c items ->
     propertyName JSON_stringify floatToString c <> name) ->
  forall obj,
    getProp (snd (assignAll JSON_stringify floatToString items obj)) name
    = getProp (snd obj) name.
Proof.
  induction items as [|c items IH]; intros H obj; [reflexivity|].
  rewrite assignAll_cons, IH by (intros c' Hc'; apply H; now right).
  apply setProp_spec. intros E. apply (H c); [now left | now symmetry].
Qed.

Lemma assignAll_inherits items :
  (forall c, In c items ->
     propertyName JSON_stringify floatToString c <> protoName) ->
  forall obj,
    fst (assignAll JSON_stringify floatToString items obj) = fst obj.
Proof.
  induction items as [|c items IH]; intros H obj; [reflexivity|].
  rewrite assignAll_cons, IH by (intros c' Hc'; apply H; now right).
  apply setProp_spec. apply H. now left.
Qed.

Lemma assignAll_safe items :
  Forall (fun c => jsonSafe (serializeNode JSON_stringify floatToString c) = true)
    items ->
  forall obj, forallb (fun kv => jsonSafe (snd kv)) (snd obj) = true ->
    forallb (fun kv => jsonSafe (snd kv))
      (snd (assignAll JSON_stringify floatToString items obj)) = true.
Proof.
  induction 1 as [|c items Hc _ IH]; intros obj Ho; [exact Ho|].
  rewrite assignAll_cons. apply IH. now apply setProp_spec.
Qed.

(** The object built for the children of a map. *)
Lemma assignAll_object items :
  let project := serializeNode JSON_stringify floatToString in
  let nameOf := propertyName JSON_stringify floatToString in
  let props := snd (assignAll JSON_stringify floatToString items (true, [])) in
  NoDup (map fst props)
  /\ (length props <= length items)%nat
  /\ StronglySorted indexFirst (map fst props)
  /\ (forall name, In name (map fst props) ->
        exists c, In c items /\ nameOf c = name)
  /\ (forall c, In c items -> nameOf c <> protoName ->
        In (nameOf c) (map fst props))
  /\ (forall before c after,
        items = before ++ c :: after -> nameOf c <> protoName ->
        (forall c', In c' after -> nameOf c' <> nameOf c) ->
        getProp props (nameOf c) = Some (project c))
  /\ (forall before c after,
        items = before ++ c :: after -> nameOf c = protoName ->
        (forall c', In c' (before ++ after) -> nameOf c' <> protoName) ->
        ~ In protoName (map fst props)).
Proof.
  cbv zeta.
  destruct (assignAll_shape items (true, []))
    as (S1 & S2 & S3 & S4 & _ & S6). cbv zeta in *. cbn [fst snd map] in *.
  split; [apply S1; constructor|]. split; [exact S3|].
  split; [apply S2; constructor|].
  split; [intros name H; destruct (S4 name H) as [[] | X]; exact X|].
  split; [exact S6|]. split.
  - intros before c after -> N H.
    rewrite assignAll_app, assignAll_cons, (assignAll_keeps after _ H).
    now apply setProp_spec.
  - intros before c after -> E H.
    rewrite assignAll_app, assignAll_cons. intros P.
    set (obj1 := assignAll JSON_stringify floatToString before (true, [])) in *.
    assert (I1 : fst obj1 = true).
    { unfold obj1. rewrite assignAll_inherits; [reflexivity|].
      intros c' Hc'. apply H, in_or_app. now left. }
    assert (K1 : ~ In protoName (map fst (snd obj1))).
    { intros X. destruct (assignAll_shape before (true, []))
        as (_ & _ & _ & B4 & _). cbv zeta in B4.
      destruct (B4 _ X) as [[] | (c' & Hc' & Ec')].
      apply (H c'); [apply in_or_app; now left | exact Ec']. }
    destruct (assignAll_shape after
                (setProp obj1 (propertyName JSON_stringify floatToString c)
                   (serializeNode JSON_stringify floatToString c)))
      as (_ & _ & _ & A4 & _). cbv zeta in A4.
    destruct (A4 _ P) as [X | (c' & Hc' & Ec')].
    + rewrite (proj2 (proj2 (proj2 (proj2 (proj2 (proj2 (proj2 (proj2 (proj2
                 (proj2 (setProp_spec obj1 _ _)))))))))) E I1 K1) in X.
      exact (K1 X).
    + apply (H c'); [apply in_or_app; now right | exact Ec'].
Qed.
End Projection.

(** X15 ([serializeNode], MAP case): the object built for a map of a
    decoded tree. Every property name is the key string of a child, each
    once, the names that are array indices (the decimal texts of the
    integers from 0 to 2^32 - 2) first and in ascending order.
    The key string of a child is a property name, and the object holds under
    it the projection of the last child with that key string (an earlier one
    is overwritten), unless it is [__proto__]: an assignment to that name
    goes to the accessor of [Object.prototype], and a map whose only such
    child it is gives an object without that property. So the object can
    have fewer properties than the map has entries. *)
Theorem map_projection (JSON_stringify : plain -> jsstring)
    (floatToString : jsvalue -> jsstring)
    (input : jsstring) (format : InputFormat) (counter : N)
    (root n : ParsedNode) (items : list ParsedNode) :
  let project := serializeNode JSON_stringify floatToString in
  let nameOf := propertyName JSON_stringify floatToString in
  data (fst (parseMsgpack input format counter)) = Some root ->
  In n (nodes root) -> type n = MAP -> children n = Some items ->
  exists inherits props,
    project n = PObject inherits props
    /\ NoDup (map fst props)
    /\ (length props <= length items)%nat
    /\ StronglySorted indexFirst (map fst props)
    /\ (forall name index,
          arrayIndex name = Some index
          <-> 0 <= index < 4294967295 /\ name = toString index)
    /\ (forall name, In name (map fst props) ->
          exists c, In c items /\ nameOf c = name)
    /\ (forall c, In c items -> nameOf c <> protoName ->
          In (nameOf c) (map fst props))
    /\ (forall before c after,
          items = before ++ c :: after -> nameOf c <> protoName ->
          (forall c', In c' after -> nameOf c' <> nameOf c) ->
          getProp props (nameOf c) = Some (project c))
    /\ (forall before c after,
          items = before ++ c :: after -> nameOf c = protoName ->
          (forall c', In c' (before ++ after) -> nameOf c' <> protoName) ->
          ~ In protoName (map fst props)).
Proof.
  cbv zeta. intros _ _ T C. destruct n as [i k v t r ch bl m].
  cbn [type children] in T, C. subst t ch.
  exists (fst (assignAll JSON_stringify floatToString items (true, []))),
         (snd (assignAll JSON_stringify floatToString items (true, []))).
  split; [apply serializeNode_MAP|].
  destruct (assignAll_object JSON_stringify floatToString items)
    as (A1 & A2 & A3 & A4). cbv zeta in *.
  split; [exact A1|]. split; [exact A2|]. split; [exact A3|].
  split; [exact arrayIndex_spec | exact A4].
Qed.

Example projection_samples :
  let project bytes :=
    match decode bytes with
    | Ok root _ => Some (serializeNode (fun _ => []) (fun _ => []) root)
    | _ => None
    end in
  project [x82; x01; xc0; xa1; x31; xc3]
  = Some (PObject true [(str "1", PValue (JBool true))])
  /\ project [x83; xa1; x62; x01; x0a; x02; x09; x03]
     = Some (PObject true [(str "9", PValue (JNumber 3));
                           (str "10", PValue (JNumber 2));
                           (str "b", PValue (JNumber 1))])
  /\ project ([x81; xa9] ++ Uint8Array_from protoName ++ [x01])
     = Some (PObject true [])
  /\ project ([x82; xa9] ++ Uint8Array_from protoName ++ [xc0; xa9]
              ++ Uint8Array_from protoName ++ [x01])
     = Some (PObject false [(protoName, PValue (JNumber 1))]).
Proof. repeat split; reflexivity. Qed.

Lemma map_projection_witness :
  exists inherits props,
    serializeNode (fun _ => []) (fun _ => [])
      (mkNode (idOf 0) None JNull MAP (Some (str "map(3)"))
         (Some [mkNode (idOf 2) (Some (KeyPrimitive (JString (str "b"))))
                  (JNumber 1) INTEGER (Some (str "fixint")) None None None;
                mkNode (idOf 4) (Some (KeyPrimitive (JNumber 10)))
                  (JNumber 2) INTEGER (Some (str "fixint")) None None None;
                mkNode (idOf 6) (Some (KeyPrimitive (JNumber 9)))
                  JNull NULL (Some (str "nil")) None None None])
         (Some 3%N) None)
    = PObject inherits props
    /\ map fst props = [str "9"; str "10"; str "b"]
    /\ NoDup (map fst props)
    /\ StronglySorted indexFirst (map fst props).
Proof.
  destruct (map_projection (fun _ => []) (fun _ => [])
              (str "83 a1 62 01 0a 02 09 c0") HEX 0%N
      (mkNode (idOf 0) None JNull MAP (Some (str "map(3)"))
         (Some [mkNode (idOf 2) (Some (KeyPrimitive (JString (str "b"))))
                  (JNumber 1) INTEGER (Some (str "fixint")) None None None;
                mkNode (idOf 4) (Some (KeyPrimitive (JNumber 10)))
                  (JNumber 2) INTEGER (Some (str "fixint")) None None None;
                mkNode (idOf 6) (Some (KeyPrimitive (JNumber 9)))
                  JNull NULL (Some (str "nil")) None None None])
         (Some 3%N) None)
              _ _ eq_refl (nodes_self _) eq_refl eq_refl)
    as (inherits & props & E & HD & _ & HS & _).
  exists inherits, props. repeat split; trivial.
  cbn in E. injection E as _ <-. reflexivity.
Defined.

Lemma wellKinded_safe (JSON_stringify : plain -> jsstring)
    (floatToString : jsvalue -> jsstring) (n : ParsedNode) :
  Forall (fun c => wellKinded c = true) (nodes n) ->
  jsonSafe (serializeNode JSON_stringify floatToString n) = true.
Proof.
  induction n as [i k v t r ch bl m _ IHc] using ParsedNode_deep_ind.
  intros H. rewrite nodes_split in H. cbn [key children] in H.
  apply Forall_app in H. destruct H as [_ H].
  pose proof (Forall_inv H) as W. pose proof (Forall_inv_tail H) as Hc.
  clear H. unfold wellKinded in W. cbn [type value rawType children
    byteLength meta] in W.
  repeat apply andb_prop in W as [W ?].
  assert (Safe : forall items, ch = Some items ->
            Forall (fun c => jsonSafe (serializeNode JSON_stringify
                                         floatToString c) = true) items).
  { intros items ->. rewrite Forall_forall in IHc. apply Forall_forall.
    intros c Hin. apply IHc; trivial.
    apply Forall_forall. intros x Hx.
    apply (proj1 (Forall_forall _ _) Hc x).
    apply in_flat_map. now exists c. }
  destruct t, v; try discriminate W;
    try reflexivity;
    destruct ch as [items|]; try discriminate;
    try destruct m as [tag|]; try discriminate; try reflexivity.
  - rewrite serializeNode_ARRAY. cbn [jsonSafe].
    apply forallb_forall. intros p Hp. apply in_map_iff in Hp.
    destruct Hp as (c & <- & Hc').
    apply (proj1 (Forall_forall _ _) (Safe items eq_refl) c Hc').
  - rewrite serializeNode_MAP. cbn [jsonSafe].
    apply assignAll_safe; [now apply Safe | reflexivity].
Qed.

(** X16 ([serializeNode] on what [parseMsgpack] returns): the projection
    of a decoded tree holds nothing that [JSON.stringify] cannot write: no
    bigint, on which it throws, no raw byte array and no [undefined], at any
    depth. Wide integers have become strings, binaries and extension data
    base64 text. *)
Theorem decoded_projection_safe (JSON_stringify : plain -> jsstring)
    (floatToString : jsvalue -> jsstring)
    (input : jsstring) (format : InputFormat) (counter : N)
    (root : ParsedNode) :
  data (fst (parseMsgpack input format counter)) = Some root ->
  jsonSafe (serializeNode JSON_stringify floatToString root) = true.
Proof.
  intros H. apply wellKinded_safe.
  destruct (parseMsgpack_data _ _ _ _ H) as (b & d & s' & _ & D).
  eapply Forall_impl; [|exact (proj1 (decode_wellFormed _ _ _ D))].
  now intros n (W & _).
Qed.

Lemma decoded_projection_safe_witness :
  jsonSafe (serializeNode (fun _ => []) (fun _ => [])
              (mkNode (idOf 0) None JNull ARRAY (Some (str "arr(2)"))
                 (Some [mkNode (idOf 1) None (JBigInt 18446744073709551615)
                          INTEGER (Some (str "uint(64)")) None None None;
                        mkNode (idOf 2) None (JBytes [xff]) BINARY
                          (Some (str "bin8(1)")) None (Some 1%N) None])
                 (Some 2%N) None))
  = true.
Proof.
  apply (decoded_projection_safe (fun _ => []) (fun _ => [])
           (str "92cfffffffffffffffffc401ff") HEX 0%N).
  reflexivity.
Defined.

(* ===================================================================== *)
(** ** The unknown-tag error                                               *)
(* ===================================================================== *)

Lemma raisesFrom_bind {A B} buf (P : pstate -> Prop) (m : M A) (k : A -> M B) :
  raisesFrom buf P m -> (forall a, raisesFrom buf (fun _ => True) (k a)) ->
  raisesFrom buf P (bind m k).
Proof.
  intros Hm Hk s e s' Hs E. unfold bind in E.
  destruct (m buf s) as [a s1|e1 s1|] eqn:Em; try discriminate.
  - exact (Hk a s1 e s' I E).
  - injection E as <- <-. exact (Hm s e1 s1 Hs Em).
Qed.

Lemma raisesFrom_pure {A} buf P (f : pstate -> A) (g : pstate -> pstate) :
  raisesFrom buf P (fun _ s => Ok (f s) (g s)).
Proof. intros s e s' _ E. discriminate. Qed.

Lemma raisesFrom_readTag buf P : raisesFrom buf P readTag.
Proof.
  intros s e s' _ E. unfold readTag in E.
  destruct (_ <=? _)%N; [|discriminate]. injection E as <- _.
  left. now left.
Qed.

Lemma raisesFrom_getUint buf P width : raisesFrom buf P (getUint width).
Proof.
  intros s e s' _ E. unfold getUint in E.
  destruct (_ <? _)%N; [|discriminate]. injection E as <- _.
  left. now repeat right.
Qed.

Lemma raisesFrom_getInt buf P width : raisesFrom buf P (getInt width).
Proof.
  unfold getInt. apply raisesFrom_bind; [apply raisesFrom_getUint|].
  intros u. apply raisesFrom_pure.
Qed.

Lemma raisesFrom_readString buf P length : raisesFrom buf P (readString length).
Proof.
  intros s e s' _ E. unfold readString in E. cbv zeta in E.
  destruct (_ <? _)%N; [|discriminate]. injection E as <- _.
  left. right. now left.
Qed.

Lemma raisesFrom_readBin buf P length : raisesFrom buf P (readBin length).
Proof.
  intros s e s' _ E. unfold readBin in E. cbv zeta in E.
  destruct (_ <? _)%N; [|discriminate]. injection E as <- _.
  left. right. right. now left.
Qed.

Ltac tag_bounds :=
  repeat match goal with
         | H : (_ <=? _)%N = true |- _ => apply N.leb_le in H
         | H : (_ <=? _)%N = false |- _ => apply N.leb_gt in H
         | H : (_ =? _)%N = true |- _ => apply N.eqb_eq in H
         | H : (_ =? _)%N = false |- _ => apply N.eqb_neq in H
         | H : _ && _ = false |- _ => apply andb_false_iff in H
         | H : _ && _ = true |- _ => apply andb_prop in H; destruct H
         | H : _ \/ _ |- _ => destruct H
         end.

Ltac tag_step Hal Hml :=
  match goal with
  | |- raisesFrom _ _ (if ?b then _ else _) => destruct b eqn:?
  | |- raisesFrom _ _ (bind _ _) => apply raisesFrom_bind; [|intro]
  | |- raisesFrom _ _ (ret _) => apply raisesFrom_pure
  | |- raisesFrom _ _ (advance _) => apply raisesFrom_pure
  | |- raisesFrom _ _ generateId => apply raisesFrom_pure
  | |- raisesFrom _ _ (getUint _) => apply raisesFrom_getUint
  | |- raisesFrom _ _ (getInt _) => apply raisesFrom_getInt
  | |- raisesFrom _ _ (readString _) => apply raisesFrom_readString
  | |- raisesFrom _ _ (readBin _) => apply raisesFrom_readBin
  | |- raisesFrom _ _ (?f _) => first [apply Hal | apply Hml]
  end.

Lemma parseTagged_raisesFrom (al ml : N -> M (list ParsedNode)) given byte id buf :
  (forall P len, raisesFrom buf P (al len)) ->
  (forall P len, raisesFrom buf P (ml len)) ->
  raisesFrom buf
    (fun s => (0 < offset s <= bufferLength buf)%N
              /\ byte = Byte.to_N (nth (N.to_nat (offset s - 1)) buf x00))
    (parseTagged al ml given byte id).
Proof.
  intros Hal Hml. unfold_body.
  repeat tag_step Hal Hml.
  intros s e s' (Ho & Hb) E. injection E as <- _. right.
  pose proof (Byte.to_N_bounded (nth (N.to_nat (offset s - 1)) buf x00)).
  assert (B : byte = 193%N) by (tag_bounds; lia).
  exists (N.to_nat (offset s - 1)). unfold bufferLength in Ho.
  split; [lia|]. split.
  - rewrite B in Hb. apply (f_equal Byte.of_N) in Hb.
    rewrite Byte.of_to_N in Hb. now injection Hb as <-.
  - rewrite B. replace (Z.of_nat (N.to_nat (offset s - 1)))
      with (Z.of_N (offset s) - 1) by lia.
    reflexivity.
Qed.

Lemma parse_fuel_raisesFrom (buf : list byte) (fuel : nat) :
  (forall given P, raisesFrom buf P (parse_fuel fuel given))
  /\ (forall i len ch P, raisesFrom buf P (arrayItems fuel i len ch))
  /\ (forall i len ch P, raisesFrom buf P (mapEntries fuel i len ch)).
Proof.
  induction fuel as [|fuel (IHp & IHa & IHm)].
  { repeat split; intros; intros s e s' _ E; discriminate. }
  split; [|split].
  - intros given P s e s' _ E. cbn [parse_fuel] in E.
    unfold parseStep in E. unfold bind in E at 1.
    destruct (readTag buf s) as [byte s1|e1 s1|] eqn:R; try discriminate.
    + destruct (readTag_byte _ _ _ _ R) as (_ & Ho & _ & Hl & Hb).
      unfold bind in E at 1. cbn [generateId] in E.
      refine (parseTagged_raisesFrom _ _ given byte _ buf _ _ _ e s' _ E).
      * intros P' len. apply IHa.
      * intros P' len. apply IHm.
      * cbn [offset]. rewrite Ho.
        replace (offset s + 1 - 1)%N with (offset s) by lia.
        split; [lia | exact Hb].
    + injection E as <- <-.
      exact (raisesFrom_readTag buf (fun _ => True) s e1 s1 I R).
  - intros i len ch P. cbn [arrayItems].
    destruct (i <? len)%N; [|apply raisesFrom_pure].
    apply raisesFrom_bind; [apply IHp | intro; apply IHa].
  - intros i len ch P. cbn [mapEntries].
    destruct (i <? len)%N; [|apply raisesFrom_pure].
    apply raisesFrom_bind; [apply IHp | intro].
    cbv zeta. apply raisesFrom_bind; [apply IHp | intro; apply IHm].
Qed.

Lemma EndOfInput_not_UnknownTag (e : exn) :
  EndOfInput e -> UnknownTag e -> False.
Proof.
  intros [-> | [-> | [-> | ->]]] (byte & position & E);
    unfold outOfBounds in E; try discriminate E;
    injection E as E; discriminate E.
Qed.

(** X17 ([MsgpackParser.parse], the [default] case): the unknown-byte
    error is accurate. When a decode fails with an unknown-byte error, the
    error is "Unknown byte 0xc1 at offset p", where [p] is a position of the
    input that does hold the byte 0xc1: no other byte is ever reported as
    unknown, and the offset in the message is the one of the offending byte.
    A 0xc1 where a value starts is always reported. *)
Theorem unknown_byte_error :
  (forall bytes e s, decode bytes = Raise e s -> UnknownTag e ->
     BadTag bytes e)
  /\ (forall given buf s,
        (offset s < bufferLength buf)%N ->
        nth (N.to_nat (offset s)) buf x00 = xc1 ->
        exists s', parse given buf s
                   = Raise (Error (str "Unknown byte 0xc1 at offset "
                                   ++ toString (Z.of_N (offset s)))) s').
Proof.
  split.
  - intros bytes e s D U.
    destruct (proj1 (parse_fuel_raisesFrom bytes _) None (fun _ => True)
                _ _ _ I D) as [E | B]; [|exact B].
    now elim (EndOfInput_not_UnknownTag e E U).
  - intros given buf s Ho Hb. unfold parse.
    replace (2 * length buf + 1)%nat with (S (2 * length buf)) by lia.
    cbn [parse_fuel]. unfold parseStep, bind, readTag.
    destruct (N.leb_spec (bufferLength buf) (offset s)); [lia|].
    rewrite Hb. cbn. unfold throw. eexists. repeat f_equal. lia.
Qed.

(* ===================================================================== *)
(** ** Bytes consumed and nodes created                                    *)
(* ===================================================================== *)

Section Ahead.
Variable buf : list byte.
Variable K : Z.

Lemma ahead_readTag d :
  triple True buf (ahead K d) readTag (fun _ => ahead K (d + 1)).
Proof.
  intros s Hs. unfold readTag. destruct (_ <=? _)%N; [exact I|].
  unfold ahead in *. cbn. lia.
Qed.

Lemma ahead_generateId d :
  triple True buf (ahead K d) generateId (fun _ => ahead K (d - 1)).
Proof. intros s Hs. unfold ahead in *. cbn. lia. Qed.

Lemma ahead_getUint d width :
  triple True buf (ahead K d) (getUint width) (fun _ => ahead K d).
Proof. intros s Hs. unfold getUint. destruct (_ <? _)%N; [exact I | exact Hs]. Qed.

Lemma ahead_getInt d width :
  triple True buf (ahead K d) (getInt width) (fun _ => ahead K d).
Proof.
  unfold getInt. eapply triple_bind; [apply ahead_getUint|].
  intros u. apply triple_ret. auto.
Qed.

Lemma ahead_advance d n :
  triple True buf (ahead K d) (advance n) (fun _ => ahead K (d + Z.of_N n)).
Proof. intros s Hs. unfold ahead in *. cbn. lia. Qed.

Lemma ahead_readString d length :
  triple True buf (ahead K d) (readString length) (fun _ => ahead K d).
Proof.
  intros s Hs. unfold readString. cbv zeta. destruct (_ <? _)%N; [exact I|].
  unfold ahead in *. cbn. lia.
Qed.

Lemma ahead_readBin d length :
  triple True buf (ahead K d) (readBin length) (fun _ => ahead K d).
Proof.
  intros s Hs. unfold readBin. cbv zeta. destruct (_ <? _)%N; [exact I|].
  unfold ahead in *. cbn. lia.
Qed.

Ltac ahead_step Hal Hml :=
  match goal with
  | |- triple _ _ _ (if ?b then _ else _) _ => destruct b
  | |- triple _ _ (ahead _ ?d) (bind (getUint _) _) _ =>
      eapply triple_bind; [apply (ahead_getUint d) | intro; cbv beta]
  | |- triple _ _ (ahead _ ?d) (bind (getInt _) _) _ =>
      eapply triple_bind; [apply (ahead_getInt d) | intro; cbv beta]
  | |- triple _ _ (ahead _ ?d) (bind (advance _) _) _ =>
      eapply triple_bind; [apply (ahead_advance d) | intro; cbv beta]
  | |- triple _ _ (ahead _ ?d) (bind (readString _) _) _ =>
      eapply triple_bind; [apply (ahead_readString d) | intro; cbv beta]
  | |- triple _ _ (ahead _ ?d) (bind (readBin _) _) _ =>
      eapply triple_bind; [apply (ahead_readBin d) | intro; cbv beta]
  | |- triple _ _ (ahead _ ?d) (bind generateId _) _ =>
      eapply triple_bind; [apply (ahead_generateId d) | intro; cbv beta]
  | |- triple _ _ (ahead _ ?d) (bind _ _) _ =>
      eapply triple_bind;
      [ eapply triple_weaken;
        [ first [apply Hal | apply Hml]
        | unfold ahead; intros; lia
        | intros ? ? H; exact H ]
      | intro; cbv beta ]
  | |- triple _ _ _ (ret _) _ =>
      apply triple_ret; unfold ahead; intros; lia
  | |- triple _ _ _ (fun b s => throw _ b s) _ => apply triple_throw
  end.

Lemma parseTagged_ahead (al ml : N -> M (list ParsedNode)) given byte id :
  (forall len, triple True buf (ahead K 0) (al len) (fun _ => ahead K 0)) ->
  (forall len, triple True buf (ahead K 0) (ml len) (fun _ => ahead K 0)) ->
  triple True buf (ahead K 0) (parseTagged al ml given byte id)
    (fun _ => ahead K 0).
Proof. intros Hal Hml. unfold_body. repeat ahead_step Hal Hml. Qed.

Lemma parse_fuel_ahead (fuel : nat) :
  (forall given,
      triple True buf (ahead K 0) (parse_fuel fuel given) (fun _ => ahead K 0))
  /\ (forall i len ch,
        triple True buf (ahead K 0) (arrayItems fuel i len ch)
          (fun _ => ahead K 0))
  /\ (forall i len ch,
        triple True buf (ahead K 0) (mapEntries fuel i len ch)
          (fun _ => ahead K 0)).
Proof.
  induction fuel as [|fuel (IHp & IHa & IHm)].
  { repeat split; intros; intros s _; exact I. }
  split; [|split].
  - intros given. cbn [parse_fuel]. unfold parseStep.
    eapply triple_bind; [apply (ahead_readTag 0)|]. intros byte.
    eapply triple_bind; [apply (ahead_generateId (0 + 1))|]. intros id.
    eapply triple_weaken;
      [ apply parseTagged_ahead; intros len; [apply IHa | apply IHm]
      | unfold ahead; intros; lia
      | trivial ].
  - intros i len ch. cbn [arrayItems].
    destruct (i <? len)%N; [|apply triple_ret; auto].
    eapply triple_bind; [apply IHp | intro; apply IHa].
  - intros i len ch. cbn [mapEntries].
    destruct (i <? len)%N; [|apply triple_ret; auto].
    eapply triple_bind; [apply IHp | intro]. cbv zeta.
    eapply triple_bind; [apply IHp | intro; apply IHm].
Qed.
End Ahead.

(** X18 ([MsgpackParser.parse]): a call of [parse] terminates, and when it
    returns a node it has consumed at least one byte, has not moved the
    cursor past the end of the buffer, and has handed out at least one
    identity and at most as many identities as it consumed bytes. *)
Theorem parse_progress (given : option (KeyValue ParsedNode))
    (buf : list byte) (s : pstate) :
  (offset s <= bufferLength buf)%N ->
  parse given buf s <> OutOfFuel
  /\ (forall n s', parse given buf s = Ok n s' ->
        (offset s < offset s' <= bufferLength buf)%N
        /\ (nodeIdCounter s < nodeIdCounter s')%N
        /\ (nodeIdCounter s' - nodeIdCounter s <= offset s' - offset s)%N).
Proof.
  intros Ho. pose proof (parse_total buf given s) as T. split.
  - intros E. now rewrite E in T.
  - intros n s' E. rewrite E in T. destruct T as [T1 T2].
    specialize (T1 Ho). repeat split; try lia.
    unfold parse in E.
    pose proof (proj1 (parse_fuel_ahead buf
                  (Z.of_N (offset s) - Z.of_N (nodeIdCounter s))
                  (2 * length buf + 1)) given s) as A.
    rewrite E in A. unfold ahead in A. lia.
Qed.

Lemma parse_progress_witness :
  parse None [x92; xc0; xc3; xff] (mkState 0 0) <> OutOfFuel
  /\ (forall n s', parse None [x92; xc0; xc3; xff] (mkState 0 0) = Ok n s' ->
        (0 < offset s' <= 4)%N /\ (0 < nodeIdCounter s')%N
        /\ (nodeIdCounter s' - 0 <= offset s' - 0)%N).
Proof. apply (parse_progress None [x92; xc0; xc3; xff] (mkState 0 0)). cbn. lia. Defined.

Lemma stamps_nodes (n : ParsedNode) : stamps n = map id (nodes n).
Proof.
  induction n as [i k v t r ch bl m IHk IHc] using ParsedNode_deep_ind.
  cbn [stamps nodes]. rewrite map_app. cbn [map id]. f_equal.
  - destruct k as [[pv|kn]|]; trivial.
  - f_equal. destruct ch as [items|]; [|reflexivity].
    induction IHc as [|c items Hc _ IH]; [reflexivity|].
    cbn [flat_map]. now rewrite map_app, Hc, IH.
Qed.

Lemma sorted_length (ks : list N) :
  StronglySorted N.lt ks ->
  forall lo hi, Forall (fun k => (lo <= k < hi)%N) ks ->
    (N.of_nat (length ks) <= hi - lo)%N.
Proof.
  induction 1 as [|k ks S IH F]; intros lo hi B; [cbn; lia|].
  pose proof (Forall_inv B) as Bk. pose proof (Forall_inv_tail B) as Bs.
  assert (B' : Forall (fun x => (k + 1 <= x < hi)%N) ks).
  { rewrite Forall_forall in *. intros x Hx.
    specialize (F x Hx). specialize (Bs x Hx). cbv beta in *. lia. }
  specialize (IH (k + 1)%N hi B'). cbn [length]. cbv beta in Bk. lia.
Qed.

Lemma decode_size (bytes : list byte) (root : ParsedNode) (s' : pstate) :
  decode bytes = Ok root s' ->
  (1 <= length (nodes root) <= length bytes)%nat.
Proof.
  intros D. split.
  - pose proof (nodes_self root) as H. destruct (nodes root); [elim H|].
    cbn. lia.
  - destruct (decode_stamps _ _ _ D) as (ks & E & S & B).
    pose proof (sorted_length ks S _ _ B) as L.
    rewrite stamps_nodes in E. apply (f_equal (@length _)) in E.
    rewrite !length_map in E.
    pose proof (parse_total bytes None (mkState 0 0)) as T.
    pose proof (proj1 (parse_fuel_ahead bytes 0 (2 * length bytes + 1))
                  None (mkState 0 0)) as A.
    unfold decode, parse in D. unfold parse in T. rewrite D in T, A.
    destruct T as [T _]. cbn [offset] in T. unfold bufferLength in T.
    specialize (T ltac:(lia)).
    unfold ahead in A. cbn [offset nodeIdCounter] in A.
    specialize (A ltac:(lia)). lia.
Qed.

(** X19 ([parseMsgpack], [MsgpackParser.parse]): a decoded tree is never
    larger than its input. Counting every node, the key nodes included, the
    tree returned by [parseMsgpack] has at least one node and at most as
    many nodes as the recovered byte array has bytes, whatever lengths the
    input declares for its arrays and maps. *)
Theorem decoded_tree_size (input : jsstring) (format : InputFormat)
    (counter : N) (root : ParsedNode) (bytes : list byte) :
  data (fst (parseMsgpack input format counter)) = Some root ->
  originalBytes (fst (parseMsgpack input format counter)) = Some bytes ->
  (1 <= length (nodes root) <= length bytes)%nat
  /\ length (stamps root) = length (nodes root).
Proof.
  unfold parseMsgpack.
  destruct (recoverBytes input format) as [[b d]|e]; [|discriminate].
  destruct b as [|x b]; [discriminate|].
  destruct (decode (x :: b)) as [n s'|e s'|] eqn:D; try discriminate.
  cbn. intros [= <-] [= <-]. split; [exact (decode_size _ _ _ D)|].
  now rewrite stamps_nodes, length_map.
Qed.

Lemma decoded_tree_size_witness :
  let nil := mkNode (idOf 1) None JNull NULL (Some (str "nil")) None None None in
  (1 <= length (nodes (mkNode (idOf 0) None JNull ARRAY (Some (str "arr(1)"))
                         (Some [nil]) (Some 1%N) None))
   <= length [x91; xc0; xff])%nat.
Proof.
  cbv zeta.
  apply (decoded_tree_size (str "91c0ff") HEX 0%N); reflexivity.
Defined.

(* ===================================================================== *)
(** ** A value decodes the same wherever it lies                           *)
(* ===================================================================== *)

Lemma Shiftable_bind {A B} (m : M A) (k : A -> M B) :
  Shiftable m -> (forall a, Shiftable (k a)) -> Shiftable (bind m k).
Proof.
  intros Hm Hk pre buf s. unfold bind. specialize (Hm pre buf s).
  destruct (m buf s) as [a s1|e s1|]; cbn [moved] in Hm.
  - rewrite Hm. apply Hk.
  - destruct Hm as [e' ->]. cbn. now exists e'.
  - now rewrite Hm.
Qed.

Lemma Shiftable_ret {A} (a : A) : Shiftable (ret a).
Proof. intros pre buf s. reflexivity. Qed.

Lemma Shiftable_outOfFuel {A} : Shiftable (@outOfFuel A).
Proof. intros pre buf s. reflexivity. Qed.

Lemma Shiftable_generateId : Shiftable generateId.
Proof. intros pre buf s. reflexivity. Qed.

Lemma Shiftable_advance (n : N) : Shiftable (advance n).
Proof.
  intros pre buf s. unfold advance, moved, shiftBy.
  cbn [offset nodeIdCounter]. do 2 f_equal. lia.
Qed.

Lemma Shiftable_unknown {A} (f : pstate -> exn) :
  Shiftable (fun buf s => @throw A (f s) buf s).
Proof. intros pre buf s. cbn. now eexists. Qed.

Lemma nth_shift (pre buf : list byte) (o : N) :
  nth (N.to_nat (o + bufferLength pre)) (pre ++ buf) x00
  = nth (N.to_nat o) buf x00.
Proof.
  unfold bufferLength. rewrite app_nth2 by lia. f_equal. lia.
Qed.

Lemma bufferSlice_shift (pre buf : list byte) (o len : N) :
  bufferSlice (pre ++ buf) (o + bufferLength pre) (o + bufferLength pre + len)
  = bufferSlice buf o (o + len).
Proof.
  unfold bufferSlice, bufferLength.
  replace (N.to_nat (o + N.of_nat (length pre)))
    with (N.to_nat o + length pre)%nat by lia.
  rewrite <- skipn_skipn, skipn_app, skipn_all, Nat.sub_diag. cbn [app skipn].
  f_equal. lia.
Qed.

Lemma Shiftable_readTag : Shiftable readTag.
Proof.
  intros pre buf s. unfold readTag. cbn [shiftBy offset nodeIdCounter].
  rewrite bufferLength_app, nth_shift.
  destruct (N.leb_spec (bufferLength buf) (offset s));
    destruct (N.leb_spec (bufferLength pre + bufferLength buf)
                (offset s + bufferLength pre)); try lia.
  - cbn. now eexists.
  - unfold moved, shiftBy. cbn [offset nodeIdCounter]. do 2 f_equal. lia.
Qed.

Lemma Shiftable_getUint (width : N) : Shiftable (getUint width).
Proof.
  intros pre buf s. unfold getUint. cbn [shiftBy offset nodeIdCounter].
  rewrite bufferLength_app, bufferSlice_shift.
  destruct (N.ltb_spec (bufferLength buf) (offset s + width));
    destruct (N.ltb_spec (bufferLength pre + bufferLength buf)
                (offset s + bufferLength pre + width)); try lia.
  - cbn. now eexists.
  - reflexivity.
Qed.

Lemma Shiftable_getInt (width : N) : Shiftable (getInt width).
Proof.
  unfold getInt. apply Shiftable_bind; [apply Shiftable_getUint|].
  intros u. apply Shiftable_ret.
Qed.

Lemma Shiftable_readString (len : N) : Shiftable (readString len).
Proof.
  intros pre buf s. unfold readString. cbv zeta.
  cbn [shiftBy offset nodeIdCounter].
  rewrite bufferLength_app, bufferSlice_shift.
  destruct (N.ltb_spec (bufferLength buf) (offset s + len));
    destruct (N.ltb_spec (bufferLength pre + bufferLength buf)
                (offset s + bufferLength pre + len)); try lia.
  - cbn. now eexists.
  - unfold moved, shiftBy. cbn [offset nodeIdCounter]. do 2 f_equal. lia.
Qed.

Lemma Shiftable_readBin (len : N) : Shiftable (readBin len).
Proof.
  intros pre buf s. unfold readBin. cbv zeta.
  cbn [shiftBy offset nodeIdCounter].
  rewrite bufferLength_app, bufferSlice_shift.
  destruct (N.ltb_spec (bufferLength buf) (offset s + len));
    destruct (N.ltb_spec (bufferLength pre + bufferLength buf)
                (offset s + bufferLength pre + len)); try lia.
  - cbn. now eexists.
  - unfold moved, shiftBy. cbn [offset nodeIdCounter]. do 2 f_equal. lia.
Qed.

Ltac shift_step Hal Hml :=
  match goal with
  | |- Shiftable (if ?c then _ else _) => destruct c
  | |- Shiftable (bind _ _) => apply Shiftable_bind; [|intro]
  | |- Shiftable (ret _) => apply Shiftable_ret
  | |- Shiftable (advance _) => apply Shiftable_advance
  | |- Shiftable generateId => apply Shiftable_generateId
  | |- Shiftable readTag => apply Shiftable_readTag
  | |- Shiftable (getUint _) => apply Shiftable_getUint
  | |- Shiftable (getInt _) => apply Shiftable_getInt
  | |- Shiftable (readString _) => apply Shiftable_readString
  | |- Shiftable (readBin _) => apply Shiftable_readBin
  | |- Shiftable (fun buf s => throw _ buf s) => apply Shiftable_unknown
  | |- Shiftable (?f _) => first [apply Hal | apply Hml]
  end.

Lemma parseStep_Shiftable (al ml : N -> M (list ParsedNode)) given :
  (forall len, Shiftable (al len)) -> (forall len, Shiftable (ml len)) ->
  Shiftable (parseStep al ml given).
Proof. intros Hal Hml. unfold_body. repeat shift_step Hal Hml. Qed.

Lemma parse_fuel_Shiftable (fuel : nat) :
  (forall given, Shiftable (parse_fuel fuel given))
  /\ (forall i len ch, Shiftable (arrayItems fuel i len ch))
  /\ (forall i len ch, Shiftable (mapEntries fuel i len ch)).
Proof.
  induction fuel as [|fuel (IHp & IHa & IHm)];
    [repeat split; intros; apply Shiftable_outOfFuel|].
  repeat split.
  - intros given. cbn [parse_fuel]. apply parseStep_Shiftable; auto.
  - intros i len ch. cbn [arrayItems].
    destruct (i <? len)%N; [|apply Shiftable_ret].
    apply Shiftable_bind; [apply IHp | intro; apply IHa].
  - intros i len ch. cbn [mapEntries].
    destruct (i <? len)%N; [|apply Shiftable_ret].
    apply Shiftable_bind; [apply IHp | intro]. cbv zeta.
    apply Shiftable_bind; [apply IHp | intro; apply IHm].
Qed.

(** A result obtained with some bound on the nesting is the result. *)
Lemma parse_of_fuel (fuel : nat) given buf s n s' :
  parse_fuel fuel given buf s = Ok n s' -> parse given buf s = Ok n s'.
Proof.
  intros H. pose proof (parse_total buf given s) as T. unfold parse in *.
  destruct (Nat.le_ge_cases fuel (2 * length buf + 1)) as [L | L].
  - destruct (parse_fuel_le _ _ given L buf s) as [E | E]; congruence.
  - destruct (parse_fuel_le _ _ given L buf s) as [E | E].
    + now rewrite E in T.
    + congruence.
Qed.

(** X21 ([MsgpackParser.parse]): a value decodes the same wherever it
    lies. If [parse] returns a node from some position of a buffer, then with
    any bytes put in front of the buffer (the cursor moved by as many) and
    any bytes put after it, [parse] returns the same node, identities
    included when the counter starts at the same value, and consumes the
    same number of bytes. *)
Theorem parse_position_independent
    (given : option (KeyValue ParsedNode)) (pre buf post : list byte)
    (s s' : pstate) (n : ParsedNode) :
  parse given buf s = Ok n s' ->
  parse given (pre ++ buf ++ post) (shiftBy pre s) = Ok n (shiftBy pre s').
Proof.
  intros H. apply (parse_append given buf post) in H. unfold parse in H.
  pose proof (proj1 (parse_fuel_Shiftable (2 * length (buf ++ post) + 1))
                given pre (buf ++ post) s) as M.
  rewrite H in M. cbn [moved] in M.
  exact (parse_of_fuel _ _ _ _ _ _ M).
Qed.

Lemma parse_position_independent_witness :
  parse None ([xc0; xc0] ++ [xa1; x6b] ++ [xff]) (shiftBy [xc0; xc0] (mkState 0 7))
  = Ok (mkNode (idOf 7) None (JString (str "k")) STRING (Some (str "str(1)"))
          None (Some 1%N) None)
       (shiftBy [xc0; xc0] (mkState 2 8)).
Proof.
  apply (parse_position_independent None [xc0; xc0] [xa1; x6b] [xff]
           (mkState 0 7) (mkState 2 8)).
  reflexivity.
Defined.

(* ===================================================================== *)
(** ** The parser against the format: decoding what an encoder wrote       *)
(* ===================================================================== *)

(** *** Big-endian fields *)

Lemma be_length (width : nat) (n : Z) : length (be width n) = width.
Proof. induction width as [|w IH]; cbn [be length]; congruence. Qed.

Lemma toN_ToUint8 (z : Z) : Byte.to_N (ToUint8 z) = Z.to_N (z mod 256).
Proof.
  pose proof (byteValue_ToUint8 z) as H. unfold byteValue in H.
  rewrite <- H. now rewrite N2Z.id.
Qed.

Lemma bigEndian_cons (b : byte) (l : list byte) :
  bigEndian (b :: l)
  = (Byte.to_N b * 256 ^ N.of_nat (length l) + bigEndian l)%N.
Proof.
  unfold bigEndian at 1. cbn [fold_left].
  now rewrite (proj1 (bigEndian_acc l _)).
Qed.

Lemma bigEndian_be (width : nat) (n : Z) :
  Z.of_N (bigEndian (be width n)) = n mod 256 ^ Z.of_nat width.
Proof.
  induction width as [|w IH].
  - cbn. now rewrite Z.mod_1_r.
  - cbn [be]. rewrite bigEndian_cons, be_length, toN_ToUint8.
    rewrite N2Z.inj_add, N2Z.inj_mul, N2Z.inj_pow, IH.
    rewrite Z2N.id by (apply Z.mod_pos_bound; lia).
    change (Z.of_N 256) with 256. rewrite nat_N_Z.
    rewrite Nat2Z.inj_succ, Z.pow_succ_r by lia.
    rewrite (Z.mul_comm 256), Z.rem_mul_r by lia. lia.
Qed.

Lemma bigEndian_be_small (width : nat) (n : Z) :
  0 <= n < 256 ^ Z.of_nat width -> bigEndian (be width n) = Z.to_N n.
Proof.
  intros H. apply N2Z.inj. rewrite bigEndian_be, Z.mod_small by exact H.
  now rewrite Z2N.id.
Qed.

(** *** Running a method on what is left of the input *)

Lemma bind_from0 {A B} (m : M A) (k : A -> M B) (x rest : list byte)
    c a c1 b j c2 :
  m (x ++ rest) (mkState 0 c) = Ok a (mkState (bufferLength x) c1) ->
  Shiftable (k a) ->
  k a rest (mkState 0 c1) = Ok b (mkState j c2) ->
  bind m k (x ++ rest) (mkState 0 c) = Ok b (mkState (j + bufferLength x) c2).
Proof.
  intros Hm Hk Hr. unfold bind. rewrite Hm.
  specialize (Hk x rest (mkState 0 c1)). rewrite Hr in Hk.
  exact Hk.
Qed.

Lemma readTag_from0 (b : byte) (rest : list byte) c :
  readTag (b :: rest) (mkState 0 c) = Ok (Byte.to_N b) (mkState 1 c).
Proof.
  unfold readTag. cbn [offset nodeIdCounter].
  destruct (N.leb_spec (bufferLength (b :: rest)) 0) as [H|H];
    [unfold bufferLength in H; cbn [length] in H; lia | now intros].
Qed.

Lemma bufferSlice_from0 (x rest : list byte) :
  bufferSlice (x ++ rest) 0 (0 + bufferLength x) = x.
Proof.
  unfold bufferSlice, bufferLength. cbn [N.to_nat skipn].
  replace (N.to_nat (0 + N.of_nat (length x) - 0)) with (length x) by lia.
  rewrite firstn_app, firstn_all, Nat.sub_diag. apply app_nil_r.
Qed.

Lemma getUint_from0 (w : nat) (n : Z) (rest : list byte) c :
  getUint (N.of_nat w) (be w n ++ rest) (mkState 0 c)
  = Ok (Z.to_N (n mod 256 ^ Z.of_nat w)) (mkState 0 c).
Proof.
  unfold getUint. cbn [offset].
  destruct (N.ltb_spec (bufferLength (be w n ++ rest)) (0 + N.of_nat w))
    as [H|H].
  { rewrite bufferLength_app in H. unfold bufferLength in H.
    rewrite be_length in H. lia. }
  f_equal. pose proof (bufferSlice_from0 (be w n) rest) as S.
  unfold bufferLength in S. rewrite be_length in S. rewrite S.
  apply N2Z.inj. rewrite bigEndian_be, Z2N.id; [reflexivity|].
  apply Z.mod_pos_bound. lia.
Qed.

Lemma readBin_from0 (payload rest : list byte) c :
  readBin (bufferLength payload) (payload ++ rest) (mkState 0 c)
  = Ok payload (mkState (bufferLength payload) c).
Proof.
  unfold readBin. cbv zeta. cbn [offset nodeIdCounter].
  destruct (N.ltb_spec (bufferLength (payload ++ rest))
              (0 + bufferLength payload)) as [H|H].
  { rewrite bufferLength_app in H. lia. }
  now rewrite bufferSlice_from0.
Qed.

Lemma readString_from0 (payload rest : list byte) c :
  readString (bufferLength payload) (payload ++ rest) (mkState 0 c)
  = Ok (TextDecoder_decode payload) (mkState (bufferLength payload) c).
Proof.
  unfold readString. cbv zeta. cbn [offset nodeIdCounter].
  destruct (N.ltb_spec (bufferLength (payload ++ rest))
              (0 + bufferLength payload)) as [H|H].
  { rewrite bufferLength_app in H. lia. }
  now rewrite bufferSlice_from0.
Qed.

Lemma parseTagged_Shiftable (al ml : N -> M (list ParsedNode)) given byte id :
  (forall len, Shiftable (al len)) -> (forall len, Shiftable (ml len)) ->
  Shiftable (parseTagged al ml given byte id).
Proof. intros Hal Hml. unfold_body. repeat shift_step Hal Hml. Qed.

(** One call of [parse] on the remaining input: the tag is read, an
    identity is drawn, the rest is done on what follows the tag. *)
Lemma parse_fuel_from0 (F : nat) given (tag : byte) (rest : list byte)
    c n j c' :
  parseTagged (fun length => arrayItems F 0 length [])
    (fun length => mapEntries F 0 length []) given (Byte.to_N tag) (idOf c)
    rest (mkState 0 (c + 1))
  = Ok n (mkState j c') ->
  parse_fuel (S F) given (tag :: rest) (mkState 0 c)
  = Ok n (mkState (j + 1) c').
Proof.
  intros H. cbn [parse_fuel]. unfold parseStep.
  apply (bind_from0 readTag _ [tag] rest c (Byte.to_N tag) c).
  - apply readTag_from0.
  - apply Shiftable_bind; [apply Shiftable_generateId | intro].
    apply parseTagged_Shiftable; intros len; apply parse_fuel_Shiftable.
  - exact H.
Qed.

Lemma shifted_from0 {A} (m : M A) (x rest : list byte) c a j c' :
  Shiftable m -> m rest (mkState 0 c) = Ok a (mkState j c') ->
  m (x ++ rest) (mkState (bufferLength x) c)
  = Ok a (mkState (j + bufferLength x) c').
Proof.
  intros Hm Hr. specialize (Hm x rest (mkState 0 c)). rewrite Hr in Hm.
  exact Hm.
Qed.

Lemma sized_from0 (w : nat) (k : N -> M ParsedNode) (n : Z)
    (rest : list byte) c node j c' :
  0 <= n < 256 ^ Z.of_nat w -> (forall len, Shiftable (k len)) ->
  k (Z.to_N n) rest (mkState 0 c) = Ok node (mkState j c') ->
  sized (N.of_nat w) k (be w n ++ rest) (mkState 0 c)
  = Ok node (mkState (j + N.of_nat w) c').
Proof.
  intros Hn Hk Hr. unfold sized, bind.
  rewrite getUint_from0, Z.mod_small by exact Hn. cbn [advance offset nodeIdCounter].
  pose proof (shifted_from0 _ (be w n) rest c _ _ _ (Hk (Z.to_N n)) Hr) as S.
  unfold bufferLength in S. now rewrite be_length in S.
Qed.

Lemma scalar_getUint_from0 (w : nat) (n : Z) (rest : list byte) c
    id given type raw (wrap : N -> jsvalue) :
  0 <= n < 256 ^ Z.of_nat w ->
  scalar id given type raw (getUint (N.of_nat w)) (N.of_nat w) wrap
    (be w n ++ rest) (mkState 0 c)
  = Ok (mkNode id given (wrap (Z.to_N n)) type (Some (str raw)) None None None)
       (mkState (N.of_nat w) c).
Proof.
  intros Hn. unfold scalar, bind.
  rewrite getUint_from0, Z.mod_small by exact Hn. reflexivity.
Qed.

Lemma toSigned_mod (w : nat) (z : Z) :
  (0 < w)%nat ->
  - 2 ^ (8 * Z.of_nat w - 1) <= z < 2 ^ (8 * Z.of_nat w - 1) ->
  toSigned (N.of_nat w) (Z.to_N (z mod 256 ^ Z.of_nat w)) = z.
Proof.
  intros Hw Hz. unfold toSigned. rewrite nat_N_Z.
  assert (P : 256 ^ Z.of_nat w = 2 ^ (8 * Z.of_nat w))
    by (change 256 with (2 ^ 8); rewrite <- Z.pow_mul_r; lia).
  assert (E : 2 ^ (8 * Z.of_nat w) = 2 * 2 ^ (8 * Z.of_nat w - 1)).
  { rewrite <- Z.pow_succ_r by lia. f_equal. lia. }
  rewrite P. rewrite Z2N.id by (apply Z.mod_pos_bound; lia).
  assert (H0 : 0 < 2 ^ (8 * Z.of_nat w - 1)) by (apply Z.pow_pos_nonneg; lia).
  destruct (Z.le_gt_cases 0 z) as [Hp | Hneg].
  - rewrite Z.mod_small by lia.
    destruct (Z.ltb_spec z (2 ^ (8 * Z.of_nat w - 1))); lia.
  - replace (z mod 2 ^ (8 * Z.of_nat w)) with (z + 2 ^ (8 * Z.of_nat w)).
    + destruct (Z.ltb_spec (z + 2 ^ (8 * Z.of_nat w))
                  (2 ^ (8 * Z.of_nat w - 1))); lia.
    + symmetry. rewrite <- (Z.mod_add z 1) by lia.
      rewrite Z.mul_1_l. apply Z.mod_small. lia.
Qed.

Lemma scalar_getInt_from0 (w : nat) (z : Z) (rest : list byte) c
    id given type raw (wrap : Z -> jsvalue) :
  (0 < w)%nat ->
  - 2 ^ (8 * Z.of_nat w - 1) <= z < 2 ^ (8 * Z.of_nat w - 1) ->
  scalar id given type raw (getInt (N.of_nat w)) (N.of_nat w) wrap
    (be w z ++ rest) (mkState 0 c)
  = Ok (mkNode id given (wrap z) type (Some (str raw)) None None None)
       (mkState (N.of_nat w) c).
Proof.
  intros Hw Hz. unfold scalar, getInt, bind, ret.
  rewrite getUint_from0, (toSigned_mod w z Hw Hz). reflexivity.
Qed.

Lemma be_1 (z : Z) : be 1 z = [ToUint8 z].
Proof. cbn [be]. change (256 ^ Z.of_nat 0) with 1. now rewrite Z.div_1_r. Qed.

Lemma readExt_from0 (t : Z) (payload rest : list byte) c rawTypeLabel :
  -128 <= t <= 127 ->
  readExt (bufferLength payload) rawTypeLabel (ToUint8 t :: payload ++ rest)
    (mkState 0 c)
  = Ok (mkNode (idOf c) None (JBytes payload) EXTENSION (Some rawTypeLabel)
          None (Some (bufferLength payload)) (Some t))
       (mkState (bufferLength payload + 1) (c + 1)).
Proof.
  intros Ht. unfold readExt, getInt8.
  change (getInt 1) with (getInt (N.of_nat 1)). unfold getInt.
  change (ToUint8 t :: payload ++ rest) with ([ToUint8 t] ++ payload ++ rest).
  rewrite <- be_1. unfold bind at 1. unfold bind at 1.
  rewrite (getUint_from0 1 t). unfold ret at 1.
  rewrite (toSigned_mod 1 t) by (cbn; lia).
  unfold bind at 1. cbn [advance offset nodeIdCounter].
  unfold bind at 1.
  match goal with
  | |- context [readBin ?l ?b ?s] =>
      replace (readBin l b s)
        with (Ok payload (mkState (bufferLength payload + 1) c))
  end; [reflexivity|].
  symmetry.
  exact (shifted_from0 (readBin (bufferLength payload)) (be 1 t)
           (payload ++ rest) c payload (bufferLength payload) c
           (Shiftable_readBin _) (readBin_from0 payload rest c)).
Qed.

(** *** The tags with a length in their low bits *)

Lemma fixed_tag (base n : Z) (mask : N) (bound : nat) :
  (forall k : nat, (k < bound)%nat ->
     N.land (Z.to_N (base + Z.of_nat k)) mask = N.of_nat k) ->
  0 <= n < Z.of_nat bound -> 0 <= base -> base + Z.of_nat bound <= 256 ->
  Byte.to_N (ToUint8 (base + n)) = Z.to_N (base + n)
  /\ N.land (Byte.to_N (ToUint8 (base + n))) mask = Z.to_N n.
Proof.
  intros H Hn Hb Hm.
  assert (E : Byte.to_N (ToUint8 (base + n)) = Z.to_N (base + n))
    by (rewrite toN_ToUint8, Z.mod_small by lia; reflexivity).
  split; [exact E|]. rewrite E.
  replace n with (Z.of_nat (Z.to_nat n)) at 1 by lia.
  rewrite H by lia. lia.
Qed.

Lemma land_15 (base : Z) :
  base = 128 \/ base = 144 ->
  forall k : nat, (k < 16)%nat ->
    N.land (Z.to_N (base + Z.of_nat k)) 15 = N.of_nat k.
Proof.
  intros [-> | ->] k H; do 16 (destruct k as [|k]; [reflexivity|]); lia.
Qed.

Lemma land_31 (k : nat) :
  (k < 32)%nat -> N.land (Z.to_N (160 + Z.of_nat k)) 31 = N.of_nat k.
Proof. intros H. do 32 (destruct k as [|k]; [reflexivity|]). lia. Qed.

Section Dispatch.
Variables al ml : N -> M (list ParsedNode).
Variable given : option (KeyValue ParsedNode).
Variable id : jsstring.

Lemma tagged_fixint (z : Z) :
  -32 <= z < 128 ->
  parseTagged al ml given (Byte.to_N (ToUint8 z)) id
  = leaf id given INTEGER (str "fixint") (JNumber z) None.
Proof.
  intros Hz. unfold parseTagged. rewrite toN_ToUint8.
  destruct (Z.le_gt_cases 0 z) as [Hp | Hneg].
  - rewrite Z.mod_small by lia.
    destruct (N.leb_spec (Z.to_N z) 127); [|lia].
    now rewrite Z2N.id by lia.
  - replace (z mod 256) with (z + 256)
      by (symmetry; rewrite <- (Z.mod_add z 1), Z.mul_1_l by lia;
          apply Z.mod_small; lia).
    destruct (N.leb_spec (Z.to_N (z + 256)) 127); [lia|].
    destruct (N.leb_spec 224 (Z.to_N (z + 256))); [|lia].
    rewrite Z2N.id by lia. do 2 f_equal. lia.
Qed.

Lemma tagged_fixmap (n : Z) :
  0 <= n < 16 ->
  parseTagged al ml given (Byte.to_N (ToUint8 (128 + n))) id
  = container id given MAP (label "map" (Z.to_N n)) (Z.to_N n) ml.
Proof.
  intros Hn.
  destruct (fixed_tag 128 n 15 16 (land_15 128 ltac:(now left)))
    as [E L]; try lia.
  unfold parseTagged. rewrite L, E.
  destruct (N.leb_spec (Z.to_N (128 + n)) 127); [lia|].
  destruct (N.leb_spec 224 (Z.to_N (128 + n))); [lia|].
  destruct (N.leb_spec 128 (Z.to_N (128 + n))); [|lia].
  destruct (N.leb_spec (Z.to_N (128 + n)) 143); [|lia].
  reflexivity.
Qed.

Lemma tagged_fixarray (n : Z) :
  0 <= n < 16 ->
  parseTagged al ml given (Byte.to_N (ToUint8 (144 + n))) id
  = container id given ARRAY (label "arr" (Z.to_N n)) (Z.to_N n) al.
Proof.
  intros Hn.
  destruct (fixed_tag 144 n 15 16 (land_15 144 ltac:(now right)))
    as [E L]; try lia.
  unfold parseTagged. rewrite L, E.
  destruct (N.leb_spec (Z.to_N (144 + n)) 127); [lia|].
  destruct (N.leb_spec 224 (Z.to_N (144 + n))); [lia|].
  destruct (N.leb_spec (Z.to_N (144 + n)) 143); [lia|].
  rewrite andb_false_r.
  destruct (N.leb_spec 144 (Z.to_N (144 + n))); [|lia].
  destruct (N.leb_spec (Z.to_N (144 + n)) 159); [|lia].
  reflexivity.
Qed.

Lemma tagged_fixstr (n : Z) :
  0 <= n < 32 ->
  parseTagged al ml given (Byte.to_N (ToUint8 (160 + n))) id
  = (v <- readString (Z.to_N n) ;;
     leaf id given STRING (label "str" (Z.to_N n)) (JString v)
       (Some (Z.to_N n))).
Proof.
  intros Hn.
  destruct (fixed_tag 160 n 31 32 land_31) as [E L]; try lia.
  unfold parseTagged. rewrite L, E.
  destruct (N.leb_spec (Z.to_N (160 + n)) 127); [lia|].
  destruct (N.leb_spec 224 (Z.to_N (160 + n))); [lia|].
  destruct (N.leb_spec (Z.to_N (160 + n)) 143); [lia|].
  rewrite andb_false_r.
  destruct (N.leb_spec (Z.to_N (160 + n)) 159); [lia|].
  rewrite andb_false_r.
  destruct (N.leb_spec 160 (Z.to_N (160 + n))); [|lia].
  destruct (N.leb_spec (Z.to_N (160 + n)) 191); [|lia].
  reflexivity.
Qed.
End Dispatch.

(** *** Text *)

Lemma utf8_ascii (cps : list Z) :
  Forall (fun c => 0 <= c < 128) cps ->
  utf8_decode cps 0 0 128 191 = cps.
Proof.
  induction 1 as [|c cps Hc _ IH]; [reflexivity|].
  cbn [utf8_decode]. change (0 =? 0) with true. cbv iota.
  unfold utf8_lead.
  destruct (Z.leb_spec c 127); [|lia]. now rewrite IH.
Qed.

Lemma no_bom (c : Z) (cps : list Z) :
  0 <= c < 128 ->
  match c :: cps with 65279 :: rest => rest | _ => c :: cps end = c :: cps.
Proof.
  intros H. destruct c as [|p|p]; try reflexivity.
  do 16 (destruct p as [p|p|]; try reflexivity). lia.
Qed.

Lemma utf16_ascii (cps : list Z) :
  Forall (fun c => 0 <= c < 128) cps -> flat_map utf16_units cps = cps.
Proof.
  induction 1 as [|c cps Hc _ IH]; [reflexivity|].
  cbn [flat_map]. unfold utf16_units at 1.
  destruct (Z.ltb_spec c 65536); [|lia]. cbn [app]. now rewrite IH.
Qed.

Lemma TextDecoder_ascii (text : list byte) :
  Forall (fun b => byteValue b < 128) text ->
  TextDecoder_decode text = map byteValue text.
Proof.
  intros H.
  assert (A : Forall (fun c => 0 <= c < 128) (map byteValue text)).
  { apply Forall_forall. intros c Hc. apply in_map_iff in Hc.
    destruct Hc as (b & <- & Hb).
    pose proof (byteValue_range b).
    pose proof (proj1 (Forall_forall _ _) H b Hb). cbv beta in *. lia. }
  unfold TextDecoder_decode. rewrite (utf8_ascii _ A).
  destruct (map byteValue text) as [|c cps] eqn:E; [reflexivity|].
  rewrite (no_bom c cps (Forall_inv A)). now apply utf16_ascii.
Qed.

Lemma Uint8Array_from_bytes (bytes : list byte) :
  Uint8Array_from (map byteValue bytes) = bytes.
Proof.
  unfold Uint8Array_from. rewrite map_map.
  rewrite (map_ext _ (fun b => b) ToUint8_byteValue). apply map_id.
Qed.


(** *** Values without parts *)

Lemma decodesTo_leaf (v : mvalue) (tag : byte) (body : list byte)
    (node : option (KeyValue ParsedNode) -> N -> ParsedNode) (j : N)
    (cnt : N -> N) :
  encode v = tag :: body ->
  (forall F given rest c,
     parseTagged (fun length => arrayItems F 0 length [])
       (fun length => mapEntries F 0 length []) given (Byte.to_N tag) (idOf c)
       (body ++ rest) (mkState 0 (c + 1))
     = Ok (node given c) (mkState j (cnt c))) ->
  bufferLength body = j ->
  (forall given c, valueOf (node given c) = v
                   /\ (notExt v -> key (node given c) = given)) ->
  decodesTo v.
Proof.
  intros E H L V given rest c.
  exists (node given c), (cnt c), 1%nat. split; [|apply V].
  intros [|F] HF; [lia|]. rewrite E. cbn [app].
  rewrite (parse_fuel_from0 F given tag (body ++ rest) c _ _ _ (H F given rest c)).
  f_equal. f_equal. unfold bufferLength in *. cbn [length]. lia.
Qed.

Ltac dispatch :=
  match goal with
  | |- context [parseTagged ?al ?ml ?g (Byte.to_N ?t) ?i] =>
      let b := eval vm_compute in (Byte.to_N t) in
      change (Byte.to_N t) with b;
      let body := eval cbv beta iota delta
                    [parseTagged N.leb N.eqb N.compare Pos.compare
                     Pos.compare_cont Pos.eqb andb] in
                    (parseTagged al ml g b i) in
      change (parseTagged al ml g b i) with body
  end.

Lemma decodesTo_nil : decodesTo VNil.
Proof.
  apply (decodesTo_leaf VNil xc0 []
           (fun given c => mkNode (idOf c) given JNull NULL (Some (str "nil"))
                             None None None) 0 (fun c => (c + 1)%N));
    try reflexivity.
  intros. split; [reflexivity | now intros].
Qed.

Lemma decodesTo_bool (b : bool) : decodesTo (VBool b).
Proof.
  destruct b.
  - apply (decodesTo_leaf (VBool true) xc3 []
             (fun given c => mkNode (idOf c) given (JBool true) BOOLEAN
                               (Some (str "true")) None None None)
             0 (fun c => (c + 1)%N)); try reflexivity.
    intros. split; [reflexivity | now intros].
  - apply (decodesTo_leaf (VBool false) xc2 []
             (fun given c => mkNode (idOf c) given (JBool false) BOOLEAN
                               (Some (str "false")) None None None)
             0 (fun c => (c + 1)%N)); try reflexivity.
    intros. split; [reflexivity | now intros].
Qed.

Lemma of_to_N (z : Z) : 0 <= z -> Z.of_N (Z.to_N z) = z.
Proof. intros H. now rewrite Z2N.id. Qed.

Lemma decodesTo_int (z : Z) : encodable (VInt z) -> decodesTo (VInt z).
Proof.
  cbn [encodable]. intros Hz.
  assert (E : encode (VInt z) = encodeInt z) by reflexivity.
  unfold encodeInt in E.
  destruct (Z.leb_spec (-32) z); destruct (Z.ltb_spec z 128); cbn [andb] in E.
  { apply (decodesTo_leaf (VInt z) (ToUint8 z) []
             (fun given c => mkNode (idOf c) given (JNumber z) INTEGER
                               (Some (str "fixint")) None None None)
             0 (fun c => (c + 1)%N)); trivial.
    - intros F given rest c. rewrite tagged_fixint by lia. reflexivity.
    - intros. split; [reflexivity | now intros]. }
  all: destruct (Z.leb_spec 0 z); try lia.
  all: repeat match type of E with
              | context [?a <? ?b] => destruct (Z.ltb_spec a b)
              | context [?a <=? ?b] => destruct (Z.leb_spec a b)
              end.
  - apply (decodesTo_leaf (VInt z) xcc (be 1 z)
             (fun given c => mkNode (idOf c) given (number (Z.to_N z)) INTEGER
                               (Some (str "uint(8)")) None None None)
             1 (fun c => (c + 1)%N)); trivial.
    + intros F given rest c. dispatch.
      apply (scalar_getUint_from0 1 z). cbn. lia.
    + intros. split; [|now intros]. cbn. now rewrite of_to_N by lia.
  - apply (decodesTo_leaf (VInt z) xcd (be 2 z)
             (fun given c => mkNode (idOf c) given (number (Z.to_N z)) INTEGER
                               (Some (str "uint(16)")) None None None)
             2 (fun c => (c + 1)%N)); trivial.
    + intros F given rest c. dispatch.
      apply (scalar_getUint_from0 2 z). cbn. lia.
    + intros. split; [|now intros]. cbn. now rewrite of_to_N by lia.
  - apply (decodesTo_leaf (VInt z) xce (be 4 z)
             (fun given c => mkNode (idOf c) given (number (Z.to_N z)) INTEGER
                               (Some (str "uint(32)")) None None None)
             4 (fun c => (c + 1)%N)); trivial.
    + intros F given rest c. dispatch.
      apply (scalar_getUint_from0 4 z). cbn. lia.
    + intros. split; [|now intros]. cbn. now rewrite of_to_N by lia.
  - apply (decodesTo_leaf (VInt z) xcf (be 8 z)
             (fun given c => mkNode (idOf c) given (bigint (Z.to_N z)) INTEGER
                               (Some (str "uint(64)")) None None None)
             8 (fun c => (c + 1)%N)); trivial.
    + intros F given rest c. dispatch.
      apply (scalar_getUint_from0 8 z). cbn. lia.
    + intros. split; [|now intros]. cbn. now rewrite of_to_N by lia.
  - apply (decodesTo_leaf (VInt z) xd0 (be 1 z)
             (fun given c => mkNode (idOf c) given (JNumber z) INTEGER
                               (Some (str "int(8)")) None None None)
             1 (fun c => (c + 1)%N)); trivial.
    + intros F given rest c. dispatch.
      apply (scalar_getInt_from0 1 z); cbn; lia.
    + intros. split; [reflexivity | now intros].
  - apply (decodesTo_leaf (VInt z) xd1 (be 2 z)
             (fun given c => mkNode (idOf c) given (JNumber z) INTEGER
                               (Some (str "int(16)")) None None None)
             2 (fun c => (c + 1)%N)); trivial.
    + intros F given rest c. dispatch.
      apply (scalar_getInt_from0 2 z); cbn; lia.
    + intros. split; [reflexivity | now intros].
  - apply (decodesTo_leaf (VInt z) xd2 (be 4 z)
             (fun given c => mkNode (idOf c) given (JNumber z) INTEGER
                               (Some (str "int(32)")) None None None)
             4 (fun c => (c + 1)%N)); trivial.
    + intros F given rest c. dispatch.
      apply (scalar_getInt_from0 4 z); cbn; lia.
    + intros. split; [reflexivity | now intros].
  - apply (decodesTo_leaf (VInt z) xd3 (be 8 z)
             (fun given c => mkNode (idOf c) given (JBigInt z) INTEGER
                               (Some (str "int(64)")) None None None)
             8 (fun c => (c + 1)%N)); trivial.
    + intros F given rest c. dispatch.
      apply (scalar_getInt_from0 8 z); cbn; lia.
    + intros. split; [reflexivity | now intros].
Qed.

Lemma decodesTo_float32 (bits : N) :
  encodable (VFloat32 bits) -> decodesTo (VFloat32 bits).
Proof.
  cbn [encodable]. intros [H Q].
  apply (decodesTo_leaf (VFloat32 bits) xca (be 4 (Z.of_N bits))
           (fun given c => mkNode (idOf c) given (JFloat32 (number32 bits))
                             FLOAT (Some (str "float(32)")) None None None)
           4 (fun c => (c + 1)%N)); trivial.
  - intros F given rest c. dispatch.
    pose proof (scalar_getUint_from0 4 (Z.of_N bits) rest (c + 1)%N
                  (idOf c) given FLOAT "float(32)"
                  (fun bits => JFloat32 (number32 bits))) as S.
    rewrite N2Z.id in S. apply S. cbn. lia.
  - intros. split; [cbn; now rewrite Q | now intros].
Qed.

Lemma decodesTo_float64 (bits : N) :
  encodable (VFloat64 bits) -> decodesTo (VFloat64 bits).
Proof.
  cbn [encodable]. intros [H Q].
  apply (decodesTo_leaf (VFloat64 bits) xcb (be 8 (Z.of_N bits))
           (fun given c => mkNode (idOf c) given (JFloat64 (number64 bits))
                             FLOAT (Some (str "float(64)")) None None None)
           8 (fun c => (c + 1)%N)); trivial.
  - intros F given rest c. dispatch.
    pose proof (scalar_getUint_from0 8 (Z.of_N bits) rest (c + 1)%N
                  (idOf c) given FLOAT "float(64)"
                  (fun bits => JFloat64 (number64 bits))) as S.
    rewrite N2Z.id in S. apply S. cbn. lia.
  - intros. split; [cbn; now rewrite Q | now intros].
Qed.

Lemma toN_len {A} (l : list A) : Z.to_N (len l) = N.of_nat (length l).
Proof. unfold len. lia. Qed.

(** What follows the length of a string, of a binary, of an extension. *)
Lemma string_body (text rest : list byte) c id given name :
  (v <- readString (Z.to_N (len text)) ;;
   leaf id given STRING (label name (Z.to_N (len text))) (JString v)
     (Some (Z.to_N (len text)))) (text ++ rest) (mkState 0 c)
  = Ok (mkNode id given (JString (TextDecoder_decode text)) STRING
          (Some (label name (Z.to_N (len text)))) None
          (Some (Z.to_N (len text))) None)
       (mkState (bufferLength text) c).
Proof.
  unfold bind. rewrite toN_len.
  change (N.of_nat (length text)) with (bufferLength text).
  now rewrite readString_from0.
Qed.

Lemma binary_body (bytes rest : list byte) c id given name :
  (v <- readBin (Z.to_N (len bytes)) ;;
   leaf id given BINARY (label name (Z.to_N (len bytes))) (JBytes v)
     (Some (Z.to_N (len bytes)))) (bytes ++ rest) (mkState 0 c)
  = Ok (mkNode id given (JBytes bytes) BINARY
          (Some (label name (Z.to_N (len bytes)))) None
          (Some (Z.to_N (len bytes))) None)
       (mkState (bufferLength bytes) c).
Proof.
  unfold bind. rewrite toN_len.
  change (N.of_nat (length bytes)) with (bufferLength bytes).
  now rewrite readBin_from0.
Qed.

Lemma Shiftable_string_body id given name len :
  Shiftable (v <- readString len ;;
             leaf id given STRING (label name len) (JString v) (Some len)).
Proof.
  apply Shiftable_bind; [apply Shiftable_readString | intro].
  apply Shiftable_ret.
Qed.

Lemma Shiftable_binary_body id given name len :
  Shiftable (v <- readBin len ;;
             leaf id given BINARY (label name len) (JBytes v) (Some len)).
Proof.
  apply Shiftable_bind; [apply Shiftable_readBin | intro].
  apply Shiftable_ret.
Qed.

Lemma bufferLength_cons (b : byte) (l : list byte) :
  bufferLength (b :: l) = (bufferLength l + 1)%N.
Proof. unfold bufferLength. cbn [length]. lia. Qed.

Lemma decodesTo_str (text : list byte) :
  encodable (VStr text) -> decodesTo (VStr text).
Proof.
  cbn [encodable]. intros [Hl Ha]. pose proof (len_nonneg text) as H0.
  assert (V : forall id given name,
            valueOf (mkNode id given (JString (TextDecoder_decode text)) STRING
                       (Some (label name (Z.to_N (len text)))) None
                       (Some (Z.to_N (len text))) None)
            = VStr text).
  { intros. cbn. now rewrite (TextDecoder_ascii text Ha), Uint8Array_from_bytes. }
  assert (E : encode (VStr text) = strHeader (len text) ++ text) by reflexivity.
  unfold strHeader in E.
  repeat match type of E with
         | context [?a <? ?b] => destruct (Z.ltb_spec a b)
         end.
  - apply (decodesTo_leaf (VStr text) (ToUint8 (160 + len text)) text
             (fun given c =>
                mkNode (idOf c) given (JString (TextDecoder_decode text)) STRING
                  (Some (label "str" (Z.to_N (len text)))) None
                  (Some (Z.to_N (len text))) None)
             (bufferLength text) (fun c => (c + 1)%N)); trivial.
    + intros F given rest c. rewrite tagged_fixstr by lia.
      apply string_body.
    + intros. split; [apply V | now intros].
  - apply (decodesTo_leaf (VStr text) xd9 (be 1 (len text) ++ text)
             (fun given c =>
                mkNode (idOf c) given (JString (TextDecoder_decode text)) STRING
                  (Some (label "str8" (Z.to_N (len text)))) None
                  (Some (Z.to_N (len text))) None)
             (bufferLength text + 1) (fun c => (c + 1)%N)); trivial.
    + intros F given rest c. dispatch. rewrite <- app_assoc.
      apply (sized_from0 1); [cbn; lia | |apply string_body].
      intro. apply Shiftable_string_body.
    + rewrite bufferLength_app. unfold bufferLength. rewrite be_length. lia.
    + intros. split; [apply V | now intros].
  - apply (decodesTo_leaf (VStr text) xda (be 2 (len text) ++ text)
             (fun given c =>
                mkNode (idOf c) given (JString (TextDecoder_decode text)) STRING
                  (Some (label "str16" (Z.to_N (len text)))) None
                  (Some (Z.to_N (len text))) None)
             (bufferLength text + 2) (fun c => (c + 1)%N)); trivial.
    + intros F given rest c. dispatch. rewrite <- app_assoc.
      apply (sized_from0 2); [cbn; lia | |apply string_body].
      intro. apply Shiftable_string_body.
    + rewrite bufferLength_app. unfold bufferLength. rewrite be_length. lia.
    + intros. split; [apply V | now intros].
  - apply (decodesTo_leaf (VStr text) xdb (be 4 (len text) ++ text)
             (fun given c =>
                mkNode (idOf c) given (JString (TextDecoder_decode text)) STRING
                  (Some (label "str32" (Z.to_N (len text)))) None
                  (Some (Z.to_N (len text))) None)
             (bufferLength text + 4) (fun c => (c + 1)%N)); trivial.
    + intros F given rest c. dispatch. rewrite <- app_assoc.
      apply (sized_from0 4); [cbn; lia | |apply string_body].
      intro. apply Shiftable_string_body.
    + rewrite bufferLength_app. unfold bufferLength. rewrite be_length. lia.
    + intros. split; [apply V | now intros].
Qed.

Lemma decodesTo_bin (bytes : list byte) :
  encodable (VBin bytes) -> decodesTo (VBin bytes).
Proof.
  cbn [encodable]. intros Hl. pose proof (len_nonneg bytes) as H0.
  assert (E : encode (VBin bytes) = binHeader (len bytes) ++ bytes)
    by reflexivity.
  unfold binHeader in E.
  repeat match type of E with
         | context [?a <? ?b] => destruct (Z.ltb_spec a b)
         end.
  - apply (decodesTo_leaf (VBin bytes) xc4 (be 1 (len bytes) ++ bytes)
             (fun given c =>
                mkNode (idOf c) given (JBytes bytes) BINARY
                  (Some (label "bin8" (Z.to_N (len bytes)))) None
                  (Some (Z.to_N (len bytes))) None)
             (bufferLength bytes + 1) (fun c => (c + 1)%N)); trivial.
    + intros F given rest c. dispatch. rewrite <- app_assoc.
      apply (sized_from0 1); [cbn; lia | |apply binary_body].
      intro. apply Shiftable_binary_body.
    + rewrite bufferLength_app. unfold bufferLength. rewrite be_length. lia.
    + intros. split; [reflexivity | now intros].
  - apply (decodesTo_leaf (VBin bytes) xc5 (be 2 (len bytes) ++ bytes)
             (fun given c =>
                mkNode (idOf c) given (JBytes bytes) BINARY
                  (Some (label "bin16" (Z.to_N (len bytes)))) None
                  (Some (Z.to_N (len bytes))) None)
             (bufferLength bytes + 2) (fun c => (c + 1)%N)); trivial.
    + intros F given rest c. dispatch. rewrite <- app_assoc.
      apply (sized_from0 2); [cbn; lia | |apply binary_body].
      intro. apply Shiftable_binary_body.
    + rewrite bufferLength_app. unfold bufferLength. rewrite be_length. lia.
    + intros. split; [reflexivity | now intros].
  - apply (decodesTo_leaf (VBin bytes) xc6 (be 4 (len bytes) ++ bytes)
             (fun given c =>
                mkNode (idOf c) given (JBytes bytes) BINARY
                  (Some (label "bin32" (Z.to_N (len bytes)))) None
                  (Some (Z.to_N (len bytes))) None)
             (bufferLength bytes + 4) (fun c => (c + 1)%N)); trivial.
    + intros F given rest c. dispatch. rewrite <- app_assoc.
      apply (sized_from0 4); [cbn; lia | |apply binary_body].
      intro. apply Shiftable_binary_body.
    + rewrite bufferLength_app. unfold bufferLength. rewrite be_length. lia.
    + intros. split; [reflexivity | now intros].
Qed.

Lemma Shiftable_readExt len rawTypeLabel : Shiftable (readExt len rawTypeLabel).
Proof.
  unfold readExt, getInt8.
  repeat shift_step Shiftable_readBin Shiftable_readBin.
Qed.

Lemma extension_body (k : N) (t : Z) (payload rest : list byte) c
    rawTypeLabel :
  -128 <= t <= 127 -> k = Z.to_N (len payload) ->
  readExt k rawTypeLabel (ToUint8 t :: payload ++ rest) (mkState 0 c)
  = Ok (mkNode (idOf c) None (JBytes payload) EXTENSION (Some rawTypeLabel)
          None (Some k) (Some t))
       (mkState (bufferLength payload + 1) (c + 1)).
Proof.
  intros Ht ->. rewrite toN_len.
  change (N.of_nat (length payload)) with (bufferLength payload).
  now apply readExt_from0.
Qed.

Ltac fixext_case tag name :=
  lazymatch goal with
  | Ht : -128 <= ?t <= 127, Hn : len ?payload = ?n,
    E : encode (VExt ?t ?payload) = _ |- decodesTo (VExt ?t ?payload) =>
      apply (decodesTo_leaf (VExt t payload) tag (ToUint8 t :: payload)
               (fun _ c =>
                  mkNode (idOf (c + 1)) None (JBytes payload) EXTENSION
                    (Some name) None (Some (Z.to_N n)) (Some t))
               (bufferLength payload + 1) (fun c => (c + 1 + 1)%N));
      [ exact E
      | intros F given rest c; dispatch;
        apply extension_body; [exact Ht | rewrite Hn; reflexivity]
      | apply bufferLength_cons
      | intros; split; [reflexivity | intros []] ]
  end.

Ltac ext_case tag w name :=
  lazymatch goal with
  | Ht : -128 <= ?t <= 127, E : encode (VExt ?t ?payload) = _
    |- decodesTo (VExt ?t ?payload) =>
      apply (decodesTo_leaf (VExt t payload) tag
               (be w (len payload) ++ ToUint8 t :: payload)
               (fun _ c =>
                  mkNode (idOf (c + 1)) None (JBytes payload) EXTENSION
                    (Some name) None (Some (Z.to_N (len payload)))
                    (Some t))
               (bufferLength payload + 1 + N.of_nat w)
               (fun c => (c + 1 + 1)%N));
      [ exact E
      | intros F given rest c; dispatch; rewrite <- app_assoc;
        apply (sized_from0 w (fun len => readExt len name));
        [ cbn; lia
        | intro; apply Shiftable_readExt
        | now apply extension_body ]
      | rewrite bufferLength_app, bufferLength_cons; unfold bufferLength;
        rewrite be_length; lia
      | intros; split; [reflexivity | intros []] ]
  end.

Lemma decodesTo_ext (t : Z) (payload : list byte) :
  encodable (VExt t payload) -> decodesTo (VExt t payload).
Proof.
  cbn [encodable]. intros [Ht Hl]. pose proof (len_nonneg payload) as H0.
  assert (E : encode (VExt t payload)
              = extHeader (len payload) ++ ToUint8 t :: payload)
    by reflexivity.
  revert E. unfold extHeader.
  destruct (Z.eqb_spec (len payload) 1) as [Hn|]; [intro E; fixext_case xd4 (str "fixext1"%string)|].
  destruct (Z.eqb_spec (len payload) 2) as [Hn|]; [intro E; fixext_case xd5 (str "fixext2"%string)|].
  destruct (Z.eqb_spec (len payload) 4) as [Hn|]; [intro E; fixext_case xd6 (str "fixext4"%string)|].
  destruct (Z.eqb_spec (len payload) 8) as [Hn|]; [intro E; fixext_case xd7 (str "fixext8"%string)|].
  destruct (Z.eqb_spec (len payload) 16) as [Hn|];
    [intro E; fixext_case xd8 (str "fixext16"%string)|].
  destruct (Z.ltb_spec (len payload) 256); [intro E; ext_case xc7 1%nat (str "ext8"%string)|].
  destruct (Z.ltb_spec (len payload) 65536); [intro E; ext_case xc8 2%nat (str "ext16"%string)|].
  intro E. ext_case xc9 4%nat (str "ext32"%string).
Qed.


(** *** Containers *)

Lemma bind_to {A B} (m : M A) (k : A -> M B) (x rest : list byte)
    c a c1 b j c2 jj :
  m (x ++ rest) (mkState 0 c) = Ok a (mkState (bufferLength x) c1) ->
  Shiftable (k a) ->
  k a rest (mkState 0 c1) = Ok b (mkState j c2) ->
  jj = (j + bufferLength x)%N ->
  bind m k (x ++ rest) (mkState 0 c) = Ok b (mkState jj c2).
Proof. intros Hm Hk Hr ->. now apply (bind_from0 m k x rest c a c1). Qed.

Lemma getKey_valueOf (k : ParsedNode) :
  match getKey k with
  | KeyPrimitive p => primitiveOf p
  | KeyNode k' => valueOf k'
  end = valueOf k.
Proof. destruct k as [i g v t r ch b m]. now destruct t. Qed.

Lemma array_loop (items : list mvalue) :
  Forall decodesTo items ->
  forall rest c i ch,
  exists nodes c' F0,
    (forall F, (F0 <= F)%nat ->
       arrayItems F i (i + N.of_nat (length items)) ch
         (flat_map encode items ++ rest) (mkState 0 c)
       = Ok (ch ++ nodes)
            (mkState (bufferLength (flat_map encode items)) c'))
    /\ map valueOf nodes = items.
Proof.
  induction 1 as [|x items Hx _ IH]; intros rest c i ch.
  - exists [], c, 1%nat. split; [|reflexivity].
    intros [|F] HF; [lia|]. cbn [arrayItems length].
    rewrite N.add_0_r, N.ltb_irrefl, app_nil_r. reflexivity.
  - destruct (Hx None (flat_map encode items ++ rest) c)
      as (n & c1 & F1 & Hn & Vn & _).
    destruct (IH rest c1 (i + 1)%N (ch ++ [n])) as (nodes & c2 & F2 & Hl & Vl).
    exists (n :: nodes), c2, (S (Nat.max F1 F2)). split.
    + intros [|F] HF; [lia|]. cbn [arrayItems].
      replace (i <? i + N.of_nat (length (x :: items)))%N with true
        by (symmetry; apply N.ltb_lt; cbn [length]; lia).
      cbn [flat_map]. rewrite <- app_assoc.
      apply (bind_to _ _ (encode x) _ c n c1 _
               (bufferLength (flat_map encode items)) c2).
      * apply Hn. lia.
      * apply parse_fuel_Shiftable.
      * replace (i + N.of_nat (length (x :: items)))%N
          with (i + 1 + N.of_nat (length items))%N by (cbn [length]; lia).
        rewrite (Hl F) by lia. now rewrite <- app_assoc.
      * rewrite bufferLength_app. lia.
    + cbn [map]. now rewrite Vn, Vl.
Qed.

Lemma map_loop (entries : list (mvalue * mvalue)) :
  Forall (fun kv => decodesTo (fst kv) /\ decodesTo (snd kv)
                    /\ notExt (snd kv)) entries ->
  forall rest c i ch,
  exists nodes c' F0,
    (forall F, (F0 <= F)%nat ->
       mapEntries F i (i + N.of_nat (length entries)) ch
         (flat_map (fun kv => encode (fst kv) ++ encode (snd kv)) entries
          ++ rest) (mkState 0 c)
       = Ok (ch ++ nodes)
            (mkState
               (bufferLength
                  (flat_map (fun kv => encode (fst kv) ++ encode (snd kv))
                     entries)) c'))
    /\ map entryOf nodes = entries.
Proof.
  induction 1 as [|[k v] entries (Hk & Hv & Hx) _ IH]; intros rest c i ch.
  - exists [], c, 1%nat. split; [|reflexivity].
    intros [|F] HF; [lia|]. cbn [mapEntries length].
    rewrite N.add_0_r, N.ltb_irrefl, app_nil_r. reflexivity.
  - cbn [fst snd] in Hk, Hv, Hx.
    set (tail := flat_map (fun kv => encode (fst kv) ++ encode (snd kv))
                   entries) in *.
    destruct (Hk None (encode v ++ tail ++ rest) c)
      as (nk & c1 & F1 & Hnk & Vk & _).
    destruct (Hv (Some (getKey nk)) (tail ++ rest) c1)
      as (nv & c2 & F2 & Hnv & Vv & Kv).
    destruct (IH rest c2 (i + 1)%N (ch ++ [nv]))
      as (nodes & c3 & F3 & Hl & Vl).
    exists (nv :: nodes), c3, (S (Nat.max F1 (Nat.max F2 F3))). split.
    + intros [|F] HF; [lia|]. cbn [mapEntries].
      replace (i <? i + N.of_nat (length ((k, v) :: entries)))%N with true
        by (symmetry; apply N.ltb_lt; cbn [length]; lia).
      cbn [flat_map fst snd]. fold tail. rewrite <- !app_assoc.
      apply (bind_to _ _ (encode k) _ c nk c1 _
               (bufferLength (encode v ++ tail)) c3).
      * apply Hnk. lia.
      * cbv zeta. apply Shiftable_bind; [apply parse_fuel_Shiftable | intro].
        apply parse_fuel_Shiftable.
      * cbv zeta.
        apply (bind_to _ _ (encode v) _ c1 nv c2 _ (bufferLength tail) c3).
        -- apply Hnv. lia.
        -- apply parse_fuel_Shiftable.
        -- replace (i + N.of_nat (length ((k, v) :: entries)))%N
             with (i + 1 + N.of_nat (length entries))%N
             by (cbn [length]; lia).
           rewrite (Hl F) by lia. now rewrite <- app_assoc.
        -- rewrite bufferLength_app. lia.
      * rewrite !bufferLength_app. lia.
    + cbn [map]. rewrite Vl. f_equal. unfold entryOf. rewrite Vv, (Kv Hx).
      pose proof (getKey_valueOf nk) as G. rewrite Vk in G.
      destruct (getKey nk); cbv beta iota; now rewrite G.
Qed.

Lemma container_from0 id given T lbl (length : N)
    (loop : N -> M (list ParsedNode)) (x : list byte) c nodes j c' :
  loop length x (mkState 0 c) = Ok nodes (mkState j c') ->
  container id given T lbl length loop x (mkState 0 c)
  = Ok (mkNode id given JNull T (Some lbl) (Some nodes) (Some length) None)
       (mkState j c').
Proof. intros H. unfold container, bind. now rewrite H. Qed.

Lemma Shiftable_container id given T lbl (length : N)
    (loop : N -> M (list ParsedNode)) :
  Shiftable (loop length) -> Shiftable (container id given T lbl length loop).
Proof.
  intros H. unfold container.
  apply Shiftable_bind; [exact H | intro; apply Shiftable_ret].
Qed.

Lemma parse_fuel_to (F : nat) given (tag : byte) (rest : list byte)
    c n j c' jj :
  parseTagged (fun length => arrayItems F 0 length [])
    (fun length => mapEntries F 0 length []) given (Byte.to_N tag) (idOf c)
    rest (mkState 0 (c + 1))
  = Ok n (mkState j c') ->
  jj = (j + 1)%N ->
  parse_fuel (S F) given (tag :: rest) (mkState 0 c) = Ok n (mkState jj c').
Proof. intros H ->. now apply parse_fuel_from0. Qed.

Lemma decodesTo_array (items : list mvalue) :
  len items < 4294967296 -> Forall decodesTo items ->
  decodesTo (VArray items).
Proof.
  intros Hl Hi given rest c. pose proof (len_nonneg items) as H0.
  destruct (array_loop items Hi rest (c + 1)%N 0%N [])
    as (nodes & c' & F0 & Hn & Vn).
  cbn [app] in Hn. rewrite N.add_0_l, <- toN_len in Hn.
  assert (E : encode (VArray items)
              = arrayHeader (len items) ++ flat_map encode items)
    by reflexivity.
  unfold arrayHeader in E.
  repeat match type of E with
         | context [?a <? ?b] => destruct (Z.ltb_spec a b)
         end.
  - exists (mkNode (idOf c) given JNull ARRAY
              (Some (label "arr" (Z.to_N (len items)))) (Some nodes)
              (Some (Z.to_N (len items))) None), c', (S F0).
    split; [|split; [cbn; now rewrite Vn | reflexivity]].
    intros [|F] HF; [lia|]. rewrite E. cbn [app].
    apply (parse_fuel_to F given _ _ c _
             (bufferLength (flat_map encode items))).
    + rewrite tagged_fixarray by lia. apply container_from0.
      apply Hn. lia.
    + apply bufferLength_cons.
  - exists (mkNode (idOf c) given JNull ARRAY
              (Some (label "arr16" (Z.to_N (len items)))) (Some nodes)
              (Some (Z.to_N (len items))) None), c', (S F0).
    split; [|split; [cbn; now rewrite Vn | reflexivity]].
    intros [|F] HF; [lia|]. rewrite E. cbn [app]. rewrite <- app_assoc.
    apply (parse_fuel_to F given _ _ c _
             (bufferLength (flat_map encode items) + 2)).
    + dispatch.
      apply (sized_from0 2
               (fun len =>
                  container (idOf c) given ARRAY (label "arr16" len) len
                    (fun length => arrayItems F 0 length [])));
        [cbn; lia | |].
      * intro. apply Shiftable_container, parse_fuel_Shiftable.
      * apply container_from0. apply Hn. lia.
    + rewrite bufferLength_cons, bufferLength_app. unfold bufferLength.
      rewrite be_length. lia.
  - exists (mkNode (idOf c) given JNull ARRAY
              (Some (label "arr32" (Z.to_N (len items)))) (Some nodes)
              (Some (Z.to_N (len items))) None), c', (S F0).
    split; [|split; [cbn; now rewrite Vn | reflexivity]].
    intros [|F] HF; [lia|]. rewrite E. cbn [app]. rewrite <- app_assoc.
    apply (parse_fuel_to F given _ _ c _
             (bufferLength (flat_map encode items) + 4)).
    + dispatch.
      apply (sized_from0 4
               (fun len =>
                  container (idOf c) given ARRAY (label "arr32" len) len
                    (fun length => arrayItems F 0 length [])));
        [cbn; lia | |].
      * intro. apply Shiftable_container, parse_fuel_Shiftable.
      * apply container_from0. apply Hn. lia.
    + rewrite bufferLength_cons, bufferLength_app. unfold bufferLength.
      rewrite be_length. lia.
Qed.

Lemma decodesTo_map (entries : list (mvalue * mvalue)) :
  len entries < 4294967296 ->
  Forall (fun kv => decodesTo (fst kv) /\ decodesTo (snd kv)
                    /\ notExt (snd kv)) entries ->
  decodesTo (VMap entries).
Proof.
  intros Hl Hi given rest c. pose proof (len_nonneg entries) as H0.
  destruct (map_loop entries Hi rest (c + 1)%N 0%N [])
    as (nodes & c' & F0 & Hn & Vn).
  cbn [app] in Hn. rewrite N.add_0_l, <- toN_len in Hn.
  set (payload := flat_map (fun kv => encode (fst kv) ++ encode (snd kv))
                    entries) in *.
  assert (E : encode (VMap entries) = mapHeader (len entries) ++ payload)
    by reflexivity.
  assert (V : forall id lbl n,
            valueOf (mkNode id given JNull MAP lbl (Some nodes) n None)
            = VMap entries).
  { intros. cbn [valueOf]. f_equal. exact Vn. }
  unfold mapHeader in E.
  repeat match type of E with
         | context [?a <? ?b] => destruct (Z.ltb_spec a b)
         end.
  - exists (mkNode (idOf c) given JNull MAP
              (Some (label "map" (Z.to_N (len entries)))) (Some nodes)
              (Some (Z.to_N (len entries))) None), c', (S F0).
    split; [|split; [apply V | reflexivity]].
    intros [|F] HF; [lia|]. rewrite E. cbn [app].
    apply (parse_fuel_to F given _ _ c _ (bufferLength payload)).
    + rewrite tagged_fixmap by lia. apply container_from0.
      apply Hn. lia.
    + apply bufferLength_cons.
  - exists (mkNode (idOf c) given JNull MAP
              (Some (label "map16" (Z.to_N (len entries)))) (Some nodes)
              (Some (Z.to_N (len entries))) None), c', (S F0).
    split; [|split; [apply V | reflexivity]].
    intros [|F] HF; [lia|]. rewrite E. cbn [app]. rewrite <- app_assoc.
    apply (parse_fuel_to F given _ _ c _ (bufferLength payload + 2)).
    + dispatch.
      apply (sized_from0 2
               (fun len =>
                  container (idOf c) given MAP (label "map16" len) len
                    (fun length => mapEntries F 0 length [])));
        [cbn; lia | |].
      * intro. apply Shiftable_container, parse_fuel_Shiftable.
      * apply container_from0. apply Hn. lia.
    + rewrite bufferLength_cons, bufferLength_app. unfold bufferLength.
      rewrite be_length. lia.
  - exists (mkNode (idOf c) given JNull MAP
              (Some (label "map32" (Z.to_N (len entries)))) (Some nodes)
              (Some (Z.to_N (len entries))) None), c', (S F0).
    split; [|split; [apply V | reflexivity]].
    intros [|F] HF; [lia|]. rewrite E. cbn [app]. rewrite <- app_assoc.
    apply (parse_fuel_to F given _ _ c _ (bufferLength payload + 4)).
    + dispatch.
      apply (sized_from0 4
               (fun len =>
                  container (idOf c) given MAP (label "map32" len) len
                    (fun length => mapEntries F 0 length [])));
        [cbn; lia | |].
      * intro. apply Shiftable_container, parse_fuel_Shiftable.
      * apply container_from0. apply Hn. lia.
    + rewrite bufferLength_cons, bufferLength_app. unfold bufferLength.
      rewrite be_length. lia.
Qed.

(** Induction on a value with the hypothesis for every item of an array and
    for the key and the value of every entry of a map. *)
Lemma mvalue_deep_ind (P : mvalue -> Prop) :
  P VNil -> (forall b, P (VBool b)) -> (forall z, P (VInt z)) ->
  (forall bits, P (VFloat32 bits)) -> (forall bits, P (VFloat64 bits)) ->
  (forall text, P (VStr text)) -> (forall bytes, P (VBin bytes)) ->
  (forall t payload, P (VExt t payload)) ->
  (forall items, Forall P items -> P (VArray items)) ->
  (forall entries, Forall (fun kv => P (fst kv) /\ P (snd kv)) entries ->
                   P (VMap entries)) ->
  forall v, P v.
Proof.
  intros Hnil Hbool Hint Hf32 Hf64 Hstr Hbin Hext Harr Hmap.
  fix IH 1. intros [| b | z | bits | bits | text | bytes | t payload
                    | items | entries].
  - exact Hnil.
  - apply Hbool.
  - apply Hint.
  - apply Hf32.
  - apply Hf64.
  - apply Hstr.
  - apply Hbin.
  - apply Hext.
  - apply Harr. induction items as [|x items IHitems]; constructor.
    + apply IH.
    + exact IHitems.
  - apply Hmap.
    induction entries as [|[k v] entries IHentries]; constructor.
    + split; apply IH.
    + exact IHentries.
Qed.

Lemma encodable_decodesTo (v : mvalue) : encodable v -> decodesTo v.
Proof.
  induction v as [| b | z | bits | bits | text | bytes | t payload
                  | items IH | entries IH] using mvalue_deep_ind.
  - intros _. apply decodesTo_nil.
  - intros _. apply decodesTo_bool.
  - apply decodesTo_int.
  - apply decodesTo_float32.
  - apply decodesTo_float64.
  - apply decodesTo_str.
  - apply decodesTo_bin.
  - apply decodesTo_ext.
  - cbn [encodable]. intros [Hl Hi]. apply decodesTo_array; [exact Hl|].
    clear Hl. induction IH as [|x items Hx _ IHitems]; constructor.
    + apply Hx, Hi.
    + apply IHitems, Hi.
  - cbn [encodable]. intros [Hl Hi]. apply decodesTo_map; [exact Hl|].
    clear Hl. induction IH as [|kv entries [Hk Hv] _ IHentries]; constructor.
    + destruct Hi as (Ek & Ev & Ex & _). auto.
    + apply IHentries, Hi.
Qed.



(* ===================================================================== *)
(** ** The application state after the parse effect                        *)
(* ===================================================================== *)

Lemma trim_nil_blank (s : jsstring) : trim s = [] <-> blank s = true.
Proof.
  split; [|apply trim_blank].
  unfold trim. intros H.
  destruct (trimStart_cases s) as [[B _] | (l & c & rest & _ & _ & C & T)];
    [exact B|].
  rewrite T in H.
  destruct (trimEnd_cases (c :: rest)) as [[B _] | (body & d & r & _ & _ & _ & T')].
  - unfold blank in B. cbn [forallb] in B. now rewrite C in B.
  - rewrite T' in H. now destruct body.
Qed.

(** X20 (the parse effect of [App], the status bar of [InputPanel], the
    viewer pane): what the user sees once the effect has run on the current
    input. The state never holds both a tree and an error. Blank input
    clears the state without calling [parseMsgpack]: the pane waits and the
    status bar reads "Ready to parse". Otherwise, if [parseMsgpack] returned
    a tree, the pane shows that tree and the status bar reads "Detected: "
    with the format of this very decode; if not, the pane and the status bar
    show its error message, and the format detected earlier, which the
    effect leaves in the state, is not displayed. *)
Theorem parseEffect_view (input : jsstring) (format : InputFormat)
    (st : Components.AppState) (counter : N) :
  let st' := fst (Components.parseEffect input format st counter) in
  let r := fst (parseMsgpack input format counter) in
  let status := Components.statusText input (Components.error st')
                  (Components.detected st') in
  (Components.parsedData st' = None \/ Components.error st' = None)
  /\ (blank input = true ->
      Components.parseEffect input format st counter
      = (Components.mkApp None None None, counter)
      /\ Components.viewer st' = Components.Waiting
      /\ status = str "Ready to parse")
  /\ (blank input = false ->
      match data r with
      | Some root =>
          Components.viewer st' = Components.Decoded root
          /\ exists detected,
               detectedFormat r = Some detected
               /\ status = str "Detected: " ++ Components.formatName detected
      | None =>
          exists msg,
            error r = Some msg
            /\ Components.viewer st' = Components.ParsingFailed msg
            /\ status = str "Error: " ++ msg
            /\ Components.detected st' = Components.detected st
      end).
Proof.
  cbv zeta. unfold Components.parseEffect.
  destruct (trim input) as [|c rest] eqn:T.
  { apply trim_nil_blank in T. split; [now left|]. split.
    - intros _. repeat split. now destruct input.
    - intros B. congruence. }
  assert (NB : blank input = false).
  { destruct (blank input) eqn:B; [|reflexivity].
    apply trim_nil_blank in B. congruence. }
  assert (NE : exists c0 rest0, input = c0 :: rest0).
  { destruct input as [|c0 rest0]; [discriminate NB | now eexists _, _]. }
  destruct NE as (c0 & rest0 & ->).
  assert (G : forall X : Prop, blank (c0 :: rest0) = true -> X)
    by (intros X B; congruence).
  unfold parseMsgpack.
  destruct (recoverBytes (c0 :: rest0) format) as [[bytes detected]|e].
  - destruct bytes as [|b bytes].
    { cbn. split; [now left|]. split; [exact (G _)|]. intros _.
      eexists. repeat split. }
    destruct (decode (b :: bytes)) as [root s'|e s'|]; cbn.
    + split; [now right|]. split; [exact (G _)|]. intros _.
      split; [reflexivity|]. now exists detected.
    + pose proof (messageOr_nonempty e) as M.
      destruct (messageOr e) as [|m ms] eqn:Em; [now elim M|].
      split; [now left|]. split; [exact (G _)|]. intros _.
      eexists. repeat split.
    + split; [now left|]. split; [exact (G _)|]. intros _.
      eexists. repeat split.
  - cbn. pose proof (messageOr_nonempty e) as M.
    destruct (messageOr e) as [|m ms] eqn:Em; [now elim M|].
    split; [now left|]. split; [exact (G _)|]. intros _.
    eexists. repeat split.
Qed.
